(** * Infinite Fun Extension: the generation pipeline, embedded and verified

    A shallow embedding of the extension's background service worker
    (background.js), its prompt generator (llmHandler.js), its two image
    provider clients (apiHandler.js) and the sanitizer of its trace client
    (weaveShim.js), followed by the theorems about them.

    Conventions.
    - A JavaScript string is a [string]: a sequence of 8-bit characters.
    - A JavaScript number that the code only counts or subtracts
      (timestamps, tab ids, seeds) is a [Z].
    - An [async] function is a program of the monad [Prog]: its suspension
      points ([await]) are explicit nodes, the module-level variables of
      background.js are read and assigned through [Load] and [Store], and
      everything the function does to the outside world is either an awaited
      [Call] or an emitted [Event]. *)

From Stdlib Require Import String Ascii List ZArith Lia Bool Arith DecimalString.
Import ListNotations.
Set Warnings "-register-all".

Local Open Scope list_scope.
Local Open Scope string_scope.

(* ===================================================================== *)
(** ** JavaScript strings and values *)
(* ===================================================================== *)

Module JS.

(** [s.startsWith(p)] *)
Definition startsWith (s p : string) : bool := String.prefix p s.

(** [s.includes(sub)]: [sub] occurs somewhere in [s]. *)
Fixpoint includes (s sub : string) : bool :=
  String.prefix sub s ||
  match s with
  | EmptyString => false
  | String _ rest => includes rest sub
  end.

(** One character of [toLowerCase]: the letters A-Z move to a-z. On 8-bit
    characters no other character is mapped to an ASCII one, so the
    ASCII patterns searched by the sanitizer see exactly what the
    JavaScript method would show them. *)
Definition lowerChar (c : ascii) : ascii :=
  let n := nat_of_ascii c in
  if ((65 <=? n) && (n <=? 90))%nat then ascii_of_nat (n + 32) else c.

(** [s.toLowerCase()] *)
Fixpoint toLowerCase (s : string) : string :=
  match s with
  | EmptyString => EmptyString
  | String c rest => String (lowerChar c) (toLowerCase rest)
  end.

(** A string without upper-case letters A-Z. *)
Fixpoint noUpper (s : string) : bool :=
  match s with
  | EmptyString => true
  | String c rest =>
      negb ((65 <=? nat_of_ascii c) && (nat_of_ascii c <=? 90))%nat && noUpper rest
  end.

(** [s.substring(n)] *)
Fixpoint substringFrom (n : nat) (s : string) : string :=
  match n, s with
  | O, _ => s
  | S n', String _ rest => substringFrom n' rest
  | S _, EmptyString => EmptyString
  end.

(** White space removed by [trim]: tab, line feed, vertical tab, form feed,
    carriage return, space and no-break space. *)
Definition isWhiteSpace (c : ascii) : bool :=
  let n := nat_of_ascii c in
  (((9 <=? n) && (n <=? 13)) || (n =? 32) || (n =? 160))%nat.

Fixpoint trimStart (s : string) : string :=
  match s with
  | EmptyString => EmptyString
  | String c rest => if isWhiteSpace c then trimStart rest else s
  end.

Fixpoint trimEnd (s : string) : string :=
  match s with
  | EmptyString => EmptyString
  | String c rest =>
      match trimEnd rest with
      | EmptyString => if isWhiteSpace c then EmptyString else String c EmptyString
      | kept => String c kept
      end
  end.

(** [s.trim()] *)
Definition trim (s : string) : string := trimEnd (trimStart s).

(** [parts.join(sep)] *)
Fixpoint join (sep : string) (parts : list string) : string :=
  match parts with
  | [] => ""
  | [p] => p
  | p :: rest => p ++ sep ++ join sep rest
  end.

(** The truth value of a string in a condition: only the empty string is
    falsy. *)
Definition nonEmpty (s : string) : bool :=
  match s with
  | EmptyString => false
  | String _ _ => true
  end.

(** An optional property holding a string ([undefined] when absent). *)
Definition truthyStr (o : option string) : bool :=
  match o with
  | Some s => nonEmpty s
  | None => false
  end.

(** A JavaScript value as far as JSON-like payloads go. An object is the
    list of its own enumerable properties in the order [Object.entries]
    yields them. *)
Inductive jsval : Type :=
| JUndefined
| JNull
| JBool (b : bool)
| JNum (n : Z)
| JStr (s : string)
| JArr (elems : list jsval)
| JObj (fields : list (string * jsval)).

(** [typeof v === 'object'] (true of [null] as well). *)
Definition typeofObject (v : jsval) : bool :=
  match v with
  | JNull | JArr _ | JObj _ => true
  | _ => false
  end.

(** A step into a value: a property name or an array index. *)
Inductive step : Type :=
| Key (k : string)
| Idx (i : nat).

Fixpoint lookupField (k : string) (fields : list (string * jsval)) : option jsval :=
  match fields with
  | [] => None
  | (k', v) :: rest => if String.eqb k k' then Some v else lookupField k rest
  end.

(** The value found by following a path from the root, if the path exists. *)
Fixpoint atPath (v : jsval) (p : list step) : option jsval :=
  match p with
  | [] => Some v
  | Key k :: p' =>
      match v with
      | JObj fields =>
          match lookupField k fields with
          | Some v' => atPath v' p'
          | None => None
          end
      | _ => None
      end
  | Idx i :: p' =>
      match v with
      | JArr elems =>
          match nth_error elems i with
          | Some v' => atPath v' p'
          | None => None
          end
      | _ => None
      end
  end.

End JS.

(* ===================================================================== *)
(** ** weaveShim.js: the sanitizer of the trace client *)
(* ===================================================================== *)

Module WeaveShim.
Import JS.

(** The marker written over a sensitive value. *)
Definition REDACTED : jsval := JStr "[REDACTED]".

(** The test applied to each key by [sanitizeInputs]. *)
Definition isSensitiveKey (key : string) : bool :=
  let lowerKey := toLowerCase key in
  includes lowerKey "apikey" ||
  includes lowerKey "api_key" ||
  includes lowerKey "secret" ||
  includes lowerKey "token" ||
  includes lowerKey "password" ||
  includes lowerKey "key".

(** An assignment [sanitized[key] = value] to the object under construction
    creates the property [key], unless the name is [__proto__]: that name
    reaches the accessor inherited from [Object.prototype], whose setter
    replaces the prototype of [sanitized] (or does nothing, for a
    primitive) and adds no property of its own. *)
Definition createsProperty (key : string) : bool :=
  negb (String.eqb key "__proto__").

Definition assignProperty (key : string) (value : jsval) : list (string * jsval) :=
  if createsProperty key then [(key, value)] else [].

(** [sanitizeInputs(obj)]: primitives are returned as they are, an array is
    mapped element by element, and an object is rebuilt entry by entry. *)
Fixpoint sanitizeInputs (obj : jsval) : jsval :=
  match obj with
  | JArr elems => JArr (map sanitizeInputs elems)
  | JObj fields =>
      JObj (flat_map (fun entry =>
                        match entry with
                        | (key, value) =>
                            if isSensitiveKey key then assignProperty key REDACTED
                            else if typeofObject value
                                 then assignProperty key (sanitizeInputs value)
                                 else assignProperty key value
                        end) fields)
  | _ => obj
  end.

(** The entries of an object that [sanitizeInputs] carries over. *)
Definition carriedOver (entry : string * jsval) : bool :=
  createsProperty (fst entry).

(** What [sanitizeInputs] does to the value of an entry it carries over. *)
Definition sanitizeEntry (entry : string * jsval) : string * jsval :=
  match entry with
  | (key, value) =>
      if isSensitiveKey key then (key, REDACTED)
      else if typeofObject value then (key, sanitizeInputs value)
      else (key, value)
  end.

(** The patterns the specification lists. *)
Definition sensitivePatterns : list string :=
  ["apikey"; "api_key"; "secret"; "token"; "password"; "key"].

(** The patterns of the older [op] wrapper. *)
Definition legacyPatterns : list string :=
  ["apikey"; "api_key"; "secret"; "token"; "password"].

(** Modelled after the specification's wording: two characters are the
    same letter, letter case ignored, when they are equal or when one is
    an upper-case letter A-Z and the other its lower-case form a-z. *)
Definition sameLetter (c d : ascii) : Prop :=
  c = d \/
  exists i, (i < 26)%nat /\
    ((nat_of_ascii c = 65 + i /\ nat_of_ascii d = 97 + i)%nat \/
     (nat_of_ascii c = 97 + i /\ nat_of_ascii d = 65 + i)%nat).

(** Two strings that are equal, letter case ignored. *)
Inductive equalIgnoringCase : string -> string -> Prop :=
| equalIgnoringCase_empty : equalIgnoringCase EmptyString EmptyString
| equalIgnoringCase_char : forall c d s t,
    sameLetter c d -> equalIgnoringCase s t ->
    equalIgnoringCase (String c s) (String d t).

(** [key] contains [pat] as a substring, letter case ignored. *)
Definition containsIgnoringCase (key pat : string) : Prop :=
  exists before middle after,
    key = before ++ middle ++ after /\ equalIgnoringCase middle pat.

(** A key the specification asks to redact. *)
Definition keyMatches (key : string) : Prop :=
  exists pat, In pat sensitivePatterns /\ containsIgnoringCase key pat.

(** A key the older [op] wrapper redacts. *)
Definition legacyKeyMatches (key : string) : Prop :=
  exists pat, In pat legacyPatterns /\ containsIgnoringCase key pat.

(** No property name on the path is one to redact. *)
Definition cleanPath (p : list step) : Prop :=
  forall k, In (Key k) p -> ~ keyMatches k.

(** No property name on the path is [__proto__]. *)
Definition ownPath (p : list step) : Prop :=
  forall k, In (Key k) p -> k <> "__proto__".

(** A leaf: a value that is neither an array nor an object. *)
Definition isLeaf (v : jsval) : Prop :=
  match v with
  | JArr _ | JObj _ => False
  | _ => True
  end.

(** The claim about the sanitizer as the specification words it, of a
    function [sanitizer]: a field under a key to redact, at any depth
    reached through fields that are kept, holds the marker in the result,
    and a leaf reached through such fields, under a key that is not to be
    redacted, is in the result as it was. *)
Definition sanitizesAsSpecified (sanitizer : jsval -> jsval) : Prop :=
  forall obj,
    (forall p k v,
       cleanPath p -> atPath obj (p ++ [Key k]) = Some v -> keyMatches k ->
       atPath (sanitizer obj) (p ++ [Key k]) = Some REDACTED) /\
    (forall p v,
       cleanPath p -> atPath obj p = Some v -> isLeaf v ->
       atPath (sanitizer obj) p = Some v).

(** The inline sanitizer of the older [op] wrapper (the copy of weaveShim.js
    that predates [sanitizeInputs]): each argument that is an object is
    spread into a fresh object and only its own top-level keys are tested,
    against five patterns. An array argument is spread the same way, which
    turns it into an object keyed by its indices. *)
Module Legacy.

Definition isSensitiveKey (key : string) : bool :=
  includes (toLowerCase key) "apikey" ||
  includes (toLowerCase key) "api_key" ||
  includes (toLowerCase key) "secret" ||
  includes (toLowerCase key) "token" ||
  includes (toLowerCase key) "password".

(** The own properties of an array: its elements under their indices. *)
Fixpoint indexed (i : nat) (elems : list jsval) : list (string * jsval) :=
  match elems with
  | [] => []
  | v :: rest => (NilEmpty.string_of_uint (Nat.to_uint i), v) :: indexed (S i) rest
  end.

(** What [tracedOp] records for one argument. *)
Definition sanitizeArg (arg : jsval) : jsval :=
  match arg with
  | JObj fields =>
      JObj (map (fun entry =>
                   match entry with
                   | (key, value) =>
                       if isSensitiveKey key then (key, REDACTED) else (key, value)
                   end) fields)
  | JArr elems =>
      JObj (map (fun entry =>
                   match entry with
                   | (key, value) =>
                       if isSensitiveKey key then (key, REDACTED) else (key, value)
                   end) (indexed 0 elems))
  | _ => arg
  end.

End Legacy.

End WeaveShim.

(* ===================================================================== *)
(** ** Asynchronous programs *)
(* ===================================================================== *)

Module Async.
Import JS.

(** *** What the programs talk about *)

(** A thrown value: an [Error] (or one of its subclasses) with its name and
    message. *)
Inductive Exn : Type :=
| JsError (name message : string).

(** [new Error(message)] *)
Definition Error (message : string) : Exn := JsError "Error" message.

(** A property read on [undefined]. *)
Definition TypeError (message : string) : Exn := JsError "TypeError" message.

(** [response.json()] on a body that is not JSON. *)
Definition SyntaxError (message : string) : Exn := JsError "SyntaxError" message.

(** [error.toString()] *)
Definition exnToString (e : Exn) : string :=
  match e with
  | JsError name message => name ++ ": " ++ message
  end.

Definition exnMessage (e : Exn) : string :=
  match e with
  | JsError _ message => message
  end.

(** How a promise settles. *)
Inductive Settled (T : Type) : Type :=
| Fulfilled (value : T)
| Rejected (reason : Exn).
Arguments Fulfilled {T} value.
Arguments Rejected {T} reason.

(** The items of [chrome.storage.sync] the extension reads. *)
Record Settings : Type := {
  openaiApiKey : string;
  falApiKey : string;
  replicateApiKey : string;
  imageModel : string;
  llmModel : string;
  wandbApiKey : string;
  wandbTeam : string;
  weaveProject : string
}.

(** One element reported by the content script. *)
Record Element : Type := {
  id : string;
  text : string
}.

(** The argument of [fetch]. *)
Record Request : Type := {
  url : string;
  method : string;
  headers : list (string * string);
  body : option jsval
}.

(** The token counters of a chat completion. *)
Record Usage : Type := {
  prompt_tokens : Z;
  completion_tokens : Z;
  total_tokens : Z
}.

(** The body of a chat completion as the prompt generator reads it:
    [llm_content] is [data.choices[0].message.content] when that path leads
    to a string. *)
Record LlmData : Type := {
  llm_content : option string;
  llm_usage : option Usage
}.

(** One entry of [images] in a FAL body. *)
Record FalImage : Type := {
  fal_url : string;
  fal_base64 : option string
}.

(** A FAL body, submit and status alike; [fal_raw] is its
    [JSON.stringify] and [fal_error] the text its [error] prints as. *)
Record FalData : Type := {
  fal_images : option (list FalImage);
  fal_request_id : option string;
  fal_status : string;
  fal_error : string;
  fal_raw : string
}.

(** The [output] of a Replicate prediction: one string or an array of
    strings. *)
Inductive Output : Type :=
| OutString (s : string)
| OutArray (items : list string).

(** A Replicate prediction body. *)
Record ReplicateData : Type := {
  rep_status : string;
  rep_output : option Output;
  rep_urls_get : option string;
  rep_error : string;
  rep_raw : string
}.

(** The body of a failed response: its [JSON.stringify] and its
    [error?.message]. *)
Record ErrorData : Type := {
  err_json : string;
  err_message : option string
}.

(** A response of [fetch]; [errorData] and [data] are what [json()]
    resolves to on a failed and on a successful response ([None]: the body
    does not parse). *)
Record Response (B : Type) : Type := {
  ok : bool;
  statusText : string;
  errorData : option ErrorData;
  data : option B
}.
Arguments ok {B} _.
Arguments statusText {B} _.
Arguments errorData {B} _.
Arguments data {B} _.

(** The three services the pipeline fetches from. *)
Inductive Endpoint : Type :=
| LlmApi
| FalApi
| ReplicateApi.

Definition Body (e : Endpoint) : Type :=
  match e with
  | LlmApi => LlmData
  | FalApi => FalData
  | ReplicateApi => ReplicateData
  end.

(** The context returned by [weave.startTrace]. *)
Record TraceContext : Type := {
  callId : string;
  traceId : string
}.

(** What a client returns: [{url, base64, imageType}]. *)
Record ImageResult : Type := {
  img_url : string;
  img_base64 : option string;
  img_imageType : string
}.

(** What the prompt generator returns: [{prompt, model, usage}]. *)
Record PromptResult : Type := {
  prompt : string;
  model : string;
  usage : option Usage
}.

(** The [stats] of the message sent to the page. *)
Record Stats : Type := {
  llm : option Z;
  imageGen : Z;
  total : Z
}.

(** The [updateBackground] message. *)
Record RenderMessage : Type := {
  msg_imageUrl : string;
  msg_prompt : string;
  msg_stats : Stats
}.

(** What the detached tracing task captures when it is started. *)
Record TraceJob : Type := {
  job_context : TraceContext;
  job_imageModel : string;
  job_imageUrl : string;
  job_base64 : option string;
  job_imageType : string;
  job_llm : option PromptResult
}.

(** *** The module-level variables of background.js *)

Record State : Type := {
  weaveInitialized : bool;
  isGenerating : bool;
  lastGeneratedPrompt : string;
  lastUpdateTime : Z
}.

(** [let weaveInitialized = false; let isGenerating = false;
     let lastGeneratedPrompt = ''; let lastUpdateTime = 0;] *)
Definition initialState : State :=
  {| weaveInitialized := false;
     isGenerating := false;
     lastGeneratedPrompt := "";
     lastUpdateTime := 0 |}.

(** An assignment to one of them. *)
Inductive Assign : Type :=
| SetWeaveInitialized (b : bool)
| SetIsGenerating (b : bool)
| SetLastGeneratedPrompt (p : string)
| SetLastUpdateTime (t : Z).

Definition assign (a : Assign) (s : State) : State :=
  match a with
  | SetWeaveInitialized b =>
      {| weaveInitialized := b; isGenerating := isGenerating s;
         lastGeneratedPrompt := lastGeneratedPrompt s; lastUpdateTime := lastUpdateTime s |}
  | SetIsGenerating b =>
      {| weaveInitialized := weaveInitialized s; isGenerating := b;
         lastGeneratedPrompt := lastGeneratedPrompt s; lastUpdateTime := lastUpdateTime s |}
  | SetLastGeneratedPrompt p =>
      {| weaveInitialized := weaveInitialized s; isGenerating := isGenerating s;
         lastGeneratedPrompt := p; lastUpdateTime := lastUpdateTime s |}
  | SetLastUpdateTime t =>
      {| weaveInitialized := weaveInitialized s; isGenerating := isGenerating s;
         lastGeneratedPrompt := lastGeneratedPrompt s; lastUpdateTime := t |}
  end.

(** *** The interface to the outside world *)

(** Synchronous reads of the environment. *)
Inductive Query : Type :=
| DateNow
| RandomSeed.

(** [Date.now()] and [Math.floor(Math.random() * 10000000)] yield numbers. *)
Definition Answer (q : Query) : Type := Z.

(** Awaited operations. [Tick] is the turn of the job queue taken by every
    [await], also of a promise that is already settled; [ReadJson] is
    [response.json()]. *)
Inductive Call : Type :=
| Tick
| StorageSyncGet
| StorageLocalGet
| TabsQuery (urlPattern : string)
| StartTrace (name : string) (inputs : jsval)
| Fetch (e : Endpoint) (req : Request)
| ReadJson
| Sleep (ms : Z).

(** What each of them resumes with. [weave.startTrace] catches the
    failures of its own request but one: its [apiCall] returns
    [response.json()] without awaiting it, so when the trace server answers
    [ok] with a body that does not parse, the promise of [startTrace] is
    rejected. *)
Definition Reply (c : Call) : Type :=
  match c with
  | Tick => unit
  | StorageSyncGet => Settled Settings
  | StorageLocalGet => Settled (option string)
  | TabsQuery _ => Settled (list Z)
  | StartTrace _ _ => Settled TraceContext
  | Fetch e _ => Settled (Response (Body e))
  | ReadJson => unit
  | Sleep _ => unit
  end.

(** Everything observable: effects that are started and not awaited, the
    awaited calls, and the assignments to the module-level variables.
    Console output is kept for warnings, errors and the messages that
    report a rejected trigger. *)
Inductive Event : Type :=
| ConsoleLog (message : string)
| ConsoleWarn (message : string)
| ConsoleError (message : string) (error : Exn)
| SetBadgeText (text : string)
| SetBadgeBackgroundColor (color : string)
| StorageLocalSet (lastGeneratedPrompt : string)
| TabsSendMessage (tabId : Z) (message : RenderMessage)
| WeaveInit (projectId apiKey : string)
| EndTraceDetached (context : TraceContext) (error : string)
| SpawnTrace (job : TraceJob)
| Awaits (c : Call)
| Assigns (a : Assign).

(** *** Programs *)

Inductive Prog (A : Type) : Type :=
| Ret (a : A)
| Throw (e : Exn)
| Ask (q : Query) (k : Answer q -> Prog A)
| Await (c : Call) (k : Reply c -> Prog A)
| Emit (e : Event) (k : Prog A)
| Load (k : State -> Prog A)
| Store (a : Assign) (k : Prog A).
Arguments Ret {A} a.
Arguments Throw {A} e.
Arguments Ask {A} q k.
Arguments Await {A} c k.
Arguments Emit {A} e k.
Arguments Load {A} k.
Arguments Store {A} a k.

Fixpoint bind {A B : Type} (p : Prog A) (f : A -> Prog B) : Prog B :=
  match p with
  | Ret a => f a
  | Throw e => Throw e
  | Ask q k => Ask q (fun r => bind (k r) f)
  | Await c k => Await c (fun r => bind (k r) f)
  | Emit e k => Emit e (bind k f)
  | Load k => Load (fun s => bind (k s) f)
  | Store a k => Store a (bind k f)
  end.

(** [try { p } catch (e) { h e }] *)
Fixpoint tryCatch {A : Type} (p : Prog A) (h : Exn -> Prog A) : Prog A :=
  match p with
  | Ret a => Ret a
  | Throw e => h e
  | Ask q k => Ask q (fun r => tryCatch (k r) h)
  | Await c k => Await c (fun r => tryCatch (k r) h)
  | Emit e k => Emit e (tryCatch k h)
  | Load k => Load (fun s => tryCatch (k s) h)
  | Store a k => Store a (tryCatch k h)
  end.

(** [try { p } finally { f }]: [f] runs after [p] however [p] completes,
    a [return] inside [p] included; [p]'s completion stands unless [f]
    throws. *)
Fixpoint tryFinally {A : Type} (p : Prog A) (f : Prog unit) : Prog A :=
  match p with
  | Ret a => bind f (fun _ => Ret a)
  | Throw e => bind f (fun _ => Throw e)
  | Ask q k => Ask q (fun r => tryFinally (k r) f)
  | Await c k => Await c (fun r => tryFinally (k r) f)
  | Emit e k => Emit e (tryFinally k f)
  | Load k => Load (fun s => tryFinally (k s) f)
  | Store a k => Store a (tryFinally k f)
  end.

Declare Scope prog_scope.
Delimit Scope prog_scope with prog.
Bind Scope prog_scope with Prog.
Notation "x <- p ;; k" := (bind p (fun x => k))
  (at level 61, p at next level, right associativity) : prog_scope.
Notation "p ;; k" := (bind p (fun _ => k))
  (at level 61, right associativity) : prog_scope.
Local Open Scope prog_scope.

Definition ask (q : Query) : Prog (Answer q) := Ask q Ret.
Definition emit (e : Event) : Prog unit := Emit e (Ret tt).
Definition load : Prog State := Load Ret.
Definition store (a : Assign) : Prog unit := Store a (Ret tt).

(** [await] of an operation that cannot fail. *)
Definition await (c : Call) : Prog (Reply c) := Await c Ret.

(** The value of a settled promise, or its reason thrown. *)
Definition settle {T : Type} (r : Settled T) : Prog T :=
  match r with
  | Fulfilled v => Ret v
  | Rejected e => Throw e
  end.

(** [await chrome.storage.sync.get(...)] *)
Definition awaitStorageSyncGet : Prog Settings :=
  Await StorageSyncGet settle.

(** [await chrome.storage.local.get('lastGeneratedPrompt')] *)
Definition awaitStorageLocalGet : Prog (option string) :=
  Await StorageLocalGet settle.

(** [await chrome.tabs.query({url})] *)
Definition awaitTabsQuery (urlPattern : string) : Prog (list Z) :=
  Await (TabsQuery urlPattern) settle.

(** [await weave.startTrace(name, inputs)] *)
Definition awaitStartTrace (name : string) (inputs : jsval) : Prog TraceContext :=
  Await (StartTrace name inputs) settle.

(** [await fetch(url, init)] *)
Definition awaitFetch (e : Endpoint) (req : Request) : Prog (Response (Body e)) :=
  Await (Fetch e req) settle.

(** [await response.json()] on a successful response *)
Definition awaitJson {B : Type} (r : Response B) : Prog B :=
  Await ReadJson (fun _ =>
    match data r with
    | Some d => Ret d
    | None => Throw (SyntaxError "Unexpected token")
    end).

(** [await response.json()] on a failed response *)
Definition awaitErrorJson {B : Type} (r : Response B) : Prog ErrorData :=
  Await ReadJson (fun _ =>
    match errorData r with
    | Some d => Ret d
    | None => Throw (SyntaxError "Unexpected token")
    end).

(** [await f(...)] where [f] is an [async] function of the extension: the
    caller resumes one turn after [f] has completed, with its value or its
    exception. *)
Definition awaitAsync {A : Type} (p : Prog A) : Prog A :=
  tryFinally p (Await Tick (fun _ => Ret tt)).

(** *** Running one program alone *)

(** The outside world as one run meets it: the [n]-th interaction of the
    run (a query or an awaited call, counted from the start of the run) is
    answered by [answer n] or [reply n]. *)
Record World : Type := {
  answer : nat -> forall q : Query, Answer q;
  reply : nat -> forall c : Call, Reply c
}.

(** How a program completes. *)
Inductive Completion (A : Type) : Type :=
| Returned (a : A)
| Threw (e : Exn).
Arguments Returned {A} a.
Arguments Threw {A} e.

(** The result of a run: the completion, the variables at the end, the
    events in order, and the number of interactions made. *)
Record Run (A : Type) : Type := {
  completion : Completion A;
  final : State;
  events : list Event;
  interactions : nat
}.
Arguments completion {A} _.
Arguments final {A} _.
Arguments events {A} _.
Arguments interactions {A} _.

Definition logged {A : Type} (e : Event) (r : Run A) : Run A :=
  {| completion := completion r; final := final r;
     events := e :: events r; interactions := interactions r |}.

(** [exec p w n s]: run [p] to completion from the variables [s], the world
    [w] answering, [n] interactions having been made before. *)
Fixpoint exec {A : Type} (p : Prog A) (w : World) (n : nat) (s : State) : Run A :=
  match p with
  | Ret a => {| completion := Returned a; final := s; events := []; interactions := n |}
  | Throw e => {| completion := Threw e; final := s; events := []; interactions := n |}
  | Ask q k => exec (k (answer w n q)) w (S n) s
  | Await c k => logged (Awaits c) (exec (k (reply w n c)) w (S n) s)
  | Emit e k => logged e (exec k w n s)
  | Load k => exec (k s) w n s
  | Store a k => logged (Assigns a) (exec k w n (assign a s))
  end.

(** A run with more events in front. *)
Definition prepend {A : Type} (evs : list Event) (r : Run A) : Run A :=
  {| completion := completion r; final := final r;
     events := (evs ++ events r)%list; interactions := interactions r |}.

(** The run of [bind p f] from the run of [p]. *)
Definition thenRun {A B : Type} (r : Run A) (k : A -> nat -> State -> Run B) : Run B :=
  match completion r with
  | Returned a => prepend (events r) (k a (interactions r) (final r))
  | Threw e =>
      {| completion := Threw e; final := final r;
         events := events r; interactions := interactions r |}
  end.

(** The run of [tryCatch p h] from the run of [p]. *)
Definition catchRun {A : Type} (r : Run A) (h : Exn -> nat -> State -> Run A) : Run A :=
  match completion r with
  | Returned a =>
      {| completion := Returned a; final := final r;
         events := events r; interactions := interactions r |}
  | Threw e => prepend (events r) (h e (interactions r) (final r))
  end.

(** The run of [tryFinally p f] from the run of [p]. *)
Definition finallyRun {A : Type} (r : Run A) (f : nat -> State -> Run unit) : Run A :=
  let rf := f (interactions r) (final r) in
  {| completion := match completion rf with
                   | Returned _ => completion r
                   | Threw e => Threw e
                   end;
     final := final rf;
     events := (events r ++ events rf)%list;
     interactions := interactions rf |}.

(** A run from the start. *)
Definition run {A : Type} (p : Prog A) (w : World) (s : State) : Run A :=
  exec p w 0 s.

End Async.

(* ===================================================================== *)
(** ** llmHandler.js: the prompt generator *)
(* ===================================================================== *)

Module LlmHandler.
Import JS Async.
Local Open Scope prog_scope.

(** A double quote and a line feed, for the literals below. *)
Definition dq : string := String (ascii_of_nat 34) EmptyString.
Definition nl : string := String (ascii_of_nat 10) EmptyString.

Definition systemPrompt : string :=
  "You are a Master Visual Storyteller. Your task is to create a vivid, hyper-realistic, cinematic, 8k resolution image prompt based on a list of items provided by the user.
    
    The items are from the game " ++ dq ++
  "Infinite Craft" ++ dq ++
  ". 
    
    CRITICAL INSTRUCTION: You must treat this as a continuous visual story. 
    If a " ++ dq ++
  "Previous Scene Description" ++ dq ++
  " is provided, you MUST evolve that scene to incorporate the new items. 
    Do not start from scratch unless the new items are completely incompatible.
    
    Output: A concise, 2-3 sentence image prompt. Focus on the most important visual elements. Do not use JSON.

    Examples:
    1. " ++ dq ++
  "A massive stone golem rises from a lake of molten lava, its body cracking with glowing veins of magma. Ash falls like snow around it, settling on the dark basalt cliffs that surround the fiery pit." ++ dq ++
  "
    2. " ++ dq ++
  "A futuristic city built into the branches of a giant world-tree, with glass walkways connecting the leaves. Hovercars zip between the branches, their lights leaving trails against the twilight sky." ++ dq ++
  "
    3. " ++ dq ++
  "An astronaut stands on the surface of a purple moon, looking up at a ringed gas giant that dominates the horizon. Crystalline structures jut out of the ground, reflecting the pale light of a distant star." ++ dq ++
  "".

(** The user message: the items, then the previous scene when there is
    one. *)
Definition userPrompt (itemsList previousPrompt : string) : string :=
  "Current Items: " ++ itemsList ++
  (if nonEmpty previousPrompt
   then nl ++ nl ++ "Previous Scene Description: " ++ previousPrompt ++ nl ++ nl ++
        "Instruction: Evolve the previous scene with the new items. Keep it concise (2-3 sentences)."
   else nl ++ nl ++
        "Instruction: Create a new fantasy scene based on these items. Keep it concise (2-3 sentences).").

(** The request sent to the chat-completion service. *)
Definition completionRequest (apiKey model itemsList previousPrompt : string) : Request :=
  {| url := "https://api.cerebras.ai/v1/chat/completions";
     method := "POST";
     headers := [("Content-Type", "application/json");
                 ("Authorization", "Bearer " ++ apiKey)];
     body := Some (JObj
       [("model", JStr model);
        ("messages", JArr
           [JObj [("role", JStr "system"); ("content", JStr systemPrompt)];
            JObj [("role", JStr "user");
                  ("content", JStr (userPrompt itemsList previousPrompt))]]);
        ("max_tokens", JNum 65536);
        ("temperature", JNum 1);
        ("top_p", JNum 1);
        ("reasoning_effort", JStr "medium");
        ("stream", JBool false)]) |}.

(** [generatePromptFromTexts(texts, apiKey, model, previousPrompt)] *)
Definition generatePromptFromTexts
    (texts : list Element) (apiKey model previousPrompt : string) : Prog PromptResult :=
  if negb (nonEmpty apiKey) then Throw (Error "API Key is missing.") else
  let itemsList := join ", " (map text texts) in
  tryCatch
    (response <- awaitFetch LlmApi (completionRequest apiKey model itemsList previousPrompt) ;;
     if negb (ok response) then
       errorData <- awaitErrorJson response ;;
       Throw (Error ("OpenAI API Error: " ++
                     (if truthyStr (err_message errorData)
                      then match err_message errorData with Some m => m | None => "" end
                      else statusText response)))
     else
       data <- awaitJson response ;;
       match llm_content (data : LlmData) with
       | None => Throw (TypeError "Cannot read properties of undefined")
       | Some content =>
           Ret {| prompt := trim content; model := model; usage := llm_usage data |}
       end)
    (fun error =>
       emit (ConsoleError "Error generating prompt from LLM:" error) ;;
       Throw error).

End LlmHandler.

(* ===================================================================== *)
(** ** apiHandler.js: the two image provider clients *)
(* ===================================================================== *)

Module ApiHandler.
Import JS Async.
Local Open Scope prog_scope.

(** *** FAL *)

(** The model path chosen at the top of [getImageFromFal]. *)
Definition falModelPath (model : string) : string :=
  if nonEmpty model && startsWith model "fal-" then
    if String.eqb model "fal-z-image-turbo" then "fal-ai/z-image/turbo"
    else if startsWith model "fal-" then substringFrom 4 model
    else model
  else "fal-ai/z-image/turbo".

Definition falApiUrl (model : string) : string :=
  "https://fal.run/" ++ falModelPath model.

Definition falSubmitRequest (apiUrl prompt apiKey : string) (seed : Z) : Request :=
  {| url := apiUrl;
     method := "POST";
     headers := [("Content-Type", "application/json");
                 ("Authorization", "Key " ++ apiKey)];
     body := Some (JObj
       [("prompt", JStr prompt);
        ("seed", JNum seed);
        ("image_size", JStr "landscape_4_3");
        ("sync_mode", JBool true);
        ("output_format", JStr "jpeg")]) |}.

Definition falStatusRequest (apiUrl requestId apiKey : string) : Request :=
  {| url := apiUrl ++ "/requests/" ++ requestId;
     method := "GET";
     headers := [("Authorization", "Key " ++ apiKey)];
     body := None |}.

(** [x || null] on an optional string. *)
Definition orNull (o : option string) : option string :=
  if truthyStr o then o else None.

(** The result built from the first image of a FAL body. *)
Definition falResult (image : FalImage) : ImageResult :=
  {| img_url := fal_url image;
     img_base64 := orNull (fal_base64 image);
     img_imageType := "jpeg" |}.

(** The polling loop of [getImageFromFal]: [while (attempts < 20)], entered
    with [attempts = 0]; [remaining] is [20 - attempts]. *)
Fixpoint falPoll (remaining : nat) (apiUrl requestId apiKey : string) : Prog ImageResult :=
  match remaining with
  | O => Throw (Error "FAL Request Timed Out")
  | S remaining' =>
      await (Sleep 500) ;;
      statusResponse <- awaitFetch FalApi (falStatusRequest apiUrl requestId apiKey) ;;
      if negb (ok statusResponse) then
        Throw (Error ("FAL Status Error: " ++ statusText statusResponse))
      else
        statusData <- awaitJson statusResponse ;;
        if String.eqb (fal_status (statusData : FalData)) "COMPLETED" then
          match fal_images statusData with
          | Some (image :: _) => Ret (falResult image)
          | _ => Throw (Error "No image in completed response")
          end
        else if String.eqb (fal_status statusData) "FAILED" then
          Throw (Error ("FAL Request Failed: " ++ fal_error statusData))
        else
          falPoll remaining' apiUrl requestId apiKey
  end.

(** The attempt ceiling of the FAL client. *)
Definition FAL_MAX_ATTEMPTS : nat := 20.

(** [getImageFromFal(prompt, apiKey, model)] *)
Definition getImageFromFal (prompt apiKey model : string) : Prog ImageResult :=
  let apiUrl := falApiUrl model in
  if negb (nonEmpty apiKey) then Throw (Error "FAL API Key is missing.") else
  tryCatch
    (seed <- ask RandomSeed ;;
     response <- awaitFetch FalApi (falSubmitRequest apiUrl prompt apiKey seed) ;;
     if negb (ok response) then
       errorData <- awaitErrorJson response ;;
       Throw (Error ("FAL API Error: " ++ err_json errorData))
     else
       data <- awaitJson response ;;
       match fal_images (data : FalData) with
       | Some (image :: _) => Ret (falResult image)
       | _ =>
           match fal_request_id data with
           | Some (String c rest) =>
               falPoll FAL_MAX_ATTEMPTS apiUrl (String c rest) apiKey
           | _ =>
               Throw (Error ("FAL Response missing images and request_id: " ++ fal_raw data))
           end
       end)
    (fun error =>
       emit (ConsoleError "Error fetching image from FAL API:" error) ;;
       Throw error).

(** *** Replicate *)

(** [\w] *)
Definition isWordChar (c : ascii) : bool :=
  let n := nat_of_ascii c in
  (((48 <=? n) && (n <=? 57)) || ((65 <=? n) && (n <=? 90)) ||
   ((97 <=? n) && (n <=? 122)) || (n =? 95))%nat.

(** The longest run of word characters at the start of [s], and the rest. *)
Fixpoint spanWord (s : string) : string * string :=
  match s with
  | EmptyString => (EmptyString, EmptyString)
  | String c rest =>
      if isWordChar c
      then let (w, r) := spanWord rest in (String c w, r)
      else (EmptyString, s)
  end.

(** What [.] refuses: a line feed or a carriage return. *)
Fixpoint noLineTerminator (s : string) : bool :=
  match s with
  | EmptyString => true
  | String c rest =>
      negb ((nat_of_ascii c =? 10) || (nat_of_ascii c =? 13))%nat && noLineTerminator rest
  end.

(** [url.match(/^data:image\/(\w+);base64,(.+)$/)]: the two groups. *)
Definition matchDataUri (url : string) : option (string * string) :=
  if startsWith url "data:image/" then
    let (mime, rest) := spanWord (substringFrom 11 url) in
    if nonEmpty mime && startsWith rest ";base64," then
      let payload := substringFrom 8 rest in
      if nonEmpty payload && noLineTerminator payload
      then Some (mime, payload)
      else None
    else None
  else None.

(** The image type read off a URL by [extractResult]. *)
Definition typeFromUrl (url : string) : string :=
  let imageType := "jpeg" in
  let imageType := if includes url ".png" then "png" else imageType in
  let imageType := if includes url ".webp" then "webp" else imageType in
  imageType.

(** [Array.isArray(output) ? output[0] : output], when that is a string. *)
Definition firstOutput (output : option Output) : option string :=
  match output with
  | Some (OutString s) => Some s
  | Some (OutArray (s :: _)) => Some s
  | Some (OutArray []) => None
  | None => None
  end.

(** The helper [extractResult(output)]. Without a string to look at it
    fails on [url.includes]. *)
Definition extractResult (output : option Output) : Prog ImageResult :=
  match firstOutput output with
  | None => Throw (TypeError "Cannot read properties of undefined (reading 'includes')")
  | Some url =>
      match (if startsWith url "data:image" then matchDataUri url else None) with
      | Some (mime, payload) =>
          Ret {| img_url := url; img_base64 := Some payload; img_imageType := mime |}
      | None =>
          Ret {| img_url := url; img_base64 := None; img_imageType := typeFromUrl url |}
      end
  end.

(** The image type [extractResult] settles on for a given URL. *)
Definition replicateImageType (url : string) : string :=
  match matchDataUri url with
  | Some (mime, _) => mime
  | None => typeFromUrl url
  end.

(** The truth value of [data.output]. *)
Definition truthyOutput (output : option Output) : bool :=
  match output with
  | Some (OutString s) => nonEmpty s
  | Some (OutArray _) => true
  | None => false
  end.

(** Endpoint, version and input for the two supported models. *)
Definition replicateModel (model prompt : string) : option (string * option string * jsval) :=
  if String.eqb model "replicate-z-image-turbo" then
    Some ("https://api.replicate.com/v1/predictions",
          Some "7ea16386290ff5977c7812e66e462d7ec3954d8e007a8cd18ded3e7d41f5d7cf",
          JObj [("height", JNum 768); ("prompt", JStr prompt); ("output_format", JStr "jpg")])
  else if String.eqb model "replicate-pruna-p-image" then
    Some ("https://api.replicate.com/v1/models/prunaai/p-image/predictions",
          None,
          JObj [("prompt", JStr prompt)])
  else None.

Definition replicateSubmitRequest
    (apiUrl : string) (version : option string) (input : jsval) (apiKey : string) : Request :=
  {| url := apiUrl;
     method := "POST";
     headers := [("Authorization", "Bearer " ++ apiKey);
                 ("Content-Type", "application/json");
                 ("Prefer", "wait")];
     body := Some (JObj (("input", input) ::
                         match version with
                         | Some v => [("version", JStr v)]
                         | None => []
                         end)) |}.

Definition replicateStatusRequest (getUrl apiKey : string) : Request :=
  {| url := getUrl;
     method := "GET";
     headers := [("Authorization", "Bearer " ++ apiKey);
                 ("Content-Type", "application/json")];
     body := None |}.

(** The polling loop of [getImageFromReplicate]: [while (attempts < 40)],
    entered with [attempts = 0]; [remaining] is [40 - attempts]. *)
Fixpoint replicatePoll (remaining : nat) (getUrl apiKey : string) : Prog ImageResult :=
  match remaining with
  | O => Throw (Error "Replicate Request Timed Out")
  | S remaining' =>
      await (Sleep 500) ;;
      statusResponse <- awaitFetch ReplicateApi (replicateStatusRequest getUrl apiKey) ;;
      if negb (ok statusResponse) then
        Throw (Error ("Replicate Status Error: " ++ statusText statusResponse))
      else
        data <- awaitJson statusResponse ;;
        if String.eqb (rep_status (data : ReplicateData)) "succeeded" then
          extractResult (rep_output data)
        else if String.eqb (rep_status data) "failed" then
          Throw (Error ("Replicate Request Failed: " ++ rep_error data))
        else if String.eqb (rep_status data) "canceled" then
          Throw (Error "Replicate Request Canceled")
        else
          replicatePoll remaining' getUrl apiKey
  end.

(** The attempt ceiling of the Replicate client. *)
Definition REPLICATE_MAX_ATTEMPTS : nat := 40.

(** [getImageFromReplicate(prompt, apiKey, model)] *)
Definition getImageFromReplicate (prompt apiKey model : string) : Prog ImageResult :=
  if negb (nonEmpty apiKey) then Throw (Error "Replicate API Key is missing.") else
  match replicateModel model prompt with
  | None => Throw (Error ("Unknown Replicate model: " ++ model))
  | Some (apiUrl, version, input) =>
      tryCatch
        (response <- awaitFetch ReplicateApi
                       (replicateSubmitRequest apiUrl version input apiKey) ;;
         if negb (ok response) then
           errorData <- awaitErrorJson response ;;
           Throw (Error ("Replicate API Error: " ++ err_json errorData))
         else
           data <- awaitJson response ;;
           if String.eqb (rep_status (data : ReplicateData)) "succeeded"
              && truthyOutput (rep_output data)
           then extractResult (rep_output data)
           else
             match rep_urls_get data with
             | Some (String c rest) => replicatePoll REPLICATE_MAX_ATTEMPTS (String c rest) apiKey
             | _ => Throw (Error ("Replicate Response missing get url: " ++ rep_raw data))
             end)
        (fun error =>
           emit (ConsoleError "Error fetching image from Replicate API:" error) ;;
           Throw error)
  end.

End ApiHandler.

(* ===================================================================== *)
(** ** background.js: the two orchestrators *)
(* ===================================================================== *)

Module Background.
Import JS Async LlmHandler ApiHandler.
Local Open Scope prog_scope.
Local Open Scope Z_scope.

(** The debounce window, in milliseconds. *)
Definition DEBOUNCE_WINDOW : Z := 2000.

(** [initWeave()] *)
Definition initWeave : Prog unit :=
  s <- load ;;
  if weaveInitialized s then Ret tt else
  settings <- awaitStorageSyncGet ;;
  if nonEmpty (wandbApiKey settings) && nonEmpty (wandbTeam settings) then
    emit (WeaveInit (wandbTeam settings ++ "/" ++ weaveProject settings)%string
                    (wandbApiKey settings)) ;;
    store (SetWeaveInitialized true)
  else Ret tt.

(** The three statements that report a missing credential and release the
    lock before the early [return]. *)
Definition reportMissingKey (warning : string) : Prog unit :=
  emit (ConsoleWarn warning) ;;
  emit (SetBadgeText "KEY") ;;
  emit (SetBadgeBackgroundColor "#F4B400") ;;
  store (SetIsGenerating false).

(** The outer [catch] of both orchestrators. *)
Definition reportError (where_ : string) (error : Exn) : Prog unit :=
  emit (ConsoleError where_ error) ;;
  emit (SetBadgeText "ERR") ;;
  emit (SetBadgeBackgroundColor "#DB4437").

(** [if (tabId)]: a tab id counts when it is not zero. *)
Definition truthyTab (tabId : option Z) : bool :=
  match tabId with
  | Some n => negb (n =? 0)
  | None => false
  end.

(** The image type the detached tracing task settles on once it has fetched
    the image itself: the response's content type first, the URL second. *)
Definition traceImageType (contentType imageUrl : string) : string :=
  if includes contentType "png" || includes imageUrl ".png" then "png"
  else if includes contentType "webp" || includes imageUrl ".webp" then "webp"
  else if includes contentType "gif" || includes imageUrl ".gif" then "gif"
  else "jpeg".

(** Stage 2 as both orchestrators write it: the [if]/[else] on the prefix
    of the configured model that picks the client, and the [await] of its
    result. *)
Definition imageStage (settings : Settings) (prompt : string) : Prog ImageResult :=
  if startsWith (imageModel settings) "replicate"
  then awaitAsync (getImageFromReplicate prompt
                     (replicateApiKey settings) (imageModel settings))
  else awaitAsync (getImageFromFal prompt
                     (falApiKey settings) (imageModel settings)).

(** The body of the inner [try] of [handleUpdateTexts]: Stage 1, the update
    of the history, Stage 2, the message to the page, and the start of the
    detached tracing task. *)
Definition updatePipeline (texts : list Element) (tabId : Z) (settings : Settings)
    (traceContext : TraceContext) (startTotal : Z) : Prog unit :=
  startLLM <- ask DateNow ;;
  s <- load ;;
  llmResult <- awaitAsync
    (generatePromptFromTexts texts (openaiApiKey settings)
       (llmModel settings) (lastGeneratedPrompt s)) ;;
  endLLM <- ask DateNow ;;
  let durationLLM := endLLM - startLLM in
  let prompt := prompt llmResult in
  store (SetLastGeneratedPrompt prompt) ;;
  emit (StorageLocalSet prompt) ;;
  startImageGen <- ask DateNow ;;
  imageResult <- imageStage settings prompt ;;
  endImageGen <- ask DateNow ;;
  let durationImageGen := endImageGen - startImageGen in
  endTotal <- ask DateNow ;;
  let totalDuration := endTotal - startTotal in
  (if truthyTab (Some tabId) then
     emit (TabsSendMessage tabId
             {| msg_imageUrl := img_url imageResult;
                msg_prompt := prompt;
                msg_stats := {| llm := Some durationLLM;
                                imageGen := durationImageGen;
                                total := totalDuration |} |})
   else Ret tt) ;;
  emit (SetBadgeText "") ;;
  emit (SpawnTrace
          {| job_context := traceContext;
             job_imageModel := imageModel settings;
             job_imageUrl := img_url imageResult;
             job_base64 := img_base64 imageResult;
             job_imageType := img_imageType imageResult;
             job_llm := Some llmResult |}).

(** The body of the outer [try] of [handleUpdateTexts], entered once the
    trigger is accepted: the lock is taken, the configuration validated,
    the root span started, and the pipeline run inside the inner [try].
    The root span is started outside the inner [try]: when [startTrace]
    throws, the outer [catch] is the first to see it. *)
Definition updateAccepted (texts : list Element) (tabId : Z) (now : Z) : Prog unit :=
  startTotal <- ask DateNow ;;
  store (SetIsGenerating true) ;;
  store (SetLastUpdateTime now) ;;
  emit (SetBadgeText "...") ;;
  emit (SetBadgeBackgroundColor "#4285F4") ;;
  settings <- awaitStorageSyncGet ;;
  if negb (nonEmpty (openaiApiKey settings)) then
    reportMissingKey "Missing OpenAI API Key."
  else if startsWith (imageModel settings) "fal"
          && negb (nonEmpty (falApiKey settings)) then
    reportMissingKey "Missing FAL API Key."
  else if startsWith (imageModel settings) "replicate"
          && negb (nonEmpty (replicateApiKey settings)) then
    reportMissingKey "Missing Replicate API Key."
  else
    let elementNames := join ", " (map text texts) in
    s <- load ;;
    let traceInputs :=
      JObj (("elements", JStr elementNames) ::
            (if nonEmpty (lastGeneratedPrompt s)
             then [("previous_prompt", JStr (lastGeneratedPrompt s))]
             else [])) in
    traceContext <- awaitStartTrace "generate_creative_image" traceInputs ;;
    tryCatch
      (updatePipeline texts tabId settings traceContext startTotal)
      (fun innerError =>
         emit (EndTraceDetached traceContext (exnToString innerError)) ;;
         Throw innerError).

(** The two guards of [handleUpdateTexts], the debounce first, and behind
    them the [try] / [catch] / [finally] statement. *)
Definition updateGuarded (texts : list Element) (tabId : Z) (now : Z) : Prog unit :=
  s <- load ;;
  if now - lastUpdateTime s <? 2000 then
    emit (ConsoleLog "Skipping update: too soon")
  else if isGenerating s then
    emit (ConsoleLog "Skipping update: already generating")
  else
    tryFinally
      (tryCatch
         (updateAccepted texts tabId now)
         (fun error => reportError "Error in handleUpdateTexts:" error))
      (store (SetIsGenerating false)).

(** [handleUpdateTexts(texts, tabId)] *)
Definition handleUpdateTexts (texts : list Element) (tabId : Z) : Prog unit :=
  awaitAsync initWeave ;;
  now <- ask DateNow ;;
  updateGuarded texts tabId now.

(** The body of the inner [try] of [handleRegenerateImage]: Stage 2 alone,
    against the last prompt. *)
Definition regeneratePipeline (tabId : option Z) (settings : Settings)
    (traceContext : TraceContext) (startTotal : Z) : Prog unit :=
  startImageGen <- ask DateNow ;;
  s <- load ;;
  imageResult <- imageStage settings (lastGeneratedPrompt s) ;;
  endImageGen <- ask DateNow ;;
  let durationImageGen := endImageGen - startImageGen in
  endTotal <- ask DateNow ;;
  let totalDuration := endTotal - startTotal in
  (if truthyTab tabId then
     s' <- load ;;
     emit (TabsSendMessage (match tabId with Some n => n | None => 0 end)
             {| msg_imageUrl := img_url imageResult;
                msg_prompt := lastGeneratedPrompt s';
                msg_stats := {| llm := None;
                                imageGen := durationImageGen;
                                total := totalDuration |} |})
   else Ret tt) ;;
  emit (SetBadgeText "") ;;
  emit (SpawnTrace
          {| job_context := traceContext;
             job_imageModel := imageModel settings;
             job_imageUrl := img_url imageResult;
             job_base64 := img_base64 imageResult;
             job_imageType := img_imageType imageResult;
             job_llm := None |}).

(** The body of the outer [try] of [handleRegenerateImage]. *)
Definition regenerateAccepted : Prog unit :=
  store (SetIsGenerating true) ;;
  startTotal <- ask DateNow ;;
  emit (SetBadgeText "...") ;;
  emit (SetBadgeBackgroundColor "#4285F4") ;;
  tabs <- awaitTabsQuery "https://neal.fun/infinite-craft/*" ;;
  tabId <- match tabs with
           | first :: _ => Ret (Some first)
           | [] =>
               emit (ConsoleWarn "No Infinite Craft tab found to send update to.") ;;
               Ret None
           end ;;
  settings <- awaitStorageSyncGet ;;
  s <- load ;;
  traceContext <- awaitStartTrace "regenerate_image"
                    (JObj [("prompt", JStr (lastGeneratedPrompt s))]) ;;
  tryCatch
    (regeneratePipeline tabId settings traceContext startTotal)
    (fun innerError =>
       emit (EndTraceDetached traceContext (exnToString innerError)) ;;
       Throw innerError).

(** The two guards of [handleRegenerateImage] and, behind them, its
    [try] / [catch] / [finally] statement. *)
Definition regenerateGuarded : Prog unit :=
  s <- load ;;
  if negb (nonEmpty (lastGeneratedPrompt s)) then
    emit (ConsoleLog "No prompt to regenerate")
  else if isGenerating s then
    emit (ConsoleLog "Skipping regeneration: already generating")
  else
    tryFinally
      (tryCatch
         regenerateAccepted
         (fun error => reportError "Error in handleRegenerateImage:" error))
      (store (SetIsGenerating false)).

(** [handleRegenerateImage()] *)
Definition handleRegenerateImage : Prog unit :=
  awaitAsync initWeave ;;
  s <- load ;;
  (if negb (nonEmpty (lastGeneratedPrompt s)) then
     stored <- awaitStorageLocalGet ;;
     match stored with
     | Some (String c rest) => store (SetLastGeneratedPrompt (String c rest))
     | _ => Ret tt
     end
   else Ret tt) ;;
  regenerateGuarded.

(** A message received by [chrome.runtime.onMessage]. *)
Inductive Message : Type :=
| UpdateTexts (texts : list Element) (tabId : Z)
| RegenerateImage
| OtherMessage.

(** The listener: the routine it starts, if any. *)
Definition onMessage (message : Message) : option (Prog unit) :=
  match message with
  | UpdateTexts texts tabId => Some (handleUpdateTexts texts tabId)
  | RegenerateImage => Some handleRegenerateImage
  | OtherMessage => None
  end.

End Background.

(* ===================================================================== *)
(** ** Properties of programs used in the proofs *)
(* ===================================================================== *)

Module Traces.
Import JS Async Background.

(** Every event the program can produce, whatever the world answers,
    satisfies [P]. *)
Fixpoint everyEvent {A : Type} (P : Event -> Prop) (p : Prog A) : Prop :=
  match p with
  | Ret _ => True
  | Throw _ => True
  | Ask q k => forall r, everyEvent P (k r)
  | Await c k => P (Awaits c) /\ forall r, everyEvent P (k r)
  | Emit e k => P e /\ everyEvent P k
  | Load k => forall s, everyEvent P (k s)
  | Store a k => P (Assigns a) /\ everyEvent P k
  end.

(** Every value the program can return, whatever the world answers,
    satisfies [R]. *)
Fixpoint everyResult {A : Type} (R : A -> Prop) (p : Prog A) : Prop :=
  match p with
  | Ret a => R a
  | Throw _ => True
  | Ask q k => forall r, everyResult R (k r)
  | Await c k => forall r, everyResult R (k r)
  | Emit e k => everyResult R k
  | Load k => forall s, everyResult R (k s)
  | Store a k => everyResult R k
  end.

(** The event is an assignment to a module-level variable. *)
Definition isAssign (e : Event) : Prop :=
  match e with
  | Assigns _ => True
  | _ => False
  end.

(** The event is a network call of Stage 1 or Stage 2. *)
Definition isFetch (e : Event) : Prop :=
  match e with
  | Awaits (Fetch _ _) => True
  | _ => False
  end.

(** The event is a network call to the given service. *)
Definition isFetchTo (target : Endpoint) (e : Event) : Prop :=
  match e with
  | Awaits (Fetch LlmApi _) => target = LlmApi
  | Awaits (Fetch FalApi _) => target = FalApi
  | Awaits (Fetch ReplicateApi _) => target = ReplicateApi
  | _ => False
  end.

(** If the event is a network call of Stage 1 or Stage 2, it goes to the
    given service. *)
Definition fetchesOnly (target : Endpoint) (e : Event) : Prop :=
  match e with
  | Awaits (Fetch ep _) => ep = target
  | _ => True
  end.

(** The events of the prompt generator: its request, the reading of the
    body, and the report of its own [catch]. *)
Definition llmEvent (e : Event) : Prop :=
  match e with
  | Awaits (Fetch LlmApi _) => True
  | Awaits ReadJson => True
  | ConsoleError message _ => message = "Error generating prompt from LLM:"
  | _ => False
  end.

(** The events of the FAL client. *)
Definition falEvent (e : Event) : Prop :=
  match e with
  | Awaits (Fetch FalApi _) => True
  | Awaits ReadJson => True
  | Awaits (Sleep _) => True
  | ConsoleError message _ => message = "Error fetching image from FAL API:"
  | _ => False
  end.

(** The events of the Replicate client. *)
Definition replicateEvent (e : Event) : Prop :=
  match e with
  | Awaits (Fetch ReplicateApi _) => True
  | Awaits ReadJson => True
  | Awaits (Sleep _) => True
  | ConsoleError message _ => message = "Error fetching image from Replicate API:"
  | _ => False
  end.

(** [a] occurs in [l], and nothing satisfying [P] occurs before it. *)
Definition firstBefore (a : Event) (P : Event -> Prop) (l : list Event) : Prop :=
  exists pre post, l = (pre ++ a :: post)%list /\ Forall (fun e => ~ P e) pre.

(** [n] copies of [cycle], one after the other. *)
Fixpoint cycles (n : nat) (cycle : list Event) : list Event :=
  match n with
  | O => []
  | S n' => (cycle ++ cycles n' cycle)%list
  end.

(** A status response that is neither a result nor a failure, for FAL. *)
Definition falPending (r : Settled (Response FalData)) : Prop :=
  exists resp d,
    r = Fulfilled resp /\ ok resp = true /\ data resp = Some d /\
    fal_status d <> "COMPLETED" /\ fal_status d <> "FAILED".

(** A status response that is neither a result nor a failure, for
    Replicate. *)
Definition replicatePending (r : Settled (Response ReplicateData)) : Prop :=
  exists resp d,
    r = Fulfilled resp /\ ok resp = true /\ data resp = Some d /\
    rep_status d <> "succeeded" /\ rep_status d <> "failed" /\
    rep_status d <> "canceled".

(** A submit response that sends the FAL client polling: no image yet, and
    a request to ask about. *)
Definition falQueued (r : Settled (Response FalData)) (requestId : string) : Prop :=
  exists resp d,
    r = Fulfilled resp /\ ok resp = true /\ data resp = Some d /\
    (fal_images d = None \/ fal_images d = Some []) /\
    fal_request_id d = Some requestId /\ nonEmpty requestId = true.

(** A submit response that sends the Replicate client polling: no output
    yet, and a URL to ask at. *)
Definition replicateQueued (r : Settled (Response ReplicateData)) (getUrl : string) : Prop :=
  exists resp d,
    r = Fulfilled resp /\ ok resp = true /\ data resp = Some d /\
    rep_status d <> "succeeded" /\
    rep_urls_get d = Some getUrl /\ nonEmpty getUrl = true.

(** One round of the FAL polling loop, as events. *)
Definition falCycle (apiUrl requestId apiKey : string) : list Event :=
  [Awaits (Sleep 500);
   Awaits (Fetch FalApi (ApiHandler.falStatusRequest apiUrl requestId apiKey));
   Awaits ReadJson].

(** One round of the Replicate polling loop, as events. *)
Definition replicateCycle (getUrl apiKey : string) : list Event :=
  [Awaits (Sleep 500);
   Awaits (Fetch ReplicateApi (ApiHandler.replicateStatusRequest getUrl apiKey));
   Awaits ReadJson].

(** The event is a poll of a status endpoint: a [GET]. *)
Definition isPoll (e : Event) : bool :=
  match e with
  | Awaits (Fetch _ req) => String.eqb (method req) "GET"
  | _ => false
  end.

(** The number of polls among the events. *)
Definition polls (evs : list Event) : nat := length (filter isPoll evs).

(** The pauses among the events, in order, in milliseconds. *)
Fixpoint sleeps (evs : list Event) : list Z :=
  match evs with
  | [] => []
  | Awaits (Sleep ms) :: rest => ms :: sleeps rest
  | _ :: rest => sleeps rest
  end.

(** [isGenerating = true] is among the events. *)
Definition setsFlag (evs : list Event) : bool :=
  existsb (fun e => match e with
                    | Assigns (SetIsGenerating true) => true
                    | _ => false
                    end) evs.

(** The first part of both orchestrators: [await initWeave()], run from the
    start. *)
Definition initRun (w : World) (s : State) : Run unit :=
  exec (awaitAsync initWeave) w 0 s.

(** The value of [now] in the run of [handleUpdateTexts] from [s] in the
    world [w]: the clock as it is read once [initWeave] has returned. *)
Definition nowRead (w : World) (s : State) : Z :=
  answer w (interactions (initRun w s)) DateNow.

(** The times assigned to [lastUpdateTime] among the events, in order. *)
Fixpoint timeStamps (evs : list Event) : list Z :=
  match evs with
  | [] => []
  | Assigns (SetLastUpdateTime t) :: rest => t :: timeStamps rest
  | _ :: rest => timeStamps rest
  end.

(** The event does not assign [lastUpdateTime]. *)
Definition sparesTime (e : Event) : Prop :=
  match e with
  | Assigns (SetLastUpdateTime _) => False
  | _ => True
  end.

(** The run accepted its trigger: it has set the flag. *)
Definition accepted (r : Run unit) : bool := setsFlag (events r).

(** The number of runs among two that accepted their trigger. *)
Definition acceptedAmong (r1 r2 : Run unit) : nat :=
  ((if accepted r1 then 1 else 0) + (if accepted r2 then 1 else 0))%nat.

(** The events of [initWeave] and of the turn that follows it. *)
Definition initEvent (e : Event) : Prop :=
  match e with
  | Awaits StorageSyncGet => True
  | Awaits Tick => True
  | WeaveInit _ _ => True
  | Assigns (SetWeaveInitialized _) => True
  | _ => False
  end.

(** The event assigns none of the three variables of the pipeline. *)
Definition sparesPipeline (e : Event) : Prop :=
  match e with
  | Assigns (SetWeaveInitialized _) => True
  | Assigns _ => False
  | _ => True
  end.

(** The events with which an accepted trigger begins, up to the request
    for the settings. *)
Definition acceptEvents (now : Z) : list Event :=
  [Assigns (SetIsGenerating true);
   Assigns (SetLastUpdateTime now);
   SetBadgeText "...";
   SetBadgeBackgroundColor "#4285F4";
   Awaits StorageSyncGet].

(** The variables once the trigger is accepted. *)
Definition acceptState (now : Z) (s : State) : State :=
  assign (SetLastUpdateTime now) (assign (SetIsGenerating true) s).

(** The warning of the first credential check of [handleUpdateTexts] that
    fails, if one does. *)
Definition missingCredential (st : Settings) : option string :=
  if negb (nonEmpty (openaiApiKey st)) then Some "Missing OpenAI API Key."
  else if startsWith (imageModel st) "fal" && negb (nonEmpty (falApiKey st))
  then Some "Missing FAL API Key."
  else if startsWith (imageModel st) "replicate" && negb (nonEmpty (replicateApiKey st))
  then Some "Missing Replicate API Key."
  else None.

(** The events of [reportMissingKey]. *)
Definition missingKeyEvents (warning : string) : list Event :=
  [ConsoleWarn warning;
   SetBadgeText "KEY";
   SetBadgeBackgroundColor "#F4B400";
   Assigns (SetIsGenerating false)].

(** The inputs of the root span of [handleUpdateTexts]. *)
Definition updateTraceInputs (texts : list Element) (s : State) : jsval :=
  JObj (("elements", JStr (join ", " (map text texts))) ::
        (if nonEmpty (lastGeneratedPrompt s)
         then [("previous_prompt", JStr (lastGeneratedPrompt s))]
         else [])).

(** The events that close a successful run of the pipeline. *)
Definition renderEvents (tabId : option Z) (message : RenderMessage) (job : TraceJob)
  : list Event :=
  ((if truthyTab tabId
    then [TabsSendMessage (match tabId with Some n => n | None => 0%Z end) message]
    else []) ++
   [SetBadgeText ""; SpawnTrace job])%list.

(** The events of Stage 2, whichever client runs. *)
Definition stage2Event (e : Event) : Prop :=
  falEvent e \/ replicateEvent e \/ e = Awaits Tick.

(** What the outer [catch] and the [finally] of an orchestrator add to the
    run of the body. *)
Definition closing (where_ : string) (c : Completion unit) : list Event :=
  (match c with
   | Returned _ => []
   | Threw e =>
       [ConsoleError where_ e; SetBadgeText "ERR"; SetBadgeBackgroundColor "#DB4437"]
   end ++ [Assigns (SetIsGenerating false)])%list.

(** The run of the body of an accepted trigger, started after [n]
    interactions. *)
Definition bodyRun (texts : list Element) (tabId : Z) (now : Z) (w : World)
    (n : nat) (s : State) : Run unit :=
  exec (updateAccepted texts tabId now) w n s.

(** The event updates the history: it assigns [lastGeneratedPrompt] or
    writes it to [chrome.storage.local]. *)
Definition historyEvent (e : Event) : Prop :=
  match e with
  | Assigns (SetLastGeneratedPrompt _) => True
  | StorageLocalSet _ => True
  | _ => False
  end.

(** The report of the [catch] of the prompt generator. *)
Definition stage1Failure (e : Exn) : Event :=
  ConsoleError "Error generating prompt from LLM:" e.

(** The network calls a pipeline may make once the model is known: to the
    completion service and to the provider the prefix selects. *)
Definition routedTo (provider : Endpoint) (e : Event) : Prop :=
  match e with
  | Awaits (Fetch ep _) => ep = LlmApi \/ ep = provider
  | _ => True
  end.

(** The root span of a run starts: [startTrace] returns a context, whatever
    the run asks it. *)
Definition traceStarts (w : World) : Prop :=
  forall m name inputs, exists traceContext,
    reply w m (StartTrace name inputs) = Fulfilled traceContext.

(** The debounce property as the specification words it: of two triggers
    less than the window apart, the second handled right after the first,
    exactly one is accepted. *)
Definition debounceExactlyOne : Prop :=
  forall texts1 tabId1 texts2 tabId2 w1 w2 s,
    let r1 := run (handleUpdateTexts texts1 tabId1) w1 s in
    let r2 := run (handleUpdateTexts texts2 tabId2) w2 (final r1) in
    (Z.abs (nowRead w2 (final r1) - nowRead w1 s) < DEBOUNCE_WINDOW)%Z ->
    acceptedAmong r1 r2 = 1%nat.

(** Modelled after the specification: what is left of [s] behind the
    prefix [p], when [s] starts with it. *)
Fixpoint afterPrefix (p s : string) : option string :=
  match p, s with
  | EmptyString, _ => Some s
  | String a p', String b s' => if Ascii.eqb a b then afterPrefix p' s' else None
  | String _ _, EmptyString => None
  end.

(** Modelled after the specification: the text up to the first [;] or
    [,], where the media type of a [data:] URI ends. *)
Fixpoint mediaType (s : string) : string :=
  match s with
  | EmptyString => EmptyString
  | String c rest =>
      if ((nat_of_ascii c =? 59) || (nat_of_ascii c =? 44))%nat then EmptyString
      else String c (mediaType rest)
  end.

(** Modelled after the specification: the mime type of an inline [data:]
    URI, [data:<mime type>;base64,<payload>]. *)
Definition inlineMimeType (url : string) : option string :=
  match afterPrefix "data:" url with
  | Some rest => Some (mediaType rest)
  | None => None
  end.

(** Modelled after the specification: the image type a mime type names,
    [png] for [image/png]. *)
Definition mimeImageType (mime : string) : string :=
  match afterPrefix "image/" mime with
  | Some imageType => imageType
  | None => mime
  end.

(** Modelled after the specification: the image type by the stated order
    of priority, the mime type of an inline [data:] URI first, the mime
    type the response declares for its base64 payload ([hint], if it
    declares one) second, what a heuristic reads off the extension in the
    URL third, and jpeg otherwise. The specification does not say which
    heuristic: it is a parameter. *)
Definition specifiedImageType (heuristic : string -> option string)
    (url : string) (hint : option string) : string :=
  match inlineMimeType url with
  | Some mime => mimeImageType mime
  | None =>
      match hint with
      | Some mime => mimeImageType mime
      | None =>
          match heuristic url with
          | Some imageType => imageType
          | None => "jpeg"
          end
      end
  end.

(** The resolution of the image type as the specification words it: every
    result of either client carries the type the order of priority gives,
    for some heuristic and some hint of the response. *)
Definition imageTypeAsSpecified : Prop :=
  forall prompt apiKey model w n s res,
    completion (exec (ApiHandler.getImageFromFal prompt apiKey model) w n s) = Returned res \/
    completion (exec (ApiHandler.getImageFromReplicate prompt apiKey model) w n s)
      = Returned res ->
    exists heuristic hint,
      img_imageType res = specifiedImageType heuristic (img_url res) hint.

(** Every character of the string satisfies [P]. *)
Fixpoint everyChar (P : ascii -> Prop) (s : string) : Prop :=
  match s with
  | EmptyString => True
  | String c rest => P c /\ everyChar P rest
  end.

(** A character of a type name: a digit, a letter or an underscore. *)
Definition typeChar (c : ascii) : Prop :=
  ((48 <= nat_of_ascii c /\ nat_of_ascii c <= 57) \/
   (65 <= nat_of_ascii c /\ nat_of_ascii c <= 90) \/
   (97 <= nat_of_ascii c /\ nat_of_ascii c <= 122) \/
   nat_of_ascii c = 95)%nat.

(** A line feed or a carriage return. *)
Definition lineBreak (c : ascii) : Prop :=
  (nat_of_ascii c = 10 \/ nat_of_ascii c = 13)%nat.

(** [url] is an inline image of the type [imageType] with the base64
    payload [payload]: [data:image/<type>;base64,<payload>], the type a
    non-empty run of digits, letters and underscores, the payload non-empty
    and on one line. *)
Definition inlineImage (url imageType payload : string) : Prop :=
  url = "data:image/" ++ imageType ++ ";base64," ++ payload /\
  imageType <> "" /\ everyChar typeChar imageType /\
  payload <> "" /\ everyChar (fun c => ~ lineBreak c) payload.

(** [sub] occurs in [s]. *)
Definition occursIn (sub s : string) : Prop :=
  exists before after, s = before ++ sub ++ after.

End Traces.

(* ===================================================================== *)
(** ** The event loop: routines interleaved at their suspension points *)
(* ===================================================================== *)

Module EventLoop.
Import JS Async Background Traces.

(** [turn p s evs p' s']: resumed with the variables [s], the routine [p]
    runs without interruption, doing [evs], until it rests as [p'] (at its
    next [await], or at its end) and leaves the variables [s']. The answers
    to its synchronous queries are arbitrary. *)
Inductive turn {A : Type} : Prog A -> State -> list Event -> Prog A -> State -> Prop :=
| turn_ret : forall a s, turn (Ret a) s [] (Ret a) s
| turn_throw : forall e s, turn (Throw e) s [] (Throw e) s
| turn_await : forall c k s, turn (Await c k) s [] (Await c k) s
| turn_ask : forall q k r s evs p' s',
    turn (k r) s evs p' s' -> turn (Ask q k) s evs p' s'
| turn_emit : forall e k s evs p' s',
    turn k s evs p' s' -> turn (Emit e k) s (e :: evs) p' s'
| turn_load : forall k s evs p' s',
    turn (k s) s evs p' s' -> turn (Load k) s evs p' s'
| turn_store : forall a k s evs p' s',
    turn k (assign a s) evs p' s' -> turn (Store a k) s (Assigns a :: evs) p' s'.

(** The routine has completed (normally or by an exception nobody
    caught). *)
Definition finished {A : Type} (p : Prog A) : bool :=
  match p with
  | Ret _ | Throw _ => true
  | _ => false
  end.

(** What a turn shows of the work of a generation: the badge, the write of
    the history, the message to the page, the start of the tracing task
    and the end of the root span. *)
Definition pipelineWork (e : Event) : bool :=
  match e with
  | SetBadgeText _ | SetBadgeBackgroundColor _ | StorageLocalSet _
  | TabsSendMessage _ _ | SpawnTrace _ | EndTraceDetached _ _ => true
  | _ => false
  end.

(** The calls only a generation awaits: the query for the tab, the start
    of the root span, and the requests, readings and pauses of the two
    stages. *)
Definition pipelineCall (c : Call) : bool :=
  match c with
  | TabsQuery _ | StartTrace _ _ | Fetch _ _ | ReadJson | Sleep _ => true
  | Tick | StorageSyncGet | StorageLocalGet => false
  end.

(** Some work of a generation is among the events. *)
Definition works (evs : list Event) : bool := existsb pipelineWork evs.

(** The routine rests at a call only a generation awaits. *)
Definition awaitsPipeline {A : Type} (p : Prog A) : bool :=
  match p with
  | Await c _ => pipelineCall c
  | _ => false
  end.

(** A routine started by a message: what is left of it, whether it has
    executed [isGenerating = true] so far, and whether it has done some
    work of a generation so far. *)
Record Task : Type := {
  code : Prog unit;
  hasSetFlag : bool;
  hasWorked : bool
}.

(** A generation is in flight: a routine that has begun the work of a
    generation, or waits for one of its calls, and has not completed. The
    flag plays no part in it. *)
Definition inFlight (t : Task) : bool :=
  (hasWorked t || awaitsPipeline (code t)) && negb (finished (code t)).

(** The routine holds the lock: it has set the flag and has not
    completed. *)
Definition holdsLock (t : Task) : bool :=
  hasSetFlag t && negb (finished (code t)).

(** The service worker between two turns: the variables and the routines
    started so far. *)
Record Worker : Type := {
  vars : State;
  tasks : list Task
}.

Definition startup : Worker := {| vars := initialState; tasks := [] |}.

(** [l] with its [i]-th element replaced. *)
Fixpoint replaceNth {T : Type} (i : nat) (x : T) (l : list T) : list T :=
  match l, i with
  | [], _ => []
  | _ :: rest, O => x :: rest
  | y :: rest, S i' => y :: replaceNth i' x rest
  end.

(** One turn of the event loop, labelled with the routine that ran, what it
    did, and what it became: either a message arrives and its routine runs
    up to its first suspension, or a suspended routine is resumed with some
    reply to the call it awaits. *)
Inductive step : Worker -> nat -> list Event -> Task -> Worker -> Prop :=
| step_message : forall w message p evs p' s',
    onMessage message = Some p ->
    turn p (vars w) evs p' s' ->
    step w (length (tasks w)) evs
         {| code := p'; hasSetFlag := setsFlag evs; hasWorked := works evs |}
         {| vars := s';
            tasks := tasks w ++ [{| code := p'; hasSetFlag := setsFlag evs;
                                    hasWorked := works evs |}] |}
| step_resume : forall w i t c k r evs p' s',
    nth_error (tasks w) i = Some t ->
    code t = Await c k ->
    turn (k r) (vars w) evs p' s' ->
    step w i evs
         {| code := p'; hasSetFlag := hasSetFlag t || setsFlag evs;
            hasWorked := hasWorked t || works evs |}
         {| vars := s';
            tasks := replaceNth i {| code := p'; hasSetFlag := hasSetFlag t || setsFlag evs;
                                     hasWorked := hasWorked t || works evs |}
                                (tasks w) |}.

(** The states of the service worker that can be reached from its start. *)
Inductive reachable : Worker -> Prop :=
| reachable_startup : reachable startup
| reachable_step : forall w i evs t w',
    reachable w -> step w i evs t w' -> reachable w'.

(** The number of generations in flight. *)
Definition flying (ts : list Task) : nat :=
  length (filter inFlight ts).

(** The number of routines that hold the lock. *)
Definition holding (ts : list Task) : nat :=
  length (filter holdsLock ts).

(** *** The locking discipline *)

(** Where a routine stands with respect to the flag: it has never set it,
    it has set it and not yet cleared it, or it has cleared it. *)
Inductive Mode : Type :=
| Idle
| Holding
| Released.

(** The event assigns something else than the flag, or is no assignment. *)
Definition sparesFlag (e : Event) : Prop :=
  match e with
  | Assigns (SetIsGenerating _) => False
  | _ => True
  end.

(** [lockWp p m free Q]: run by a routine in mode [m], the program [p]
    respects the discipline and completes in a situation accepted by [Q].
    [free] records that the flag has been seen (or made) false earlier in
    the current turn. The discipline: the flag is set only by an idle
    routine that has just seen it false, cleared only by the routine that
    set it, a routine that has cleared it completes without suspending,
    and the work of a generation is done, and its calls awaited, only by a
    routine that has set the flag and not cleared it. *)
Fixpoint lockWp {A : Type} (p : Prog A) (m : Mode) (free : bool)
    (Q : Completion A -> Mode -> bool -> Prop) : Prop :=
  match p with
  | Ret a => Q (Returned a) m free
  | Throw e => Q (Threw e) m free
  | Ask q k => forall r, lockWp (k r) m free Q
  | Await c k =>
      m <> Released /\ (pipelineCall c = true -> m = Holding) /\
      forall r, lockWp (k r) m false Q
  | Emit e k =>
      sparesFlag e /\ (pipelineWork e = true -> m = Holding) /\ lockWp k m free Q
  | Load k =>
      forall s,
        (m = Holding -> isGenerating s = true) ->
        (free = true -> isGenerating s = false) ->
        lockWp (k s) m (free || negb (isGenerating s)) Q
  | Store a k =>
      match a with
      | SetIsGenerating true => m = Idle /\ free = true /\ lockWp k Holding false Q
      | SetIsGenerating false => m <> Idle /\ lockWp k Released true Q
      | _ => lockWp k m free Q
      end
  end.

(** An event that is neither work of a generation nor one of its calls. *)
Definition besidePipeline (e : Event) : Prop :=
  match e with
  | Awaits c => pipelineCall c = false
  | _ => pipelineWork e = false
  end.

(** What a mode and what has been seen of the flag say about the
    variables. *)
Definition consistent (m : Mode) (free : bool) (s : State) : Prop :=
  (m = Holding -> isGenerating s = true) /\
  (m = Released -> isGenerating s = false) /\
  (free = true -> isGenerating s = false).

(** How the mode of a routine can change in one turn, and what the turn
    then did to the flag and of the work of a generation. *)
Definition moved (m m' : Mode) (s s' : State) (evs : list Event) : Prop :=
  match m with
  | Idle =>
      (m' = Idle /\ setsFlag evs = false /\ works evs = false /\
       isGenerating s' = isGenerating s) \/
      (m' <> Idle /\ setsFlag evs = true /\ isGenerating s = false)
  | Holding => m' <> Idle /\ setsFlag evs = false
  | Released => m' = Released /\ setsFlag evs = false
  end.

(** How the body of an outer [try] may complete: by a [return] with the
    flag taken, released or not, or by an exception with the flag still
    held. *)
Definition bodyPost (c : Completion unit) (m : Mode) (free : bool) : Prop :=
  match c with
  | Returned _ => m <> Idle
  | Threw _ => m = Holding
  end.

(** A whole routine respects the discipline when, in addition, it does not
    complete while holding the flag. *)
Definition disciplined (m : Mode) (free : bool) (p : Prog unit) : Prop :=
  lockWp p m free (fun _ m' _ => m' <> Holding).

(** The mode a suspended routine is in. *)
Definition modeOf (t : Task) : Mode :=
  if hasSetFlag t then Holding else Idle.

(** The invariant of the event loop: the flag is true exactly when one
    routine holds the lock, a routine that has done work of a generation
    has set the flag, and every suspended routine respects the
    discipline. *)
Record invariant (w : Worker) : Prop := {
  inv_count : holding (tasks w) = if isGenerating (vars w) then 1%nat else 0%nat;
  inv_tasks : forall t, In t (tasks w) ->
                (hasWorked t = true -> hasSetFlag t = true) /\
                (finished (code t) = true \/
                 (exists c k, code t = Await c k) /\ disciplined (modeOf t) false (code t))
}.

End EventLoop.

(* ===================================================================== *)
(** ** Worlds for concrete scenarios *)
(* ===================================================================== *)

Module Scenario.
Import JS Async.

(** What the outside answers in a scenario: the clock at each interaction,
    the seed, the stored items, the open tabs, the trace context, and the
    answer of each service to its [n]-th interaction. *)
Record Script : Type := {
  clock : nat -> Z;
  seed : Z;
  settings : Settled Settings;
  stored : Settled (option string);
  tabIds : Settled (list Z);
  context : TraceContext;
  llmAnswer : nat -> Settled (Response LlmData);
  falAnswer : nat -> Request -> Settled (Response FalData);
  replicateAnswer : nat -> Request -> Settled (Response ReplicateData)
}.

Definition world (sc : Script) : World :=
  {| answer := fun n q =>
       match q with
       | DateNow => clock sc n
       | RandomSeed => seed sc
       end;
     reply := fun n c =>
       match c return Reply c with
       | Tick => tt
       | StorageSyncGet => settings sc
       | StorageLocalGet => stored sc
       | TabsQuery _ => tabIds sc
       | StartTrace _ _ => Fulfilled (context sc)
       | Fetch e req =>
           match e return Settled (Response (Body e)) with
           | LlmApi => llmAnswer sc n
           | FalApi => falAnswer sc n req
           | ReplicateApi => replicateAnswer sc n req
           end
       | ReadJson => tt
       | Sleep _ => tt
       end |}.

(** The same world with a trace server that answers [ok] with a body that
    is not JSON: the promise of [startTrace] is rejected. *)
Definition traceGarbled (w : World) : World :=
  {| answer := answer w;
     reply := fun n c =>
       match c return Reply c with
       | Tick => reply w n Tick
       | StorageSyncGet => reply w n StorageSyncGet
       | StorageLocalGet => reply w n StorageLocalGet
       | TabsQuery urlPattern => reply w n (TabsQuery urlPattern)
       | StartTrace _ _ => Rejected (SyntaxError "Unexpected token")
       | Fetch e req => reply w n (Fetch e req)
       | ReadJson => reply w n ReadJson
       | Sleep ms => reply w n (Sleep ms)
       end |}.

(** A successful response carrying [d]. *)
Definition okResponse {B : Type} (d : B) : Response B :=
  {| ok := true; statusText := "OK"; errorData := None; data := Some d |}.

(** A transport failure. *)
Definition networkError {T : Type} : Settled T :=
  Rejected (TypeError "Failed to fetch").

(** The settings of a fresh installation with the three credentials
    filled in. *)
Definition someSettings : Settings :=
  {| openaiApiKey := "sk-openai";
     falApiKey := "fal-secret";
     replicateApiKey := "r8-secret";
     imageModel := "fal-z-image-turbo";
     llmModel := "gpt-4o-mini";
     wandbApiKey := "";
     wandbTeam := "";
     weaveProject := "infinite-fun" |}.

Definition withImageModel (m : string) (st : Settings) : Settings :=
  {| openaiApiKey := openaiApiKey st; falApiKey := falApiKey st;
     replicateApiKey := replicateApiKey st; imageModel := m;
     llmModel := llmModel st; wandbApiKey := wandbApiKey st;
     wandbTeam := wandbTeam st; weaveProject := weaveProject st |}.

Definition withFalApiKey (k : string) (st : Settings) : Settings :=
  {| openaiApiKey := openaiApiKey st; falApiKey := k;
     replicateApiKey := replicateApiKey st; imageModel := imageModel st;
     llmModel := llmModel st; wandbApiKey := wandbApiKey st;
     wandbTeam := wandbTeam st; weaveProject := weaveProject st |}.

Definition withOpenaiApiKey (k : string) (st : Settings) : Settings :=
  {| openaiApiKey := k; falApiKey := falApiKey st;
     replicateApiKey := replicateApiKey st; imageModel := imageModel st;
     llmModel := llmModel st; wandbApiKey := wandbApiKey st;
     wandbTeam := wandbTeam st; weaveProject := weaveProject st |}.

(** The completion of the specification's scenario. *)
Definition steamCompletion : LlmData :=
  {| llm_content := Some "Steam rises...";
     llm_usage := Some {| prompt_tokens := 120; completion_tokens := 30;
                          total_tokens := 150 |} |}.

(** A FAL body with one finished image. *)
Definition falDone (imageUrl : string) : FalData :=
  {| fal_images := Some [{| fal_url := imageUrl; fal_base64 := None |}];
     fal_request_id := None;
     fal_status := "";
     fal_error := "undefined";
     fal_raw := "{}" |}.

(** A FAL body that queues the request. *)
Definition falQueuedBody (requestId : string) : FalData :=
  {| fal_images := None;
     fal_request_id := Some requestId;
     fal_status := "IN_QUEUE";
     fal_error := "undefined";
     fal_raw := "{}" |}.

(** A Replicate body that is still processing. *)
Definition replicateProcessing (getUrl : string) : ReplicateData :=
  {| rep_status := "processing";
     rep_output := None;
     rep_urls_get := Some getUrl;
     rep_error := "null";
     rep_raw := "{}" |}.

(** A Replicate body with its output. *)
Definition replicateDone (out : Output) : ReplicateData :=
  {| rep_status := "succeeded";
     rep_output := Some out;
     rep_urls_get := None;
     rep_error := "null";
     rep_raw := "{}" |}.

(** Everything goes well at the given time: the settings are complete, the
    prompt generator answers the specification's prompt, and FAL returns an
    image at once. *)
Definition sunny (time : Z) (st : Settings) : Script :=
  {| clock := fun n => (time + Z.of_nat n)%Z;
     seed := 42;
     settings := Fulfilled st;
     stored := Fulfilled None;
     tabIds := Fulfilled [7%Z];
     context := {| callId := "call-1"; traceId := "trace-1" |};
     llmAnswer := fun _ => Fulfilled (okResponse steamCompletion);
     falAnswer := fun _ _ => Fulfilled (okResponse (falDone "https://img/x.jpg"));
     replicateAnswer := fun _ _ =>
       Fulfilled (okResponse (replicateDone (OutString "https://img/y.webp"))) |}.

(** The same with a FAL that returns the given image. *)
Definition falReturns (image : FalImage) (time : Z) (st : Settings) : Script :=
  {| clock := clock (sunny time st);
     seed := 42;
     settings := Fulfilled st;
     stored := Fulfilled None;
     tabIds := Fulfilled [7%Z];
     context := context (sunny time st);
     llmAnswer := llmAnswer (sunny time st);
     falAnswer := fun _ _ =>
       Fulfilled (okResponse
         {| fal_images := Some [image];
            fal_request_id := None;
            fal_status := "";
            fal_error := "undefined";
            fal_raw := "{}" |});
     replicateAnswer := replicateAnswer (sunny time st) |}.

(** The same with a prompt generator that cannot be reached. *)
Definition llmDown (time : Z) (st : Settings) : Script :=
  {| clock := clock (sunny time st);
     seed := 42;
     settings := Fulfilled st;
     stored := Fulfilled None;
     tabIds := Fulfilled [7%Z];
     context := context (sunny time st);
     llmAnswer := fun _ => networkError;
     falAnswer := falAnswer (sunny time st);
     replicateAnswer := replicateAnswer (sunny time st) |}.

(** The same with providers that queue every request and never finish
    it. *)
Definition stuck (time : Z) (st : Settings) : Script :=
  {| clock := clock (sunny time st);
     seed := 42;
     settings := Fulfilled st;
     stored := Fulfilled None;
     tabIds := Fulfilled [7%Z];
     context := context (sunny time st);
     llmAnswer := llmAnswer (sunny time st);
     falAnswer := fun _ _ => Fulfilled (okResponse (falQueuedBody "req-1"));
     replicateAnswer := fun _ _ =>
       Fulfilled (okResponse (replicateProcessing "https://api.replicate.com/v1/predictions/p1")) |}.

(** The elements of the specification's scenario. *)
Definition fireAndWater : list Element :=
  [{| id := "1"; text := "Fire" |}; {| id := "2"; text := "Water" |}].

(** The variables with a prompt in memory and the pipeline idle. *)
Definition idleWith (previousPrompt : string) (lastTime : Z) : State :=
  {| weaveInitialized := false;
     isGenerating := false;
     lastGeneratedPrompt := previousPrompt;
     lastUpdateTime := lastTime |}.

End Scenario.

(* ===================================================================== *)
(** ** Further notions used by the theorems *)
(* ===================================================================== *)

Module Shapes.
Import JS WeaveShim Async ApiHandler Traces.

(** The value is the marker of the sanitizer. *)
Definition isMarker (v : jsval) : bool :=
  match v with
  | JStr s => String.eqb s "[REDACTED]"
  | _ => false
  end.

(** Every property under a sensitive key, at any depth the sanitizer
    reaches, already holds the marker. *)
Fixpoint alreadyRedacted (v : jsval) : bool :=
  match v with
  | JArr elems => forallb alreadyRedacted elems
  | JObj fields =>
      forallb (fun entry =>
                 match entry with
                 | (key, value) =>
                     if isSensitiveKey key then isMarker value
                     else alreadyRedacted value
                 end) fields
  | _ => true
  end.

(** No property, at any depth the sanitizer reaches, is named
    [__proto__]: every one of them is carried over. *)
Fixpoint carriesEveryField (v : jsval) : bool :=
  match v with
  | JArr elems => forallb carriesEveryField elems
  | JObj fields =>
      forallb (fun entry =>
                 match entry with
                 | (key, value) =>
                     createsProperty key &&
                     (if isSensitiveKey key then true else carriesEveryField value)
                 end) fields
  | _ => true
  end.

(** Every character is one that [\w] accepts. *)
Fixpoint allWordChars (s : string) : bool :=
  match s with
  | EmptyString => true
  | String c rest => isWordChar c && allWordChars rest
  end.

(** The number of network calls among the events. *)
Definition fetches (evs : list Event) : nat :=
  length (filter (fun e => match e with
                           | Awaits (Fetch _ _) => true
                           | _ => false
                           end) evs).

(** The number of reports to [console.error] among the events. *)
Definition reports (evs : list Event) : nat :=
  length (filter (fun e => match e with
                           | ConsoleError _ _ => true
                           | _ => false
                           end) evs).

(** Whatever the world answers, the program makes at most [budget]
    network calls. *)
Fixpoint atMostFetches {A : Type} (budget : nat) (p : Prog A) : Prop :=
  match p with
  | Ret _ => True
  | Throw _ => True
  | Ask q k => forall r, atMostFetches budget (k r)
  | Await c k =>
      match c with
      | Fetch _ _ =>
          match budget with
          | O => False
          | S budget' => forall r, atMostFetches budget' (k r)
          end
      | _ => forall r, atMostFetches budget (k r)
      end
  | Emit e k =>
      match e with
      | Awaits (Fetch _ _) => False
      | _ => atMostFetches budget k
      end
  | Load k => forall s, atMostFetches budget (k s)
  | Store a k => atMostFetches budget k
  end.

(** The event is no report to [console.error]. *)
Definition noReport (e : Event) : Prop :=
  match e with
  | ConsoleError _ _ => False
  | _ => True
  end.

(** The run has reported its failure, if it failed: a run that returns has
    reported no error, and a run that throws [e] ends with the one report
    it makes, [console.error(message, e)]. *)
Definition reportsItsError {A : Type} (message : string) (r : Run A) : Prop :=
  match completion r with
  | Returned _ => reports (events r) = 0
  | Threw e =>
      exists before,
        events r = (before ++ [ConsoleError message e])%list /\ reports before = 0
  end.

(** The texts given to the badge, in order. *)
Fixpoint badges (evs : list Event) : list string :=
  match evs with
  | [] => []
  | SetBadgeText text :: rest => text :: badges rest
  | _ :: rest => badges rest
  end.

(** The prompts written to [chrome.storage.local], in order. *)
Fixpoint written (evs : list Event) : list string :=
  match evs with
  | [] => []
  | StorageLocalSet p :: rest => p :: written rest
  | _ :: rest => written rest
  end.

(** The messages sent to the page, in order, each with its tab. *)
Fixpoint sent (evs : list Event) : list (Z * RenderMessage) :=
  match evs with
  | [] => []
  | TabsSendMessage tabId message :: rest => (tabId, message) :: sent rest
  | _ :: rest => sent rest
  end.

(** The event shows neither on the badge, nor in the storage, nor on the
    page. *)
Definition quietEvent (e : Event) : Prop :=
  match e with
  | SetBadgeText _ | StorageLocalSet _ | TabsSendMessage _ _ => False
  | _ => True
  end.

(** The calls of [weave.init] among the events: the project and the key
    of each. *)
Fixpoint inits (evs : list Event) : list (string * string) :=
  match evs with
  | [] => []
  | WeaveInit projectId apiKey :: rest => (projectId, apiKey) :: inits rest
  | _ :: rest => inits rest
  end.

(** The event neither calls [weave.init] nor assigns [weaveInitialized]. *)
Definition initFree (e : Event) : Prop :=
  match e with
  | WeaveInit _ _ => False
  | Assigns (SetWeaveInitialized _) => False
  | _ => True
  end.

(** The interaction at which the [j]-th request to the status endpoint
    (counted from 0) is answered, in a run of [getImageFromFal] started at
    interaction [n]: the seed, the submit request and its body come first,
    and every round is a pause, the request and its body. *)
Definition falPollAt (n j : nat) : nat := n + 4 + 3 * j.

(** The same for [getImageFromReplicate], which draws no seed. *)
Definition replicatePollAt (n j : nat) : nat := n + 3 + 3 * j.

End Shapes.

(* ===================================================================== *)
(** ** More worlds *)
(* ===================================================================== *)

Module Episodes.
Import JS Async Scenario.

(** A FAL status body that reports completion with one image. *)
Definition falCompletedBody (imageUrl : string) : FalData :=
  {| fal_images := Some [{| fal_url := imageUrl; fal_base64 := None |}];
     fal_request_id := None;
     fal_status := "COMPLETED";
     fal_error := "undefined";
     fal_raw := "{}" |}.

(** Providers that queue every request and finish it at the interaction
    [ready]: until then every answer says the request is in progress. *)
Definition slow (ready : nat) (time : Z) (st : Settings) : Script :=
  {| clock := clock (sunny time st);
     seed := 42;
     settings := Fulfilled st;
     stored := Fulfilled None;
     tabIds := Fulfilled [7%Z];
     context := context (sunny time st);
     llmAnswer := llmAnswer (sunny time st);
     falAnswer := fun n _ =>
       if (n <? ready)%nat
       then Fulfilled (okResponse (falQueuedBody "req-1"))
       else Fulfilled (okResponse (falCompletedBody "https://img/late.jpg"));
     replicateAnswer := fun n _ =>
       if (n <? ready)%nat
       then Fulfilled (okResponse
              (replicateProcessing "https://api.replicate.com/v1/predictions/p1"))
       else Fulfilled (okResponse (replicateDone (OutString "https://img/late.webp"))) |}.

End Episodes.

(* ===================================================================== *)
(** ** weaveShim.js: the trace client *)
(* ===================================================================== *)

(** The functions of weaveShim.js that background.js calls ([init],
    [startTrace], [endTrace], [startChildSpan], [endChildSpan]), the
    request they share ([apiCall]) and the [op] wrapper. A function of the
    shim is a [Task]: it runs from the module-level variables of the shim,
    asks the outside world in turn, and yields its completion together with
    the variables at the end and what it did. [console.log] is left out;
    warnings and errors are kept. The programs of background.js above take
    a call of [startTrace] to yield a context; when it throws instead is
    settled here. *)
Module WeaveClient.
Import JS WeaveShim Async.

Definition WEAVE_API_URL : string := "https://trace.wandb.ai".

(** *** [btoa] *)

(** The character of the Base64 alphabet that stands for a 6-bit value. *)
Definition base64Digit (n : N) : ascii :=
  if (n <? 26)%N then ascii_of_N (65 + n)
  else if (n <? 52)%N then ascii_of_N (97 + (n - 26))
  else if (n <? 62)%N then ascii_of_N (48 + (n - 52))
  else if (n =? 62)%N then "+"%char
  else "/"%char.

(** [btoa(binary)]: three characters become four digits; one or two
    characters left over are padded with [=]. *)
Fixpoint btoa (binary : string) : string :=
  match binary with
  | EmptyString => ""
  | String a EmptyString =>
      let x := N_of_ascii a in
      String (base64Digit (x / 4))
        (String (base64Digit ((x mod 4) * 16)) "==")
  | String a (String b EmptyString) =>
      let x := N_of_ascii a in
      let y := N_of_ascii b in
      String (base64Digit (x / 4))
        (String (base64Digit ((x mod 4) * 16 + y / 16))
           (String (base64Digit ((y mod 16) * 4)) "="))
  | String a (String b (String c rest)) =>
      let x := N_of_ascii a in
      let y := N_of_ascii b in
      let z := N_of_ascii c in
      String (base64Digit (x / 4))
        (String (base64Digit ((x mod 4) * 16 + y / 16))
           (String (base64Digit ((y mod 16) * 4 + z / 64))
              (String (base64Digit (z mod 64)) (btoa rest))))
  end.

(** *** The chunked conversion of the image bytes *)

Definition chunkSize : N := 32768.

(** [bytes.subarray(begin, end)] for [begin <= end <= bytes.length]. *)
Definition subarray (bytes : list ascii) (begin end_ : N) : list ascii :=
  firstn (N.to_nat (end_ - begin)) (skipn (N.to_nat begin) bytes).

(** [String.fromCharCode.apply(null, chunk)] *)
Definition fromCharCode (chunk : list ascii) : string := string_of_list_ascii chunk.

(** The [for] loop that builds [binary], from the index [i] on; [fuel]
    bounds the number of iterations. *)
Fixpoint appendChunks (fuel : nat) (bytes : list ascii) (i : N) (binary : string)
  : string :=
  match fuel with
  | O => binary
  | S fuel' =>
      if (i <? N.of_nat (length bytes))%N then
        let chunk := subarray bytes i (N.min (i + chunkSize) (N.of_nat (length bytes))) in
        appendChunks fuel' bytes (i + chunkSize)%N (binary ++ fromCharCode chunk)
      else binary
  end.

(** [binary] once the loop is left: one iteration per byte is more than the
    loop ever makes. *)
Definition binaryString (bytes : list ascii) : string :=
  appendChunks (S (length bytes)) bytes 0 "".

(** *** The variables of the module and the outside world *)

(** A trace context: [{callId, traceId, parentId, name, startTime}]
    ([parentId] is absent from the context of a root span). *)
Record Context : Type := {
  ctx_callId : string;
  ctx_traceId : string;
  ctx_parentId : option string;
  ctx_name : string;
  ctx_startTime : Z
}.

(** [_apiKey], [_projectId] and [_activeTrace] ([None]: [null] or
    [undefined]). *)
Record Shim : Type := {
  _apiKey : option string;
  _projectId : option string;
  _activeTrace : option Context
}.

(** The variables when the module is loaded. *)
Definition loaded : Shim :=
  {| _apiKey := None; _projectId := None; _activeTrace := None |}.

(** The body of a response of the trace server as the shim reads it:
    [result?.id] and [result?.trace_id] when they are strings. *)
Record CallData : Type := {
  call_id : option string;
  call_trace_id : option string
}.

(** A response of the trace server: [trace_text] is what [text()] settles
    to, [trace_json] what [json()] resolves to ([None]: the body does not
    parse, the promise is rejected). *)
Record TraceResponse : Type := {
  trace_ok : bool;
  trace_status : Z;
  trace_text : Settled string;
  trace_json : option CallData
}.

(** A response to the request for the image: [image_contentType] is
    [headers.get('content-type')], [image_arrayBuffer] what [arrayBuffer()]
    settles to. *)
Record ImageResponse : Type := {
  image_ok : bool;
  image_status : Z;
  image_contentType : option string;
  image_arrayBuffer : Settled (list ascii)
}.

(** What is printed after the label of a warning or an error. *)
Inductive Detail : Type :=
| NoDetail
| Status (status : Z)
| StatusAndText (status : Z) (text : string)
| Thrown (e : Exn).

(** What a task does: the requests it makes and what it prints. The
    payload of a request is the object given to [JSON.stringify]. [Calls]
    is a call of [apiCall] that is started and not awaited. *)
Inductive Effect : Type :=
| Posts (url authorization : string) (payload : jsval)
| FetchesImage (url : string)
| Calls (endpoint : string) (payload : jsval)
| Warned (label : string) (detail : Detail)
| Errored (label : string) (detail : Detail).

(** The outside world: what the [n]-th question of a task is answered. *)
Record Outside : Type := {
  randomUUID : nat -> string;
  toISOString : nat -> string;
  dateNow : nat -> Z;
  traceServer : nat -> string -> string -> jsval -> Settled TraceResponse;
  imageServer : nat -> string -> Settled ImageResponse
}.

(** How a task ends. *)
Record Outcome (A : Type) : Type := {
  result : Completion A;
  shim : Shim;
  asked : nat;
  effects : list Effect
}.
Arguments result {A} _.
Arguments shim {A} _.
Arguments asked {A} _.
Arguments effects {A} _.

(** A task: from the outside world, the variables of the module and the
    number of questions asked so far. *)
Definition Task (A : Type) : Type := Outside -> Shim -> nat -> Outcome A.

Definition value {A : Type} (a : A) : Task A :=
  fun _ s n => {| result := Returned a; shim := s; asked := n; effects := [] |}.

Definition throw {A : Type} (e : Exn) : Task A :=
  fun _ s n => {| result := Threw e; shim := s; asked := n; effects := [] |}.

Definition andThen {A B : Type} (t : Task A) (k : A -> Task B) : Task B :=
  fun o s n =>
    match t o s n with
    | {| result := Returned a; shim := s'; asked := n'; effects := done |} =>
        match k a o s' n' with
        | {| result := res; shim := s''; asked := n''; effects := more |} =>
            {| result := res; shim := s''; asked := n''; effects := done ++ more |}
        end
    | {| result := Threw e; shim := s'; asked := n'; effects := done |} =>
        {| result := Threw e; shim := s'; asked := n'; effects := done |}
    end.

(** [try { t } catch (e) { h e }] *)
Definition catch {A : Type} (t : Task A) (h : Exn -> Task A) : Task A :=
  fun o s n =>
    match t o s n with
    | {| result := Returned a; shim := s'; asked := n'; effects := done |} =>
        {| result := Returned a; shim := s'; asked := n'; effects := done |}
    | {| result := Threw e; shim := s'; asked := n'; effects := done |} =>
        match h e o s' n' with
        | {| result := res; shim := s''; asked := n''; effects := more |} =>
            {| result := res; shim := s''; asked := n''; effects := done ++ more |}
        end
    end.

Declare Scope task_scope.
Delimit Scope task_scope with task.
Bind Scope task_scope with Task.
Notation "x <- t ;; k" := (andThen t (fun x => k))
  (at level 61, t at next level, right associativity) : task_scope.
Notation "t ;; k" := (andThen t (fun _ => k))
  (at level 61, right associativity) : task_scope.
Local Open Scope task_scope.

Definition getShim : Task Shim :=
  fun _ s n => {| result := Returned s; shim := s; asked := n; effects := [] |}.

Definition setShim (s' : Shim) : Task unit :=
  fun _ _ n => {| result := Returned tt; shim := s'; asked := n; effects := [] |}.

Definition effect (e : Effect) : Task unit :=
  fun _ s n => {| result := Returned tt; shim := s; asked := n; effects := [e] |}.

(** A promise that is awaited. *)
Definition settled {T : Type} (r : Settled T) : Task T :=
  match r with
  | Fulfilled v => value v
  | Rejected e => throw e
  end.

(** [crypto.randomUUID()] *)
Definition generateId : Task string :=
  fun o s n => {| result := Returned (randomUUID o n); shim := s; asked := S n;
                  effects := [] |}.

(** [new Date().toISOString()] *)
Definition toISODateTime : Task string :=
  fun o s n => {| result := Returned (toISOString o n); shim := s; asked := S n;
                  effects := [] |}.

(** [Date.now()] *)
Definition now : Task Z :=
  fun o s n => {| result := Returned (dateNow o n); shim := s; asked := S n;
                  effects := [] |}.

(** [await fetch(WEAVE_API_URL + endpoint, {method: 'POST', ...})] *)
Definition post (endpoint authorization : string) (payload : jsval)
  : Task TraceResponse :=
  fun o s n =>
    let url := WEAVE_API_URL ++ endpoint in
    {| result := match traceServer o n url authorization payload with
                 | Fulfilled response => Returned response
                 | Rejected e => Threw e
                 end;
       shim := s; asked := S n;
       effects := [Posts url authorization payload] |}.

(** [await fetch(imageUrl)] *)
Definition fetchImage (imageUrl : string) : Task ImageResponse :=
  fun o s n =>
    {| result := match imageServer o n imageUrl with
                 | Fulfilled response => Returned response
                 | Rejected e => Threw e
                 end;
       shim := s; asked := S n;
       effects := [FetchesImage imageUrl] |}.

(** *** The functions of the shim *)

(** [init(project, options)] with [options.apiKey] *)
Definition init (project : string) (apiKey : option string) : Task unit :=
  s <- getShim ;;
  setShim {| _apiKey := apiKey; _projectId := Some project;
             _activeTrace := _activeTrace s |}.

(** A parameter with a default value: the default stands in for
    [undefined]. *)
Definition orDefault (v default : jsval) : jsval :=
  match v with
  | JUndefined => default
  | _ => v
  end.

(** A variable that holds a string or [null], as a value. *)
Definition orNull (o : option string) : jsval :=
  match o with
  | Some s => JStr s
  | None => JNull
  end.

(** [a || b] for an optional string [a]. *)
Definition orElse (a : option string) (b : string) : string :=
  match a with
  | Some s => if nonEmpty s then s else b
  | None => b
  end.

(** [apiCall(endpoint, payload)]. The [try] covers the request and the
    reading of a failed response; [return response.json()] hands the
    promise of the body back without awaiting it, so a body that does not
    parse rejects the call after the [try] is left. *)
Definition apiCall (endpoint : string) (payload : jsval) : Task (option CallData) :=
  s <- getShim ;;
  if negb (truthyStr (_apiKey s)) then value None else
  response <-
    catch
      (let basicAuth := btoa ("api:" ++ match _apiKey s with
                                        | Some k => k
                                        | None => ""
                                        end) in
       response <- post endpoint ("Basic " ++ basicAuth) payload ;;
       if negb (trace_ok response) then
         errorText <- settled (trace_text response) ;;
         effect (Errored ("[WeaveShim] API Error " ++ endpoint ++ ":")
                   (StatusAndText (trace_status response) errorText)) ;;
         value None
       else value (Some response))
      (fun e =>
         effect (Errored ("[WeaveShim] Network Error " ++ endpoint ++ ":") (Thrown e)) ;;
         value None) ;;
  match response with
  | None => value None
  | Some response =>
      match trace_json response with
      | Some data => value (Some data)
      | None => throw (SyntaxError "Unexpected token")
      end
  end.

(** [result?.id] and [result?.trace_id] *)
Definition resultId (result : option CallData) : option string :=
  match result with
  | Some data => call_id data
  | None => None
  end.

Definition resultTraceId (result : option CallData) : option string :=
  match result with
  | Some data => call_trace_id data
  | None => None
  end.

(** [startTrace(name, inputs)] *)
Definition startTrace (name : string) (inputs : jsval) : Task Context :=
  let inputs := orDefault inputs (JObj []) in
  callId <- generateId ;;
  traceId <- generateId ;;
  s <- getShim ;;
  startedAt <- toISODateTime ;;
  let payload :=
    JObj [("start",
           JObj [("project_id", orNull (_projectId s));
                 ("id", JStr callId);
                 ("trace_id", JStr traceId);
                 ("op_name", JStr name);
                 ("started_at", JStr startedAt);
                 ("inputs", sanitizeInputs inputs);
                 ("attributes", JObj [])])] in
  result <- apiCall "/call/start" payload ;;
  startTime <- now ;;
  let context :=
    {| ctx_callId := orElse (resultId result) callId;
       ctx_traceId := orElse (resultTraceId result) traceId;
       ctx_parentId := None;
       ctx_name := name;
       ctx_startTime := startTime |} in
  s' <- getShim ;;
  setShim {| _apiKey := _apiKey s'; _projectId := _projectId s';
             _activeTrace := Some context |} ;;
  value context.

(** The payload that ends a call. *)
Definition endPayload (projectId : option string) (callId endedAt : string)
    (output summary : jsval) : jsval :=
  JObj [("end",
         JObj [("project_id", orNull projectId);
               ("id", JStr callId);
               ("ended_at", JStr endedAt);
               ("output", output);
               ("summary", summary)])].

(** [_activeTrace?.callId === context.callId] *)
Definition isActive (s : Shim) (context : Context) : bool :=
  match _activeTrace s with
  | Some active => String.eqb (ctx_callId active) (ctx_callId context)
  | None => false
  end.

(** [endTrace(context, output, summary)] *)
Definition endTrace (context : Context) (output summary : jsval) : Task unit :=
  let output := orDefault output (JObj []) in
  let summary := orDefault summary (JObj []) in
  s <- getShim ;;
  endedAt <- toISODateTime ;;
  apiCall "/call/end"
    (endPayload (_projectId s) (ctx_callId context) endedAt output summary) ;;
  s' <- getShim ;;
  if isActive s' context
  then setShim {| _apiKey := _apiKey s'; _projectId := _projectId s';
                  _activeTrace := None |}
  else value tt.

(** [parentContext || _activeTrace] *)
Definition parentOf (parentContext : option Context) (s : Shim) : option Context :=
  match parentContext with
  | Some parent => Some parent
  | None => _activeTrace s
  end.

(** [startChildSpan(name, inputs, parentContext)] *)
Definition startChildSpan (name : string) (inputs : jsval)
    (parentContext : option Context) : Task Context :=
  let inputs := orDefault inputs (JObj []) in
  s <- getShim ;;
  match parentOf parentContext s with
  | None =>
      effect (Warned "[WeaveShim] No active trace for child span, starting standalone"
                NoDetail) ;;
      startTrace name inputs
  | Some parent =>
      callId <- generateId ;;
      s <- getShim ;;
      startedAt <- toISODateTime ;;
      let payload :=
        JObj [("start",
               JObj [("project_id", orNull (_projectId s));
                     ("id", JStr callId);
                     ("trace_id", JStr (ctx_traceId parent));
                     ("parent_id", JStr (ctx_callId parent));
                     ("op_name", JStr name);
                     ("started_at", JStr startedAt);
                     ("inputs", sanitizeInputs inputs);
                     ("attributes", JObj [])])] in
      result <- apiCall "/call/start" payload ;;
      startTime <- now ;;
      value {| ctx_callId := orElse (resultId result) callId;
               ctx_traceId := ctx_traceId parent;
               ctx_parentId := Some (ctx_callId parent);
               ctx_name := name;
               ctx_startTime := startTime |}
  end.

(** A value in a condition. *)
Definition truthy (v : jsval) : bool :=
  match v with
  | JUndefined | JNull => false
  | JBool b => b
  | JNum n => negb (n =? 0)%Z
  | JStr s => nonEmpty s
  | JArr _ | JObj _ => true
  end.

(** [endChildSpan(context, output, usage)] *)
Definition endChildSpan (context : Context) (output usage : jsval) : Task unit :=
  let output := orDefault output (JObj []) in
  let usage := orDefault usage JNull in
  let summary := JObj (if truthy usage then [("usage", usage)] else []) in
  s <- getShim ;;
  endedAt <- toISODateTime ;;
  apiCall "/call/end"
    (endPayload (_projectId s) (ctx_callId context) endedAt output summary) ;;
  value tt.

(** The payload that ends a call with an exception. *)
Definition exceptionPayload (projectId : option string) (callId endedAt : string)
    (error : Exn) : jsval :=
  JObj [("end",
         JObj [("project_id", orNull projectId);
               ("id", JStr callId);
               ("ended_at", JStr endedAt);
               ("exception", JStr (exnToString error));
               ("summary", JObj [])])].

(** The function [op(name, func)] returns, applied to [args]: [func] is
    any task that yields a value. *)
Definition tracedOp (name : string) (func : list jsval -> Task jsval)
    (args : list jsval) : Task jsval :=
  context <- startChildSpan name (JObj [("args", sanitizeInputs (JArr args))]) None ;;
  catch
    (result <- func args ;;
     endChildSpan context result JNull ;;
     value result)
    (fun error =>
       s <- getShim ;;
       endedAt <- toISODateTime ;;
       apiCall "/call/end"
         (exceptionPayload (_projectId s) (ctx_callId context) endedAt error) ;;
       throw error).

(** [v.k] for a value that is neither [null] nor [undefined]: only an
    object of the payloads has properties of its own. *)
Definition getProp (v : jsval) (k : string) : jsval :=
  match v with
  | JObj fields =>
      match lookupField k fields with
      | Some x => x
      | None => JUndefined
      end
  | _ => JUndefined
  end.

(** [v.k] as an expression: reading a property of [null] or [undefined]
    throws, with the message of Chrome. *)
Definition readProp (v : jsval) (k : string) : Task jsval :=
  match v with
  | JNull =>
      throw (TypeError ("Cannot read properties of null (reading '" ++ k ++ "')"))
  | JUndefined =>
      throw (TypeError ("Cannot read properties of undefined (reading '" ++ k ++ "')"))
  | _ => value (getProp v k)
  end.

(** [a || b] *)
Definition orValue (a b : jsval) : jsval := if truthy a then a else b.

(** The usage of a result under the name of the model, as [traceLLMCall]
    formats it. *)
Definition formatUsage (model : string) (usage : jsval) : jsval :=
  JObj [(model,
         JObj [("prompt_tokens", orValue (getProp usage "prompt_tokens") (JNum 0));
               ("completion_tokens",
                orValue (getProp usage "completion_tokens") (JNum 0));
               ("total_tokens", orValue (getProp usage "total_tokens") (JNum 0));
               ("requests", JNum 1)])].

(** What [traceLLMCall] makes of the result of the call: the [output] and
    the [usage] it hands to [endChildSpan]. *)
Definition llmReport (model : string) (result : jsval) : Task (jsval * jsval) :=
  prompt <- readProp result "prompt" ;;
  content <- (if truthy prompt then value prompt
              else content <- readProp result "content" ;;
                   value (orValue content result)) ;;
  let output :=
    JObj [("choices", JArr [JObj [("message", JObj [("content", content)])]])] in
  resultUsage <- readProp result "usage" ;;
  let usage := if truthy resultUsage then formatUsage model resultUsage else JNull in
  value (output, usage).

(** [traceLLMCall(model, messages, llmCall, parentContext)]: [llmCall] is
    any task that yields a value. *)
Definition traceLLMCall (model : string) (messages : jsval) (llmCall : Task jsval)
    (parentContext : option Context) : Task jsval :=
  context <- startChildSpan "llm_completion"
               (JObj [("messages", messages); ("model", JStr model)])
               parentContext ;;
  catch
    (result <- llmCall ;;
     report <- llmReport model result ;;
     endChildSpan context (fst report) (snd report) ;;
     value result)
    (fun error =>
       s <- getShim ;;
       endedAt <- toISODateTime ;;
       apiCall "/call/end"
         (exceptionPayload (_projectId s) (ctx_callId context) endedAt error) ;;
       throw error).

End WeaveClient.

(* ===================================================================== *)
(** ** weaveShim.js, the older copy: the wrapper [op] *)
(* ===================================================================== *)

(** The older [op] starts its two calls of [apiCall] and does not await
    them. [toISODateTime] stands for
    [toISODateTime(Date.now() / 1000)]. *)
Module LegacyClient.
Import JS WeaveShim Async WeaveClient.
Local Open Scope task_scope.

(** [inputs]: the arguments under [arg0], [arg1], ..., each through the
    inline sanitizer. *)
Fixpoint inputsFrom (i : nat) (args : list jsval) : list (string * jsval) :=
  match args with
  | [] => []
  | arg :: rest =>
      ("arg" ++ NilEmpty.string_of_uint (Nat.to_uint i), Legacy.sanitizeArg arg)
      :: inputsFrom (S i) rest
  end.

(** [result && result._weaveUsage] *)
Definition weaveUsage (result : jsval) : jsval :=
  if truthy result then getProp result "_weaveUsage" else result.

(** [delete object[k]] *)
Fixpoint deleteField (k : string) (fields : list (string * jsval))
  : list (string * jsval) :=
  match fields with
  | [] => []
  | (k', v) :: rest =>
      if String.eqb k k' then deleteField k rest else (k', v) :: deleteField k rest
  end.

(** The result once [delete result._weaveUsage] has run, when it runs. *)
Definition withoutUsage (result : jsval) : jsval :=
  if truthy (weaveUsage result) then
    match result with
    | JObj fields => JObj (deleteField "_weaveUsage" fields)
    | _ => result
    end
  else result.

(** The function [op(name, func)] returns, applied to [args]. *)
Definition tracedOp (name : string) (func : list jsval -> Task jsval)
    (args : list jsval) : Task jsval :=
  callId <- generateId ;;
  traceId <- generateId ;;
  startedAt <- toISODateTime ;;
  let inputs := JObj (inputsFrom 0 args) in
  s <- getShim ;;
  effect (Calls "/call/start"
            (JObj [("start",
                    JObj [("project_id", orNull (_projectId s));
                          ("id", JStr callId);
                          ("trace_id", JStr traceId);
                          ("op_name", JStr name);
                          ("started_at", JStr startedAt);
                          ("attributes",
                           JObj [("weave",
                                  JObj [("client_version",
                                         JStr "browser-shim-1.0")])]);
                          ("inputs", inputs)])])) ;;
  catch
    (result <- func args ;;
     let summary :=
       JObj (if truthy (weaveUsage result)
             then [("usage", weaveUsage result)] else []) in
     let result := withoutUsage result in
     s <- getShim ;;
     endedAt <- toISODateTime ;;
     effect (Calls "/call/end"
               (endPayload (_projectId s) callId endedAt result summary)) ;;
     value result)
    (fun error =>
       s <- getShim ;;
       endedAt <- toISODateTime ;;
       effect (Calls "/call/end"
                 (exceptionPayload (_projectId s) callId endedAt error)) ;;
       throw error).

End LegacyClient.

(* ===================================================================== *)
(** ** background.js: the detached tracing tasks *)
(* ===================================================================== *)

(** The two [async] functions that the orchestrators start, and do not
    await, once the page has the image. *)
Module TraceTask.
Import JS WeaveShim Async Background WeaveClient.
Local Open Scope task_scope.

(** [{ _weaveType: 'Image', data: dataUri, imageType: traceImageType }] *)
Definition weaveImage (dataUri traceImageType : string) : jsval :=
  JObj [("_weaveType", JStr "Image"); ("data", JStr dataUri);
        ("imageType", JStr traceImageType)].

(** The block that fetches the image when the client delivered no Base64
    data: it leaves [traceBase64] and [traceImageType] assigned or as they
    were. The type is assigned before the body is read, so it stays
    assigned when the reading fails. *)
Definition fetchForTrace (imageUrl : string) (imageBase64 : option string)
    (imageType : string) : Task (option string * string) :=
  catch
    (imgResponse <- fetchImage imageUrl ;;
     if image_ok imgResponse then
       let contentType := match image_contentType imgResponse with
                          | Some c => if nonEmpty c then c else ""
                          | None => ""
                          end in
       let traceImageType := traceImageType contentType imageUrl in
       catch
         (bytes <- settled (image_arrayBuffer imgResponse) ;;
          value (Some (btoa (binaryString bytes)), traceImageType))
         (fun fetchErr =>
            effect (Warned "[Weave] Could not fetch image:" (Thrown fetchErr)) ;;
            value (imageBase64, traceImageType))
     else
       effect (Warned "[Weave] Fetch failed:" (Status (image_status imgResponse))) ;;
       value (imageBase64, imageType))
    (fun fetchErr =>
       effect (Warned "[Weave] Could not fetch image:" (Thrown fetchErr)) ;;
       value (imageBase64, imageType)).

(** [traceBase64] and [traceImageType] when the spans are written. *)
Definition traceImage (imageResult : ImageResult) : Task (option string * string) :=
  if negb (truthyStr (img_base64 imageResult)) && nonEmpty (img_url imageResult)
  then fetchForTrace (img_url imageResult) (img_base64 imageResult)
         (img_imageType imageResult)
  else value (img_base64 imageResult, img_imageType imageResult).

(** [dataUri] *)
Definition dataUri (traceBase64 : option string) (traceImageType : string)
  : option string :=
  if truthyStr traceBase64
  then Some ("data:image/" ++ traceImageType ++ ";base64," ++
             match traceBase64 with Some b => b | None => "" end)
  else None.

(** The entry [image] that is added to an output when there is a data
    URI. *)
Definition imageEntry (traceBase64 : option string) (traceImageType : string)
  : list (string * jsval) :=
  match dataUri traceBase64 traceImageType with
  | Some uri => [("image", weaveImage uri traceImageType)]
  | None => []
  end.

(** The usage of the model under its name. *)
Definition usageOf (llmModel : string) (u : Usage) : jsval :=
  JObj [(llmModel,
         JObj [("prompt_tokens", JNum (prompt_tokens u));
               ("completion_tokens", JNum (completion_tokens u));
               ("total_tokens", JNum (total_tokens u));
               ("requests", JNum 1)])].

Definition tracerPrompt : string :=
  "You are a Master Visual Storyteller creating vivid, cinematic image prompts from Infinite Craft elements.".

(** The detached task of [handleUpdateTexts]. *)
Definition updateTraceTask (texts : list Element) (settings : Settings)
    (llmResult : PromptResult) (imageResult : ImageResult)
    (traceContext : Context) : Task unit :=
  let elementNames := join ", " (map text texts) in
  let prompt := prompt llmResult in
  catch
    (traced <- traceImage imageResult ;;
     let traceBase64 := fst traced in
     let traceImageType := snd traced in
     let messages :=
       JArr [JObj [("role", JStr "system"); ("content", JStr tracerPrompt)];
             JObj [("role", JStr "user");
                   ("content", JStr ("Elements: " ++ elementNames))]] in
     llmContext <- startChildSpan "llm_completion"
                     (JObj [("messages", messages);
                            ("model", JStr (llmModel settings))])
                     (Some traceContext) ;;
     endChildSpan llmContext
       (JObj [("choices",
               JArr [JObj [("message", JObj [("content", JStr prompt)])]])])
       (match usage llmResult with
        | Some u => usageOf (llmModel settings) u
        | None => JNull
        end) ;;
     imgContext <- startChildSpan "image_generation"
                     (JObj [("prompt", JStr prompt);
                            ("model", JStr (imageModel settings))])
                     (Some traceContext) ;;
     endChildSpan imgContext
       (JObj ([("model", JStr (imageModel settings));
               ("image_url", JStr (img_url imageResult))] ++
              imageEntry traceBase64 traceImageType))
       JNull ;;
     endTrace traceContext
       (JObj ([("prompt", JStr prompt);
               ("image_model", JStr (imageModel settings))] ++
              imageEntry traceBase64 traceImageType))
       (JObj [("usage",
               match usage llmResult with
               | Some u => usageOf (llmModel settings) u
               | None => JObj []
               end)]))
    (fun traceError =>
       effect (Errored "[Weave] Background tracing error:" (Thrown traceError))).

(** The detached task of [handleRegenerateImage]; [lastGeneratedPrompt] is
    the variable of background.js as the task reads it. *)
Definition regenerateTraceTask (settings : Settings) (lastGeneratedPrompt : string)
    (imageResult : ImageResult) (traceContext : Context) : Task unit :=
  catch
    (traced <- traceImage imageResult ;;
     let traceBase64 := fst traced in
     let traceImageType := snd traced in
     imgContext <- startChildSpan "image_generation"
                     (JObj [("prompt", JStr lastGeneratedPrompt);
                            ("model", JStr (imageModel settings))])
                     (Some traceContext) ;;
     endChildSpan imgContext
       (JObj ([("model", JStr (imageModel settings));
               ("image_url", JStr (img_url imageResult))] ++
              imageEntry traceBase64 traceImageType))
       JNull ;;
     endTrace traceContext
       (JObj ([("image_model", JStr (imageModel settings))] ++
              imageEntry traceBase64 traceImageType))
       (JObj []))
    (fun traceError =>
       effect (Errored "[Weave] Regenerate tracing error:" (Thrown traceError))).

End TraceTask.

(* ===================================================================== *)
(** ** Notions about the tasks of the trace client *)
(* ===================================================================== *)

Module TraceShapes.
Import JS WeaveShim Async WeaveClient TraceTask.

(** The requests to the trace server among the effects, in order: URL,
    credentials and payload. *)
Fixpoint posts (effs : list Effect) : list (string * string * jsval) :=
  match effs with
  | [] => []
  | Posts url authorization payload :: rest => (url, authorization, payload) :: posts rest
  | _ :: rest => posts rest
  end.

(** The calls of [apiCall] that were started and not awaited, in order. *)
Fixpoint calls (effs : list Effect) : list (string * jsval) :=
  match effs with
  | [] => []
  | Calls endpoint payload :: rest => (endpoint, payload) :: calls rest
  | _ :: rest => calls rest
  end.

(** The URLs of the images requested, in order. *)
Fixpoint imageFetches (effs : list Effect) : list string :=
  match effs with
  | [] => []
  | FetchesImage url :: rest => url :: imageFetches rest
  | _ :: rest => imageFetches rest
  end.

(** The task ended without an exception. *)
Definition returned {A : Type} (r : Outcome A) : bool :=
  match result r with
  | Returned _ => true
  | Threw _ => false
  end.

(** The trace server answers a request with a response that is [ok] and
    whose body does not parse. *)
Definition garbles (o : Outside) : Prop :=
  exists n url authorization payload response,
    traceServer o n url authorization payload = Fulfilled response /\
    trace_ok response = true /\ trace_json response = None.

(** The task leaves [_apiKey] and [_projectId] as they are and makes at
    most [posted] requests to the trace server and [fetched] requests for
    an image, wherever it is started. *)
Definition within (posted fetched : nat) {A : Type} (t : Task A) : Prop :=
  forall o s n,
    let r := t o s n in
    _apiKey (shim r) = _apiKey s /\
    _projectId (shim r) = _projectId s /\
    length (posts (effects r)) <= posted /\
    length (imageFetches (effects r)) <= fetched.

(** Started without a key, the task returns and has sent nothing to the
    trace server. *)
Definition silentWithoutKey {A : Type} (t : Task A) : Prop :=
  forall o s n,
    truthyStr (_apiKey s) = false ->
    let r := t o s n in
    returned r = true /\ posts (effects r) = [] /\ _apiKey (shim r) = _apiKey s.

(** The task throws only what a body that does not parse makes [apiCall]
    throw, and only when the trace server garbles. *)
Definition throwsOnlyGarbled {A : Type} (t : Task A) : Prop :=
  forall o s n e,
    result (t o s n) = Threw e ->
    e = SyntaxError "Unexpected token" /\ truthyStr (_apiKey s) = true /\ garbles o.

(** The [inputs] of a request that starts a call. *)
Definition wireInputs (payload : jsval) : option jsval :=
  atPath payload [Key "start"; Key "inputs"].

(** The [Authorization] header made from a key. *)
Definition basicAuth (apiKey : string) : string :=
  "Basic " ++ btoa ("api:" ++ apiKey).

End TraceShapes.

(** Outside worlds and variables to run the tasks in. *)
Module TraceScenario.
Import JS WeaveShim Async WeaveClient.

Definition okBody (data : option CallData) : TraceResponse :=
  {| trace_ok := true; trace_status := 200; trace_text := Fulfilled "";
     trace_json := data |}.

(** The identifiers and times of the scenarios. *)
Definition numbered (prefix : string) (n : nat) : string :=
  prefix ++ NilEmpty.string_of_uint (Nat.to_uint n).

(** The trace server accepts every call and names it itself; the image
    server delivers a small GIF. *)
Definition healthy : Outside :=
  {| randomUUID := numbered "uuid-";
     toISOString := numbered "2025-01-01T00:00:0";
     dateNow := fun n => Z.of_nat n;
     traceServer := fun n _ _ _ =>
       Fulfilled (okBody (Some {| call_id := Some (numbered "call-" n);
                                  call_trace_id := None |}));
     imageServer := fun _ _ =>
       Fulfilled {| image_ok := true; image_status := 200;
                    image_contentType := Some "image/gif";
                    image_arrayBuffer := Fulfilled (list_ascii_of_string "GIF89a") |} |}.

(** The trace server answers [200] with a body that is not JSON. *)
Definition garbled : Outside :=
  {| randomUUID := numbered "uuid-";
     toISOString := numbered "2025-01-01T00:00:0";
     dateNow := fun n => Z.of_nat n;
     traceServer := fun _ _ _ _ => Fulfilled (okBody None);
     imageServer := imageServer healthy |}.

(** No request gets through. *)
Definition offline : Outside :=
  {| randomUUID := numbered "uuid-";
     toISOString := numbered "2025-01-01T00:00:0";
     dateNow := fun n => Z.of_nat n;
     traceServer := fun _ _ _ _ => Rejected (TypeError "Failed to fetch");
     imageServer := fun _ _ => Rejected (TypeError "Failed to fetch") |}.

(** The variables after [init('team/infinite-fun', {apiKey: 'wandb-key'})]. *)
Definition enabled : Shim :=
  {| _apiKey := Some "wandb-key"; _projectId := Some "team/infinite-fun";
     _activeTrace := None |}.

(** A context as [startTrace] returns it. *)
Definition rootContext : Context :=
  {| ctx_callId := "call-root"; ctx_traceId := "trace-root"; ctx_parentId := None;
     ctx_name := "generate_creative_image"; ctx_startTime := 0 |}.

End TraceScenario.

(* ===================================================================== *)
(** ** nealFunContentScript.js: what the page reports *)
(* ===================================================================== *)

(** [extractAndSendNewTexts], the function of the content script that
    reads the items off the page and sends them to the service worker as
    the [updateTexts] message. The document is the page as the function
    finds it; a node is known by a number. [console.log] is left out. *)
Module ContentScript.
Import JS Async LlmHandler.

(** An element of class [instance]: its [id], its [textContent] and
    whether its class list contains [dragging]. *)
Record InstanceElement : Type := {
  el_id : string;
  el_textContent : string;
  el_dragging : bool
}.

(** The page: [node.isConnected], [node.querySelectorAll('.instance')] in
    document order, and the parent element of
    [document.querySelector('.instance')] when there is such an element
    (an instance is taken to have a parent element). *)
Record Document : Type := {
  isConnected : nat -> bool;
  instancesOf : nat -> list InstanceElement;
  firstInstanceParent : option nat
}.

(** [itemsContainer] and [previousTextsJson]. *)
Record Vars : Type := {
  itemsContainer : option nat;
  previousTextsJson : string
}.

(** The variables when the script is loaded. *)
Definition scriptLoaded : Vars :=
  {| itemsContainer := None; previousTextsJson := "" |}.

(** What the function does besides assigning its variables. *)
Inductive Action : Type :=
| ObserverDisconnect
| ObserverObserve (node : nat)
| SendMessage (texts : list Element).

(** The callback of [instanceElements.forEach]: [texts] and [seenTexts]
    as the loop goes. *)
Fixpoint collect (elements : list InstanceElement) (texts : list Element)
    (seenTexts : list string) : list Element :=
  match elements with
  | [] => texts
  | element :: rest =>
      if el_dragging element then collect rest texts seenTexts
      else
        let text := trim (el_textContent element) in
        if existsb (String.eqb text) seenTexts then collect rest texts seenTexts
        else collect rest
               (texts ++ [{| id := el_id element; text := text |}])
               (seenTexts ++ [text])
  end.

(** [array.sort()] on strings: ascending by character codes. *)
Fixpoint insertSorted (x : string) (sorted : list string) : list string :=
  match sorted with
  | [] => [x]
  | y :: rest => if String.leb x y then x :: sorted else y :: insertSorted x rest
  end.

Fixpoint sort (array : list string) : list string :=
  match array with
  | [] => []
  | x :: rest => insertSorted x (sort rest)
  end.

(** [JSON.stringify] of an array of strings. *)
Definition bs : string := String (ascii_of_nat 92) EmptyString.

Definition hexDigit (n : N) : ascii :=
  if (n <? 10)%N then ascii_of_N (48 + n) else ascii_of_N (87 + n).

Definition quoteChar (c : ascii) : string :=
  let n := N_of_ascii c in
  if (n =? 8)%N then bs ++ "b"
  else if (n =? 9)%N then bs ++ "t"
  else if (n =? 10)%N then bs ++ "n"
  else if (n =? 12)%N then bs ++ "f"
  else if (n =? 13)%N then bs ++ "r"
  else if (n =? 34)%N then bs ++ dq
  else if (n =? 92)%N then bs ++ bs
  else if (n <? 32)%N then
    bs ++ "u00" ++ String (hexDigit (n / 16)) (String (hexDigit (n mod 16)) "")
  else String c "".

Fixpoint quoteChars (s : string) : string :=
  match s with
  | EmptyString => ""
  | String c rest => quoteChar c ++ quoteChars rest
  end.

Definition quoteJSONString (s : string) : string := dq ++ quoteChars s ++ dq.

Definition stringify (array : list string) : string :=
  "[" ++ join "," (map quoteJSONString array) ++ "]".

(** A quoted string read back: the text up to the closing quote, escapes
    undone, and what follows the quote. Used to show that [stringify]
    loses nothing. *)
Definition hexValue (c : ascii) : N :=
  let n := N_of_ascii c in
  if (n <? 58)%N then n - 48 else n - 87.

Fixpoint unquote (s : string) : option (string * string) :=
  match s with
  | EmptyString => None
  | String c rest =>
      if (N_of_ascii c =? 34)%N then Some ("", rest)
      else if (N_of_ascii c =? 92)%N then
        match rest with
        | EmptyString => None
        | String e rest' =>
            if (N_of_ascii e =? 117)%N then
              match rest' with
              | String _ (String _ (String h (String l rest''))) =>
                  match unquote rest'' with
                  | Some (read, after) =>
                      Some (String (ascii_of_N (16 * hexValue h + hexValue l)) read, after)
                  | None => None
                  end
              | _ => None
              end
            else
              let decoded :=
                if (N_of_ascii e =? 98)%N then ascii_of_N 8
                else if (N_of_ascii e =? 116)%N then ascii_of_N 9
                else if (N_of_ascii e =? 110)%N then ascii_of_N 10
                else if (N_of_ascii e =? 102)%N then ascii_of_N 12
                else if (N_of_ascii e =? 114)%N then ascii_of_N 13
                else e in
              match unquote rest' with
              | Some (read, after) => Some (String decoded read, after)
              | None => None
              end
        end
      else
        match unquote rest with
        | Some (read, after) => Some (String c read, after)
        | None => None
        end
  end.

(** The container the function works on and what it did to get it:
    the one it holds when that is still connected, else the parent of the
    first instance of the page, which it starts to observe. *)
Definition acquire (document : Document) (vars : Vars) : option (nat * list Action) :=
  let reacquire :=
    match firstInstanceParent document with
    | Some node => Some (node, [ObserverDisconnect; ObserverObserve node])
    | None => None
    end in
  match itemsContainer vars with
  | Some node => if isConnected document node then Some (node, []) else reacquire
  | None => reacquire
  end.

(** [extractAndSendNewTexts()]: the variables afterwards and what was
    done. *)
Definition extractAndSendNewTexts (document : Document) (vars : Vars)
  : Vars * list Action :=
  match acquire document vars with
  | None => (vars, [])
  | Some (node, actions) =>
      let texts := collect (instancesOf document node) [] [] in
      let currentTextsJson := stringify (sort (map text texts)) in
      if String.eqb currentTextsJson (previousTextsJson vars)
      then ({| itemsContainer := Some node;
               previousTextsJson := previousTextsJson vars |}, actions)
      else ({| itemsContainer := Some node;
               previousTextsJson := currentTextsJson |},
            (actions ++ [SendMessage texts])%list)
  end.

(** The names the page shows: the trimmed text of the instances of a node
    that are not being dragged. *)
Definition shown (document : Document) (node : nat) (name : string) : Prop :=
  exists element,
    In element (instancesOf document node) /\
    el_dragging element = false /\ trim (el_textContent element) = name.

(** The messages among the actions. *)
Fixpoint messages (actions : list Action) : list (list Element) :=
  match actions with
  | [] => []
  | SendMessage texts :: rest => texts :: messages rest
  | _ :: rest => messages rest
  end.

(** A board: one container, always connected, with the given items. *)
Definition board (items : list InstanceElement) : Document :=
  {| isConnected := fun _ => true;
     instancesOf := fun _ => items;
     firstInstanceParent := Some 0 |}.

Definition item (id text : string) : InstanceElement :=
  {| el_id := id; el_textContent := text; el_dragging := false |}.

End ContentScript.

(* ===================================================================== *)
(** * Theorems *)
(* ===================================================================== *)

(** ** Strings *)

Module StringFacts.
Import JS WeaveShim.

Lemma prefix_app : forall p s, String.prefix p s = true <-> exists post, s = p ++ post.
Proof.
  induction p as [|c p IH]; intros s.
  - destruct s; simpl; (split; [intros _; eexists; reflexivity | reflexivity]).
  - destruct s as [|d s]; simpl.
    + split; [discriminate | intros [post H]; discriminate].
    + destruct (Ascii.ascii_dec c d) as [->|Hne].
      * rewrite IH. split; intros [post H]; exists post.
        -- now rewrite H.
        -- now inversion H.
      * split; [discriminate | intros [post H]; inversion H; congruence].
Qed.

Lemma includes_spec : forall s sub,
  includes s sub = true <-> exists pre post, s = pre ++ sub ++ post.
Proof.
  induction s as [|c s IH]; intros sub; cbn [includes].
  - rewrite orb_false_r, prefix_app. split.
    + intros [post H]. exists "", post. exact H.
    + intros [[|d pre] [post H]]; [exists post; exact H | discriminate].
  - rewrite orb_true_iff, prefix_app, IH. split.
    + intros [[post H] | [pre [post H]]].
      * exists "", post. exact H.
      * exists (String c pre), post. simpl. now rewrite H.
    + intros [[|d pre] [post H]].
      * left. exists post. exact H.
      * right. exists pre, post. simpl in H. now inversion H.
Qed.

Lemma toLowerCase_app : forall a b,
  toLowerCase (a ++ b) = toLowerCase a ++ toLowerCase b.
Proof.
  induction a as [|c a IH]; intros b; simpl; [reflexivity | now rewrite IH].
Qed.

Lemma toLowerCase_split : forall k x y,
  toLowerCase k = x ++ y ->
  exists k1 k2, k = k1 ++ k2 /\ toLowerCase k1 = x /\ toLowerCase k2 = y.
Proof.
  intros k x. revert k.
  induction x as [|c x IH]; intros k y H.
  - exists "", k. auto.
  - destruct k as [|d k]; simpl in H; [discriminate|].
    inversion H as [[Hc Hrest]].
    destruct (IH _ _ Hrest) as (k1 & k2 & -> & H1 & H2).
    exists (String d k1), k2. simpl. now rewrite H1, H2.
Qed.

(** [toLowerCase] on one character is what ignoring the letter case means,
    when the character compared with is not an upper-case letter. *)
Lemma lowerChar_sameLetter : forall c d,
  ((65 <=? nat_of_ascii d) && (nat_of_ascii d <=? 90))%nat = false ->
  (lowerChar c = d <-> sameLetter c d).
Proof.
  intros c d Hd. unfold lowerChar, sameLetter. cbv zeta. split.
  - destruct ((65 <=? nat_of_ascii c) && (nat_of_ascii c <=? 90))%nat eqn:Hc.
    + intros <-. right. apply andb_true_iff in Hc. destruct Hc as [H1 H2].
      apply Nat.leb_le in H1, H2.
      exists (nat_of_ascii c - 65)%nat. split; [lia|]. left. split; [lia|].
      rewrite nat_ascii_embedding by lia. lia.
    + intros ->. now left.
  - intros [->|(i & Hi & [[Hc Hd']|[Hc Hd']])].
    + now rewrite Hd.
    + assert (Hup : ((65 <=? nat_of_ascii c) && (nat_of_ascii c <=? 90))%nat = true).
      { apply andb_true_iff. split; apply Nat.leb_le; lia. }
      rewrite Hup. replace (nat_of_ascii c + 32)%nat with (nat_of_ascii d) by lia.
      apply ascii_nat_embedding.
    + exfalso. apply andb_false_iff in Hd.
      destruct Hd as [Hd|Hd]; apply Nat.leb_gt in Hd; lia.
Qed.

Lemma toLowerCase_equalIgnoringCase : forall pat middle,
  noUpper pat = true ->
  (toLowerCase middle = pat <-> equalIgnoringCase middle pat).
Proof.
  induction pat as [|d pat IH]; intros middle Hpat.
  - split.
    + destruct middle; simpl; [constructor | discriminate].
    + intros H. inversion H. reflexivity.
  - simpl in Hpat. apply andb_true_iff in Hpat. destruct Hpat as [Hd Hpat].
    apply negb_true_iff in Hd. split.
    + destruct middle as [|c middle]; simpl; [discriminate|].
      intros H. inversion H as [[Hc Hrest]]. rewrite Hc, Hrest. constructor.
      * now apply lowerChar_sameLetter.
      * now apply IH.
    + intros H. inversion H as [|c d' m t Hc Hrest]; subst. simpl. f_equal.
      * now apply lowerChar_sameLetter.
      * now apply IH.
Qed.

(** The search of a pattern in the lower-cased key finds exactly the
    occurrences of the pattern with the letter case ignored. *)
Lemma includes_lower_iff : forall key pat,
  noUpper pat = true ->
  (includes (toLowerCase key) pat = true <-> containsIgnoringCase key pat).
Proof.
  intros key pat Hpat. unfold containsIgnoringCase. rewrite includes_spec. split.
  - intros (pre & post & H).
    destruct (toLowerCase_split _ _ _ H) as (k1 & k23 & -> & H1 & H23).
    destruct (toLowerCase_split _ _ _ H23) as (k2 & k3 & -> & H2 & H3).
    exists k1, k2, k3. split; [reflexivity|].
    now apply toLowerCase_equalIgnoringCase.
  - intros (b & m & a & -> & Hm).
    apply toLowerCase_equalIgnoringCase in Hm; [|exact Hpat].
    exists (toLowerCase b), (toLowerCase a).
    now rewrite !toLowerCase_app, Hm.
Qed.

End StringFacts.

(** ** The sanitizer *)

Module SanitizerFacts.
Import JS WeaveShim StringFacts.

(** The test in the code is the specification's list of patterns. *)
Lemma isSensitiveKey_spec : forall key,
  isSensitiveKey key = true <-> keyMatches key.
Proof.
  intros key. unfold isSensitiveKey, keyMatches, sensitivePatterns.
  cbv zeta. rewrite !orb_true_iff.
  rewrite !includes_lower_iff by reflexivity.
  split.
  - intros H.
    repeat match goal with H : _ \/ _ |- _ => destruct H as [H|H] end;
      match type of H with
      | containsIgnoringCase _ ?pat =>
          exists pat; split; [simpl; tauto | exact H]
      end.
  - intros (pat & Hin & H). simpl in Hin.
    repeat match goal with H : _ \/ _ |- _ => destruct H as [H|H] end;
      subst; tauto.
Qed.

Lemma isSensitiveKey_false : forall key,
  isSensitiveKey key = false <-> ~ keyMatches key.
Proof.
  intros key. rewrite <- isSensitiveKey_spec.
  destruct (isSensitiveKey key); split; intro H;
    [discriminate | contradiction H; reflexivity | discriminate | reflexivity].
Qed.

(** The test of the older [op] is the list of its five patterns. *)
Lemma legacy_isSensitiveKey_spec : forall key,
  Legacy.isSensitiveKey key = true <-> legacyKeyMatches key.
Proof.
  intros key. unfold Legacy.isSensitiveKey, legacyKeyMatches, legacyPatterns.
  rewrite !orb_true_iff.
  rewrite !includes_lower_iff by reflexivity.
  split.
  - intros H.
    repeat match goal with H : _ \/ _ |- _ => destruct H as [H|H] end;
      match type of H with
      | containsIgnoringCase _ ?pat =>
          exists pat; split; [simpl; tauto | exact H]
      end.
  - intros (pat & Hin & H). simpl in Hin.
    repeat match goal with H : _ \/ _ |- _ => destruct H as [H|H] end;
      subst; tauto.
Qed.

(** The name [__proto__] is not one to redact. *)
Lemma proto_not_sensitive : isSensitiveKey "__proto__" = false.
Proof. reflexivity. Qed.

(** Induction over values, with the hypothesis available for every element
    of an array and every property of an object. *)
Lemma jsval_ind' (P : jsval -> Prop)
  (Hundef : P JUndefined) (Hnull : P JNull)
  (Hbool : forall b, P (JBool b)) (Hnum : forall n, P (JNum n))
  (Hstr : forall s, P (JStr s))
  (Harr : forall elems, Forall P elems -> P (JArr elems))
  (Hobj : forall fields, Forall (fun kv => P (snd kv)) fields -> P (JObj fields)) :
  forall v, P v.
Proof.
  fix IH 1. intros [ | | b | n | s | elems | fields].
  - exact Hundef.
  - exact Hnull.
  - apply Hbool.
  - apply Hnum.
  - apply Hstr.
  - apply Harr. induction elems as [|x xs IHxs]; constructor; [apply IH | exact IHxs].
  - apply Hobj. induction fields as [|[k x] xs IHxs]; constructor; [apply IH | exact IHxs].
Qed.

Lemma flat_map_entries : forall (f : string * jsval -> string * jsval)
    (g : string * jsval -> list (string * jsval)) fields,
  (forall entry, g entry = if carriedOver entry then [f entry] else []) ->
  flat_map g fields = map f (filter carriedOver fields).
Proof.
  intros f g fields H. induction fields as [|entry rest IH]; [reflexivity|].
  simpl. rewrite H, IH. destruct (carriedOver entry); reflexivity.
Qed.

(** An object is rebuilt from the entries that are carried over. *)
Lemma sanitizeInputs_obj : forall fields,
  sanitizeInputs (JObj fields) = JObj (map sanitizeEntry (filter carriedOver fields)).
Proof.
  intros fields. cbn [sanitizeInputs]. f_equal.
  apply flat_map_entries. intros [key value].
  unfold carriedOver, sanitizeEntry, assignProperty. cbn [fst].
  destruct (isSensitiveKey key); [|destruct (typeofObject value)];
    destruct (createsProperty key); reflexivity.
Qed.

Lemma sanitizeInputs_leaf : forall v, isLeaf v -> sanitizeInputs v = v.
Proof. intros [ | | | | | | ]; simpl; intros H; (reflexivity || contradiction). Qed.

Lemma sanitizeInputs_not_object : forall v,
  typeofObject v = false -> sanitizeInputs v = v.
Proof. intros [ | | | | | | ]; simpl; intros H; (reflexivity || discriminate). Qed.

(** A property of the sanitized object: none under [__proto__], redacted
    under a sensitive key, sanitized in turn under any other. *)
Lemma lookupField_sanitized : forall k fields,
  lookupField k (map sanitizeEntry (filter carriedOver fields)) =
  if createsProperty k then
    match lookupField k fields with
    | Some v => Some (if isSensitiveKey k then REDACTED else sanitizeInputs v)
    | None => None
    end
  else None.
Proof.
  intros k fields. induction fields as [|[k' v] rest IH]; simpl.
  { destruct (createsProperty k); reflexivity. }
  unfold carriedOver at 1. cbn [fst].
  destruct (String.eqb k k') eqn:Hkk.
  - apply String.eqb_eq in Hkk. subst k'.
    destruct (createsProperty k) eqn:Hc; [|exact IH].
    cbn [map lookupField]. unfold sanitizeEntry at 1.
    destruct (isSensitiveKey k) eqn:Hk; [|destruct (typeofObject v) eqn:Hv];
      cbn [lookupField]; rewrite String.eqb_refl; try reflexivity.
    now rewrite sanitizeInputs_not_object.
  - destruct (createsProperty k') eqn:Hc'; [|exact IH].
    cbn [map lookupField]. unfold sanitizeEntry at 1.
    destruct (isSensitiveKey k'); [|destruct (typeofObject v)];
      cbn [lookupField]; rewrite Hkk; exact IH.
Qed.

Lemma createsProperty_true : forall k, k <> "__proto__" -> createsProperty k = true.
Proof.
  intros k H. unfold createsProperty. apply negb_true_iff. now apply String.eqb_neq.
Qed.

Lemma createsProperty_sensitive : forall k,
  isSensitiveKey k = true -> createsProperty k = true.
Proof.
  intros k H. apply createsProperty_true. intros ->.
  rewrite proto_not_sensitive in H. discriminate.
Qed.

Lemma cleanPath_cons : forall st p, cleanPath (st :: p) -> cleanPath p.
Proof. intros st p H k Hin. apply H. now right. Qed.

Lemma cleanPath_key : forall k p, cleanPath (Key k :: p) -> isSensitiveKey k = false.
Proof. intros k p H. apply isSensitiveKey_false. apply H. now left. Qed.

Lemma ownPath_cons : forall st p, ownPath (st :: p) -> ownPath p.
Proof. intros st p H k Hin. apply H. now right. Qed.

Lemma ownPath_key : forall k p, ownPath (Key k :: p) -> createsProperty k = true.
Proof. intros k p H. apply createsProperty_true. apply H. now left. Qed.

(** Along a path with no sensitive name and no [__proto__] the sanitized
    value has what the input has, sanitized. *)
Lemma atPath_sanitized_clean : forall p obj v,
  cleanPath p -> ownPath p -> atPath obj p = Some v ->
  atPath (sanitizeInputs obj) p = Some (sanitizeInputs v).
Proof.
  induction p as [|[k|i] p IH]; intros obj v Hclean Hown H.
  - simpl in *. now inversion H.
  - destruct obj; simpl in H; try discriminate.
    rewrite sanitizeInputs_obj. simpl. rewrite lookupField_sanitized.
    rewrite (ownPath_key _ _ Hown).
    destruct (lookupField k fields) as [v'|]; [|discriminate].
    rewrite (cleanPath_key _ _ Hclean).
    apply IH; [exact (cleanPath_cons _ _ Hclean) | exact (ownPath_cons _ _ Hown) | exact H].
  - destruct obj; simpl in H; try discriminate.
    simpl. rewrite nth_error_map.
    destruct (nth_error elems i) as [v'|]; [|discriminate]. simpl.
    apply IH; [exact (cleanPath_cons _ _ Hclean) | exact (ownPath_cons _ _ Hown) | exact H].
Qed.

(** Whatever stands under a sensitive name in the sanitized value is the
    marker. *)
Lemma atPath_sanitized_sensitive : forall p obj k v,
  atPath (sanitizeInputs obj) (p ++ [Key k]) = Some v ->
  isSensitiveKey k = true -> v = REDACTED.
Proof.
  induction p as [|[k'|i] p IH]; intros obj k v H Hk.
  - destruct obj; try (simpl in H; discriminate).
    rewrite sanitizeInputs_obj in H. simpl in H.
    rewrite lookupField_sanitized in H.
    destruct (createsProperty k); [|discriminate].
    destruct (lookupField k fields); [|discriminate].
    rewrite Hk in H. now inversion H.
  - destruct obj; try (simpl in H; discriminate).
    rewrite sanitizeInputs_obj in H. simpl in H.
    rewrite lookupField_sanitized in H.
    destruct (createsProperty k'); [|discriminate].
    destruct (lookupField k' fields) as [v'|]; [|discriminate].
    destruct (isSensitiveKey k').
    + destruct p as [|[?|?] ?]; simpl in H; discriminate.
    + eapply IH; eassumption.
  - destruct obj; simpl in H; try discriminate.
    rewrite nth_error_map in H.
    destruct (nth_error elems i) as [v'|]; [|discriminate]. simpl in H.
    eapply IH; eassumption.
Qed.

(** The sanitized value has no path the input lacks. *)
Lemma atPath_sanitized_exists : forall p obj v,
  atPath (sanitizeInputs obj) p = Some v -> exists v0, atPath obj p = Some v0.
Proof.
  induction p as [|[k|i] p IH]; intros obj v H.
  - exists obj. reflexivity.
  - destruct obj; try (simpl in H; discriminate).
    rewrite sanitizeInputs_obj in H. simpl in H.
    rewrite lookupField_sanitized in H. simpl.
    destruct (createsProperty k); [|discriminate].
    destruct (lookupField k fields) as [v'|]; [|discriminate].
    destruct (isSensitiveKey k).
    + destruct p as [|[?|?] ?]; [eexists; reflexivity | simpl in H; discriminate ..].
    + eapply IH; eassumption.
  - destruct obj; simpl in H; try discriminate.
    rewrite nth_error_map in H. simpl.
    destruct (nth_error elems i) as [v'|]; [|discriminate]. simpl in H.
    eapply IH; eassumption.
Qed.

(** The sanitized value has no property named [__proto__]. *)
Lemma atPath_sanitized_proto : forall p obj,
  atPath (sanitizeInputs obj) (p ++ [Key "__proto__"]) = None.
Proof.
  induction p as [|[k|i] p IH]; intros obj.
  - destruct obj; try reflexivity.
    rewrite sanitizeInputs_obj. simpl. now rewrite lookupField_sanitized.
  - destruct obj; try reflexivity.
    rewrite sanitizeInputs_obj. simpl. rewrite lookupField_sanitized.
    destruct (createsProperty k); [|reflexivity].
    destruct (lookupField k fields) as [v'|]; [|reflexivity].
    destruct (isSensitiveKey k); [|apply IH].
    destruct p as [|[?|?] ?]; reflexivity.
  - destruct obj; try reflexivity.
    simpl. rewrite nth_error_map.
    destruct (nth_error elems i) as [v'|]; [|reflexivity]. simpl. apply IH.
Qed.

Lemma atPath_app : forall p q obj,
  atPath obj (p ++ q) =
  match atPath obj p with
  | Some v => atPath v q
  | None => None
  end.
Proof.
  induction p as [|[k|i] p IH]; intros q obj; simpl; [reflexivity| |].
  - destruct obj; try reflexivity.
    destruct (lookupField k fields); [apply IH | reflexivity].
  - destruct obj; try reflexivity.
    destruct (nth_error elems i); [apply IH | reflexivity].
Qed.

(** A property of an argument recorded by the older [op]: redacted at the
    top level under one of its five patterns, as it was under any other
    key. *)
Lemma legacy_lookupField : forall k fields,
  lookupField k
    (map (fun entry : string * jsval =>
            match entry with
            | (key, value) =>
                if Legacy.isSensitiveKey key then (key, REDACTED) else (key, value)
            end) fields) =
  match lookupField k fields with
  | Some v => Some (if Legacy.isSensitiveKey k then REDACTED else v)
  | None => None
  end.
Proof.
  intros k fields. induction fields as [|[k' v] rest IH]; simpl; [reflexivity|].
  destruct (Legacy.isSensitiveKey k') eqn:Hk'; simpl;
    destruct (String.eqb k k') eqn:Hkk; try exact IH;
    apply String.eqb_eq in Hkk; subst k'; now rewrite Hk'.
Qed.

End SanitizerFacts.

(** ** Runs of composed programs *)

Module RunFacts.
Import JS Async Traces.

Lemma logged_thenRun : forall A B (e : Event) (r : Run A) (k : A -> nat -> State -> Run B),
  logged e (thenRun r k) = thenRun (logged e r) k.
Proof. intros. unfold thenRun, logged, prepend. simpl. destruct (completion r); reflexivity. Qed.

Lemma logged_catchRun : forall A (e : Event) (r : Run A) h,
  logged e (catchRun r h) = catchRun (logged e r) h.
Proof. intros. unfold catchRun, logged, prepend. simpl. destruct (completion r); reflexivity. Qed.

Lemma logged_finallyRun : forall A (e : Event) (r : Run A) f,
  logged e (finallyRun r f) = finallyRun (logged e r) f.
Proof. intros. reflexivity. Qed.

Lemma exec_bind : forall A B (p : Prog A) (f : A -> Prog B) w n s,
  exec (bind p f) w n s = thenRun (exec p w n s) (fun a n' s' => exec (f a) w n' s').
Proof.
  induction p as [a|e|q k IH|c k IH|e k IH|k IH|a k IH]; intros f w n s; simpl.
  - unfold thenRun, prepend. simpl. now destruct (exec (f a) w n s).
  - reflexivity.
  - apply IH.
  - rewrite IH. apply logged_thenRun.
  - rewrite IH. apply logged_thenRun.
  - apply IH.
  - rewrite IH. apply logged_thenRun.
Qed.

Lemma exec_tryCatch : forall A (p : Prog A) (h : Exn -> Prog A) w n s,
  exec (tryCatch p h) w n s = catchRun (exec p w n s) (fun e n' s' => exec (h e) w n' s').
Proof.
  induction p as [a|e|q k IH|c k IH|e k IH|k IH|a k IH]; intros h w n s; simpl.
  - reflexivity.
  - unfold catchRun, prepend. simpl. now destruct (exec (h e) w n s).
  - apply IH.
  - rewrite IH. apply logged_catchRun.
  - rewrite IH. apply logged_catchRun.
  - apply IH.
  - rewrite IH. apply logged_catchRun.
Qed.

Lemma exec_tryFinally : forall A (p : Prog A) (f : Prog unit) w n s,
  exec (tryFinally p f) w n s = finallyRun (exec p w n s) (fun n' s' => exec f w n' s').
Proof.
  induction p as [a|e|q k IH|c k IH|e k IH|k IH|a k IH]; intros f w n s; simpl.
  - rewrite exec_bind. unfold finallyRun, thenRun, prepend. simpl.
    destruct (exec f w n s) as [[u|e] fs evs m]; simpl; rewrite ?app_nil_r; reflexivity.
  - rewrite exec_bind. unfold finallyRun, thenRun, prepend. simpl.
    destruct (exec f w n s) as [[u|e'] fs evs m]; simpl; rewrite ?app_nil_r; reflexivity.
  - apply IH.
  - rewrite IH. reflexivity.
  - rewrite IH. reflexivity.
  - apply IH.
  - rewrite IH. reflexivity.
Qed.

(** The run of [awaitAsync p]: the run of [p], then one more turn. *)
Lemma exec_awaitAsync : forall A (p : Prog A) w n s,
  exec (awaitAsync p) w n s =
  let r := exec p w n s in
  {| completion := completion r; final := final r;
     events := (events r ++ [Awaits Tick])%list;
     interactions := S (interactions r) |}.
Proof.
  intros. unfold awaitAsync. rewrite exec_tryFinally. unfold finallyRun. simpl.
  reflexivity.
Qed.

(** *** What a program can do *)

Lemma everyEvent_weaken : forall A (P Q : Event -> Prop) (p : Prog A),
  (forall e, P e -> Q e) -> everyEvent P p -> everyEvent Q p.
Proof.
  intros A P Q p HPQ.
  induction p as [a|e|q k IH|c k IH|e k IH|k IH|a k IH]; simpl; intros H; auto.
  - destruct H; split; auto.
  - destruct H; split; auto.
  - destruct H; split; auto.
Qed.

Lemma everyEvent_bind : forall A B (P : Event -> Prop) (p : Prog A) (f : A -> Prog B),
  everyEvent P p -> (forall a, everyEvent P (f a)) -> everyEvent P (bind p f).
Proof.
  intros A B P p f Hp Hf.
  induction p as [a|e|q k IH|c k IH|e k IH|k IH|a k IH]; simpl in *; auto.
  - destruct Hp; split; auto.
  - destruct Hp; split; auto.
  - destruct Hp; split; auto.
Qed.

Lemma everyEvent_tryCatch : forall A (P : Event -> Prop) (p : Prog A) h,
  everyEvent P p -> (forall e, everyEvent P (h e)) -> everyEvent P (tryCatch p h).
Proof.
  intros A P p h Hp Hh.
  induction p as [a|e|q k IH|c k IH|e k IH|k IH|a k IH]; simpl in *; auto.
  - destruct Hp; split; auto.
  - destruct Hp; split; auto.
  - destruct Hp; split; auto.
Qed.

Lemma everyEvent_tryFinally : forall A (P : Event -> Prop) (p : Prog A) f,
  everyEvent P p -> everyEvent P f -> everyEvent P (tryFinally p f).
Proof.
  intros A P p f Hp Hf.
  induction p as [a|e|q k IH|c k IH|e k IH|k IH|a k IH]; simpl in *;
    try (apply everyEvent_bind; [exact Hf | intros; exact I]); auto.
  - destruct Hp; split; auto.
  - destruct Hp; split; auto.
  - destruct Hp; split; auto.
Qed.

Lemma everyEvent_awaitAsync : forall A (P : Event -> Prop) (p : Prog A),
  P (Awaits Tick) -> everyEvent P p -> everyEvent P (awaitAsync p).
Proof.
  intros. apply everyEvent_tryFinally; [assumption | simpl; auto].
Qed.

(** The events of a run are events the program can produce. *)
Lemma everyEvent_exec : forall A (P : Event -> Prop) (p : Prog A) w n s,
  everyEvent P p -> Forall P (events (exec p w n s)).
Proof.
  intros A P p w.
  induction p as [a|e|q k IH|c k IH|e k IH|k IH|a k IH]; intros n s H; simpl in *.
  - constructor.
  - constructor.
  - apply IH, H.
  - destruct H. constructor; auto.
  - destruct H. constructor; auto.
  - apply IH, H.
  - destruct H. constructor; auto.
Qed.

(** A program that assigns nothing leaves the variables as they are. *)
Lemma exec_final_unchanged : forall A (p : Prog A) w n s,
  everyEvent (fun e => ~ isAssign e) p -> final (exec p w n s) = s.
Proof.
  intros A p w.
  induction p as [a|e|q k IH|c k IH|e k IH|k IH|a k IH]; intros n s H; simpl in *; auto.
  - apply IH, H.
  - apply IH, H.
  - destruct H as [H _]. exfalso. apply H. exact I.
Qed.

Lemma everyResult_bind : forall A B (R : B -> Prop) (p : Prog A) (f : A -> Prog B),
  (forall a, everyResult R (f a)) -> everyResult R (bind p f).
Proof.
  intros A B R p f Hf.
  induction p as [a|e|q k IH|c k IH|e k IH|k IH|a k IH]; simpl; auto.
Qed.

Lemma everyResult_tryCatch : forall A (R : A -> Prop) (p : Prog A) h,
  everyResult R p -> (forall e, everyResult R (h e)) -> everyResult R (tryCatch p h).
Proof.
  intros A R p h Hp Hh.
  induction p as [a|e|q k IH|c k IH|e k IH|k IH|a k IH]; simpl in *; auto.
Qed.

Lemma everyResult_tryFinally : forall A (R : A -> Prop) (p : Prog A) f,
  everyResult R p -> everyResult R (tryFinally p f).
Proof.
  intros A R p f Hp.
  induction p as [a|e|q k IH|c k IH|e k IH|k IH|a k IH]; simpl in *; auto.
  - apply everyResult_bind. intros _. exact Hp.
  - apply everyResult_bind. intros _. exact I.
Qed.

(** The value a run returns is one the program can return. *)
Lemma everyResult_exec : forall A (R : A -> Prop) (p : Prog A) w n s a,
  everyResult R p -> completion (exec p w n s) = Returned a -> R a.
Proof.
  intros A R p w.
  induction p as [a|e|q k IH|c k IH|e k IH|k IH|a k IH]; intros n s x H Hc; simpl in *.
  - inversion Hc; subst; exact H.
  - discriminate.
  - eapply IH; [apply H | exact Hc].
  - eapply IH; [apply H | exact Hc].
  - eapply IH; [apply H | exact Hc].
  - eapply IH; [apply H | exact Hc].
  - eapply IH; [apply H | exact Hc].
Qed.

End RunFacts.

(** ** The image provider clients *)

Module ClientFacts.
Import JS Async ApiHandler Traces Shapes RunFacts StringFacts.
Local Open Scope prog_scope.

(** Against a status endpoint that stays pending the FAL loop makes every
    one of its remaining rounds and then gives up. *)
Lemma falPoll_pending : forall w apiUrl requestId apiKey,
  (forall m, falPending (reply w m (Fetch FalApi (falStatusRequest apiUrl requestId apiKey)))) ->
  forall remaining n s,
    exec (falPoll remaining apiUrl requestId apiKey) w n s =
    {| completion := Threw (Error "FAL Request Timed Out");
       final := s;
       events := cycles remaining (falCycle apiUrl requestId apiKey);
       interactions := n + 3 * remaining |}.
Proof.
  intros w apiUrl requestId apiKey Hpending.
  induction remaining as [|remaining IH]; intros n s.
  - simpl. now rewrite Nat.add_0_r.
  - destruct (Hpending (S n)) as (resp & d & Hr & Hok & Hd & Hc & Hf).
    cbn [falPoll]. unfold await, awaitFetch, awaitJson. cbn [bind exec].
    rewrite Hr. cbn [settle bind exec]. cbn [Body]. rewrite Hok. cbn [negb bind exec].
    rewrite Hd. cbn [bind exec].
    apply String.eqb_neq in Hc, Hf. rewrite Hc, Hf.
    rewrite IH. unfold logged. cbn [completion final events interactions].
    f_equal. lia.
Qed.

Lemma replicatePoll_pending : forall w getUrl apiKey,
  (forall m, replicatePending (reply w m (Fetch ReplicateApi (replicateStatusRequest getUrl apiKey)))) ->
  forall remaining n s,
    exec (replicatePoll remaining getUrl apiKey) w n s =
    {| completion := Threw (Error "Replicate Request Timed Out");
       final := s;
       events := cycles remaining (replicateCycle getUrl apiKey);
       interactions := n + 3 * remaining |}.
Proof.
  intros w getUrl apiKey Hpending.
  induction remaining as [|remaining IH]; intros n s.
  - simpl. now rewrite Nat.add_0_r.
  - destruct (Hpending (S n)) as (resp & d & Hr & Hok & Hd & Hs & Hf & Hc).
    cbn [replicatePoll]. unfold await, awaitFetch, awaitJson. cbn [bind exec].
    rewrite Hr. cbn [settle bind exec]. cbn [Body]. rewrite Hok. cbn [negb bind exec].
    rewrite Hd. cbn [bind exec].
    apply String.eqb_neq in Hs, Hf, Hc. rewrite Hs, Hf, Hc.
    rewrite IH. unfold logged. cbn [completion final events interactions].
    f_equal. lia.
Qed.

Lemma polls_app : forall a b, polls (a ++ b) = polls a + polls b.
Proof. intros. unfold polls. now rewrite filter_app, length_app. Qed.

Lemma sleeps_app : forall a b, sleeps (a ++ b) = (sleeps a ++ sleeps b)%list.
Proof.
  induction a as [|e a IH]; intros b; [reflexivity|].
  destruct e; simpl; try apply IH.
  destruct c; simpl; try apply IH. now rewrite IH.
Qed.

Lemma polls_cycles : forall n cycle, polls (cycles n cycle) = n * polls cycle.
Proof.
  induction n as [|n IH]; intros cycle; simpl; [reflexivity|].
  now rewrite polls_app, IH.
Qed.

Lemma sleeps_cycles : forall n cycle,
  sleeps cycle = [500%Z] -> sleeps (cycles n cycle) = repeat 500%Z n.
Proof.
  induction n as [|n IH]; intros cycle H; simpl; [reflexivity|].
  now rewrite sleeps_app, H, IH.
Qed.

(** The whole run of the FAL client when the submit response queues the
    request and the status endpoint stays pending. *)
Lemma getImageFromFal_pending : forall w n s prompt apiKey model requestId,
  nonEmpty apiKey = true ->
  (forall m seed,
     falQueued (reply w m (Fetch FalApi (falSubmitRequest (falApiUrl model) prompt apiKey seed)))
               requestId) ->
  (forall m,
     falPending (reply w m (Fetch FalApi (falStatusRequest (falApiUrl model) requestId apiKey)))) ->
  exec (getImageFromFal prompt apiKey model) w n s =
  {| completion := Threw (Error "FAL Request Timed Out");
     final := s;
     events :=
       ([Awaits (Fetch FalApi (falSubmitRequest (falApiUrl model) prompt apiKey
                                 (answer w n RandomSeed)));
         Awaits ReadJson] ++
        cycles FAL_MAX_ATTEMPTS (falCycle (falApiUrl model) requestId apiKey) ++
        [ConsoleError "Error fetching image from FAL API:"
                      (Error "FAL Request Timed Out")])%list;
     interactions := n + 3 + 3 * FAL_MAX_ATTEMPTS |}.
Proof.
  intros w n s prompt apiKey model requestId Hkey Hq Hp.
  unfold getImageFromFal. cbv zeta. rewrite Hkey. cbn [negb].
  rewrite exec_tryCatch.
  destruct (Hq (S n) (answer w n RandomSeed))
    as (resp & d & Hr & Hok & Hd & Himg & Hid & Hne).
  unfold ask, awaitFetch, awaitJson. cbn [bind exec].
  rewrite Hr. cbn [settle bind exec]. cbn [Body]. rewrite Hok. cbn [negb bind exec].
  rewrite Hd. cbn [bind exec].
  assert (Hpoll :
    match fal_images d with
    | Some (image :: _) => Ret (falResult image)
    | _ =>
        match fal_request_id d with
        | Some (String c rest) => falPoll FAL_MAX_ATTEMPTS (falApiUrl model) (String c rest) apiKey
        | _ => Throw (Error ("FAL Response missing images and request_id: " ++ fal_raw d))
        end
    end = falPoll FAL_MAX_ATTEMPTS (falApiUrl model) requestId apiKey).
  { rewrite Hid. destruct requestId; [discriminate|].
    destruct Himg as [-> | ->]; reflexivity. }
  rewrite Hpoll, falPoll_pending by exact Hp.
  unfold catchRun, logged, prepend, emit.
  cbn [completion final events interactions bind exec app].
  unfold logged. cbn [completion final events interactions].
  f_equal. lia.
Qed.

Lemma getImageFromReplicate_pending : forall w n s prompt apiKey model getUrl
    apiUrl version input,
  nonEmpty apiKey = true ->
  replicateModel model prompt = Some (apiUrl, version, input) ->
  (forall m,
     replicateQueued
       (reply w m (Fetch ReplicateApi (replicateSubmitRequest apiUrl version input apiKey)))
       getUrl) ->
  (forall m,
     replicatePending (reply w m (Fetch ReplicateApi (replicateStatusRequest getUrl apiKey)))) ->
  exec (getImageFromReplicate prompt apiKey model) w n s =
  {| completion := Threw (Error "Replicate Request Timed Out");
     final := s;
     events :=
       ([Awaits (Fetch ReplicateApi (replicateSubmitRequest apiUrl version input apiKey));
         Awaits ReadJson] ++
        cycles REPLICATE_MAX_ATTEMPTS (replicateCycle getUrl apiKey) ++
        [ConsoleError "Error fetching image from Replicate API:"
                      (Error "Replicate Request Timed Out")])%list;
     interactions := n + 2 + 3 * REPLICATE_MAX_ATTEMPTS |}.
Proof.
  intros w n s prompt apiKey model getUrl apiUrl version input Hkey Hmodel Hq Hp.
  unfold getImageFromReplicate. rewrite Hkey, Hmodel. cbn [negb].
  rewrite exec_tryCatch.
  destruct (Hq n) as (resp & d & Hr & Hok & Hd & Hst & Hurl & Hne).
  unfold awaitFetch, awaitJson. cbn [bind exec].
  rewrite Hr. cbn [settle bind exec]. cbn [Body]. rewrite Hok. cbn [negb bind exec].
  rewrite Hd. cbn [bind exec].
  apply String.eqb_neq in Hst. rewrite Hst. cbn [andb].
  rewrite Hurl. destruct getUrl as [|c rest]; [discriminate|].
  rewrite replicatePoll_pending by exact Hp.
  unfold catchRun, logged, prepend, emit.
  cbn [completion final events interactions bind exec app].
  unfold logged. cbn [completion final events interactions].
  f_equal. lia.
Qed.


(** *** The model path of the FAL client *)

Lemma falModelPath_default : forall model,
  startsWith model "fal-" = false -> falModelPath model = "fal-ai/z-image/turbo".
Proof.
  intros model H. unfold falModelPath. rewrite H, andb_false_r. reflexivity.
Qed.

(** *** The image type of a result *)

Lemma falPoll_imageType : forall remaining apiUrl requestId apiKey,
  everyResult (fun res => img_imageType res = "jpeg")
              (falPoll remaining apiUrl requestId apiKey).
Proof.
  induction remaining as [|remaining IH]; intros apiUrl requestId apiKey.
  - exact I.
  - cbn [falPoll]. unfold await, awaitFetch, awaitJson. cbn -[falPoll String.eqb].
    intros _ [resp|e]; cbn -[falPoll String.eqb]; [|exact I].
    destruct (ok resp); cbn -[falPoll String.eqb]; [|exact I].
    intros _. destruct (data resp) as [d|]; cbn -[falPoll String.eqb]; [|exact I].
    destruct (String.eqb _ "COMPLETED").
    + destruct (fal_images d) as [[|image ?]|]; simpl; auto.
    + destruct (String.eqb _ "FAILED"); [exact I | apply IH].
Qed.

Lemma getImageFromFal_imageType : forall prompt apiKey model,
  everyResult (fun res => img_imageType res = "jpeg")
              (getImageFromFal prompt apiKey model).
Proof.
  intros prompt apiKey model. unfold getImageFromFal. cbv zeta.
  destruct (negb (nonEmpty apiKey)); [exact I|].
  apply everyResult_tryCatch; [|intros e; exact I].
  unfold ask, awaitFetch, awaitJson, awaitErrorJson. cbn -[falPoll].
  intros seed [resp|e]; cbn -[falPoll]; [|exact I].
  destruct (ok resp); cbn -[falPoll].
  - intros _. destruct (data resp) as [d|]; cbn -[falPoll]; [|exact I].
    destruct (fal_images d) as [[|image ?]|]; try reflexivity;
      destruct (fal_request_id d) as [[|c rest]|]; try exact I;
      apply falPoll_imageType.
  - intros _. destruct (errorData resp); exact I.
Qed.

Lemma matchDataUri_needs_prefix : forall url,
  startsWith url "data:image" = false -> matchDataUri url = None.
Proof.
  intros url H. unfold matchDataUri.
  destruct (startsWith url "data:image/") eqn:Hp; [|reflexivity].
  exfalso. unfold startsWith in *. apply prefix_app in Hp. destruct Hp as [post ->].
  assert (Hyes : String.prefix "data:image" ("data:image/" ++ post) = true).
  { apply prefix_app. exists ("/" ++ post). reflexivity. }
  congruence.
Qed.

Lemma spanWord_app : forall word rest,
  allWordChars word = true ->
  (match rest with
   | EmptyString => true
   | String c _ => negb (isWordChar c)
   end) = true ->
  spanWord (word ++ rest) = (word, rest).
Proof.
  induction word as [|c word IH]; intros rest Hw Hr.
  - destruct rest as [|c rest]; [reflexivity|]. cbn [append spanWord].
    apply negb_true_iff in Hr. now rewrite Hr.
  - cbn [allWordChars] in Hw. apply andb_true_iff in Hw. destruct Hw as [Hc Hw].
    cbn [append spanWord]. now rewrite Hc, (IH rest Hw Hr).
Qed.

Lemma spanWord_spec : forall s word rest,
  spanWord s = (word, rest) -> s = word ++ rest /\ allWordChars word = true.
Proof.
  induction s as [|c s IH]; intros word rest H.
  - inversion H. auto.
  - cbn [spanWord] in H. destruct (isWordChar c) eqn:Hc.
    + destruct (spanWord s) as [w r]. inversion H; subst.
      destruct (IH w rest eq_refl) as [-> Hw]. cbn [append allWordChars].
      now rewrite Hc, Hw.
    + inversion H. auto.
Qed.

Lemma substringFrom_app : forall p s, substringFrom (String.length p) (p ++ s) = s.
Proof. induction p as [|c p IH]; intros s; [now destruct s | exact (IH s)]. Qed.

(** The data URI of an image of the given type. *)
Lemma matchDataUri_build : forall mime payload,
  nonEmpty mime = true -> allWordChars mime = true ->
  nonEmpty payload = true -> noLineTerminator payload = true ->
  matchDataUri ("data:image/" ++ mime ++ ";base64," ++ payload) = Some (mime, payload).
Proof.
  intros mime payload Hm Hw Hp Hl. unfold matchDataUri.
  assert (H1 : startsWith ("data:image/" ++ mime ++ ";base64," ++ payload) "data:image/"
               = true) by (apply prefix_app; eexists; reflexivity).
  assert (H2 : startsWith (";base64," ++ payload) ";base64," = true)
    by (apply prefix_app; eexists; reflexivity).
  rewrite H1.
  change (substringFrom 11 ("data:image/" ++ mime ++ ";base64," ++ payload))
    with (mime ++ ";base64," ++ payload).
  rewrite (spanWord_app mime (";base64," ++ payload) Hw eq_refl).
  rewrite Hm, H2.
  change (substringFrom 8 (";base64," ++ payload)) with payload.
  now rewrite Hp, Hl.
Qed.

(** What a match of the pattern says about the URL. *)
Lemma matchDataUri_spec : forall url mime payload,
  matchDataUri url = Some (mime, payload) ->
  url = "data:image/" ++ mime ++ ";base64," ++ payload /\
  nonEmpty mime = true /\ allWordChars mime = true /\
  nonEmpty payload = true /\ noLineTerminator payload = true.
Proof.
  intros url m p. unfold matchDataUri.
  destruct (startsWith url "data:image/") eqn:Hpre; [|discriminate].
  unfold startsWith in Hpre. apply prefix_app in Hpre. destruct Hpre as [post ->].
  change (substringFrom 11 ("data:image/" ++ post)) with post.
  destruct (spanWord post) as [w r] eqn:Hspan.
  destruct (spanWord_spec post w r Hspan) as [-> Hword].
  destruct (nonEmpty w && startsWith r ";base64,") eqn:Hc; [|discriminate].
  apply andb_true_iff in Hc. destruct Hc as [Hne Hr].
  unfold startsWith in Hr. apply prefix_app in Hr. destruct Hr as [post' ->].
  change (substringFrom 8 (";base64," ++ post')) with post'.
  destruct (nonEmpty post' && noLineTerminator post') eqn:Hc'; [|discriminate].
  apply andb_true_iff in Hc'. destruct Hc' as [Hne' Hnl].
  intros H. inversion H; subst. auto.
Qed.

Lemma allWordChars_typeChar : forall s,
  allWordChars s = true <-> everyChar typeChar s.
Proof.
  induction s as [|c s IH]; simpl; [tauto|].
  rewrite andb_true_iff, IH. unfold isWordChar, typeChar. cbv zeta.
  rewrite !orb_true_iff, !andb_true_iff, !Nat.leb_le, Nat.eqb_eq. tauto.
Qed.

Lemma noLineTerminator_lineBreak : forall s,
  noLineTerminator s = true <-> everyChar (fun c => ~ lineBreak c) s.
Proof.
  induction s as [|c s IH]; simpl; [tauto|].
  rewrite andb_true_iff, IH, negb_true_iff, orb_false_iff, !Nat.eqb_neq.
  unfold lineBreak. tauto.
Qed.

Lemma nonEmpty_iff : forall s, nonEmpty s = true <-> s <> "".
Proof. intros [|c s]; simpl; split; congruence. Qed.

(** The pattern of [extractResult] matches exactly the inline images. *)
Lemma matchDataUri_inlineImage : forall url imageType payload,
  matchDataUri url = Some (imageType, payload) <-> inlineImage url imageType payload.
Proof.
  intros url t p. unfold inlineImage. split.
  - intros H. destruct (matchDataUri_spec url t p H) as (Hu & Ht & Hw & Hp & Hl).
    rewrite <- allWordChars_typeChar, <- noLineTerminator_lineBreak, <- !nonEmpty_iff.
    auto.
  - intros (-> & Ht & Hw & Hp & Hl).
    apply matchDataUri_build.
    + now apply nonEmpty_iff.
    + now apply allWordChars_typeChar.
    + now apply nonEmpty_iff.
    + now apply noLineTerminator_lineBreak.
Qed.

(** The image type of a result of the Replicate client, from its URL
    alone. *)
Lemma replicateImageType_spec : forall url,
  (forall imageType payload,
     inlineImage url imageType payload -> replicateImageType url = imageType) /\
  ((forall imageType payload, ~ inlineImage url imageType payload) ->
   (occursIn ".webp" url -> replicateImageType url = "webp") /\
   (~ occursIn ".webp" url -> occursIn ".png" url -> replicateImageType url = "png") /\
   (~ occursIn ".webp" url -> ~ occursIn ".png" url -> replicateImageType url = "jpeg")).
Proof.
  intros url. unfold replicateImageType. split.
  - intros t p H. apply matchDataUri_inlineImage in H. now rewrite H.
  - intros Hnone.
    destruct (matchDataUri url) as [[t p]|] eqn:Hm.
    { exfalso. apply (Hnone t p). now apply matchDataUri_inlineImage. }
    unfold typeFromUrl, occursIn. cbv zeta. rewrite <- !includes_spec.
    destruct (includes url ".webp"), (includes url ".png");
      repeat split; intros; congruence.
Qed.

Lemma extractResult_imageType : forall output,
  everyResult (fun res => img_imageType res = replicateImageType (img_url res))
              (extractResult output).
Proof.
  intros output. unfold extractResult.
  destruct (firstOutput output) as [url|]; [|exact I].
  assert (H : (if startsWith url "data:image" then matchDataUri url else None)
              = matchDataUri url).
  { destruct (startsWith url "data:image") eqn:Hp; [reflexivity|].
    symmetry. now apply matchDataUri_needs_prefix. }
  rewrite H. unfold replicateImageType.
  destruct (matchDataUri url) as [[mime payload]|] eqn:Hm; simpl; now rewrite Hm.
Qed.

Lemma replicatePoll_imageType : forall remaining getUrl apiKey,
  everyResult (fun res => img_imageType res = replicateImageType (img_url res))
              (replicatePoll remaining getUrl apiKey).
Proof.
  induction remaining as [|remaining IH]; intros getUrl apiKey.
  - exact I.
  - cbn [replicatePoll]. unfold await, awaitFetch, awaitJson.
    cbn -[replicatePoll String.eqb extractResult].
    intros _ [resp|e]; cbn -[replicatePoll String.eqb extractResult]; [|exact I].
    destruct (ok resp); cbn -[replicatePoll String.eqb extractResult]; [|exact I].
    intros _. destruct (data resp) as [d|];
      cbn -[replicatePoll String.eqb extractResult]; [|exact I].
    destruct (String.eqb _ "succeeded"); [apply extractResult_imageType|].
    destruct (String.eqb _ "failed"); [exact I|].
    destruct (String.eqb _ "canceled"); [exact I | apply IH].
Qed.

Lemma getImageFromReplicate_imageType : forall prompt apiKey model,
  everyResult (fun res => img_imageType res = replicateImageType (img_url res))
              (getImageFromReplicate prompt apiKey model).
Proof.
  intros prompt apiKey model. unfold getImageFromReplicate.
  destruct (negb (nonEmpty apiKey)); [exact I|].
  destruct (replicateModel model prompt) as [[[apiUrl version] input]|]; [|exact I].
  apply everyResult_tryCatch; [|intros e; exact I].
  unfold awaitFetch, awaitJson, awaitErrorJson.
  cbn -[replicatePoll String.eqb extractResult].
  intros [resp|e]; cbn -[replicatePoll String.eqb extractResult]; [|exact I].
  destruct (ok resp); cbn -[replicatePoll String.eqb extractResult].
  - intros _. destruct (data resp) as [d|];
      cbn -[replicatePoll String.eqb extractResult]; [|exact I].
    destruct (_ && _); [apply extractResult_imageType|].
    destruct (rep_urls_get d) as [[|c rest]|]; try exact I.
    apply replicatePoll_imageType.
  - intros _. destruct (errorData resp); exact I.
Qed.

(** *** What the clients and the prompt generator do *)

Lemma falPoll_events : forall remaining apiUrl requestId apiKey,
  everyEvent falEvent (falPoll remaining apiUrl requestId apiKey).
Proof.
  induction remaining as [|remaining IH]; intros apiUrl requestId apiKey.
  - exact I.
  - cbn [falPoll]. unfold await, awaitFetch, awaitJson. cbn -[falPoll String.eqb].
    split; [exact I|]. intros _. split; [exact I|].
    intros [resp|e]; cbn -[falPoll String.eqb]; [|exact I].
    destruct (ok resp); cbn -[falPoll String.eqb]; [|exact I].
    split; [exact I|].
    intros _. destruct (data resp) as [d|]; cbn -[falPoll String.eqb]; [|exact I].
    destruct (String.eqb _ "COMPLETED").
    + destruct (fal_images d) as [[|image ?]|]; exact I.
    + destruct (String.eqb _ "FAILED"); [exact I | apply IH].
Qed.

Lemma getImageFromFal_events : forall prompt apiKey model,
  everyEvent falEvent (getImageFromFal prompt apiKey model).
Proof.
  intros prompt apiKey model. unfold getImageFromFal. cbv zeta.
  destruct (negb (nonEmpty apiKey)); [exact I|].
  apply everyEvent_tryCatch; [|intros e; simpl; auto].
  unfold ask, awaitFetch, awaitJson, awaitErrorJson. cbn -[falPoll].
  intros seed. split; [exact I|].
  intros [resp|e]; cbn -[falPoll]; [|exact I].
  destruct (ok resp); cbn -[falPoll].
  - split; [exact I|].
    intros _. destruct (data resp) as [d|]; cbn -[falPoll]; [|exact I].
    destruct (fal_images d) as [[|image ?]|]; try exact I;
      destruct (fal_request_id d) as [[|c rest]|]; try exact I;
      apply falPoll_events.
  - split; [exact I|]. intros _. destruct (errorData resp); exact I.
Qed.

Lemma extractResult_events : forall (P : Event -> Prop) output,
  everyEvent P (extractResult output).
Proof.
  intros P output. unfold extractResult.
  destruct (firstOutput output) as [url|]; [|exact I].
  destruct (if startsWith url "data:image" then matchDataUri url else None)
    as [[mime payload]|]; exact I.
Qed.

Lemma replicatePoll_events : forall remaining getUrl apiKey,
  everyEvent replicateEvent (replicatePoll remaining getUrl apiKey).
Proof.
  induction remaining as [|remaining IH]; intros getUrl apiKey.
  - exact I.
  - cbn [replicatePoll]. unfold await, awaitFetch, awaitJson.
    cbn -[replicatePoll String.eqb extractResult].
    split; [exact I|]. intros _. split; [exact I|].
    intros [resp|e]; cbn -[replicatePoll String.eqb extractResult]; [|exact I].
    destruct (ok resp); cbn -[replicatePoll String.eqb extractResult]; [|exact I].
    split; [exact I|].
    intros _. destruct (data resp) as [d|];
      cbn -[replicatePoll String.eqb extractResult]; [|exact I].
    destruct (String.eqb _ "succeeded"); [apply extractResult_events|].
    destruct (String.eqb _ "failed"); [exact I|].
    destruct (String.eqb _ "canceled"); [exact I | apply IH].
Qed.

Lemma getImageFromReplicate_events : forall prompt apiKey model,
  everyEvent replicateEvent (getImageFromReplicate prompt apiKey model).
Proof.
  intros prompt apiKey model. unfold getImageFromReplicate.
  destruct (negb (nonEmpty apiKey)); [exact I|].
  destruct (replicateModel model prompt) as [[[apiUrl version] input]|]; [|exact I].
  apply everyEvent_tryCatch; [|intros e; simpl; auto].
  unfold awaitFetch, awaitJson, awaitErrorJson.
  cbn -[replicatePoll String.eqb extractResult].
  split; [exact I|].
  intros [resp|e]; cbn -[replicatePoll String.eqb extractResult]; [|exact I].
  destruct (ok resp); cbn -[replicatePoll String.eqb extractResult].
  - split; [exact I|].
    intros _. destruct (data resp) as [d|];
      cbn -[replicatePoll String.eqb extractResult]; [|exact I].
    destruct (_ && _); [apply extractResult_events|].
    destruct (rep_urls_get d) as [[|c rest]|]; try exact I.
    apply replicatePoll_events.
  - split; [exact I|]. intros _. destruct (errorData resp); exact I.
Qed.

Lemma generatePromptFromTexts_events : forall texts apiKey model previousPrompt,
  everyEvent llmEvent
    (LlmHandler.generatePromptFromTexts texts apiKey model previousPrompt).
Proof.
  intros texts apiKey model previousPrompt. unfold LlmHandler.generatePromptFromTexts.
  destruct (negb (nonEmpty apiKey)); [exact I|]. cbv zeta.
  apply everyEvent_tryCatch; [|intros e; simpl; auto].
  unfold awaitFetch, awaitJson, awaitErrorJson. cbn -[LlmHandler.completionRequest trim].
  split; [exact I|].
  intros [resp|e]; cbn -[LlmHandler.completionRequest trim]; [|exact I].
  destruct (ok resp); cbn -[LlmHandler.completionRequest trim].
  - split; [exact I|].
    intros _. destruct (data resp) as [d|]; cbn -[trim]; [|exact I].
    destruct (llm_content d); exact I.
  - split; [exact I|]. intros _. destruct (errorData resp); exact I.
Qed.

(** An unsupported identifier stops the Replicate client at once: the
    program is the [throw] itself, with no call before it. *)
Lemma getImageFromReplicate_unknown : forall prompt apiKey model,
  nonEmpty apiKey = true ->
  model <> "replicate-z-image-turbo" ->
  model <> "replicate-pruna-p-image" ->
  getImageFromReplicate prompt apiKey model =
  Throw (Error ("Unknown Replicate model: " ++ model)).
Proof.
  intros prompt apiKey model Hkey H1 H2.
  unfold getImageFromReplicate, replicateModel. rewrite Hkey.
  apply String.eqb_neq in H1, H2. now rewrite H1, H2.
Qed.

(** The media type of an inline image, as the first rule of the
    specification's order reads it. *)
Lemma mediaType_typeChars : forall imageType rest,
  everyChar typeChar imageType ->
  mediaType (imageType ++ ";" ++ rest) = imageType.
Proof.
  induction imageType as [|c t IH]; intros rest H; [reflexivity|].
  destruct H as [Hc Ht]. cbn [append mediaType].
  assert (Hsep : ((nat_of_ascii c =? 59) || (nat_of_ascii c =? 44))%nat = false).
  { unfold typeChar in Hc. apply orb_false_iff.
    split; apply Nat.eqb_neq; lia. }
  rewrite Hsep. f_equal. exact (IH rest Ht).
Qed.

Lemma inlineImage_specified : forall url imageType payload heuristic hint,
  inlineImage url imageType payload ->
  specifiedImageType heuristic url hint = imageType.
Proof.
  intros url t p heuristic hint (Hu & _ & Ht & _). subst url.
  unfold specifiedImageType, inlineMimeType.
  replace (afterPrefix "data:" ("data:image/" ++ t ++ ";base64," ++ p))
    with (Some ("image/" ++ t ++ ";" ++ "base64," ++ p)) by reflexivity.
  cbv beta iota.
  replace (mediaType ("image/" ++ t ++ ";" ++ "base64," ++ p))
    with ("image/" ++ mediaType (t ++ ";" ++ "base64," ++ p)) by reflexivity.
  rewrite (mediaType_typeChars t _ Ht). reflexivity.
Qed.

End ClientFacts.

(** ** The orchestrators, one routine at a time *)

Module OrchestratorFacts.
Import JS Async LlmHandler ApiHandler Background Traces RunFacts ClientFacts.
Local Open Scope prog_scope.
Local Open Scope Z_scope.

#[local] Arguments startsWith : simpl never.
#[local] Arguments nonEmpty : simpl never.
#[local] Arguments join : simpl never.
#[local] Arguments generatePromptFromTexts : simpl never.
#[local] Arguments imageStage : simpl never.
#[local] Arguments initWeave : simpl never.
#[local] Arguments updatePipeline : simpl never.
#[local] Arguments updateAccepted : simpl never.
#[local] Arguments updateGuarded : simpl never.
#[local] Arguments regeneratePipeline : simpl never.
#[local] Arguments regenerateAccepted : simpl never.
#[local] Arguments regenerateGuarded : simpl never.

(** *** Assignments and the variables they leave alone *)

Lemma exec_spares : forall A (p : Prog A) w n s,
  everyEvent sparesPipeline p ->
  isGenerating (final (exec p w n s)) = isGenerating s /\
  lastGeneratedPrompt (final (exec p w n s)) = lastGeneratedPrompt s /\
  lastUpdateTime (final (exec p w n s)) = lastUpdateTime s.
Proof.
  intros A p w.
  induction p as [a|e|q k IH|c k IH|e k IH|k IH|a k IH]; intros n s H; simpl in *; auto.
  - apply IH, H.
  - apply IH, H.
  - destruct H as [Ha H]. destruct a; try contradiction.
    destruct (IH n (assign (SetWeaveInitialized b) s) H) as (H1 & H2 & H3).
    auto.
Qed.

Lemma initWeave_events : everyEvent initEvent (awaitAsync initWeave).
Proof.
  apply everyEvent_awaitAsync; [exact I|].
  unfold initWeave, load, awaitStorageSyncGet, emit, store. simpl.
  intros s. destruct (weaveInitialized s); simpl; [exact I|].
  split; [exact I|]. intros [st|e]; simpl; [|exact I].
  destruct (_ && _); simpl; auto.
Qed.

Lemma initEvent_spares : forall e, initEvent e -> sparesPipeline e.
Proof. intros [ | | | | | | | | | |[]|[]]; simpl; auto. Qed.

Lemma initRun_spares : forall w s,
  isGenerating (final (initRun w s)) = isGenerating s /\
  lastGeneratedPrompt (final (initRun w s)) = lastGeneratedPrompt s /\
  lastUpdateTime (final (initRun w s)) = lastUpdateTime s.
Proof.
  intros. apply exec_spares.
  eapply everyEvent_weaken; [exact initEvent_spares | exact initWeave_events].
Qed.

Lemma initRun_events : forall w s, Forall initEvent (events (initRun w s)).
Proof. intros. apply everyEvent_exec, initWeave_events. Qed.

(** *** The run of [handleUpdateTexts], piece by piece *)

Lemma run_handleUpdateTexts : forall texts tabId w s,
  run (handleUpdateTexts texts tabId) w s =
  thenRun (initRun w s)
    (fun _ n s' => exec (updateGuarded texts tabId (answer w n DateNow)) w (S n) s').
Proof.
  intros. unfold run, handleUpdateTexts, initRun. rewrite exec_bind.
  reflexivity.
Qed.

Lemma exec_updateGuarded_debounced : forall texts tabId now w n s,
  now - lastUpdateTime s < DEBOUNCE_WINDOW ->
  exec (updateGuarded texts tabId now) w n s =
  {| completion := Returned tt; final := s;
     events := [ConsoleLog "Skipping update: too soon"]; interactions := n |}.
Proof.
  intros texts tabId now w n s H. unfold updateGuarded, load. cbn [bind exec].
  apply Z.ltb_lt in H. unfold DEBOUNCE_WINDOW in H. rewrite H. reflexivity.
Qed.

Lemma exec_updateGuarded_locked : forall texts tabId now w n s,
  DEBOUNCE_WINDOW <= now - lastUpdateTime s ->
  isGenerating s = true ->
  exec (updateGuarded texts tabId now) w n s =
  {| completion := Returned tt; final := s;
     events := [ConsoleLog "Skipping update: already generating"]; interactions := n |}.
Proof.
  intros texts tabId now w n s H Hg. unfold updateGuarded, load. cbn [bind exec].
  apply Z.ltb_ge in H. unfold DEBOUNCE_WINDOW in H. rewrite H, Hg. reflexivity.
Qed.

Lemma exec_updateGuarded_accepted : forall texts tabId now w n s,
  DEBOUNCE_WINDOW <= now - lastUpdateTime s ->
  isGenerating s = false ->
  exec (updateGuarded texts tabId now) w n s =
  finallyRun
    (catchRun (exec (updateAccepted texts tabId now) w n s)
       (fun e n' s' => exec (reportError "Error in handleUpdateTexts:" e) w n' s'))
    (fun n' s' => exec (store (SetIsGenerating false)) w n' s').
Proof.
  intros texts tabId now w n s H Hg. unfold updateGuarded, load. cbn [bind exec].
  apply Z.ltb_ge in H. unfold DEBOUNCE_WINDOW in H. rewrite H, Hg.
  rewrite exec_tryFinally, exec_tryCatch. reflexivity.
Qed.

Lemma exec_updateAccepted_rejected : forall texts tabId now w n s e,
  reply w (S n) StorageSyncGet = Rejected e ->
  exec (updateAccepted texts tabId now) w n s =
  {| completion := Threw e; final := acceptState now s;
     events := acceptEvents now; interactions := S (S n) |}.
Proof.
  intros texts tabId now w n s e H.
  unfold updateAccepted, ask, store, emit, awaitStorageSyncGet. cbn [bind exec].
  rewrite H. reflexivity.
Qed.

Lemma exec_updateAccepted_missing : forall texts tabId now w n s st warning,
  reply w (S n) StorageSyncGet = Fulfilled st ->
  missingCredential st = Some warning ->
  exec (updateAccepted texts tabId now) w n s =
  {| completion := Returned tt;
     final := assign (SetIsGenerating false) (acceptState now s);
     events := (acceptEvents now ++ missingKeyEvents warning)%list;
     interactions := S (S n) |}.
Proof.
  intros texts tabId now w n s st warning H Hm.
  unfold updateAccepted, ask, store, emit, awaitStorageSyncGet. cbn [bind exec].
  rewrite H. cbn [settle bind exec]. unfold missingCredential in Hm.
  destruct (negb (nonEmpty (openaiApiKey st))).
  { inversion Hm; subst. reflexivity. }
  destruct (startsWith (imageModel st) "fal" && negb (nonEmpty (falApiKey st))).
  { inversion Hm; subst. reflexivity. }
  destruct (startsWith (imageModel st) "replicate" && negb (nonEmpty (replicateApiKey st))).
  { inversion Hm; subst. reflexivity. }
  discriminate.
Qed.

Lemma exec_updateAccepted_untraced : forall texts tabId now w n s st e,
  reply w (S n) StorageSyncGet = Fulfilled st ->
  missingCredential st = None ->
  let inputs := updateTraceInputs texts (acceptState now s) in
  reply w (S (S n)) (StartTrace "generate_creative_image" inputs) = Rejected e ->
  exec (updateAccepted texts tabId now) w n s =
  {| completion := Threw e; final := acceptState now s;
     events := (acceptEvents now ++
                [Awaits (StartTrace "generate_creative_image" inputs)])%list;
     interactions := S (S (S n)) |}.
Proof.
  intros texts tabId now w n s st e H Hm inputs Ht.
  unfold updateAccepted, ask, store, emit, load, awaitStartTrace, awaitStorageSyncGet.
  cbn [bind exec].
  rewrite H. cbn [settle bind exec]. unfold missingCredential in Hm.
  destruct (negb (nonEmpty (openaiApiKey st))); [discriminate|].
  destruct (startsWith (imageModel st) "fal" && negb (nonEmpty (falApiKey st)));
    [discriminate|].
  destruct (startsWith (imageModel st) "replicate" && negb (nonEmpty (replicateApiKey st)));
    [discriminate|].
  cbn [bind exec]. subst inputs. unfold updateTraceInputs, acceptState in Ht.
  rewrite Ht. reflexivity.
Qed.

Lemma exec_updateAccepted_valid : forall texts tabId now w n s st traceContext,
  reply w (S n) StorageSyncGet = Fulfilled st ->
  missingCredential st = None ->
  let inputs := updateTraceInputs texts (acceptState now s) in
  reply w (S (S n)) (StartTrace "generate_creative_image" inputs) = Fulfilled traceContext ->
  exec (updateAccepted texts tabId now) w n s =
  prepend (acceptEvents now ++ [Awaits (StartTrace "generate_creative_image" inputs)])
    (catchRun
       (exec (updatePipeline texts tabId st traceContext (answer w n DateNow))
             w (S (S (S n))) (acceptState now s))
       (fun e n' s' =>
          {| completion := Threw e; final := s';
             events := [EndTraceDetached traceContext (exnToString e)];
             interactions := n' |})).
Proof.
  intros texts tabId now w n s st traceContext H Hm inputs Ht.
  unfold updateAccepted, ask, store, emit, load, awaitStartTrace, awaitStorageSyncGet.
  cbn [bind exec].
  rewrite H. cbn [settle bind exec]. unfold missingCredential in Hm.
  destruct (negb (nonEmpty (openaiApiKey st))); [discriminate|].
  destruct (startsWith (imageModel st) "fal" && negb (nonEmpty (falApiKey st)));
    [discriminate|].
  destruct (startsWith (imageModel st) "replicate" && negb (nonEmpty (replicateApiKey st)));
    [discriminate|].
  cbn [bind exec]. subst inputs. unfold updateTraceInputs, acceptState in Ht.
  rewrite Ht. cbn [settle bind exec]. rewrite exec_tryCatch. reflexivity.
Qed.

Lemma exec_updatePipeline : forall texts tabId st traceContext startTotal w n s,
  exec (updatePipeline texts tabId st traceContext startTotal) w n s =
  let r1 := exec (generatePromptFromTexts texts (openaiApiKey st) (llmModel st)
                    (lastGeneratedPrompt s)) w (S n) s in
  match completion r1 with
  | Threw e =>
      {| completion := Threw e; final := final r1;
         events := (events r1 ++ [Awaits Tick])%list;
         interactions := S (interactions r1) |}
  | Returned llmResult =>
      let n1 := interactions r1 in
      let r2 := exec (imageStage st (prompt llmResult)) w (S (S (S n1)))
                     (assign (SetLastGeneratedPrompt (prompt llmResult)) (final r1)) in
      prepend (events r1 ++
               [Awaits Tick;
                Assigns (SetLastGeneratedPrompt (prompt llmResult));
                StorageLocalSet (prompt llmResult)])
        match completion r2 with
        | Threw e =>
            {| completion := Threw e; final := final r2;
               events := events r2; interactions := interactions r2 |}
        | Returned imageResult =>
            let n2 := interactions r2 in
            {| completion := Returned tt; final := final r2;
               events :=
                 (events r2 ++
                  renderEvents (Some tabId)
                    {| msg_imageUrl := img_url imageResult;
                       msg_prompt := prompt llmResult;
                       msg_stats :=
                         {| llm := Some (answer w (S n1) DateNow - answer w n DateNow);
                            imageGen := answer w n2 DateNow - answer w (S (S n1)) DateNow;
                            total := answer w (S n2) DateNow - startTotal |} |}
                    {| job_context := traceContext;
                       job_imageModel := imageModel st;
                       job_imageUrl := img_url imageResult;
                       job_base64 := img_base64 imageResult;
                       job_imageType := img_imageType imageResult;
                       job_llm := Some llmResult |})%list;
               interactions := S (S n2) |}
        end
  end.
Proof.
  intros texts tabId st traceContext startTotal w n s.
  unfold updatePipeline, ask, load, store, emit. cbn [bind exec].
  rewrite exec_bind, exec_awaitAsync. cbv zeta. unfold thenRun at 1.
  cbn [completion final events interactions].
  destruct (completion (exec (generatePromptFromTexts _ _ _ _) w (S n) s))
    as [llmResult|e]; [|reflexivity].
  cbn [bind exec]. rewrite exec_bind. unfold thenRun at 1.
  destruct (completion (exec (imageStage st (prompt llmResult)) _ _ _))
    as [imageResult|e] eqn:Hc2.
  - unfold prepend, logged, renderEvents. cbn [completion final events interactions bind exec].
    destruct (truthyTab (Some tabId)); cbn [completion final events interactions bind exec app];
      rewrite <- ?app_assoc; reflexivity.
  - unfold prepend, logged. cbn [completion final events interactions].
    rewrite <- ?app_assoc. reflexivity.
Qed.

(** *** The runs of Stage 1 and Stage 2 *)

Lemma llmEvent_not_assign : forall e, llmEvent e -> ~ isAssign e.
Proof. intros [ | | | | | | | | | |[]|]; simpl; auto. Qed.

Lemma falEvent_not_assign : forall e, falEvent e -> ~ isAssign e.
Proof. intros [ | | | | | | | | | |[]|]; simpl; auto. Qed.

Lemma replicateEvent_not_assign : forall e, replicateEvent e -> ~ isAssign e.
Proof. intros [ | | | | | | | | | |[]|]; simpl; auto. Qed.

Lemma imageStage_events : forall st prompt,
  everyEvent stage2Event (imageStage st prompt).
Proof.
  intros st prompt. unfold imageStage.
  destruct (startsWith (imageModel st) "replicate").
  - apply everyEvent_awaitAsync; [right; right; reflexivity|].
    eapply everyEvent_weaken; [|apply getImageFromReplicate_events].
    intros e H. right. now left.
  - apply everyEvent_awaitAsync; [right; right; reflexivity|].
    eapply everyEvent_weaken; [|apply getImageFromFal_events].
    intros e H. now left.
Qed.

Lemma stage2Event_not_assign : forall e, stage2Event e -> ~ isAssign e.
Proof.
  intros e [H|[H|H]];
    [exact (falEvent_not_assign e H) | exact (replicateEvent_not_assign e H) | subst; simpl; auto].
Qed.

Lemma imageStage_final : forall st prompt w n s,
  final (exec (imageStage st prompt) w n s) = s.
Proof.
  intros. apply exec_final_unchanged.
  eapply everyEvent_weaken; [exact stage2Event_not_assign | apply imageStage_events].
Qed.

Lemma generatePromptFromTexts_final : forall texts apiKey model previousPrompt w n s,
  final (exec (generatePromptFromTexts texts apiKey model previousPrompt) w n s) = s.
Proof.
  intros. apply exec_final_unchanged.
  eapply everyEvent_weaken; [exact llmEvent_not_assign | apply generatePromptFromTexts_events].
Qed.

(** The run of the prompt generator begins with its request, and when it
    returns, the request and the reading of the body are all it did; the
    prompt it returns is the trimmed content of the completion. *)
Lemma generatePromptFromTexts_run : forall texts apiKey model previousPrompt w n s,
  nonEmpty apiKey = true ->
  let request := completionRequest apiKey model (join ", " (map text texts)) previousPrompt in
  let r := exec (generatePromptFromTexts texts apiKey model previousPrompt) w n s in
  (exists rest, events r = Awaits (Fetch LlmApi request) :: rest /\
                Forall (fun e => ~ isFetch e) rest) /\
  (forall res, completion r = Returned res ->
     events r = [Awaits (Fetch LlmApi request); Awaits ReadJson] /\
     exists resp d content,
       reply w n (Fetch LlmApi request) = Fulfilled resp /\ ok resp = true /\
       data resp = Some d /\ llm_content d = Some content /\
       res = {| prompt := trim content; model := model; usage := llm_usage d |}).
Proof.
  intros texts apiKey model previousPrompt w n s Hkey request r.
  subst r. unfold generatePromptFromTexts. rewrite Hkey. cbn [negb]. cbv zeta.
  fold request. rewrite exec_tryCatch.
  unfold awaitFetch, awaitJson, awaitErrorJson, emit. cbn [bind exec].
  destruct (reply w n (Fetch LlmApi request)) as [resp|e] eqn:Hr; cbn [settle bind exec].
  2: { unfold catchRun, logged, prepend. cbn. split.
       - eexists. split; [reflexivity|]. repeat constructor; simpl; auto.
       - intros res H. discriminate. }
  cbn [Body] in *. destruct (ok resp) eqn:Hok; cbn [negb bind exec].
  - destruct (data resp) as [d|] eqn:Hd; cbn [bind exec].
    + destruct (llm_content d) as [content|] eqn:Hcontent.
      * unfold catchRun, logged, prepend. cbn. split.
        -- eexists. split; [reflexivity|]. repeat constructor; simpl; auto.
        -- intros res H. inversion H; subst. split; [reflexivity|].
           exists resp, d, content. auto.
      * unfold catchRun, logged, prepend. cbn. split.
        -- eexists. split; [reflexivity|]. repeat constructor; simpl; auto.
        -- intros res H. discriminate.
    + unfold catchRun, logged, prepend. cbn. split.
      * eexists. split; [reflexivity|]. repeat constructor; simpl; auto.
      * intros res H. discriminate.
  - destruct (errorData resp) as [ed|]; unfold catchRun, logged, prepend; cbn; split;
      try (eexists; split; [reflexivity|]; repeat constructor; simpl; auto);
      intros res H; discriminate.
Qed.

(** *** The [catch] and the [finally] around an accepted trigger *)

Lemma guarded_run : forall where_ (body : Run unit) w,
  finallyRun
    (catchRun body (fun e n' s' => exec (reportError where_ e) w n' s'))
    (fun n' s' => exec (store (SetIsGenerating false)) w n' s') =
  {| completion := Returned tt;
     final := assign (SetIsGenerating false) (final body);
     events := (events body ++ closing where_ (completion body))%list;
     interactions := interactions body |}.
Proof.
  intros where_ [[[]|e] fs evs m] w; unfold finallyRun, catchRun, closing, prepend; cbn.
  - reflexivity.
  - now rewrite <- app_assoc.
Qed.

(** *** The ways a run of [handleUpdateTexts] can go *)

Lemma run_handleUpdateTexts_cases : forall texts tabId w s,
  let r := run (handleUpdateTexts texts tabId) w s in
  let i := initRun w s in
  let now := nowRead w s in
  (exists e, completion i = Threw e /\ events r = events i /\ final r = final i) \/
  (completion i = Returned tt /\ now - lastUpdateTime s < DEBOUNCE_WINDOW /\
   completion r = Returned tt /\ final r = final i /\
   events r = (events i ++ [ConsoleLog "Skipping update: too soon"])%list) \/
  (completion i = Returned tt /\ DEBOUNCE_WINDOW <= now - lastUpdateTime s /\
   isGenerating s = true /\
   completion r = Returned tt /\ final r = final i /\
   events r = (events i ++ [ConsoleLog "Skipping update: already generating"])%list) \/
  (completion i = Returned tt /\ DEBOUNCE_WINDOW <= now - lastUpdateTime s /\
   isGenerating s = false /\
   let b := bodyRun texts tabId now w (S (interactions i)) (final i) in
   completion r = Returned tt /\
   final r = assign (SetIsGenerating false) (final b) /\
   events r = (events i ++ events b ++
               closing "Error in handleUpdateTexts:" (completion b))%list).
Proof.
  intros texts tabId w s r i now.
  subst r. rewrite run_handleUpdateTexts. fold i. unfold thenRun.
  destruct (initRun_spares w s) as (Hg & Hp & Ht). fold i in Hg, Hp, Ht.
  destruct (completion i) as [[]|e] eqn:Hi.
  2: { left. exists e. auto. }
  right. change (answer w (interactions i) DateNow) with now.
  destruct (Z.lt_ge_cases (now - lastUpdateTime s) DEBOUNCE_WINDOW) as [Hd|Hd].
  - left. rewrite exec_updateGuarded_debounced by (rewrite Ht; exact Hd).
    unfold prepend. cbn. auto.
  - right. destruct (isGenerating s) eqn:Hgen.
    + left. rewrite exec_updateGuarded_locked by (rewrite ?Ht; auto).
      unfold prepend. cbn. auto 10.
    + right. rewrite exec_updateGuarded_accepted by (rewrite ?Ht; auto).
      rewrite guarded_run. unfold prepend, bodyRun. cbn. auto 10.
Qed.

Lemma updateAccepted_cases : forall texts tabId now w n s,
  let b := bodyRun texts tabId now w n s in
  let inputs := updateTraceInputs texts (acceptState now s) in
  (exists e, reply w (S n) StorageSyncGet = Rejected e /\
     b = {| completion := Threw e; final := acceptState now s;
            events := acceptEvents now; interactions := S (S n) |}) \/
  (exists st warning,
     reply w (S n) StorageSyncGet = Fulfilled st /\
     missingCredential st = Some warning /\
     b = {| completion := Returned tt;
            final := assign (SetIsGenerating false) (acceptState now s);
            events := (acceptEvents now ++ missingKeyEvents warning)%list;
            interactions := S (S n) |}) \/
  (exists st e,
     reply w (S n) StorageSyncGet = Fulfilled st /\
     missingCredential st = None /\
     reply w (S (S n)) (StartTrace "generate_creative_image" inputs) = Rejected e /\
     b = {| completion := Threw e; final := acceptState now s;
            events := (acceptEvents now ++
                       [Awaits (StartTrace "generate_creative_image" inputs)])%list;
            interactions := S (S (S n)) |}) \/
  (exists st traceContext,
     reply w (S n) StorageSyncGet = Fulfilled st /\
     missingCredential st = None /\
     reply w (S (S n)) (StartTrace "generate_creative_image" inputs)
       = Fulfilled traceContext /\
     b = prepend (acceptEvents now ++ [Awaits (StartTrace "generate_creative_image" inputs)])
           (catchRun
              (exec (updatePipeline texts tabId st traceContext (answer w n DateNow))
                    w (S (S (S n))) (acceptState now s))
              (fun e n' s' =>
                 {| completion := Threw e; final := s';
                    events := [EndTraceDetached traceContext (exnToString e)];
                    interactions := n' |}))).
Proof.
  intros texts tabId now w n s b inputs. subst b. unfold bodyRun.
  destruct (reply w (S n) StorageSyncGet) as [st|e] eqn:Hr.
  - right. destruct (missingCredential st) as [warning|] eqn:Hm.
    + left. exists st, warning. split; [reflexivity|]. split; [assumption|].
      exact (exec_updateAccepted_missing texts tabId now w n s st warning Hr Hm).
    + right.
      destruct (reply w (S (S n)) (StartTrace "generate_creative_image" inputs))
        as [traceContext|e] eqn:Ht.
      * right. exists st, traceContext. split; [reflexivity|]. split; [assumption|].
        split; [reflexivity|].
        exact (exec_updateAccepted_valid texts tabId now w n s st traceContext Hr Hm Ht).
      * left. exists st, e. split; [reflexivity|]. split; [assumption|].
        split; [reflexivity|].
        exact (exec_updateAccepted_untraced texts tabId now w n s st e Hr Hm Ht).
  - left. exists e. split; [reflexivity|].
    exact (exec_updateAccepted_rejected texts tabId now w n s e Hr).
Qed.

Lemma updatePipeline_cases : forall texts tabId st traceContext startTotal w n s,
  let r1 := exec (generatePromptFromTexts texts (openaiApiKey st) (llmModel st)
                    (lastGeneratedPrompt s)) w (S n) s in
  let p := exec (updatePipeline texts tabId st traceContext startTotal) w n s in
  (exists e, completion r1 = Threw e /\ completion p = Threw e /\ final p = s /\
             events p = (events r1 ++ [Awaits Tick])%list) \/
  (exists llmResult,
     completion r1 = Returned llmResult /\
     let s2 := assign (SetLastGeneratedPrompt (prompt llmResult)) s in
     let r2 := exec (imageStage st (prompt llmResult)) w (S (S (S (interactions r1)))) s2 in
     final p = s2 /\
     exists closingEvents,
       events p = (events r1 ++
                   [Awaits Tick;
                    Assigns (SetLastGeneratedPrompt (prompt llmResult));
                    StorageLocalSet (prompt llmResult)] ++
                   events r2 ++ closingEvents)%list /\
       ((exists e, completion r2 = Threw e /\ completion p = Threw e /\
                   closingEvents = []) \/
        (exists imageResult message job,
           completion r2 = Returned imageResult /\ completion p = Returned tt /\
           msg_imageUrl message = img_url imageResult /\
           msg_prompt message = prompt llmResult /\
           closingEvents = renderEvents (Some tabId) message job))).
Proof.
  intros texts tabId st traceContext startTotal w n s r1 p.
  subst p. rewrite exec_updatePipeline. cbv zeta. fold r1.
  assert (Hf1 : final r1 = s) by apply generatePromptFromTexts_final.
  destruct (completion r1) as [llmResult|e] eqn:Hc1.
  - right. exists llmResult. split; [reflexivity|]. cbv zeta. rewrite Hf1.
    set (r2 := exec (imageStage st (prompt llmResult)) w _ _).
    assert (Hf2 : final r2 = assign (SetLastGeneratedPrompt (prompt llmResult)) s)
      by apply imageStage_final.
    destruct (completion r2) as [imageResult|e] eqn:Hc2; unfold prepend; cbn.
    + split; [exact Hf2|]. eexists. split.
      * rewrite <- app_assoc. reflexivity.
      * right. do 3 eexists. repeat split; reflexivity.
    + split; [exact Hf2|]. exists []. split.
      * rewrite <- app_assoc, app_nil_r. reflexivity.
      * left. exists e. auto.
  - left. exists e. cbn. auto.
Qed.

(** *** Membership in traces *)

Lemma setsFlag_app : forall a b, setsFlag (a ++ b) = setsFlag a || setsFlag b.
Proof. intros. unfold setsFlag. apply existsb_app. Qed.

Lemma setsFlag_false : forall evs,
  Forall (fun e => e <> Assigns (SetIsGenerating true)) evs -> setsFlag evs = false.
Proof.
  induction 1 as [|e evs He _ IH]; [reflexivity|].
  unfold setsFlag in *. simpl. rewrite IH.
  destruct e as [ | | | | | | | | | | |[|[]| |]]; try reflexivity. contradiction He. reflexivity.
Qed.

Lemma setsFlag_init : forall w s, setsFlag (events (initRun w s)) = false.
Proof.
  intros. apply setsFlag_false.
  eapply Forall_impl; [|apply initRun_events].
  intros e He Heq. subst e. exact He.
Qed.

(** An accepted trigger sets the flag and records its time, whatever
    happens next. *)
Lemma bodyRun_accepts : forall texts tabId now w n s,
  let b := bodyRun texts tabId now w n s in
  setsFlag (events b) = true /\ lastUpdateTime (final b) = now.
Proof.
  intros texts tabId now w n s b.
  destruct (updateAccepted_cases texts tabId now w n s)
    as [(e & _ & Hb) | [(st & warning & _ & _ & Hb) |
        [(st & e & _ & _ & _ & Hb) | (st & traceContext & _ & _ & _ & Hb)]]];
    fold b in Hb; rewrite Hb; clear Hb.
  - split; reflexivity.
  - split; reflexivity.
  - split; reflexivity.
  - cbv zeta. split; [reflexivity|].
    unfold prepend, catchRun. cbn [final].
    match goal with
    | |- context [exec (updatePipeline ?t ?i ?st ?c ?t0) ?w ?n ?s] =>
        destruct (updatePipeline_cases t i st c t0 w n s)
          as [(e & _ & Hc & Hf & _) | (res & _ & Hf & _)]
    end.
    + rewrite Hc. rewrite Hf. reflexivity.
    + cbv zeta in Hf.
      match goal with
      | |- context [completion ?p] => destruct (completion p)
      end; rewrite Hf; reflexivity.
Qed.

End OrchestratorFacts.

(** ** Debounce and acceptance *)

Module DebounceFacts.
Import JS Async LlmHandler ApiHandler Background Traces RunFacts ClientFacts
  OrchestratorFacts Scenario.
Local Open Scope Z_scope.

Lemma initEvent_not_fetch : forall e, initEvent e -> ~ isFetch e.
Proof. intros [ | | | | | | | | | |[]|]; simpl; auto. Qed.

(** A run accepts its trigger exactly when [initWeave] returns, the window
    has passed, and no generation is running. *)
Lemma accepted_iff : forall texts tabId w s,
  accepted (run (handleUpdateTexts texts tabId) w s) = true <->
  completion (initRun w s) = Returned tt /\
  DEBOUNCE_WINDOW <= nowRead w s - lastUpdateTime s /\
  isGenerating s = false.
Proof.
  intros texts tabId w s. unfold accepted.
  destruct (run_handleUpdateTexts_cases texts tabId w s)
    as [(e & Hi & Hev & _) | [(Hi & Hd & _ & _ & Hev) |
        [(Hi & Hd & Hg & _ & _ & Hev) | (Hi & Hd & Hg & _ & _ & Hev)]]];
    rewrite Hev, ?setsFlag_app, ?setsFlag_init.
  - split; [discriminate | intros (H & _); congruence].
  - split; [discriminate | intros (_ & H & _); lia].
  - split; [discriminate | intros (_ & _ & H); congruence].
  - destruct (bodyRun_accepts texts tabId (nowRead w s) w
                (S (interactions (initRun w s))) (final (initRun w s))) as [Hset _].
    rewrite Hset. simpl. tauto.
Qed.

(** A run that accepts its trigger leaves its time in [lastUpdateTime] and
    the flag cleared. *)
Lemma accepted_final : forall texts tabId w s,
  accepted (run (handleUpdateTexts texts tabId) w s) = true ->
  lastUpdateTime (final (run (handleUpdateTexts texts tabId) w s)) = nowRead w s /\
  isGenerating (final (run (handleUpdateTexts texts tabId) w s)) = false.
Proof.
  intros texts tabId w s Hacc.
  apply accepted_iff in Hacc. destruct Hacc as (Hi & Hd & Hg).
  destruct (run_handleUpdateTexts_cases texts tabId w s)
    as [(e & Hi' & _) | [(_ & Hd' & _) |
        [(_ & _ & Hg' & _) | (_ & _ & _ & _ & Hf & _)]]];
    try congruence; try lia.
  rewrite Hf.
  destruct (bodyRun_accepts texts tabId (nowRead w s) w
              (S (interactions (initRun w s))) (final (initRun w s))) as [_ Ht].
  split; [exact Ht | reflexivity].
Qed.

(** Inside the window a trigger is turned away by the first guard, whether
    or not a generation is running: nothing is assigned but by [initWeave],
    nothing is fetched, and the only trace of the rejection is the message
    of the debounce guard. *)
Lemma debounced_run : forall texts tabId w s,
  nowRead w s - lastUpdateTime s < DEBOUNCE_WINDOW ->
  let r := run (handleUpdateTexts texts tabId) w s in
  accepted r = false /\
  isGenerating (final r) = isGenerating s /\
  lastGeneratedPrompt (final r) = lastGeneratedPrompt s /\
  lastUpdateTime (final r) = lastUpdateTime s /\
  Forall (fun e => ~ isFetch e) (events r) /\
  (completion (initRun w s) = Returned tt ->
   completion r = Returned tt /\
   events r = (events (initRun w s) ++ [ConsoleLog "Skipping update: too soon"])%list).
Proof.
  intros texts tabId w s Hd r.
  assert (Hacc : accepted r = false).
  { destruct (accepted r) eqn:Ha; [|reflexivity].
    apply accepted_iff in Ha. lia. }
  destruct (initRun_spares w s) as (Hg & Hp & Ht).
  pose proof (initRun_events w s) as Hinit.
  assert (Hnf : Forall (fun e => ~ isFetch e) (events (initRun w s))).
  { eapply Forall_impl; [exact initEvent_not_fetch | exact Hinit]. }
  destruct (run_handleUpdateTexts_cases texts tabId w s)
    as [(e & Hi & Hev & Hf) | [(Hi & _ & Hc & Hf & Hev) |
        [(_ & Hd' & _) | (_ & Hd' & _)]]];
    try lia; fold r in Hev, Hf; rewrite Hf, Hev.
  - repeat split; auto; congruence.
  - fold r in Hc. repeat split; auto.
    apply Forall_app. split; [exact Hnf|]. repeat constructor. simpl. auto.
Qed.

(** Outside the window, with no generation running, a trigger is
    accepted. *)
Lemma idle_accepts : forall texts tabId w s,
  completion (initRun w s) = Returned tt ->
  isGenerating s = false ->
  DEBOUNCE_WINDOW <= nowRead w s - lastUpdateTime s ->
  accepted (run (handleUpdateTexts texts tabId) w s) = true.
Proof. intros. apply accepted_iff. auto. Qed.

(** *** The time of the last accepted trigger *)

#[local] Arguments truthyTab : simpl never.

Lemma timeStamps_app : forall a b,
  timeStamps (a ++ b) = (timeStamps a ++ timeStamps b)%list.
Proof.
  induction a as [|e a IH]; intros b; [reflexivity|].
  destruct e as [ | | | | | | | | | | |[| | |]]; cbn [app timeStamps]; rewrite ?IH;
    reflexivity.
Qed.

Lemma timeStamps_spares : forall evs,
  Forall sparesTime evs -> timeStamps evs = [].
Proof.
  induction 1 as [|e evs He _ IH]; [reflexivity|].
  destruct e as [ | | | | | | | | | | |[| | |]]; cbn [timeStamps]; try exact IH.
  contradiction He.
Qed.

Lemma not_assign_sparesTime : forall e, ~ isAssign e -> sparesTime e.
Proof. intros [ | | | | | | | | | | |a] H; simpl; auto. contradiction H. exact I. Qed.

Lemma initEvent_sparesTime : forall e, initEvent e -> sparesTime e.
Proof. intros [ | | | | | | | | | | |[| | |]] H; simpl in *; auto. Qed.

Lemma updatePipeline_sparesTime : forall texts tabId st traceContext t0,
  everyEvent sparesTime (updatePipeline texts tabId st traceContext t0).
Proof.
  intros texts tabId st traceContext t0.
  unfold updatePipeline, ask, load, store, emit. cbn -[imageStage generatePromptFromTexts].
  intros startLLM s.
  apply everyEvent_bind.
  { apply everyEvent_awaitAsync; [exact I|].
    eapply everyEvent_weaken; [|apply generatePromptFromTexts_events].
    intros e H. apply not_assign_sparesTime. now apply llmEvent_not_assign. }
  intros llmResult. cbn -[imageStage]. intros endLLM.
  split; [exact I|]. split; [exact I|].
  intros startImageGen. apply everyEvent_bind.
  { eapply everyEvent_weaken; [|apply imageStage_events].
    intros e H. apply not_assign_sparesTime. now apply stage2Event_not_assign. }
  intros imageResult. cbn -[truthyTab]. intros endImageGen endTotal.
  destruct (truthyTab (Some tabId)); cbn; repeat split; exact I.
Qed.

(** The body of an accepted trigger assigns [lastUpdateTime] once, the
    time of the trigger. *)
Lemma bodyRun_timeStamps : forall texts tabId now w n s,
  timeStamps (events (bodyRun texts tabId now w n s)) = [now].
Proof.
  intros texts tabId now w n s.
  destruct (updateAccepted_cases texts tabId now w n s)
    as [(e & _ & Hb) | [(st & warning & _ & _ & Hb) |
        [(st & e & _ & _ & _ & Hb) | (st & traceContext & _ & _ & _ & Hb)]]];
    rewrite Hb; clear Hb; try reflexivity.
  unfold prepend. cbn [events]. rewrite !timeStamps_app. cbn [acceptEvents timeStamps app].
  f_equal. apply timeStamps_spares. unfold catchRun.
  match goal with
  | |- context [exec (updatePipeline ?t ?i ?st ?c ?t0) ?w ?n ?s] =>
      pose proof (everyEvent_exec _ sparesTime (updatePipeline t i st c t0) w n s
                    (updatePipeline_sparesTime t i st c t0)) as Hp;
      destruct (completion (exec (updatePipeline t i st c t0) w n s))
  end; cbn [events prepend]; [exact Hp|].
  apply Forall_app. split; [exact Hp|]. repeat constructor.
Qed.

(** A run of [handleUpdateTexts] assigns [lastUpdateTime] only when it
    accepts its trigger, once, and what it assigns is the time it read. *)
Lemma run_timeStamps : forall texts tabId w s,
  timeStamps (events (run (handleUpdateTexts texts tabId) w s)) =
  if accepted (run (handleUpdateTexts texts tabId) w s) then [nowRead w s] else [].
Proof.
  intros texts tabId w s.
  assert (Hinit : timeStamps (events (initRun w s)) = []).
  { apply timeStamps_spares.
    eapply Forall_impl; [exact initEvent_sparesTime | apply initRun_events]. }
  destruct (accepted (run (handleUpdateTexts texts tabId) w s)) eqn:Ha.
  - apply accepted_iff in Ha. destruct Ha as (Hi & Hd & Hg).
    destruct (run_handleUpdateTexts_cases texts tabId w s)
      as [(e & Hi' & _) | [(_ & Hd' & _) |
          [(_ & _ & Hg' & _) | (_ & _ & _ & _ & _ & Hev)]]];
      try congruence; try lia.
    rewrite Hev, !timeStamps_app, Hinit, bodyRun_timeStamps.
    destruct (completion (bodyRun _ _ _ _ _ _)); reflexivity.
  - destruct (run_handleUpdateTexts_cases texts tabId w s)
      as [(e & _ & Hev & _) | [(_ & _ & _ & _ & Hev) |
          [(_ & _ & _ & _ & _ & Hev) | (Hi & Hd & Hg & _)]]].
    + now rewrite Hev.
    + now rewrite Hev, timeStamps_app, Hinit.
    + now rewrite Hev, timeStamps_app, Hinit.
    + assert (Hyes : accepted (run (handleUpdateTexts texts tabId) w s) = true)
        by (apply idle_accepts; assumption).
      congruence.
Qed.

(** An accepted trigger takes the flag and records its time as the first
    things it does once [initWeave] has returned, before it suspends
    again. *)
Lemma accepted_events : forall texts tabId w s,
  accepted (run (handleUpdateTexts texts tabId) w s) = true ->
  exists rest,
    events (run (handleUpdateTexts texts tabId) w s) =
    (events (initRun w s) ++
     Assigns (SetIsGenerating true) :: Assigns (SetLastUpdateTime (nowRead w s)) ::
     SetBadgeText "..." :: SetBadgeBackgroundColor "#4285F4" ::
     Awaits StorageSyncGet :: rest)%list.
Proof.
  intros texts tabId w s Ha.
  apply accepted_iff in Ha. destruct Ha as (Hi & Hd & Hg).
  destruct (run_handleUpdateTexts_cases texts tabId w s)
    as [(e & Hi' & _) | [(_ & Hd' & _) |
        [(_ & _ & Hg' & _) | (_ & _ & _ & _ & _ & Hev)]]];
    try congruence; try lia.
  rewrite Hev. cbv zeta.
  destruct (updateAccepted_cases texts tabId (nowRead w s) w
              (S (interactions (initRun w s))) (final (initRun w s)))
    as [(e & _ & Hb) | [(st & warning & _ & _ & Hb) |
        [(st & e & _ & _ & _ & Hb) | (st & traceContext & _ & _ & _ & Hb)]]];
    rewrite Hb; unfold prepend; cbn [events completion acceptEvents app];
    eexists; reflexivity.
Qed.

End DebounceFacts.

(** ** Stage 1, Stage 2 and the history *)

Module PipelineFacts.
Import JS Async LlmHandler ApiHandler Background Traces RunFacts ClientFacts
  OrchestratorFacts DebounceFacts Scenario.
Local Open Scope Z_scope.

#[local] Arguments truthyTab : simpl never.

Lemma missingCredential_none : forall st,
  missingCredential st = None ->
  nonEmpty (openaiApiKey st) = true /\
  (startsWith (imageModel st) "fal" = true -> nonEmpty (falApiKey st) = true) /\
  (startsWith (imageModel st) "replicate" = true -> nonEmpty (replicateApiKey st) = true).
Proof.
  intros st. unfold missingCredential.
  destruct (nonEmpty (openaiApiKey st)); simpl; [|discriminate].
  destruct (startsWith (imageModel st) "fal"), (nonEmpty (falApiKey st));
    simpl; try discriminate;
    destruct (startsWith (imageModel st) "replicate"), (nonEmpty (replicateApiKey st));
    simpl; try discriminate; auto.
Qed.

(** The run of the body of an accepted trigger whose configuration is
    valid: Stage 1 runs with the prompt in memory, and either it throws, or
    the history is updated and stored and Stage 2 runs. *)
Lemma validBody_cases : forall texts tabId now w n s st traceContext,
  reply w (S n) StorageSyncGet = Fulfilled st ->
  missingCredential st = None ->
  let b := bodyRun texts tabId now w n s in
  let inputs := updateTraceInputs texts (acceptState now s) in
  reply w (S (S n)) (StartTrace "generate_creative_image" inputs) = Fulfilled traceContext ->
  let r1 := exec (generatePromptFromTexts texts (openaiApiKey st) (llmModel st)
                    (lastGeneratedPrompt s))
                 w (S (S (S (S n)))) (acceptState now s) in
  (exists e,
     completion r1 = Threw e /\ completion b = Threw e /\
     final b = acceptState now s /\
     events b = (acceptEvents now ++
                 [Awaits (StartTrace "generate_creative_image" inputs)] ++
                 events r1 ++
                 [Awaits Tick; EndTraceDetached traceContext (exnToString e)])%list) \/
  (exists llmResult,
     completion r1 = Returned llmResult /\
     let s2 := assign (SetLastGeneratedPrompt (prompt llmResult)) (acceptState now s) in
     let r2 := exec (imageStage st (prompt llmResult)) w (S (S (S (interactions r1)))) s2 in
     final b = s2 /\
     exists closingEvents,
       events b = (acceptEvents now ++
                   [Awaits (StartTrace "generate_creative_image" inputs)] ++
                   events r1 ++
                   [Awaits Tick;
                    Assigns (SetLastGeneratedPrompt (prompt llmResult));
                    StorageLocalSet (prompt llmResult)] ++
                   events r2 ++ closingEvents)%list /\
       ((exists e, completion r2 = Threw e /\ completion b = Threw e /\
                   closingEvents = [EndTraceDetached traceContext (exnToString e)]) \/
        (exists imageResult message job,
           completion r2 = Returned imageResult /\ completion b = Returned tt /\
           msg_imageUrl message = img_url imageResult /\
           msg_prompt message = prompt llmResult /\
           closingEvents = renderEvents (Some tabId) message job))).
Proof.
  intros texts tabId now w n s st traceContext Hr Hm b inputs Ht r1.
  assert (Hb : b = exec (updateAccepted texts tabId now) w n s) by reflexivity.
  rewrite (exec_updateAccepted_valid texts tabId now w n s st traceContext Hr Hm Ht) in Hb.
  cbv zeta in Hb. fold inputs in Hb.
  destruct (updatePipeline_cases texts tabId st traceContext (answer w n DateNow)
              w (S (S (S n))) (acceptState now s))
    as [(e & Hc1 & Hcp & Hfp & Hep) |
        (llmResult & Hc1 & Hfp & closingEvents & Hep & Hrest)].
  - left. exists e.
    change (exec _ w (S (S (S (S n)))) (acceptState now s)) with r1 in Hc1, Hep.
    split; [exact Hc1|].
    rewrite Hb. unfold catchRun, prepend. rewrite Hcp.
    cbn [completion final events interactions].
    rewrite Hfp, Hep.
    repeat split. now rewrite <- !app_assoc.
  - right. exists llmResult.
    cbv zeta in Hfp, Hrest.
    change (exec (generatePromptFromTexts _ _ _ _) w (S (S (S (S n)))) (acceptState now s))
      with r1 in Hc1, Hep, Hrest.
    split; [exact Hc1|]. cbv zeta.
    destruct Hrest as [(e & Hc2 & Hcp & Hcl) | (img & message & job & Hc2 & Hcp & Hu & Hq & Hcl)].
    + rewrite Hb. unfold catchRun, prepend. rewrite Hcp.
      cbn [completion final events interactions].
      split; [exact Hfp|].
      exists [EndTraceDetached traceContext (exnToString e)]. split.
      * rewrite Hep, Hcl. rewrite app_nil_r. now rewrite <- !app_assoc.
      * left. exists e. auto.
    + rewrite Hb. unfold catchRun, prepend. rewrite Hcp.
      cbn [completion final events interactions].
      split; [exact Hfp|].
      exists closingEvents. split.
      * rewrite Hep. now rewrite <- !app_assoc.
      * right. exists img, message, job. auto.
Qed.

(** *** Which events can be what *)

Lemma initEvent_not_history : forall e, initEvent e -> ~ historyEvent e.
Proof. intros [ | | | | | | | | | |[]|[]]; simpl; auto. Qed.

Lemma llmEvent_not_history : forall e, llmEvent e -> ~ historyEvent e.
Proof. intros [ | | | | | | | | | |[]|[]]; simpl; auto. Qed.

Lemma initEvent_not_stage1Failure : forall e x, initEvent e -> e <> stage1Failure x.
Proof. intros e x H Heq. subst e. exact H. Qed.

Lemma stage2Event_not_stage1Failure : forall e x, stage2Event e -> e <> stage1Failure x.
Proof.
  intros e x [H|[H|H]] Heq; unfold stage1Failure in *; subst e;
    try (simpl in H); discriminate.
Qed.

Lemma Forall_not_In : forall (P : Event -> Prop) (x : Event) l,
  Forall P l -> ~ P x -> ~ In x l.
Proof. intros P x l Hall Hx Hin. apply Hx. rewrite Forall_forall in Hall. auto. Qed.

(** When the prompt generator throws, its [catch] has reported it. *)
Lemma stage1_throw_is_reported : forall texts apiKey model previousPrompt w n s e,
  nonEmpty apiKey = true ->
  completion (exec (generatePromptFromTexts texts apiKey model previousPrompt) w n s)
    = Threw e ->
  In (stage1Failure e)
     (events (exec (generatePromptFromTexts texts apiKey model previousPrompt) w n s)).
Proof.
  intros texts apiKey model previousPrompt w n s e Hkey.
  unfold generatePromptFromTexts. rewrite Hkey. cbn [negb]. cbv zeta.
  rewrite exec_tryCatch.
  unfold awaitFetch, awaitJson, awaitErrorJson, emit. cbn [bind exec].
  destruct (reply w n (Fetch LlmApi _)) as [resp|e0]; cbn [settle bind exec].
  2: { unfold catchRun, logged, prepend, stage1Failure. cbn.
       intros H. inversion H; subst. auto. }
  cbn [Body] in *. destruct (ok resp); cbn [negb bind exec].
  - destruct (data resp) as [d|]; cbn [bind exec].
    + destruct (llm_content d) as [content|];
        unfold catchRun, logged, prepend, stage1Failure; cbn; intros H;
        inversion H; subst; auto.
    + unfold catchRun, logged, prepend, stage1Failure. cbn. intros H.
      inversion H; subst. auto.
  - destruct (errorData resp) as [ed|];
      unfold catchRun, logged, prepend, stage1Failure; cbn; intros H;
      inversion H; subst; auto.
Qed.

(** If Stage 1 throws, the routine returns with the flag cleared and the
    history as it was: the prompt in memory is the one from before, and
    nothing was assigned to it or written to storage. *)
Lemma stage1_failure_run : forall texts tabId w s e,
  let r := run (handleUpdateTexts texts tabId) w s in
  In (stage1Failure e) (events r) ->
  completion r = Returned tt /\
  isGenerating (final r) = false /\
  lastGeneratedPrompt (final r) = lastGeneratedPrompt s /\
  Forall (fun ev => ~ historyEvent ev) (events r) /\
  In (SetBadgeText "ERR") (events r).
Proof.
  intros texts tabId w s e r Hin.
  destruct (initRun_spares w s) as (Hg & Hp & Ht).
  pose proof (initRun_events w s) as Hinit.
  assert (Hni : ~ In (stage1Failure e) (events (initRun w s))).
  { apply Forall_not_In with (P := initEvent); [exact Hinit | simpl; auto]. }
  destruct (run_handleUpdateTexts_cases texts tabId w s)
    as [(e0 & Hi & Hev & Hf) | [(Hi & _ & Hc & Hf & Hev) |
        [(Hi & _ & _ & Hc & Hf & Hev) | (Hi & Hd & Hgen & Hc & Hf & Hev)]]];
    fold r in Hev, Hf; rewrite Hev in Hin.
  - contradiction.
  - apply in_app_or in Hin. destruct Hin as [Hin|[Hin|[]]]; [contradiction|discriminate].
  - apply in_app_or in Hin. destruct Hin as [Hin|[Hin|[]]]; [contradiction|discriminate].
  - cbv zeta in Hc, Hf, Hev. fold r in Hc.
    set (n0 := S (interactions (initRun w s))) in *.
    set (s0 := final (initRun w s)) in *.
    set (now := nowRead w s) in *.
    apply in_app_or in Hin. destruct Hin as [Hin|Hin]; [contradiction|].
    destruct (updateAccepted_cases texts tabId now w n0 s0)
      as [(e0 & _ & Hb) | [(st & warning & _ & _ & Hb) |
          [(st & e0 & _ & _ & _ & Hb) | (st & traceContext & Hr & Hm & Htrace & _)]]].
    + rewrite Hb in Hin. cbn in Hin.
      repeat (destruct Hin as [Hin|Hin]; [discriminate|]). contradiction.
    + rewrite Hb in Hin. cbn in Hin.
      repeat (destruct Hin as [Hin|Hin]; [discriminate|]). contradiction.
    + rewrite Hb in Hin. cbn in Hin.
      repeat (destruct Hin as [Hin|Hin]; [discriminate|]). contradiction.
    + destruct (missingCredential_none st Hm) as (Hkey & _).
      destruct (validBody_cases texts tabId now w n0 s0 st traceContext Hr Hm Htrace)
        as [(e1 & Hc1 & Hcb & Hfb & Heb) |
            (llmResult & Hc1 & Hfb & closingEvents & Heb & Hrest)].
      * (* Stage 1 threw: the conclusion holds. *)
        split; [exact Hc|]. rewrite Hf, Hfb.
        split; [reflexivity|]. split; [exact Hp|].
        rewrite Hev, Heb, Hcb. split.
        -- apply Forall_app. split.
           { eapply Forall_impl; [exact initEvent_not_history | exact Hinit]. }
           apply Forall_app. split.
           { apply Forall_app. split; [repeat constructor; simpl; auto|].
             apply Forall_app. split; [repeat constructor; simpl; auto|].
             apply Forall_app. split; [|repeat constructor; simpl; auto].
             eapply Forall_impl; [exact llmEvent_not_history|].
             apply everyEvent_exec, generatePromptFromTexts_events. }
           repeat constructor; simpl; auto.
        -- apply in_or_app. right. apply in_or_app. right. simpl. auto.
      * (* Stage 1 returned: its failure cannot have been reported. *)
        exfalso. cbv zeta in Hfb, Heb, Hrest.
        rewrite Heb in Hin.
        destruct (generatePromptFromTexts_run texts (openaiApiKey st) (llmModel st)
                    (lastGeneratedPrompt s0) w (S (S (S (S n0)))) (acceptState now s0) Hkey)
          as [_ Hret].
        destruct (Hret llmResult Hc1) as [Hev1 _]. rewrite Hev1 in Hin.
        match type of Heb with
        | context [events (exec (imageStage ?a ?b) ?c ?d ?f)] =>
            pose proof (everyEvent_exec _ stage2Event (imageStage a b) c d f
                          (imageStage_events a b)) as H2
        end.
        assert (Hn2 : forall l, Forall stage2Event l -> ~ In (stage1Failure e) l).
        { intros l Hl Hx. rewrite Forall_forall in Hl.
          exact (stage2Event_not_stage1Failure _ e (Hl _ Hx) eq_refl). }
        assert (Hclosing : ~ In (stage1Failure e) closingEvents).
        { destruct Hrest as [(e2 & _ & _ & ->) | (img & message & job & _ & _ & _ & _ & ->)].
          - simpl. intros [H|[]]; discriminate.
          - unfold renderEvents. destruct (truthyTab (Some tabId)); simpl;
              intuition discriminate. }
        apply in_app_or in Hin. destruct Hin as [Hin|Hin].
        { apply in_app_or in Hin. destruct Hin as [Hin|Hin].
          - cbn in Hin. intuition discriminate.
          - apply in_app_or in Hin. destruct Hin as [Hin|Hin]; [cbn in Hin; intuition discriminate|].
            apply in_app_or in Hin. destruct Hin as [Hin|Hin]; [cbn in Hin; intuition discriminate|].
            apply in_app_or in Hin. destruct Hin as [Hin|Hin]; [cbn in Hin; intuition discriminate|].
            apply in_app_or in Hin. destruct Hin as [Hin|Hin]; [|contradiction].
            exact (Hn2 _ H2 Hin). }
        { destruct (completion (bodyRun texts tabId now w n0 s0)); cbn in Hin;
            intuition discriminate. }
Qed.

(** *** Runs in a world that answers *)

Lemma initRun_returns : forall w s st,
  (forall m, reply w m StorageSyncGet = Fulfilled st) ->
  completion (initRun w s) = Returned tt.
Proof.
  intros w s st Hst. unfold initRun. rewrite exec_awaitAsync. cbv zeta.
  cbn [completion]. unfold initWeave, load, awaitStorageSyncGet, emit, store.
  cbn [bind exec]. destruct (weaveInitialized s); [reflexivity|].
  cbn [bind exec]. rewrite Hst. cbn [settle bind exec].
  destruct (_ && _); reflexivity.
Qed.

Lemma generatePromptFromTexts_success :
  forall texts apiKey model previousPrompt w n s resp d content,
  nonEmpty apiKey = true ->
  reply w n (Fetch LlmApi (completionRequest apiKey model (join ", " (map text texts))
                             previousPrompt)) = Fulfilled resp ->
  ok resp = true -> data resp = Some d -> llm_content d = Some content ->
  completion (exec (generatePromptFromTexts texts apiKey model previousPrompt) w n s) =
  Returned {| prompt := trim content; model := model; usage := llm_usage d |}.
Proof.
  intros texts apiKey model previousPrompt w n s resp d content Hkey Hr Hok Hd Hc.
  unfold generatePromptFromTexts. rewrite Hkey. cbn [negb]. cbv zeta.
  rewrite exec_tryCatch.
  unfold awaitFetch, awaitJson, awaitErrorJson, emit. cbn [bind exec].
  rewrite Hr. cbn [settle bind exec]. cbn [Body] in *.
  rewrite Hok. cbn [negb bind exec]. rewrite Hd. cbn [bind exec]. rewrite Hc.
  reflexivity.
Qed.

(** The FAL client returns at once when the submit response carries an
    image. *)
Lemma getImageFromFal_immediate : forall prompt apiKey model w n s resp d image rest,
  nonEmpty apiKey = true ->
  reply w (S n) (Fetch FalApi (falSubmitRequest (falApiUrl model) prompt apiKey
                                 (answer w n RandomSeed))) = Fulfilled resp ->
  ok resp = true -> data resp = Some d -> fal_images d = Some (image :: rest) ->
  exec (getImageFromFal prompt apiKey model) w n s =
  {| completion := Returned (falResult image);
     final := s;
     events := [Awaits (Fetch FalApi (falSubmitRequest (falApiUrl model) prompt apiKey
                                        (answer w n RandomSeed)));
                Awaits ReadJson];
     interactions := S (S (S n)) |}.
Proof.
  intros prompt apiKey model w n s resp d image rest Hkey Hr Hok Hd Himg.
  unfold getImageFromFal. cbv zeta. rewrite Hkey. cbn [negb].
  rewrite exec_tryCatch.
  unfold ask, awaitFetch, awaitJson. cbn [bind exec].
  rewrite Hr. cbn [settle bind exec]. cbn [Body] in *.
  rewrite Hok. cbn [negb bind exec]. rewrite Hd. cbn [bind exec]. rewrite Himg.
  reflexivity.
Qed.

(** The run of an accepted trigger with a valid configuration, as far as
    the body is concerned. *)
Lemma accepted_valid_run : forall texts tabId w s st,
  (forall m, reply w m StorageSyncGet = Fulfilled st) ->
  isGenerating s = false ->
  DEBOUNCE_WINDOW <= nowRead w s - lastUpdateTime s ->
  let r := run (handleUpdateTexts texts tabId) w s in
  let i := initRun w s in
  let b := bodyRun texts tabId (nowRead w s) w (S (interactions i)) (final i) in
  completion r = Returned tt /\
  final r = assign (SetIsGenerating false) (final b) /\
  events r = (events i ++ events b ++
              closing "Error in handleUpdateTexts:" (completion b))%list.
Proof.
  intros texts tabId w s st Hst Hg Hd r i b.
  pose proof (initRun_returns w s st Hst) as Hi.
  destruct (run_handleUpdateTexts_cases texts tabId w s)
    as [(e & Hi' & _) | [(_ & Hd' & _) | [(_ & _ & Hg' & _) | (_ & _ & _ & H)]]];
    try congruence; try lia.
  exact H.
Qed.

Lemma acceptEvents_no_fetch : forall now, Forall (fun e => ~ isFetch e) (acceptEvents now).
Proof. intros. repeat constructor; simpl; auto. Qed.

Lemma not_fetch_In : forall l ep req,
  Forall (fun e => ~ isFetch e) l -> ~ In (Awaits (Fetch ep req)) l.
Proof.
  intros l ep req Hall Hin. rewrite Forall_forall in Hall.
  exact (Hall _ Hin I).
Qed.

Lemma stage2_not_llm : forall l req,
  Forall stage2Event l -> ~ In (Awaits (Fetch LlmApi req)) l.
Proof.
  intros l req Hall Hin. rewrite Forall_forall in Hall.
  destruct (Hall _ Hin) as [H|[H|H]]; [exact H | exact H | discriminate H].
Qed.

(** Whatever the world answers, a request that a run of
    [handleUpdateTexts] sends to the completion service is the one built
    from the settings, the names of the elements and the prompt in memory
    at the start of the run. *)
Lemma llm_requests_run : forall texts tabId w s req,
  In (Awaits (Fetch LlmApi req)) (events (run (handleUpdateTexts texts tabId) w s)) ->
  exists st m,
    reply w m StorageSyncGet = Fulfilled st /\
    req = completionRequest (openaiApiKey st) (llmModel st)
            (join ", " (map text texts)) (lastGeneratedPrompt s).
Proof.
  intros texts tabId w s req Hin.
  destruct (initRun_spares w s) as (_ & Hp & _).
  pose proof (initRun_events w s) as Hinit.
  assert (Hni : Forall (fun e => ~ isFetch e) (events (initRun w s))).
  { eapply Forall_impl; [exact initEvent_not_fetch | exact Hinit]. }
  destruct (run_handleUpdateTexts_cases texts tabId w s)
    as [(e0 & Hi & Hev & Hf) | [(Hi & _ & Hc & Hf & Hev) |
        [(Hi & _ & _ & Hc & Hf & Hev) | (Hi & Hd & Hgen & Hc & Hf & Hev)]]];
    rewrite Hev in Hin.
  - exfalso. exact (not_fetch_In _ _ _ Hni Hin).
  - exfalso. apply in_app_or in Hin. destruct Hin as [Hin|[Hin|[]]];
      [exact (not_fetch_In _ _ _ Hni Hin) | discriminate].
  - exfalso. apply in_app_or in Hin. destruct Hin as [Hin|[Hin|[]]];
      [exact (not_fetch_In _ _ _ Hni Hin) | discriminate].
  - cbv zeta in Hc, Hf, Hev.
    set (n0 := S (interactions (initRun w s))) in *.
    set (s0 := final (initRun w s)) in *.
    set (now := nowRead w s) in *.
    apply in_app_or in Hin. destruct Hin as [Hin|Hin];
      [exfalso; exact (not_fetch_In _ _ _ Hni Hin)|].
    apply in_app_or in Hin. destruct Hin as [Hin|Hin].
    2: { exfalso. destruct (completion (bodyRun texts tabId now w n0 s0)); cbn in Hin;
           intuition discriminate. }
    destruct (updateAccepted_cases texts tabId now w n0 s0)
      as [(e0 & _ & Hb) | [(st & warning & _ & _ & Hb) |
          [(st & e0 & _ & _ & _ & Hb) | (st & traceContext & Hr & Hm & Htrace & _)]]].
    + exfalso. rewrite Hb in Hin. cbn in Hin. intuition discriminate.
    + exfalso. rewrite Hb in Hin. cbn in Hin. intuition discriminate.
    + exfalso. rewrite Hb in Hin. cbn in Hin. intuition discriminate.
    + exists st, (S n0). split; [exact Hr|].
      destruct (missingCredential_none st Hm) as (Hkey & _).
      destruct (generatePromptFromTexts_run texts (openaiApiKey st) (llmModel st)
                  (lastGeneratedPrompt s0) w (S (S (S (S n0)))) (acceptState now s0) Hkey)
        as [(rest1 & Hev1 & Hrest1) _].
      rewrite Hp in Hev1.
      assert (Hstage1 : forall l,
                In (Awaits (Fetch LlmApi req))
                   (events (exec (generatePromptFromTexts texts (openaiApiKey st)
                                    (llmModel st) (lastGeneratedPrompt s))
                                 w (S (S (S (S n0)))) (acceptState now s0)) ++ l) ->
                ~ In (Awaits (Fetch LlmApi req)) l ->
                req = completionRequest (openaiApiKey st) (llmModel st)
                        (join ", " (map text texts)) (lastGeneratedPrompt s)).
      { intros l Hl Hnl. apply in_app_or in Hl. destruct Hl as [Hl|Hl]; [|contradiction].
        rewrite Hev1 in Hl. destruct Hl as [Hl|Hl].
        - now inversion Hl.
        - exfalso. exact (not_fetch_In _ _ _ Hrest1 Hl). }
      destruct (validBody_cases texts tabId now w n0 s0 st traceContext Hr Hm Htrace)
        as [(e1 & Hc1 & Hcb & Hfb & Heb) |
            (llmResult & Hc1 & Hfb & closingEvents & Heb & Hrest)];
        cbv zeta in Hfb, Heb; rewrite Hp in Heb; rewrite Heb in Hin.
      * apply in_app_or in Hin. destruct Hin as [Hin|Hin];
          [exfalso; cbn in Hin; intuition discriminate|].
        destruct Hin as [Hin|Hin]; [discriminate|]. cbn [app] in Hin.
        apply (Hstage1 _ Hin). cbn. intuition discriminate.
      * apply in_app_or in Hin. destruct Hin as [Hin|Hin];
          [exfalso; cbn in Hin; intuition discriminate|].
        destruct Hin as [Hin|Hin]; [discriminate|]. cbn [app] in Hin.
        apply (Hstage1 _ Hin). intros Hl.
        repeat (destruct Hl as [Hl|Hl]; [discriminate|]).
        apply in_app_or in Hl. destruct Hl as [Hl|Hl].
        -- revert Hl. apply stage2_not_llm.
           apply everyEvent_exec, imageStage_events.
        -- cbv zeta in Hrest.
           destruct Hrest as [(e2 & _ & _ & ->) | (img & message & job & _ & _ & _ & _ & ->)].
           ++ cbn in Hl. intuition discriminate.
           ++ unfold renderEvents in Hl. destruct (truthyTab (Some tabId)); cbn in Hl;
                intuition discriminate.
Qed.

(** Stage 1 as the pipeline starts it, from whatever the variables are at
    that moment: the first thing it does is the request of the prompt
    generator, built with the prompt then in memory. *)
Lemma updatePipeline_request : forall texts tabId st traceContext startTotal w n s,
  nonEmpty (openaiApiKey st) = true ->
  exists rest,
    events (exec (updatePipeline texts tabId st traceContext startTotal) w n s) =
    Awaits (Fetch LlmApi (completionRequest (openaiApiKey st) (llmModel st)
                            (join ", " (map text texts)) (lastGeneratedPrompt s)))
    :: rest.
Proof.
  intros texts tabId st traceContext startTotal w n s Hkey.
  destruct (generatePromptFromTexts_run texts (openaiApiKey st) (llmModel st)
              (lastGeneratedPrompt s) w (S n) s Hkey) as [(rest1 & Hev1 & _) _].
  destruct (updatePipeline_cases texts tabId st traceContext startTotal w n s)
    as [(e & _ & _ & _ & Hev) | (llmResult & _ & _ & closingEvents & Hev & _)];
    rewrite Hev, Hev1; eexists; reflexivity.
Qed.

(** Narrative continuity, in a run accepted with a valid configuration
    whose root span starts: the first network call is the request of
    Stage 1 and it carries the prompt in memory; and when the completion
    service answers with a completion, the trimmed content becomes the
    prompt in memory and is written to storage right after Stage 1 has
    returned, before anything of Stage 2. *)
Lemma narrative_run : forall texts tabId w s st,
  (forall m, reply w m StorageSyncGet = Fulfilled st) ->
  missingCredential st = None ->
  traceStarts w ->
  isGenerating s = false ->
  DEBOUNCE_WINDOW <= nowRead w s - lastUpdateTime s ->
  let r := run (handleUpdateTexts texts tabId) w s in
  let request := completionRequest (openaiApiKey st) (llmModel st)
                   (join ", " (map text texts)) (lastGeneratedPrompt s) in
  (exists before after,
     events r = (before ++ Awaits (Fetch LlmApi request) :: after)%list /\
     Forall (fun e => ~ isFetch e) before) /\
  (forall resp d content,
     (forall m, reply w m (Fetch LlmApi request) = Fulfilled resp) ->
     ok resp = true -> data resp = Some d -> llm_content d = Some content ->
     lastGeneratedPrompt (final r) = trim content /\
     exists before after,
       events r = (before ++
                   [Awaits (Fetch LlmApi request);
                    Awaits ReadJson;
                    Awaits Tick;
                    Assigns (SetLastGeneratedPrompt (trim content));
                    StorageLocalSet (trim content)] ++ after)%list /\
       Forall (fun e => ~ isFetch e) before /\
       Forall (fun e => ~ historyEvent e) before /\
       Forall (fun e => ~ isFetchTo LlmApi e) after).
Proof.
  intros texts tabId w s st Hst Hm Htrace Hg Hd r request.
  destruct (accepted_valid_run texts tabId w s st Hst Hg Hd) as (Hc & Hf & Hev).
  fold r in Hc, Hf, Hev. cbv zeta in Hf, Hev.
  destruct (initRun_spares w s) as (_ & Hp & _).
  pose proof (initRun_events w s) as Hinit.
  set (i := initRun w s) in *. set (n0 := S (interactions i)) in *.
  set (s0 := final i) in *. set (now := nowRead w s) in *.
  destruct (missingCredential_none st Hm) as (Hkey & _).
  pose proof (generatePromptFromTexts_run texts (openaiApiKey st) (llmModel st)
                (lastGeneratedPrompt s0) w (S (S (S (S n0)))) (acceptState now s0) Hkey)
    as Hrun1.
  cbv zeta in Hrun1. rewrite Hp in Hrun1. fold request in Hrun1.
  destruct Hrun1 as [(rest1 & Hev1 & Hrest1) Hret1].
  assert (Hbefore : Forall (fun e => ~ isFetch e)
            (events i ++ acceptEvents now ++
             [Awaits (StartTrace "generate_creative_image"
                        (updateTraceInputs texts (acceptState now s0)))])%list).
  { apply Forall_app. split.
    - eapply Forall_impl; [exact initEvent_not_fetch | exact Hinit].
    - apply Forall_app. split; [apply acceptEvents_no_fetch|].
      repeat constructor; simpl; auto. }
  assert (Hbefore' : Forall (fun e => ~ historyEvent e)
            (events i ++ acceptEvents now ++
             [Awaits (StartTrace "generate_creative_image"
                        (updateTraceInputs texts (acceptState now s0)))])%list).
  { apply Forall_app. split.
    - eapply Forall_impl; [exact initEvent_not_history | exact Hinit].
    - repeat constructor; simpl; auto. }
  destruct (Htrace (S (S n0)) "generate_creative_image"
              (updateTraceInputs texts (acceptState now s0))) as [traceContext Ht].
  destruct (validBody_cases texts tabId now w n0 s0 st traceContext (Hst _) Hm Ht)
    as [(e1 & Hc1 & Hcb & Hfb & Heb) |
        (llmResult & Hc1 & Hfb & closingEvents & Heb & Hrest)];
    cbv zeta in Hfb, Heb; rewrite Hp in Hc1, Heb.
  - split.
    + eexists. eexists. split; [|exact Hbefore].
      rewrite Hev, Heb, Hev1. rewrite <- !app_assoc. cbn [app]. reflexivity.
    + intros resp d content Hllm Hok Hdata Hcontent. exfalso.
      pose proof (generatePromptFromTexts_success texts (openaiApiKey st) (llmModel st)
                    (lastGeneratedPrompt s) w (S (S (S (S n0)))) (acceptState now s0)
                    resp d content Hkey (Hllm _) Hok Hdata Hcontent) as Hok1.
      congruence.
  - split.
    + eexists. eexists. split; [|exact Hbefore].
      rewrite Hev, Heb, Hev1. rewrite <- !app_assoc. cbn [app]. reflexivity.
    + intros resp d content Hllm Hok Hdata Hcontent.
      pose proof (generatePromptFromTexts_success texts (openaiApiKey st) (llmModel st)
                    (lastGeneratedPrompt s) w (S (S (S (S n0)))) (acceptState now s0)
                    resp d content Hkey (Hllm _) Hok Hdata Hcontent) as Hok1.
      rewrite Hc1 in Hok1. inversion Hok1; subst llmResult. cbn [prompt] in *.
      split; [rewrite Hf, Hfb; reflexivity|].
      destruct (Hret1 _ Hc1) as [Hev1' _].
      eexists. eexists. split; [|split; [exact Hbefore | split; [exact Hbefore'|]]].
      * rewrite Hev, Heb, Hev1'. rewrite <- !app_assoc. cbn [app]. reflexivity.
      * apply Forall_app. split.
        { eapply Forall_impl; [|apply (everyEvent_exec _ stage2Event);
                                 apply imageStage_events].
          intros e [H|[H|H]] Hx.
          - destruct e as [ | | | | | | | | | |[| | | | |[]| |]|]; simpl in *; auto; discriminate.
          - destruct e as [ | | | | | | | | | |[| | | | |[]| |]|]; simpl in *; auto; discriminate.
          - subst e. exact Hx. }
        apply Forall_app. split.
        { cbv zeta in Hrest.
          destruct Hrest as [(e2 & _ & _ & ->) | (img & message & job & _ & _ & _ & _ & ->)].
          - repeat constructor; simpl; auto.
          - unfold renderEvents. destruct (truthyTab (Some tabId)); cbn [app];
              repeat constructor; simpl; auto. }
        destruct (completion (bodyRun texts tabId now w n0 s0)); cbn;
          repeat constructor; simpl; auto.
Qed.

(** *** Routing *)

Lemma startsWith_fal_not_replicate : forall model,
  startsWith model "fal" = true -> startsWith model "replicate" = false.
Proof.
  intros model H. unfold startsWith in *.
  apply StringFacts.prefix_app in H. destruct H as [post ->]. reflexivity.
Qed.

Lemma imageStage_replicate : forall st prompt,
  startsWith (imageModel st) "replicate" = true ->
  imageStage st prompt =
  awaitAsync (getImageFromReplicate prompt (replicateApiKey st) (imageModel st)).
Proof. intros st prompt H. unfold imageStage. now rewrite H. Qed.

Lemma imageStage_fal : forall st prompt,
  startsWith (imageModel st) "replicate" = false ->
  imageStage st prompt =
  awaitAsync (getImageFromFal prompt (falApiKey st) (imageModel st)).
Proof. intros st prompt H. unfold imageStage. now rewrite H. Qed.

Lemma updatePipeline_fetches : forall (P : Event -> Prop) texts tabId st traceContext t0,
  (forall e, ~ isFetch e -> P e) ->
  (forall texts key model previousPrompt,
     everyEvent P (generatePromptFromTexts texts key model previousPrompt)) ->
  (forall prompt, everyEvent P (imageStage st prompt)) ->
  everyEvent P (updatePipeline texts tabId st traceContext t0).
Proof.
  intros P texts tabId st traceContext t0 HP Hllm Himg.
  unfold updatePipeline, ask, load, store, emit. cbn -[imageStage generatePromptFromTexts].
  intros startLLM s.
  apply everyEvent_bind.
  { apply everyEvent_awaitAsync; [apply HP; simpl; auto | apply Hllm]. }
  intros llmResult. cbn -[imageStage]. intros endLLM.
  split; [apply HP; simpl; auto|]. split; [apply HP; simpl; auto|].
  intros startImageGen. apply everyEvent_bind; [apply Himg|].
  intros imageResult. cbn -[truthyTab]. intros endImageGen endTotal.
  destruct (truthyTab (Some tabId)); cbn; repeat split; apply HP; simpl; auto.
Qed.

Lemma regeneratePipeline_fetches : forall (P : Event -> Prop) tabId st traceContext t0,
  (forall e, ~ isFetch e -> P e) ->
  (forall prompt, everyEvent P (imageStage st prompt)) ->
  everyEvent P (regeneratePipeline tabId st traceContext t0).
Proof.
  intros P tabId st traceContext t0 HP Himg.
  unfold regeneratePipeline, ask, load, store, emit. cbn -[imageStage].
  intros startImageGen s. apply everyEvent_bind; [apply Himg|].
  intros imageResult. cbn -[truthyTab]. intros endImageGen endTotal.
  destruct (truthyTab tabId); cbn; repeat split; try intros ?; repeat split;
    apply HP; simpl; auto.
Qed.

Lemma llmEvent_fetchesOnly : forall e, llmEvent e -> fetchesOnly LlmApi e.
Proof. intros [ | | | | | | | | | |[| | | | |[]| |]|]; simpl; auto; contradiction. Qed.

Lemma falEvent_fetchesOnly : forall e, falEvent e -> fetchesOnly FalApi e.
Proof. intros [ | | | | | | | | | |[| | | | |[]| |]|]; simpl; auto; contradiction. Qed.

Lemma replicateEvent_fetchesOnly : forall e, replicateEvent e -> fetchesOnly ReplicateApi e.
Proof. intros [ | | | | | | | | | |[| | | | |[]| |]|]; simpl; auto; contradiction. Qed.

Lemma imageStage_routed : forall st prompt,
  everyEvent (routedTo (if startsWith (imageModel st) "replicate"
                        then ReplicateApi else FalApi))
             (imageStage st prompt).
Proof.
  intros st prompt. unfold imageStage.
  destruct (startsWith (imageModel st) "replicate").
  - apply everyEvent_awaitAsync; [exact I|].
    eapply everyEvent_weaken; [|apply getImageFromReplicate_events].
    intros e H. apply replicateEvent_fetchesOnly in H.
    destruct e; simpl in *; auto. destruct c; simpl in *; auto.
  - apply everyEvent_awaitAsync; [exact I|].
    eapply everyEvent_weaken; [|apply getImageFromFal_events].
    intros e H. apply falEvent_fetchesOnly in H.
    destruct e; simpl in *; auto. destruct c; simpl in *; auto.
Qed.

Lemma pipelines_routed : forall texts tabId optTab st traceContext t0,
  let provider := if startsWith (imageModel st) "replicate"
                  then ReplicateApi else FalApi in
  everyEvent (routedTo provider) (updatePipeline texts tabId st traceContext t0) /\
  everyEvent (routedTo provider) (regeneratePipeline optTab st traceContext t0).
Proof.
  intros texts tabId optTab st traceContext t0 provider.
  assert (HP : forall e, ~ isFetch e -> routedTo provider e).
  { intros e H. destruct e; simpl in *; auto. destruct c; simpl in *; auto.
    contradiction H. exact I. }
  split.
  - apply updatePipeline_fetches; [exact HP | | intros; apply imageStage_routed].
    intros. eapply everyEvent_weaken; [|apply generatePromptFromTexts_events].
    intros e H. apply llmEvent_fetchesOnly in H.
    destruct e; simpl in *; auto. destruct c; simpl in *; auto.
  - apply regeneratePipeline_fetches; [exact HP | intros; apply imageStage_routed].
Qed.

(** *** An identifier nobody recognizes *)

Lemma initEvent_not_badge : forall e text, initEvent e -> e <> SetBadgeText text.
Proof. intros e text H Heq. subst e. exact H. Qed.

(** For an identifier without the prefix [fal-] the first thing the FAL
    client does, once it has a key, is to submit its request to the
    default model path. *)
Lemma getImageFromFal_default_submit : forall prompt apiKey model w n s,
  startsWith model "fal-" = false ->
  nonEmpty apiKey = true ->
  exists rest,
    events (exec (getImageFromFal prompt apiKey model) w n s) =
    Awaits (Fetch FalApi
              {| url := "https://fal.run/fal-ai/z-image/turbo";
                 method := "POST";
                 headers := [("Content-Type", "application/json");
                             ("Authorization", "Key " ++ apiKey)];
                 body := Some (JObj [("prompt", JStr prompt);
                                     ("seed", JNum (answer w n RandomSeed));
                                     ("image_size", JStr "landscape_4_3");
                                     ("sync_mode", JBool true);
                                     ("output_format", JStr "jpeg")]) |})
    :: rest.
Proof.
  intros prompt apiKey model w n s Hfal Hkey.
  unfold getImageFromFal. cbv zeta. rewrite Hkey. cbn [negb].
  rewrite exec_tryCatch. unfold ask, awaitFetch. cbn [bind exec].
  unfold falApiUrl. rewrite (falModelPath_default _ Hfal).
  unfold catchRun.
  match goal with
  | |- context [completion (logged ?e ?r)] =>
      change (completion (logged e r)) with (completion r);
      destruct (completion r)
  end; cbn [events logged prepend]; eexists; reflexivity.
Qed.

(** With an image model that carries neither prefix, an accepted trigger
    whose root span starts goes through: the request is submitted under
    the default model path of the FAL client, and when FAL answers with an
    image the page gets it and the badge is cleared, no error being
    reported anywhere. *)
Lemma unrecognized_model_run :
  forall texts tabId w s st resp d content fresp fd image rest,
  (forall m, reply w m StorageSyncGet = Fulfilled st) ->
  startsWith (imageModel st) "replicate" = false ->
  startsWith (imageModel st) "fal-" = false ->
  nonEmpty (openaiApiKey st) = true ->
  nonEmpty (falApiKey st) = true ->
  traceStarts w ->
  isGenerating s = false ->
  DEBOUNCE_WINDOW <= nowRead w s - lastUpdateTime s ->
  (forall m req, reply w m (Fetch LlmApi req) = Fulfilled resp) ->
  ok resp = true -> data resp = Some d -> llm_content d = Some content ->
  (forall m req, reply w m (Fetch FalApi req) = Fulfilled fresp) ->
  ok fresp = true -> data fresp = Some fd -> fal_images fd = Some (image :: rest) ->
  let r := run (handleUpdateTexts texts tabId) w s in
  completion r = Returned tt /\
  (exists seed,
     In (Awaits (Fetch FalApi
                   {| url := "https://fal.run/fal-ai/z-image/turbo";
                      method := "POST";
                      headers := [("Content-Type", "application/json");
                                  ("Authorization", "Key " ++ falApiKey st)];
                      body := Some (JObj [("prompt", JStr (trim content));
                                          ("seed", JNum seed);
                                          ("image_size", JStr "landscape_4_3");
                                          ("sync_mode", JBool true);
                                          ("output_format", JStr "jpeg")]) |}))
        (events r)) /\
  Forall (routedTo FalApi) (events r) /\
  (tabId <> 0 ->
   exists message,
     In (TabsSendMessage tabId message) (events r) /\
     msg_imageUrl message = fal_url image /\
     msg_prompt message = trim content) /\
  In (SetBadgeText "") (events r) /\
  ~ In (SetBadgeText "ERR") (events r) /\
  ~ In (SetBadgeText "KEY") (events r).
Proof.
  intros texts tabId w s st resp d content fresp fd image rest
         Hst Hrep Hfal Hk1 Hk2 Htrace Hg Hd Hllm Hok Hdata Hcontent Hf Hfok Hfdata Himg r.
  assert (Hm : missingCredential st = None).
  { unfold missingCredential. rewrite Hk1, Hk2, Hrep.
    cbn [negb andb]. now rewrite andb_false_r. }
  destruct (accepted_valid_run texts tabId w s st Hst Hg Hd) as (Hc & Hfin & Hev).
  fold r in Hc, Hfin, Hev. cbv zeta in Hfin, Hev.
  destruct (initRun_spares w s) as (_ & Hp & _).
  pose proof (initRun_events w s) as Hinit.
  set (i := initRun w s) in *. set (n0 := S (interactions i)) in *.
  set (s0 := final i) in *. set (now := nowRead w s) in *.
  pose proof (generatePromptFromTexts_success texts (openaiApiKey st) (llmModel st)
                (lastGeneratedPrompt s0) w (S (S (S (S n0)))) (acceptState now s0)
                resp d content Hk1 (Hllm _ _) Hok Hdata Hcontent) as Hok1.
  destruct (generatePromptFromTexts_run texts (openaiApiKey st) (llmModel st)
              (lastGeneratedPrompt s0) w (S (S (S (S n0)))) (acceptState now s0) Hk1)
    as [_ Hret1].
  destruct (Hret1 _ Hok1) as [Hev1 _].
  destruct (Htrace (S (S n0)) "generate_creative_image"
              (updateTraceInputs texts (acceptState now s0))) as [traceContext Ht].
  destruct (validBody_cases texts tabId now w n0 s0 st traceContext (Hst _) Hm Ht)
    as [(e1 & Hc1 & _) | (llmResult & Hc1 & Hfb & closingEvents & Heb & Hrest)];
    [congruence|].
  rewrite Hc1 in Hok1. inversion Hok1; subst llmResult. clear Hok1.
  cbv zeta in Hfb, Heb, Hrest. cbn [prompt] in *.
  rewrite (imageStage_fal st _ Hrep) in Heb, Hrest.
  rewrite exec_awaitAsync in Heb, Hrest. cbv zeta in Heb, Hrest.
  match type of Heb with
  | context [exec (getImageFromFal ?p ?k ?m) ?w ?n ?s] =>
      pose proof (getImageFromFal_immediate p k m w n s fresp fd image rest
                    Hk2 (Hf _ _) Hfok Hfdata Himg) as H2
  end.
  rewrite H2 in Heb, Hrest. cbn [completion final events interactions] in Heb, Hrest.
  destruct Hrest as [(e2 & Hc2 & _) | (img & message & job & Hc2 & Hcb & Hu & Hq & Hcl)];
    [discriminate|].
  inversion Hc2; subst img. clear Hc2.
  rewrite Hev, Heb, Hev1, Hcb, Hcl.
  unfold falApiUrl. rewrite (falModelPath_default _ Hfal).
  assert (Hinit_badge : forall text, ~ In (SetBadgeText text) (events i)).
  { intros text Hin. rewrite Forall_forall in Hinit.
    exact (initEvent_not_badge _ text (Hinit _ Hin) eq_refl). }
  split; [exact Hc|]. split.
  { match goal with
    | |- context [falSubmitRequest _ _ _ (answer ?a ?b ?c)] => exists (answer a b c)
    end.
    apply in_or_app. right. unfold acceptEvents, falSubmitRequest. cbn [app].
    repeat (first [left; reflexivity | right]). }
  split.
  { apply Forall_app. split.
    - eapply Forall_impl; [|exact Hinit].
      intros [ | | | | | | | | | |[]|]; simpl; auto; contradiction.
    - unfold renderEvents, closing, acceptEvents.
      destruct (truthyTab (Some tabId)); cbn [app];
        repeat (apply Forall_cons; [simpl; auto|]); apply Forall_nil. }
  split.
  { intros Htab. exists message. split; [|split; [rewrite Hu; reflexivity | exact Hq]].
    apply in_or_app. right. unfold acceptEvents, renderEvents, truthyTab.
    apply Z.eqb_neq in Htab. rewrite Htab. cbn [negb app].
    repeat (first [left; reflexivity | right]). }
  split.
  { apply in_or_app. right. unfold acceptEvents, renderEvents.
    destruct (truthyTab (Some tabId)); cbn [app];
      repeat (first [left; reflexivity | right]). }
  match goal with
  | |- ~ In _ ?l /\ _ =>
      assert (Hnot : forall label, label <> "" -> label <> "..." ->
                ~ In (SetBadgeText label) l)
  end.
  { intros label Hne1 Hne2 Hin.
    apply in_app_or in Hin. destruct Hin as [Hin|Hin]; [exact (Hinit_badge _ Hin)|].
    unfold renderEvents, closing, acceptEvents in Hin.
    destruct (truthyTab (Some tabId)); cbn in Hin;
      repeat (destruct Hin as [Hin|Hin];
              [try discriminate; inversion Hin; congruence|]); contradiction. }
  split; apply Hnot; discriminate.
Qed.

End PipelineFacts.

(* ===================================================================== *)
(** ** The lock under interleaving *)
(* ===================================================================== *)

Module LockFacts.
Import JS Async LlmHandler ApiHandler Background Traces EventLoop.
Import RunFacts ClientFacts OrchestratorFacts PipelineFacts.

#[local] Arguments truthyTab : simpl never.
#[local] Arguments startsWith : simpl never.
#[local] Arguments nonEmpty : simpl never.
#[local] Arguments join : simpl never.

(** *** Composing the discipline *)

Lemma lockWp_mono : forall A (p : Prog A) m free (Q Q' : Completion A -> Mode -> bool -> Prop),
  (forall c m' free', Q c m' free' -> Q' c m' free') ->
  lockWp p m free Q -> lockWp p m free Q'.
Proof.
  induction p as [a|e|q k IH|c k IH|e k IH|k IH|a k IH]; intros m free Q Q' HQ; simpl.
  - apply HQ.
  - apply HQ.
  - intros H r. exact (IH r _ _ _ _ HQ (H r)).
  - intros (Hm & Hp & H). split; [exact Hm|]. split; [exact Hp|].
    intros r. exact (IH r _ _ _ _ HQ (H r)).
  - intros (He & Hp & H). split; [exact He|]. split; [exact Hp|].
    exact (IH _ _ _ _ HQ H).
  - intros H s Hh Hf. exact (IH s _ _ _ _ HQ (H s Hh Hf)).
  - destruct a as [b|b|x|x]; try (intros H; exact (IH _ _ _ _ HQ H)).
    destruct b.
    + intros (Hm & Hf & H). repeat split; auto. exact (IH _ _ _ _ HQ H).
    + intros (Hm & H). split; auto. exact (IH _ _ _ _ HQ H).
Qed.

Lemma lockWp_bind : forall A B (p : Prog A) (k : A -> Prog B) m free Q,
  lockWp p m free
    (fun c m' free' =>
       match c with
       | Returned a => lockWp (k a) m' free' Q
       | Threw e => Q (Threw e) m' free'
       end) ->
  lockWp (bind p k) m free Q.
Proof.
  induction p as [a|e|q k0 IH|c k0 IH|e k0 IH|k0 IH|a k0 IH]; intros k m free Q; simpl.
  - auto.
  - auto.
  - intros H r. apply IH, H.
  - intros (Hm & Hp & H). split; [exact Hm|]. split; [exact Hp|]. intros r. apply IH, H.
  - intros (He & Hp & H). split; [exact He|]. split; [exact Hp|]. apply IH, H.
  - intros H s Hh Hf. apply IH, H; assumption.
  - destruct a as [b|b|x|x]; try (intros H; apply IH, H).
    destruct b.
    + intros (Hm & Hf & H). repeat split; auto.
    + intros (Hm & H). split; auto.
Qed.

Lemma lockWp_tryCatch : forall A (p : Prog A) (h : Exn -> Prog A) m free Q,
  lockWp p m free
    (fun c m' free' =>
       match c with
       | Returned a => Q (Returned a) m' free'
       | Threw e => lockWp (h e) m' free' Q
       end) ->
  lockWp (tryCatch p h) m free Q.
Proof.
  induction p as [a|e|q k0 IH|c k0 IH|e k0 IH|k0 IH|a k0 IH]; intros h m free Q; simpl.
  - auto.
  - auto.
  - intros H r. apply IH, H.
  - intros (Hm & Hp & H). split; [exact Hm|]. split; [exact Hp|]. intros r. apply IH, H.
  - intros (He & Hp & H). split; [exact He|]. split; [exact Hp|]. apply IH, H.
  - intros H s Hh Hf. apply IH, H; assumption.
  - destruct a as [b|b|x|x]; try (intros H; apply IH, H).
    destruct b.
    + intros (Hm & Hf & H). repeat split; auto.
    + intros (Hm & H). split; auto.
Qed.

Lemma lockWp_tryFinally : forall A (p : Prog A) (f : Prog unit) m free Q,
  lockWp p m free
    (fun c m' free' =>
       lockWp f m' free'
         (fun c' m'' free'' =>
            match c' with
            | Returned _ => Q c m'' free''
            | Threw e => Q (Threw e) m'' free''
            end)) ->
  lockWp (tryFinally p f) m free Q.
Proof.
  induction p as [a|e|q k0 IH|c k0 IH|e k0 IH|k0 IH|a k0 IH]; intros f m free Q; simpl.
  - intros H. apply lockWp_bind. eapply lockWp_mono; [|exact H].
    intros [[]|e] m' free' H'; exact H'.
  - intros H. apply lockWp_bind. eapply lockWp_mono; [|exact H].
    intros [[]|e'] m' free' H'; exact H'.
  - intros H r. apply IH, H.
  - intros (Hm & Hp & H). split; [exact Hm|]. split; [exact Hp|]. intros r. apply IH, H.
  - intros (He & Hp & H). split; [exact He|]. split; [exact Hp|]. apply IH, H.
  - intros H s Hh Hf. apply IH, H; assumption.
  - destruct a as [b|b|x|x]; try (intros H; apply IH, H).
    destruct b.
    + intros (Hm & Hf & H). repeat split; auto.
    + intros (Hm & H). split; auto.
Qed.

(** A program that never assigns the flag keeps the mode it is run in; it
    may do the work of a generation only when that mode is the one of a
    routine that has the lock. *)
Lemma lockWp_spares : forall A (p : Prog A) m free (Q : Completion A -> Mode -> bool -> Prop),
  everyEvent sparesFlag p ->
  (m = Holding \/ everyEvent besidePipeline p) ->
  m <> Released ->
  (forall c free', Q c m free') ->
  lockWp p m free Q.
Proof.
  induction p as [a|e|q k IH|c k IH|e k IH|k IH|a k IH];
    intros m free Q Hp Hb Hm HQ; simpl in *.
  - apply HQ.
  - apply HQ.
  - intros r. apply IH; auto. destruct Hb as [Hb|Hb]; auto.
  - split; [exact Hm|]. split.
    + intros Hc. destruct Hb as [Hb|[Hb _]]; [exact Hb | congruence].
    + intros r. apply IH; auto; [apply Hp|]. destruct Hb as [Hb|[_ Hb]]; auto.
  - split; [apply Hp|]. split.
    + intros Hc. destruct Hb as [Hb|[Hb _]]; [exact Hb|].
      destruct e; simpl in *; congruence.
    + apply IH; auto; [apply Hp|]. destruct Hb as [Hb|[_ Hb]]; auto.
  - intros s _ _. apply IH; auto. destruct Hb as [Hb|Hb]; auto.
  - destruct Hp as [Ha Hp]. destruct a as [b|b|x|x];
      try (apply IH; auto; destruct Hb as [Hb|[_ Hb]]; auto).
    contradiction.
Qed.

(** *** The two orchestrators respect the discipline *)

Lemma not_assign_spares : forall e, ~ isAssign e -> sparesFlag e.
Proof. intros [ | | | | | | | | | | |a] H; simpl; auto. contradiction H. exact I. Qed.

Lemma initEvent_sparesFlag : forall e, initEvent e -> sparesFlag e.
Proof. intros [ | | | | | | | | | | |[| | |]] H; simpl in *; auto. Qed.

Lemma initEvent_beside : forall e, initEvent e -> besidePipeline e.
Proof.
  intros [ | | | | | | | | | |[| | | | | | |]|[| | |]] H; simpl in *;
    auto; contradiction.
Qed.

Lemma imageStage_spares : forall st prompt,
  everyEvent sparesFlag (imageStage st prompt).
Proof.
  intros. eapply everyEvent_weaken; [|apply imageStage_events].
  intros e H. apply not_assign_spares. now apply stage2Event_not_assign.
Qed.

Lemma generatePromptFromTexts_spares : forall texts key model previousPrompt,
  everyEvent sparesFlag (generatePromptFromTexts texts key model previousPrompt).
Proof.
  intros. eapply everyEvent_weaken; [|apply generatePromptFromTexts_events].
  intros e H. apply not_assign_spares. now apply llmEvent_not_assign.
Qed.

Lemma updatePipeline_spares : forall texts tabId st traceContext t0,
  everyEvent sparesFlag (updatePipeline texts tabId st traceContext t0).
Proof.
  intros texts tabId st traceContext t0.
  unfold updatePipeline, ask, load, store, emit. cbn -[imageStage generatePromptFromTexts].
  intros startLLM s.
  apply everyEvent_bind.
  { apply everyEvent_awaitAsync; [exact I | apply generatePromptFromTexts_spares]. }
  intros llmResult. cbn -[imageStage]. intros endLLM.
  split; [exact I|]. split; [exact I|].
  intros startImageGen. apply everyEvent_bind; [apply imageStage_spares|].
  intros imageResult. cbn -[truthyTab]. intros endImageGen endTotal.
  destruct (truthyTab (Some tabId)); cbn; repeat split; exact I.
Qed.

Lemma regeneratePipeline_spares : forall tabId st traceContext t0,
  everyEvent sparesFlag (regeneratePipeline tabId st traceContext t0).
Proof.
  intros tabId st traceContext t0.
  unfold regeneratePipeline, ask, load, store, emit. cbn -[imageStage].
  intros startImageGen s. apply everyEvent_bind; [apply imageStage_spares|].
  intros imageResult. cbn -[truthyTab]. intros endImageGen endTotal.
  destruct (truthyTab tabId); cbn; repeat split; try intros ?; repeat split; exact I.
Qed.

(** The obligations of one statement run by a routine that has the lock,
    or that does no work of a generation. *)
Ltac lock_step :=
  repeat match goal with
         | |- _ /\ _ => split
         | |- sparesFlag _ => exact I
         | |- Holding <> _ => discriminate
         | |- Idle <> _ => discriminate
         | |- Released <> _ => discriminate
         | |- Idle = Idle => reflexivity
         | |- Holding = Holding => reflexivity
         | |- true = true => reflexivity
         | |- _ = true -> Holding = Holding => intros _; reflexivity
         | |- _ = true -> Idle = Holding =>
             let H := fresh in intros H; discriminate H
         end.

(** Once accepted, the body of the outer [try] of [handleUpdateTexts] takes
    the flag at once, and completes holding it or having released it. *)
Lemma updateAccepted_lock : forall texts tabId now,
  lockWp (updateAccepted texts tabId now) Idle true bodyPost.
Proof.
  intros texts tabId now.
  unfold updateAccepted, ask, store, emit, awaitStorageSyncGet, awaitStartTrace, load.
  cbn [bind lockWp]. intros startTotal. lock_step.
  intros [st|e]; cbn [settle bind lockWp bodyPost]; [|reflexivity].
  assert (Hkey : forall warning,
            lockWp (reportMissingKey warning) Holding false bodyPost).
  { intros warning. unfold reportMissingKey, emit, store. cbn [bind lockWp bodyPost].
    lock_step. }
  destruct (negb (nonEmpty (openaiApiKey st))); [apply Hkey|].
  destruct (startsWith (imageModel st) "fal" && negb (nonEmpty (falApiKey st)));
    [apply Hkey|].
  destruct (startsWith (imageModel st) "replicate" && negb (nonEmpty (replicateApiKey st)));
    [apply Hkey|].
  cbv zeta. cbn [bind lockWp]. intros s _ _. lock_step.
  intros [traceContext|e]; cbn [settle bind lockWp bodyPost]; [|reflexivity].
  apply lockWp_tryCatch.
  apply lockWp_spares; [apply updatePipeline_spares | now left | discriminate |].
  intros [[]|e] free'; cbn [bind lockWp bodyPost]; lock_step.
Qed.

Lemma regenerateAccepted_lock :
  lockWp regenerateAccepted Idle true bodyPost.
Proof.
  unfold regenerateAccepted, ask, store, emit, awaitTabsQuery, awaitStorageSyncGet,
    awaitStartTrace, load.
  cbn [bind lockWp].
  split; [reflexivity|]. split; [reflexivity|]. intros startTotal. lock_step.
  intros [tabs|e]; cbn [settle bind lockWp bodyPost]; [|reflexivity].
  assert (Hrest : forall tabId : option Z,
    lockWp (Await StorageSyncGet (fun r =>
              settings <- settle r ;;
              s <- Load Ret ;;
              traceContext <- Await (StartTrace "regenerate_image"
                                       (JObj [("prompt", JStr (lastGeneratedPrompt s))]))
                                    settle ;;
              tryCatch (regeneratePipeline tabId settings traceContext startTotal)
                       (fun innerError =>
                          Emit (EndTraceDetached traceContext (exnToString innerError))
                               (Ret tt) ;;
                          Throw innerError))%prog)
           Holding false bodyPost).
  { intros tabId. cbn [bind lockWp]. lock_step.
    intros [st|e]; cbn [settle bind lockWp bodyPost]; [|reflexivity].
    intros s _ _. lock_step.
    intros [traceContext|e]; cbn [settle bind lockWp bodyPost]; [|reflexivity].
    apply lockWp_tryCatch.
    apply lockWp_spares; [apply regeneratePipeline_spares | now left | discriminate |].
    intros [[]|e] free'; cbn [bind lockWp bodyPost]; lock_step. }
  destruct tabs as [|first rest]; cbn [bind lockWp].
  - lock_step. apply (Hrest None).
  - apply (Hrest (Some first)).
Qed.

(** The outer [catch] and the [finally] close what the body left open. *)
Lemma guarded_lock : forall (body : Prog unit) where_,
  lockWp body Idle true bodyPost ->
  disciplined Idle true
    (tryFinally (tryCatch body (fun error => reportError where_ error))
                (store (SetIsGenerating false))).
Proof.
  intros body where_ H. unfold disciplined.
  apply lockWp_tryFinally, lockWp_tryCatch.
  eapply lockWp_mono; [|exact H].
  intros [[]|e] m free' Hm; unfold reportError, emit, store, bodyPost in *;
    cbn [bind lockWp].
  - split; [exact Hm | discriminate].
  - subst m. lock_step.
Qed.

Lemma updateGuarded_disciplined : forall texts tabId now free,
  disciplined Idle free (updateGuarded texts tabId now).
Proof.
  intros texts tabId now free. unfold updateGuarded, load.
  unfold disciplined. cbn [bind lockWp]. intros s _ _.
  destruct (now - lastUpdateTime s <? 2000)%Z.
  { unfold emit. cbn [lockWp]. lock_step. }
  destruct (isGenerating s).
  { unfold emit. cbn [lockWp]. lock_step. }
  cbn [negb]. rewrite orb_true_r.
  apply guarded_lock, updateAccepted_lock.
Qed.

Lemma regenerateGuarded_disciplined : forall free,
  disciplined Idle free regenerateGuarded.
Proof.
  intros free. unfold regenerateGuarded, load.
  unfold disciplined. cbn [bind lockWp]. intros s _ _.
  destruct (negb (nonEmpty (lastGeneratedPrompt s))).
  { unfold emit. cbn [lockWp]. lock_step. }
  destruct (isGenerating s).
  { unfold emit. cbn [lockWp]. lock_step. }
  cbn [negb]. rewrite orb_true_r.
  apply guarded_lock, regenerateAccepted_lock.
Qed.

Lemma initWeave_lock : forall (Q : Completion unit -> Mode -> bool -> Prop),
  (forall c free, Q c Idle free) ->
  lockWp (awaitAsync initWeave) Idle false Q.
Proof.
  intros Q HQ. apply lockWp_spares; [| |discriminate|exact HQ].
  - eapply everyEvent_weaken; [exact initEvent_sparesFlag | exact initWeave_events].
  - right. eapply everyEvent_weaken; [exact initEvent_beside | exact initWeave_events].
Qed.

Lemma handleUpdateTexts_disciplined : forall texts tabId,
  disciplined Idle false (handleUpdateTexts texts tabId).
Proof.
  intros texts tabId. unfold handleUpdateTexts, disciplined.
  apply lockWp_bind, initWeave_lock.
  intros [[]|e] free; [|discriminate].
  unfold ask. cbn [bind lockWp]. intros now. apply updateGuarded_disciplined.
Qed.

Lemma handleRegenerateImage_disciplined :
  disciplined Idle false handleRegenerateImage.
Proof.
  unfold handleRegenerateImage, disciplined.
  apply lockWp_bind, initWeave_lock.
  intros [[]|e] free; [|discriminate].
  unfold load. cbn [bind lockWp]. intros s _ _.
  destruct (negb (nonEmpty (lastGeneratedPrompt s))).
  - unfold awaitStorageLocalGet. cbn [bind lockWp]. lock_step.
    intros [stored|e]; cbn [settle bind lockWp]; [|discriminate].
    destruct stored as [[|c rest]|]; unfold store; cbn [bind lockWp];
      apply regenerateGuarded_disciplined.
  - cbn [bind lockWp]. apply regenerateGuarded_disciplined.
Qed.

Lemma onMessage_disciplined : forall message p,
  onMessage message = Some p -> disciplined Idle false p.
Proof.
  intros [texts tabId| |] p H; inversion H; subst.
  - apply handleUpdateTexts_disciplined.
  - apply handleRegenerateImage_disciplined.
Qed.

(** *** One turn of a disciplined routine *)

Lemma moved_refl : forall m s, moved m m s s [].
Proof.
  intros [| |] s; simpl; auto.
  split; [discriminate | reflexivity].
Qed.

(** A step that neither changes the flag nor logs [isGenerating = true],
    and that is no work of a generation unless the routine has the lock,
    can be put before a move. *)
Lemma moved_neutral : forall m m' s0 s s' e evs,
  setsFlag [e] = false ->
  (m = Idle -> pipelineWork e = false) ->
  isGenerating s = isGenerating s0 ->
  moved m m' s s' evs -> moved m m' s0 s' (e :: evs).
Proof.
  intros m m' s0 s s' e evs He Hw Hs H.
  assert (Hset : setsFlag (e :: evs) = setsFlag evs).
  { change (e :: evs) with ([e] ++ evs)%list. unfold setsFlag in *.
    rewrite existsb_app, He. reflexivity. }
  destruct m; simpl in *; rewrite Hset, <- ?Hs; [|exact H|exact H].
  rewrite (Hw eq_refl). exact H.
Qed.

Lemma turn_disciplined : forall A (p : Prog A) s evs p' s',
  turn p s evs p' s' ->
  forall m free Q,
    lockWp p m free Q -> consistent m free s ->
    exists m' free',
      lockWp p' m' free' Q /\ consistent m' free' s' /\ moved m m' s s' evs.
Proof.
  intros A p s evs p' s' Ht.
  induction Ht as [a s|e s|c k s|q k r s evs p' s' Ht IH|e k s evs p' s' Ht IH
                  |k s evs p' s' Ht IH|a k s evs p' s' Ht IH];
    intros m free Q Hwp Hc.
  - exists m, free. auto using moved_refl.
  - exists m, free. auto using moved_refl.
  - exists m, free. auto using moved_refl.
  - apply (IH m free Q); [apply Hwp | exact Hc].
  - destruct Hwp as (He & Hp & Hwp).
    destruct (IH m free Q Hwp Hc) as (m' & free' & H1 & H2 & H3).
    exists m', free'. split; [exact H1|]. split; [exact H2|].
    apply (moved_neutral m m' s s); [| |reflexivity|exact H3].
    + destruct e as [ | | | | | | | | | | |[[|]| | |]]; simpl in *; auto; contradiction.
    + intros ->. destruct (pipelineWork e); [|reflexivity].
      specialize (Hp eq_refl). discriminate Hp.
  - destruct Hc as (Hh & Hr & Hf).
    simpl in Hwp. specialize (Hwp s Hh Hf).
    apply (IH m _ Q Hwp).
    repeat split; auto.
    intros Hor. apply orb_true_iff in Hor. destruct Hor as [Hor|Hor]; auto.
    now apply negb_true_iff in Hor.
  - destruct Hc as (Hh & Hr & Hf).
    destruct a as [b|b|x|x].
    + destruct (IH m free Q Hwp) as (m' & free' & H1 & H2 & H3).
      { repeat split; assumption. }
      exists m', free'. split; [exact H1|]. split; [exact H2|].
      apply (moved_neutral m m' s (assign (SetWeaveInitialized b) s));
        [reflexivity | reflexivity | reflexivity | exact H3].
    + destruct b.
      * destruct Hwp as (Hm & Hfree & Hwp). subst m.
        destruct (IH Holding false Q Hwp) as (m' & free' & H1 & H2 & H3).
        { repeat split; auto; discriminate. }
        exists m', free'. split; [exact H1|]. split; [exact H2|].
        simpl. right. destruct H3 as [H3 _]. auto.
      * destruct Hwp as (Hm & Hwp).
        destruct (IH Released true Q Hwp) as (m' & free' & H1 & H2 & H3).
        { repeat split; auto; discriminate. }
        exists m', free'. split; [exact H1|]. split; [exact H2|].
        destruct H3 as [H3 H4]. subst m'.
        destruct m; simpl; [contradiction | split; [discriminate | exact H4] | auto].
    + destruct (IH m free Q Hwp) as (m' & free' & H1 & H2 & H3).
      { repeat split; assumption. }
      exists m', free'. split; [exact H1|]. split; [exact H2|].
      apply (moved_neutral m m' s (assign (SetLastGeneratedPrompt x) s));
        [reflexivity | reflexivity | reflexivity | exact H3].
    + destruct (IH m free Q Hwp) as (m' & free' & H1 & H2 & H3).
      { repeat split; assumption. }
      exists m', free'. split; [exact H1|]. split; [exact H2|].
      apply (moved_neutral m m' s (assign (SetLastUpdateTime x) s));
        [reflexivity | reflexivity | reflexivity | exact H3].
Qed.

Lemma turn_rests : forall A (p : Prog A) s evs p' s',
  turn p s evs p' s' -> finished p' = true \/ exists c k, p' = Await c k.
Proof.
  intros A p s evs p' s' Ht. induction Ht; simpl; eauto.
Qed.

(** What one turn of a routine of the event loop does to the flag: [h]
    tells whether the routine had set the flag before the turn, [g]
    whether it had done work of a generation. *)
Lemma turn_accounting : forall (p : Prog unit) s evs p' s' (h g : bool),
  turn p s evs p' s' ->
  disciplined (if h then Holding else Idle) false p ->
  (h = true -> isGenerating s = true) ->
  let h' := h || setsFlag evs in
  let t' := {| code := p'; hasSetFlag := h'; hasWorked := g || works evs |} in
  (finished p' = true \/
   (exists c k, p' = Await c k) /\ disciplined (modeOf t') false p') /\
  (if isGenerating s then 1 else 0) + (if holdsLock t' then 1 else 0) =
    (if isGenerating s' then 1 else 0) + (if h then 1 else 0) /\
  (setsFlag evs = true -> h = false /\ isGenerating s = false) /\
  (setsFlag evs = true -> finished p' = false -> isGenerating s' = true) /\
  (h' = true -> finished p' = true -> isGenerating s' = false) /\
  (works evs = true -> h' = true).
Proof.
  intros p s evs p' s' h g Ht Hd Hs h' t'.
  destruct (turn_disciplined _ p s evs p' s' Ht _ false _ Hd) as (m' & free' & H1 & H2 & H3).
  { destruct h; repeat split; try discriminate. intros _. now apply Hs. }
  destruct H2 as (Hh & Hr & _).
  assert (Hend : finished p' = true -> m' <> Holding).
  { destruct p'; simpl; try discriminate; intros _; exact H1. }
  assert (Hawait : finished p' = false -> m' <> Released /\
                   forall m, m = m' -> disciplined m false p').
  { pose proof (turn_rests _ _ _ _ _ _ Ht) as [Hfin|(c & k & ->)].
    - intros Hf. rewrite Hf in Hfin. discriminate.
    - intros _. split; [apply H1|]. intros m ->. unfold disciplined. simpl.
      exact H1. }
  assert (Hworks : works evs = true -> h' = true).
  { unfold h'. destruct h; [reflexivity|]. simpl in H3.
    destruct H3 as [(_ & _ & Hw & _)|(_ & Hset & _)]; [congruence | now rewrite Hset]. }
  unfold modeOf, holdsLock, t', h'. cbn [code hasSetFlag].
  destruct (finished p') eqn:Hfin.
  - specialize (Hend eq_refl). destruct h; simpl in H3.
    + destruct H3 as [Hi Hset]. rewrite Hset, (Hs eq_refl). cbn.
      destruct m'; try contradiction. rewrite (Hr eq_refl).
      repeat split; auto; try discriminate; try lia; try congruence.
    + destruct H3 as [(-> & Hset & Hw & Heq)|(Hi & Hset & Hg)]; rewrite Hset; cbn.
      * rewrite Heq. repeat split; auto; try discriminate; try lia; try congruence.
      * destruct m'; try contradiction. rewrite (Hr eq_refl), Hg.
        repeat split; auto; try discriminate; try lia; try congruence.
  - destruct (Hawait eq_refl) as [Hnr Hdisc]. destruct h; simpl in H3.
    + destruct H3 as [Hi Hset]. rewrite Hset, (Hs eq_refl). cbn.
      destruct m'; try contradiction. rewrite (Hh eq_refl).
      split; [right; split; [|now apply Hdisc]|repeat split; auto; try discriminate; try lia; try congruence].
      destruct (turn_rests _ _ _ _ _ _ Ht) as [Hf|Hex]; [congruence | exact Hex].
    + destruct H3 as [(-> & Hset & Hw & Heq)|(Hi & Hset & Hg)]; rewrite Hset; cbn.
      * rewrite Heq.
        split; [right; split; [|now apply Hdisc]|
                repeat split; auto; try discriminate; try lia; try congruence].
        destruct (turn_rests _ _ _ _ _ _ Ht) as [Hf|Hex]; [congruence | exact Hex].
      * destruct m'; try contradiction. rewrite (Hh eq_refl), Hg.
        split; [right; split; [|now apply Hdisc]|repeat split; auto; try discriminate; try lia; try congruence].
        destruct (turn_rests _ _ _ _ _ _ Ht) as [Hf|Hex]; [congruence | exact Hex].
Qed.

(** *** The event loop *)

Lemma holding_app : forall ts t,
  holding (ts ++ [t]) = holding ts + (if holdsLock t then 1 else 0).
Proof.
  intros ts t. unfold holding. rewrite filter_app, length_app. simpl.
  destruct (holdsLock t); reflexivity.
Qed.

Lemma holding_replaceNth : forall ts i t t',
  nth_error ts i = Some t ->
  holding (replaceNth i t' ts) + (if holdsLock t then 1 else 0) =
  holding ts + (if holdsLock t' then 1 else 0).
Proof.
  unfold holding.
  induction ts as [|x ts IH]; intros [|i] t t' H; simpl in *; try discriminate.
  - inversion H; subst. destruct (holdsLock t), (holdsLock t'); simpl; lia.
  - specialize (IH i t t' H). destruct (holdsLock x); simpl; lia.
Qed.

Lemma In_replaceNth : forall T (ts : list T) i t t',
  In t (replaceNth i t' ts) -> t = t' \/ In t ts.
Proof.
  induction ts as [|x ts IH]; intros [|i] t t' H; simpl in *; try contradiction.
  - destruct H as [H|H]; auto.
  - destruct H as [H|H]; auto. destruct (IH i t t' H); auto.
Qed.

(** A suspended routine of a worker that satisfies the invariant holds the
    lock exactly when it has set the flag, and then the flag is set. *)
Lemma suspended_task : forall w i t c k,
  invariant w -> nth_error (tasks w) i = Some t -> code t = Await c k ->
  holdsLock t = hasSetFlag t /\
  disciplined (if hasSetFlag t then Holding else Idle) false (code t) /\
  (hasSetFlag t = true -> isGenerating (vars w) = true) /\
  (hasWorked t = true -> hasSetFlag t = true).
Proof.
  intros w i t c k [Hcount Htasks] Hnth Hcode.
  assert (Hin : In t (tasks w)) by (eapply nth_error_In; eauto).
  assert (Hfly : holdsLock t = hasSetFlag t).
  { unfold holdsLock. rewrite Hcode. simpl. apply andb_true_r. }
  split; [exact Hfly|]. split; [|split].
  - destruct (Htasks t Hin) as [_ [Hf|[_ Hd]]]; [rewrite Hcode in Hf; discriminate|].
    exact Hd.
  - intros Hset. destruct (isGenerating (vars w)); [reflexivity|].
    assert (Hpos : In t (filter holdsLock (tasks w))).
    { apply filter_In. split; [exact Hin | congruence]. }
    unfold holding in Hcount. destruct (filter holdsLock (tasks w)); [contradiction|].
    discriminate.
  - exact (proj1 (Htasks t Hin)).
Qed.

Lemma invariant_startup : invariant startup.
Proof. split; [reflexivity | intros t []]. Qed.

Lemma invariant_step : forall w i evs t w',
  invariant w -> step w i evs t w' -> invariant w'.
Proof.
  intros w i evs t w' Hinv Hstep.
  destruct Hstep as [w message p evs p' s' Hmsg Ht | w i t c k r evs p' s' Hnth Hcode Ht].
  - pose proof (turn_accounting p (vars w) evs p' s' false false Ht
                  (onMessage_disciplined _ _ Hmsg)) as H.
    destruct H as (Htask & Hcnt & _ & _ & _ & Hworks); [discriminate|].
    destruct Hinv as [Hcount Htasks]. split; cbn [vars tasks].
    + rewrite holding_app, Hcount. cbn [orb] in Hcnt. lia.
    + intros t Hin. apply in_app_or in Hin. destruct Hin as [Hin|[<-|[]]]; auto.
  - destruct (suspended_task w i t c k Hinv Hnth Hcode) as (Hfly & Hd & Hflag & Hwork).
    assert (Hk : disciplined (if hasSetFlag t then Holding else Idle) false (k r)).
    { rewrite Hcode in Hd. unfold disciplined in *. simpl in Hd. apply Hd. }
    pose proof (turn_accounting (k r) (vars w) evs p' s' (hasSetFlag t) (hasWorked t)
                  Ht Hk Hflag) as H.
    destruct H as (Htask & Hcnt & _ & _ & _ & Hworks).
    destruct Hinv as [Hcount Htasks]. split; cbn [vars tasks].
    + pose proof (holding_replaceNth (tasks w) i t
                    {| code := p'; hasSetFlag := hasSetFlag t || setsFlag evs;
                       hasWorked := hasWorked t || works evs |} Hnth) as Hrep.
      rewrite Hfly in Hrep. lia.
    + intros t0 Hin. apply In_replaceNth in Hin. destruct Hin as [->|Hin]; auto.
      split; [|exact Htask]. cbn [hasSetFlag hasWorked]. intros Hw.
      apply orb_true_iff in Hw. destruct Hw as [Hw|Hw].
      * rewrite (Hwork Hw). reflexivity.
      * exact (Hworks Hw).
Qed.

Lemma reachable_invariant : forall w, reachable w -> invariant w.
Proof.
  intros w H. induction H as [|w i evs t w' _ IH Hstep].
  - exact invariant_startup.
  - exact (invariant_step w i evs t w' IH Hstep).
Qed.

(** A generation in flight is run by a routine that holds the lock. *)
Lemma inFlight_holdsLock : forall w t,
  invariant w -> In t (tasks w) -> inFlight t = true -> holdsLock t = true.
Proof.
  intros w t [_ Htasks] Hin Hfly. unfold inFlight, holdsLock in *.
  apply andb_true_iff in Hfly. destruct Hfly as [Hwork Hfin]. rewrite Hfin.
  rewrite andb_true_r.
  destruct (Htasks t Hin) as [Hw Hcode].
  apply orb_true_iff in Hwork. destruct Hwork as [Hwork|Hwork]; [exact (Hw Hwork)|].
  destruct Hcode as [Hf|[(c & k & Hc) Hd]].
  - rewrite Hf in Hfin. discriminate.
  - rewrite Hc in Hwork, Hd. simpl in Hwork. unfold disciplined in Hd. simpl in Hd.
    destruct Hd as (_ & Hp & _). specialize (Hp Hwork).
    unfold modeOf in Hp. destruct (hasSetFlag t); [reflexivity | discriminate].
Qed.

Lemma filter_length_le : forall (T : Type) (f g : T -> bool) (l : list T),
  (forall x, In x l -> f x = true -> g x = true) ->
  length (filter f l) <= length (filter g l).
Proof.
  intros T f g l. induction l as [|x l IH]; intros H; simpl; [lia|].
  assert (IH' : length (filter f l) <= length (filter g l)).
  { apply IH. intros y Hy. apply H. now right. }
  destruct (f x) eqn:Hf.
  - rewrite (H x (or_introl eq_refl) Hf). simpl. lia.
  - destruct (g x); simpl; lia.
Qed.

(** No more generations are in flight than routines hold the lock. *)
Lemma flying_le_holding : forall w,
  invariant w -> flying (tasks w) <= holding (tasks w).
Proof.
  intros w Hinv. apply filter_length_le.
  intros t Hin. exact (inFlight_holdsLock w t Hinv Hin).
Qed.

(** What a step does to the flag, in a worker that satisfies the
    invariant. *)
Lemma step_accounting : forall w i evs t w',
  invariant w -> step w i evs t w' ->
  (setsFlag evs = true -> isGenerating (vars w) = false /\ flying (tasks w) = 0) /\
  (setsFlag evs = true -> finished (code t) = false -> isGenerating (vars w') = true) /\
  (hasSetFlag t = true -> finished (code t) = true -> isGenerating (vars w') = false).
Proof.
  intros w i evs t w' Hinv Hstep.
  assert (Hnone : isGenerating (vars w) = false -> flying (tasks w) = 0).
  { intros Hg. pose proof (flying_le_holding w Hinv) as Hle.
    rewrite (inv_count w Hinv), Hg in Hle. lia. }
  destruct Hstep as [w message p evs p' s' Hmsg Ht | w i t c k r evs p' s' Hnth Hcode Ht].
  - pose proof (turn_accounting p (vars w) evs p' s' false false Ht
                  (onMessage_disciplined _ _ Hmsg)) as H.
    destruct H as (_ & _ & Hset & Hon & Hoff & _); [discriminate|].
    cbn [code hasSetFlag vars orb] in *. split; [|split; assumption].
    intros Hs. destruct (Hset Hs) as [_ Hg]. split; [exact Hg | exact (Hnone Hg)].
  - destruct (suspended_task w i t c k Hinv Hnth Hcode) as (Hfly & Hd & Hflag & _).
    assert (Hk : disciplined (if hasSetFlag t then Holding else Idle) false (k r)).
    { rewrite Hcode in Hd. unfold disciplined in *. simpl in Hd. apply Hd. }
    pose proof (turn_accounting (k r) (vars w) evs p' s' (hasSetFlag t) (hasWorked t)
                  Ht Hk Hflag) as H.
    destruct H as (_ & _ & Hset & Hon & Hoff & _).
    cbn [code hasSetFlag vars] in *. split; [|split; assumption].
    intros Hs. destruct (Hset Hs) as [_ Hg]. split; [exact Hg | exact (Hnone Hg)].
Qed.

(** In a worker that satisfies the invariant at most one generation is in
    flight, and the routine that runs it has set the flag, which is
    true. *)
Lemma flight_accounting : forall w,
  invariant w ->
  flying (tasks w) <= 1 /\
  (forall t, In t (tasks w) -> inFlight t = true ->
     hasSetFlag t = true /\ isGenerating (vars w) = true).
Proof.
  intros w Hinv. split.
  - pose proof (flying_le_holding w Hinv) as Hle.
    rewrite (inv_count w Hinv) in Hle. destruct (isGenerating (vars w)); lia.
  - intros t Hin Hfly.
    pose proof (inFlight_holdsLock w t Hinv Hin Hfly) as Hh.
    assert (Hset : hasSetFlag t = true).
    { unfold holdsLock in Hh. now apply andb_true_iff in Hh. }
    split; [exact Hset|].
    destruct (isGenerating (vars w)) eqn:Hg; [reflexivity|].
    assert (Hpos : In t (filter holdsLock (tasks w))) by (apply filter_In; auto).
    pose proof (inv_count w Hinv) as Hcount. rewrite Hg in Hcount.
    unfold holding in Hcount. destruct (filter holdsLock (tasks w)); [contradiction|].
    discriminate.
Qed.

End LockFacts.

(* ===================================================================== *)
(** ** The properties the specification states *)
(* ===================================================================== *)

Module Properties.
Import JS WeaveShim Async LlmHandler ApiHandler Background Traces EventLoop Scenario.
Import StringFacts SanitizerFacts RunFacts ClientFacts OrchestratorFacts DebounceFacts
  PipelineFacts LockFacts.
Local Open Scope Z_scope.

(** *** The lock *)

(** Claim C1. In every state the service worker can reach, whichever of
    [handleUpdateTexts] and [handleRegenerateImage] the messages started and
    however their turns interleave. A generation is in flight when a
    routine has begun the work of a generation (the badge, the calls of
    the root span and of the two stages, the message to the page) and has
    not completed; the flag plays no part in that notion. At most one
    generation is in flight, and the routine that runs it has set the flag,
    which is true. A turn that executes [isGenerating = true] starts with
    the flag false and no generation in flight, and leaves the flag true
    when it suspends. And when a routine that has set the flag completes,
    by a [return] or by an exception, the flag is false. *)
Theorem isGenerating_lock : forall w,
  reachable w ->
  (flying (tasks w) <= 1)%nat /\
  (forall t, In t (tasks w) -> inFlight t = true ->
     hasSetFlag t = true /\ isGenerating (vars w) = true) /\
  forall i evs t w',
    step w i evs t w' ->
    (setsFlag evs = true ->
     isGenerating (vars w) = false /\ flying (tasks w) = 0%nat) /\
    (setsFlag evs = true -> finished (code t) = false ->
     isGenerating (vars w') = true) /\
    (hasSetFlag t = true -> finished (code t) = true ->
     isGenerating (vars w') = false).
Proof.
  intros w Hreach. pose proof (reachable_invariant w Hreach) as Hinv.
  destruct (flight_accounting w Hinv) as [Hle Hfly].
  split; [exact Hle|]. split; [exact Hfly|].
  intros i evs t w' Hstep. exact (step_accounting w i evs t w' Hinv Hstep).
Qed.

(** The head of the program of a turn, brought to light. *)
Ltac turn_head :=
  lazymatch goal with
  | |- turn ?p _ _ _ _ => let q := eval hnf in p in change p with q
  end.

(** One turn of a concrete routine, the clock answering [now]. *)
Ltac take_turn now :=
  repeat (turn_head;
          first [ apply turn_ret | apply turn_throw | apply turn_await
                | apply (turn_ask _ _ now) | apply turn_emit
                | apply turn_load | apply turn_store ]).

(** The claim on four turns of one routine: Fire and Water arrive, the
    routine waits in [initWeave] for the settings, then for the turn that
    follows; its third turn, at the time 10000, finds the flag false and
    nothing in flight, sets the flag, shows the busy badge and waits for
    the settings; they come without the key of the prompt generator, and
    the fourth turn reports the missing key and completes with the flag
    false. *)
Lemma isGenerating_lock_witness :
  exists w2 evs3 t3 w3 evs4 t4 w4,
    step w2 0 evs3 t3 w3 /\ setsFlag evs3 = true /\
    isGenerating (vars w2) = false /\ flying (tasks w2) = 0%nat /\
    isGenerating (vars w3) = true /\ flying (tasks w3) = 1%nat /\
    step w3 0 evs4 t4 w4 /\ hasSetFlag t4 = true /\ finished (code t4) = true /\
    isGenerating (vars w4) = false.
Proof.
  eassert (Hstep1 : step startup 0 _ _ _).
  { eapply (step_message startup (UpdateTexts fireAndWater 7)); [reflexivity|].
    take_turn 10000. }
  match type of Hstep1 with step _ _ _ _ ?w => pose (w1 := w) end.
  eassert (Hstep2 : step w1 0 _ _ _).
  { eapply (step_resume w1 0%nat _ StorageSyncGet _ (Fulfilled someSettings));
      [reflexivity | reflexivity |].
    take_turn 10000. }
  match type of Hstep2 with step _ _ _ _ ?w => pose (w2 := w) end.
  eassert (Hstep3 : step w2 0 _ _ _).
  { eapply (step_resume w2 0%nat _ Tick _ tt); [reflexivity | reflexivity |].
    take_turn 10000. }
  match type of Hstep3 with step _ _ _ _ ?w => pose (w3 := w) end.
  eassert (Hstep4 : step w3 0 _ _ _).
  { eapply (step_resume w3 0%nat _ StorageSyncGet _
              (Fulfilled (withOpenaiApiKey "" someSettings)));
      [reflexivity | reflexivity |].
    take_turn 10000. }
  pose proof (reachable_step _ _ _ _ _
                (reachable_step _ _ _ _ _ reachable_startup Hstep1) Hstep2) as Hreach2.
  pose proof (reachable_step _ _ _ _ _ Hreach2 Hstep3) as Hreach3.
  destruct (isGenerating_lock _ Hreach2) as (_ & _ & Hsteps2).
  destruct (Hsteps2 _ _ _ _ Hstep3) as (Hset3 & Hon3 & _).
  destruct (isGenerating_lock _ Hreach3) as (_ & _ & Hsteps3).
  destruct (Hsteps3 _ _ _ _ Hstep4) as (_ & _ & Hoff4).
  do 7 eexists.
  split; [exact Hstep3|]. split; [reflexivity|].
  split; [exact (proj1 (Hset3 eq_refl))|]. split; [exact (proj2 (Hset3 eq_refl))|].
  split; [exact (Hon3 eq_refl eq_refl)|]. split; [reflexivity|].
  split; [exact Hstep4|]. split; [reflexivity|]. split; [reflexivity|].
  exact (Hoff4 eq_refl eq_refl).
Defined.

(** *** Debounce *)

(** Claim C2, as the specification states it, fails: both triggers of a
    pair can fall inside the window opened by an earlier acceptance. With
    the last acceptance at 10000, a trigger handled at 10102 and a second
    one handled at 10202 are 100 ms apart, none was accepted in between,
    and both are turned away by the debounce guard: no generation is
    accepted, not one. *)
Lemma debounce_both_rejected : ~ debounceExactlyOne.
Proof.
  intros H.
  specialize (H fireAndWater 7 fireAndWater 7
                (world (sunny 10100 someSettings))
                (world (sunny 10200 someSettings))
                (idleWith "A scene" 10000)).
  cbv zeta in H.
  assert (Hclose : Z.abs (nowRead (world (sunny 10200 someSettings))
                            (final (run (handleUpdateTexts fireAndWater 7)
                                        (world (sunny 10100 someSettings))
                                        (idleWith "A scene" 10000)))
                          - nowRead (world (sunny 10100 someSettings))
                                    (idleWith "A scene" 10000)) < DEBOUNCE_WINDOW)
    by (vm_compute; reflexivity).
  specialize (H Hclose). vm_compute in H. discriminate H.
Qed.

(** Claim C2, amended. The debounce guard is the first of the two: a
    trigger handled less than 2000 ms after [lastUpdateTime] is turned away
    by it whatever the flag says, with the message of the debounce guard
    and nothing else. A run assigns [lastUpdateTime] only when it accepts
    its trigger, once, the time it read, in the turn that accepts and
    before it suspends again. So of two triggers handled less than 2000 ms
    apart, the variables at the second arbitrary but for [lastUpdateTime],
    which is as the first left it (no trigger was accepted in between; the
    first may still be in flight), at most one is accepted: if the first is
    accepted the second is turned away by the debounce guard, assigns none
    of the three variables of the pipeline and calls no service. None is
    accepted when both come less than 2000 ms after [lastUpdateTime] as the
    first found it, and exactly one when the first finds the flag false
    and the window passed. *)
Theorem debounce_pair : forall texts1 tabId1 texts2 tabId2 w1 w2 s1 s2,
  let r1 := run (handleUpdateTexts texts1 tabId1) w1 s1 in
  let r2 := run (handleUpdateTexts texts2 tabId2) w2 s2 in
  lastUpdateTime s2 = lastUpdateTime (final r1) ->
  Z.abs (nowRead w2 s2 - nowRead w1 s1) < DEBOUNCE_WINDOW ->
  (forall texts tabId now w n s,
     now - lastUpdateTime s < DEBOUNCE_WINDOW ->
     exec (updateGuarded texts tabId now) w n s =
     {| completion := Returned tt; final := s;
        events := [ConsoleLog "Skipping update: too soon"]; interactions := n |}) /\
  timeStamps (events r1) = (if accepted r1 then [nowRead w1 s1] else []) /\
  lastUpdateTime (final r1) =
    (if accepted r1 then nowRead w1 s1 else lastUpdateTime s1) /\
  (acceptedAmong r1 r2 <= 1)%nat /\
  (accepted r1 = true ->
   (exists rest,
      events r1 =
      (events (initRun w1 s1) ++
       Assigns (SetIsGenerating true) :: Assigns (SetLastUpdateTime (nowRead w1 s1)) ::
       SetBadgeText "..." :: SetBadgeBackgroundColor "#4285F4" ::
       Awaits StorageSyncGet :: rest)%list) /\
   accepted r2 = false /\
   final r2 = final (initRun w2 s2) /\
   isGenerating (final r2) = isGenerating s2 /\
   lastGeneratedPrompt (final r2) = lastGeneratedPrompt s2 /\
   lastUpdateTime (final r2) = nowRead w1 s1 /\
   Forall (fun e => ~ isFetch e) (events r2) /\
   (completion (initRun w2 s2) = Returned tt ->
    events r2 = (events (initRun w2 s2) ++
                 [ConsoleLog "Skipping update: too soon"])%list)) /\
  (nowRead w1 s1 - lastUpdateTime s1 < DEBOUNCE_WINDOW ->
   nowRead w2 s2 - lastUpdateTime s1 < DEBOUNCE_WINDOW ->
   acceptedAmong r1 r2 = 0%nat) /\
  (completion (initRun w1 s1) = Returned tt ->
   isGenerating s1 = false ->
   DEBOUNCE_WINDOW <= nowRead w1 s1 - lastUpdateTime s1 ->
   acceptedAmong r1 r2 = 1%nat).
Proof.
  intros texts1 tabId1 texts2 tabId2 w1 w2 s1 s2 r1 r2 Hsame Hclose.
  pose proof (debounced_run texts1 tabId1 w1 s1) as Hdeb1.
  pose proof (debounced_run texts2 tabId2 w2 s2) as Hdeb2.
  pose proof (accepted_final texts1 tabId1 w1 s1) as Hfin1.
  pose proof (idle_accepts texts1 tabId1 w1 s1) as Hidle1.
  pose proof (run_handleUpdateTexts_cases texts1 tabId1 w1 s1) as Hcases1.
  pose proof (run_handleUpdateTexts_cases texts2 tabId2 w2 s2) as Hcases2.
  cbv zeta in Hdeb1, Hdeb2, Hcases1, Hcases2.
  fold r1 in Hdeb1, Hfin1, Hidle1, Hcases1. fold r2 in Hdeb2, Hcases2.
  assert (Hlast : lastUpdateTime (final r1) =
                  (if accepted r1 then nowRead w1 s1 else lastUpdateTime s1)).
  { destruct (accepted r1) eqn:Ha.
    - exact (proj1 (Hfin1 eq_refl)).
    - destruct (initRun_spares w1 s1) as (_ & _ & Ht).
      destruct Hcases1
        as [(e & _ & _ & Hf) | [(_ & _ & _ & Hf & _) |
            [(_ & _ & _ & _ & Hf & _) | (Hi & Hd & Hg & _)]]];
        try (rewrite Hf; exact Ht).
      specialize (Hidle1 Hi Hg Hd). congruence. }
  assert (Hsecond : accepted r1 = true ->
            nowRead w2 s2 - lastUpdateTime s2 < DEBOUNCE_WINDOW).
  { intros Ha. rewrite Hsame, Hlast, Ha. lia. }
  split; [exact exec_updateGuarded_debounced|].
  split; [exact (run_timeStamps texts1 tabId1 w1 s1)|].
  split; [exact Hlast|].
  split; [|split; [|split]].
  - unfold acceptedAmong. destruct (accepted r1) eqn:Ha.
    + rewrite (proj1 (Hdeb2 (Hsecond eq_refl))). simpl. lia.
    + destruct (accepted r2); simpl; lia.
  - intros Ha. split; [exact (accepted_events texts1 tabId1 w1 s1 Ha)|].
    pose proof (Hsecond Ha) as Hd.
    destruct (Hdeb2 Hd) as (Hr & Hg & Hp & Hl & Hnf & Hev).
    split; [exact Hr|]. split.
    { destruct Hcases2
        as [(e & _ & _ & Hf) | [(_ & _ & _ & Hf & _) |
            [(_ & Hd' & _) | (_ & Hd' & _)]]]; try lia; exact Hf. }
    split; [exact Hg|]. split; [exact Hp|].
    split; [rewrite Hl, Hsame, Hlast, Ha; reflexivity|].
    split; [exact Hnf|]. intros Hi. exact (proj2 (Hev Hi)).
  - intros Hd1 Hd2. unfold acceptedAmong.
    assert (Ha1 : accepted r1 = false) by exact (proj1 (Hdeb1 Hd1)).
    assert (Ha2 : accepted r2 = false).
    { apply Hdeb2. rewrite Hsame, Hlast, Ha1. exact Hd2. }
    now rewrite Ha1, Ha2.
  - intros Hi Hg Hd.
    assert (Ha : accepted r1 = true) by (apply Hidle1; assumption).
    unfold acceptedAmong.
    rewrite Ha, (proj1 (Hdeb2 (Hsecond Ha))).
    reflexivity.
Qed.

(** The amended claim on the specification's scenario: a first trigger at
    10000 on an idle pipeline, and a second one 100 ms later that arrives
    while the first is still in flight, the flag set. *)
Lemma debounce_pair_witness :
  acceptedAmong
    (run (handleUpdateTexts fireAndWater 7) (world (sunny 10000 someSettings))
         (idleWith "" 0))
    (run (handleUpdateTexts fireAndWater 7) (world (sunny 10100 someSettings))
         {| weaveInitialized := false; isGenerating := true;
            lastGeneratedPrompt := ""; lastUpdateTime := 10002 |})
  = 1%nat /\
  events (run (handleUpdateTexts fireAndWater 7) (world (sunny 10100 someSettings))
              {| weaveInitialized := false; isGenerating := true;
                 lastGeneratedPrompt := ""; lastUpdateTime := 10002 |})
  = [Awaits StorageSyncGet; Awaits Tick; ConsoleLog "Skipping update: too soon"].
Proof.
  pose proof (debounce_pair fireAndWater 7 fireAndWater 7
                (world (sunny 10000 someSettings))
                (world (sunny 10100 someSettings))
                (idleWith "" 0)
                {| weaveInitialized := false; isGenerating := true;
                   lastGeneratedPrompt := ""; lastUpdateTime := 10002 |}) as H.
  cbv zeta in H.
  assert (Hsame : 10002 =
                  lastUpdateTime
                    (final (run (handleUpdateTexts fireAndWater 7)
                                (world (sunny 10000 someSettings)) (idleWith "" 0))))
    by (vm_compute; reflexivity).
  assert (Hclose : Z.abs (nowRead (world (sunny 10100 someSettings))
                            {| weaveInitialized := false; isGenerating := true;
                               lastGeneratedPrompt := ""; lastUpdateTime := 10002 |}
                          - nowRead (world (sunny 10000 someSettings)) (idleWith "" 0))
                   < DEBOUNCE_WINDOW)
    by (vm_compute; reflexivity).
  destruct (H Hsame Hclose) as (_ & _ & _ & _ & Hfirst & _ & Hone).
  split.
  - apply Hone; [vm_compute; reflexivity | reflexivity | vm_compute; discriminate].
  - assert (Ha : accepted (run (handleUpdateTexts fireAndWater 7)
                               (world (sunny 10000 someSettings)) (idleWith "" 0)) = true)
      by (vm_compute; reflexivity).
    destruct (Hfirst Ha) as (_ & _ & _ & _ & _ & _ & _ & Hev).
    rewrite Hev; [vm_compute; reflexivity | vm_compute; reflexivity].
Defined.

(** *** Credential gating *)

(** [handleRegenerateImage] has no statement that reports a missing
    credential. *)
Lemma handleRegenerateImage_events :
  everyEvent (fun e => e <> SetBadgeText "KEY") handleRegenerateImage.
Proof.
  assert (Hstage : forall st prompt,
            everyEvent (fun e => e <> SetBadgeText "KEY") (imageStage st prompt)).
  { intros. eapply everyEvent_weaken; [|apply imageStage_events].
    intros e [H|[H|H]] Heq; subst; simpl in *; try contradiction; discriminate. }
  unfold handleRegenerateImage.
  apply everyEvent_bind.
  { eapply everyEvent_weaken; [|exact initWeave_events].
    intros e H Heq. subst e. exact H. }
  intros _. unfold load. cbn [bind everyEvent]. intros s.
  apply everyEvent_bind.
  { destruct (negb (nonEmpty (lastGeneratedPrompt s))); [|exact I].
    unfold awaitStorageLocalGet. cbn [bind everyEvent]. split; [discriminate|].
    intros [[[|c rest]|]|e]; simpl; auto; split; auto; discriminate. }
  intros _. unfold regenerateGuarded, load. cbn [bind everyEvent]. intros s'.
  destruct (negb (nonEmpty (lastGeneratedPrompt s'))).
  { simpl. split; [discriminate | exact I]. }
  destruct (isGenerating s').
  { simpl. split; [discriminate | exact I]. }
  apply everyEvent_tryFinally; [|simpl; split; [discriminate | exact I]].
  apply everyEvent_tryCatch.
  2: { intros e. simpl. repeat split; discriminate. }
  unfold regenerateAccepted, store, ask, emit, awaitTabsQuery, awaitStorageSyncGet,
    awaitStartTrace, await, load.
  cbn [bind everyEvent]. split; [discriminate|]. intros startTotal.
  split; [discriminate|]. split; [discriminate|]. split; [discriminate|].
  intros [tabs|e]; cbn [settle bind everyEvent]; [|exact I].
  assert (Hrest : forall tabId : option Z,
    everyEvent (fun e => e <> SetBadgeText "KEY")
      (Await StorageSyncGet (fun r =>
         settings <- settle r ;;
         s <- Load Ret ;;
         traceContext <- Await (StartTrace "regenerate_image"
                                  (JObj [("prompt", JStr (lastGeneratedPrompt s))]))
                               settle ;;
         tryCatch (regeneratePipeline tabId settings traceContext startTotal)
                  (fun innerError =>
                     Emit (EndTraceDetached traceContext (exnToString innerError))
                          (Ret tt) ;;
                     Throw innerError))%prog)).
  { intros tabId. cbn [bind everyEvent]. split; [discriminate|].
    intros [st|e]; cbn [settle bind everyEvent]; [|exact I].
    intros s0. split; [discriminate|].
    intros [traceContext|e]; cbn [settle bind everyEvent]; [|exact I].
    apply everyEvent_tryCatch; [|intros e; simpl; split; [discriminate | exact I]].
    unfold regeneratePipeline, ask, load, emit. cbn [bind everyEvent].
    intros startImageGen s1. apply everyEvent_bind; [apply Hstage|].
    intros imageResult. cbn [bind everyEvent]. intros endImageGen endTotal.
    destruct (truthyTab tabId); cbn [bind everyEvent]; repeat split;
      try intros ?; repeat split; discriminate. }
  destruct tabs as [|first rest]; cbn [bind everyEvent].
  - split; [discriminate|]. apply (Hrest None).
  - apply (Hrest (Some first)).
Qed.

(** What [handleUpdateTexts] does when one of its three checks finds a
    credential missing: the accepted trigger ends with the missing-key
    signal, no call to any service, and the flag cleared. *)
Lemma update_credential_gating : forall texts tabId w s st warning,
  (forall m, reply w m StorageSyncGet = Fulfilled st) ->
  missingCredential st = Some warning ->
  isGenerating s = false ->
  DEBOUNCE_WINDOW <= nowRead w s - lastUpdateTime s ->
  let r := run (handleUpdateTexts texts tabId) w s in
  completion r = Returned tt /\
  Forall (fun e => ~ isFetch e) (events r) /\
  In (ConsoleWarn warning) (events r) /\
  In (SetBadgeText "KEY") (events r) /\
  ~ In (SetBadgeText "ERR") (events r) /\
  isGenerating (final r) = false.
Proof.
  intros texts tabId w s st warning Hst Hm Hg Hd r.
  destruct (accepted_valid_run texts tabId w s st Hst Hg Hd) as (Hc & Hf & Hev).
  fold r in Hc, Hf, Hev. cbv zeta in Hf, Hev.
  pose proof (initRun_events w s) as Hinit.
  set (i := initRun w s) in *. set (now := nowRead w s) in *.
  destruct (updateAccepted_cases texts tabId now w (S (interactions i)) (final i))
    as [(e & Hr & _) | [(st' & warning' & Hr & Hm' & Hb) |
        [(st' & e & Hr & Hm' & _) | (st' & traceContext & Hr & Hm' & _)]]];
    rewrite Hst in Hr; try discriminate; inversion Hr; subst st'; try congruence.
  assert (warning' = warning) by congruence. subst warning'.
  rewrite Hb in Hev, Hf. cbn [completion final events closing app] in Hev, Hf.
  split; [exact Hc|]. rewrite Hev, Hf.
  split; [|split; [|split; [|split; [|reflexivity]]]].
  - apply Forall_app. split.
    + eapply Forall_impl; [exact initEvent_not_fetch | exact Hinit].
    + unfold acceptEvents, missingKeyEvents. cbn [app].
      repeat (apply Forall_cons; [simpl; auto|]). apply Forall_nil.
  - apply in_or_app. right. unfold acceptEvents, missingKeyEvents. cbn [app].
    repeat (first [left; reflexivity | right]).
  - apply in_or_app. right. unfold acceptEvents, missingKeyEvents. cbn [app].
    repeat (first [left; reflexivity | right]).
  - intros Hin. apply in_app_or in Hin. destruct Hin as [Hin|Hin].
    + apply (Forall_not_In initEvent (SetBadgeText "ERR") _ Hinit); [simpl; auto | exact Hin].
    + unfold acceptEvents, missingKeyEvents in Hin. cbn [app] in Hin.
      repeat (destruct Hin as [Hin|Hin]; [discriminate Hin|]). exact Hin.
Qed.

(** Claim C3 does not hold of [handleRegenerateImage], which validates no
    credential. No run of it ends with the missing-key signal. With a FAL
    model selected and an empty FAL key, a regeneration is accepted, goes
    as far as the FAL client, which throws before any call, and ends with
    the error signal, the flag cleared. [handleUpdateTexts] on the same
    settings ends with the missing-key signal and no call. And
    [handleUpdateTexts] itself tests the key of a provider only when the
    identifier starts with that provider's prefix: with an identifier of
    neither prefix, routed to the FAL client, and an empty FAL key, the
    Stage 1 call is issued and the run ends with the error signal. *)
Theorem regenerate_skips_credential_check :
  (forall w s, ~ In (SetBadgeText "KEY") (events (run handleRegenerateImage w s))) /\
  (let r := run handleRegenerateImage
                (world (sunny 10000 (withFalApiKey "" someSettings)))
                (idleWith "A scene" 0) in
   completion r = Returned tt /\
   setsFlag (events r) = true /\
   Forall (fun e => ~ isFetch e) (events r) /\
   In (ConsoleError "Error in handleRegenerateImage:" (Error "FAL API Key is missing."))
      (events r) /\
   In (SetBadgeText "ERR") (events r) /\
   isGenerating (final r) = false) /\
  (let r := run (handleUpdateTexts fireAndWater 7)
                (world (sunny 10000 (withFalApiKey "" someSettings)))
                (idleWith "A scene" 0) in
   Forall (fun e => ~ isFetch e) (events r) /\
   In (SetBadgeText "KEY") (events r) /\
   ~ In (SetBadgeText "ERR") (events r) /\
   isGenerating (final r) = false) /\
  (let st := withImageModel "dall-e-3" (withFalApiKey "" someSettings) in
   let r := run (handleUpdateTexts fireAndWater 7) (world (sunny 10000 st))
                (idleWith "A scene" 0) in
   missingCredential st = None /\
   imageStage st "Steam rises..." =
     awaitAsync (getImageFromFal "Steam rises..." "" "dall-e-3") /\
   In (Awaits (Fetch LlmApi
                 (completionRequest (openaiApiKey st) (llmModel st) "Fire, Water" "A scene")))
      (events r) /\
   In (SetBadgeText "ERR") (events r) /\
   ~ In (SetBadgeText "KEY") (events r) /\
   isGenerating (final r) = false).
Proof.
  split; [|split; [|split]].
  - intros w s. apply Forall_not_In with (P := fun e => e <> SetBadgeText "KEY").
    + apply everyEvent_exec. exact handleRegenerateImage_events.
    + intros H. now apply H.
  - vm_compute. repeat split; auto 20;
      try (repeat (apply Forall_cons; [auto|]); apply Forall_nil).
  - vm_compute. repeat split; auto 20;
      try (repeat (apply Forall_cons; [auto|]); apply Forall_nil);
      try (intros H; repeat (destruct H as [H|H]; [discriminate H|]); exact H).
  - vm_compute. repeat split; auto 30;
      try (intros H; repeat (destruct H as [H|H]; [discriminate H|]); exact H).
Qed.

(** *** Narrative continuity *)

(** Claim C4. The settings being what [chrome.storage.sync]
    holds, every request a run of [handleUpdateTexts] sends to the prompt
    generator is built from the names of the elements and the prompt in
    memory at the start, [lastGeneratedPrompt s], as the previous prompt.
    In a run whose trigger is accepted, with the credentials present and
    the root span opened, that request is sent, before any other call to a
    service. And when the completion service answers it with a completion,
    the trimmed content is assigned to [lastGeneratedPrompt] and written to
    [chrome.storage.local] right after Stage 1 has returned: no call of
    Stage 2 comes before, no other request to the prompt generator comes
    after, and the assignment stands at the end of the run. *)
Theorem narrative_continuity : forall texts tabId w s st,
  (forall m, reply w m StorageSyncGet = Fulfilled st) ->
  let r := run (handleUpdateTexts texts tabId) w s in
  let request := completionRequest (openaiApiKey st) (llmModel st)
                   (join ", " (map text texts)) (lastGeneratedPrompt s) in
  (forall req, In (Awaits (Fetch LlmApi req)) (events r) -> req = request) /\
  (missingCredential st = None ->
   traceStarts w ->
   isGenerating s = false ->
   DEBOUNCE_WINDOW <= nowRead w s - lastUpdateTime s ->
   (exists before after,
      events r = (before ++ Awaits (Fetch LlmApi request) :: after)%list /\
      Forall (fun e => ~ isFetch e) before) /\
   (forall resp d content,
      (forall m, reply w m (Fetch LlmApi request) = Fulfilled resp) ->
      ok resp = true -> data resp = Some d -> llm_content d = Some content ->
      lastGeneratedPrompt (final r) = trim content /\
      exists before after,
        events r = (before ++
                    [Awaits (Fetch LlmApi request);
                     Awaits ReadJson;
                     Awaits Tick;
                     Assigns (SetLastGeneratedPrompt (trim content));
                     StorageLocalSet (trim content)] ++ after)%list /\
        Forall (fun e => ~ isFetch e) before /\
        Forall (fun e => ~ historyEvent e) before /\
        Forall (fun e => ~ isFetchTo LlmApi e) after)).
Proof.
  intros texts tabId w s st Hst r request. split.
  - intros req Hin.
    destruct (llm_requests_run texts tabId w s req Hin) as (st' & m & Hr & Hreq).
    rewrite Hst in Hr. injection Hr as Hr. subst st'. exact Hreq.
  - intros Hm Htrace Hg Hd.
    exact (narrative_run texts tabId w s st Hst Hm Htrace Hg Hd).
Qed.

(** The claim on the specification's scenario: Fire and Water arrive with a
    scene in memory, the request of the prompt generator carries that
    scene, and the completion service answers. *)
Lemma narrative_continuity_witness :
  In (Awaits (Fetch LlmApi
                (completionRequest "sk-openai" "gpt-4o-mini" "Fire, Water" "A scene")))
     (events (run (handleUpdateTexts fireAndWater 7)
                  (world (sunny 10000 someSettings)) (idleWith "A scene" 0))) /\
  lastGeneratedPrompt
    (final (run (handleUpdateTexts fireAndWater 7)
                (world (sunny 10000 someSettings)) (idleWith "A scene" 0)))
  = "Steam rises...".
Proof.
  assert (Hd : DEBOUNCE_WINDOW <=
               nowRead (world (sunny 10000 someSettings)) (idleWith "A scene" 0)
               - lastUpdateTime (idleWith "A scene" 0))
    by (vm_compute; discriminate).
  assert (Htrace : traceStarts (world (sunny 10000 someSettings))).
  { intros m name inputs. eexists. reflexivity. }
  destruct (narrative_continuity fireAndWater 7 (world (sunny 10000 someSettings))
              (idleWith "A scene" 0) someSettings (fun _ => eq_refl)) as [_ H].
  destruct (H eq_refl Htrace eq_refl Hd) as [(before & after & Hev & _) Hdone].
  destruct (Hdone (okResponse steamCompletion) steamCompletion "Steam rises..."
              (fun _ => eq_refl) eq_refl eq_refl eq_refl) as [Hp _].
  split; [|exact Hp].
  rewrite Hev. apply in_or_app. right. left. reflexivity.
Defined.

(** When the trace server answers the opening of the root span with a body
    that is not JSON, [startTrace] throws into the accepted run, which
    ends with the error signal before Stage 1. *)
Remark trace_start_failure :
  events (run (handleUpdateTexts fireAndWater 7)
              (traceGarbled (world (sunny 10000 someSettings))) (idleWith "A scene" 0))
  = [Awaits StorageSyncGet; Awaits Tick;
     Assigns (SetIsGenerating true); Assigns (SetLastUpdateTime 10002);
     SetBadgeText "..."; SetBadgeBackgroundColor "#4285F4";
     Awaits StorageSyncGet;
     Awaits (StartTrace "generate_creative_image"
               (JObj [("elements", JStr "Fire, Water");
                      ("previous_prompt", JStr "A scene")]));
     ConsoleError "Error in handleUpdateTexts:" (SyntaxError "Unexpected token");
     SetBadgeText "ERR"; SetBadgeBackgroundColor "#DB4437";
     Assigns (SetIsGenerating false)].
Proof. vm_compute. reflexivity. Qed.

(** *** Failure of Stage 1 *)

(** Claim C8. When the prompt generator throws in a run of
    [handleUpdateTexts] (its [catch] reports every exception before
    throwing it again, and nothing else writes that report), the routine
    returns with [isGenerating] false and [lastGeneratedPrompt] as it was
    at the start; the run contains no assignment to [lastGeneratedPrompt]
    and no write to [chrome.storage.local], and it has set the error
    badge. *)
Theorem stage1_failure_releases : forall texts tabId w s e,
  let r := run (handleUpdateTexts texts tabId) w s in
  In (stage1Failure e) (events r) ->
  completion r = Returned tt /\
  isGenerating (final r) = false /\
  lastGeneratedPrompt (final r) = lastGeneratedPrompt s /\
  Forall (fun ev => ~ historyEvent ev) (events r) /\
  In (SetBadgeText "ERR") (events r).
Proof.
  intros texts tabId w s e. exact (stage1_failure_run texts tabId w s e).
Qed.

(** The claim when the completion service cannot be reached. *)
Lemma stage1_failure_releases_witness :
  isGenerating
    (final (run (handleUpdateTexts fireAndWater 7)
                (world (llmDown 10000 someSettings)) (idleWith "A scene" 0))) = false /\
  lastGeneratedPrompt
    (final (run (handleUpdateTexts fireAndWater 7)
                (world (llmDown 10000 someSettings)) (idleWith "A scene" 0))) = "A scene".
Proof.
  assert (Hin : In (stage1Failure (TypeError "Failed to fetch"))
                   (events (run (handleUpdateTexts fireAndWater 7)
                                (world (llmDown 10000 someSettings))
                                (idleWith "A scene" 0)))).
  { vm_compute. do 9 right. left. reflexivity. }
  destruct (stage1_failure_releases fireAndWater 7 (world (llmDown 10000 someSettings))
              (idleWith "A scene" 0) (TypeError "Failed to fetch") Hin)
    as (_ & Hg & Hp & _).
  split; [exact Hg | exact Hp].
Defined.

(** *** Polling *)

Lemma polls_falCycle : forall apiUrl requestId apiKey,
  polls (falCycle apiUrl requestId apiKey) = 1%nat.
Proof. reflexivity. Qed.

Lemma polls_replicateCycle : forall getUrl apiKey,
  polls (replicateCycle getUrl apiKey) = 1%nat.
Proof. reflexivity. Qed.

(** Claim C5. A client with a key whose request is queued and whose status
    endpoint answers every poll with a status that is neither a result nor
    a failure goes through its loop the full number of times and throws
    its timeout error: the run is the submit, then 20 rounds for the FAL
    client and 40 for the Replicate client, each round a pause of 500 ms
    followed by one request to the status endpoint, then the report of the
    error. *)
Theorem poll_termination : forall w n s prompt apiKey model,
  nonEmpty apiKey = true ->
  (forall requestId,
     (forall m seed,
        falQueued (reply w m (Fetch FalApi
                     (falSubmitRequest (falApiUrl model) prompt apiKey seed))) requestId) ->
     (forall m,
        falPending (reply w m (Fetch FalApi
                     (falStatusRequest (falApiUrl model) requestId apiKey)))) ->
     let r := exec (getImageFromFal prompt apiKey model) w n s in
     completion r = Threw (Error "FAL Request Timed Out") /\
     events r =
       ([Awaits (Fetch FalApi (falSubmitRequest (falApiUrl model) prompt apiKey
                                 (answer w n RandomSeed)));
         Awaits ReadJson] ++
        cycles 20 (falCycle (falApiUrl model) requestId apiKey) ++
        [ConsoleError "Error fetching image from FAL API:"
                      (Error "FAL Request Timed Out")])%list /\
     polls (events r) = 20%nat /\
     sleeps (events r) = repeat 500 20) /\
  (forall getUrl apiUrl version input,
     replicateModel model prompt = Some (apiUrl, version, input) ->
     (forall m,
        replicateQueued
          (reply w m (Fetch ReplicateApi (replicateSubmitRequest apiUrl version input apiKey)))
          getUrl) ->
     (forall m,
        replicatePending
          (reply w m (Fetch ReplicateApi (replicateStatusRequest getUrl apiKey)))) ->
     let r := exec (getImageFromReplicate prompt apiKey model) w n s in
     completion r = Threw (Error "Replicate Request Timed Out") /\
     events r =
       ([Awaits (Fetch ReplicateApi (replicateSubmitRequest apiUrl version input apiKey));
         Awaits ReadJson] ++
        cycles 40 (replicateCycle getUrl apiKey) ++
        [ConsoleError "Error fetching image from Replicate API:"
                      (Error "Replicate Request Timed Out")])%list /\
     polls (events r) = 40%nat /\
     sleeps (events r) = repeat 500 40).
Proof.
  intros w n s prompt apiKey model Hkey. split.
  - intros requestId Hq Hp r. subst r.
    rewrite (getImageFromFal_pending w n s prompt apiKey model requestId Hkey Hq Hp).
    cbn [completion events]. change FAL_MAX_ATTEMPTS with 20%nat.
    split; [reflexivity|]. split; [reflexivity|]. split.
    + rewrite !polls_app, polls_cycles, polls_falCycle. reflexivity.
    + rewrite !sleeps_app,
        (sleeps_cycles 20 (falCycle (falApiUrl model) requestId apiKey) eq_refl).
      reflexivity.
  - intros getUrl apiUrl version input Hmodel Hq Hp r. subst r.
    rewrite (getImageFromReplicate_pending w n s prompt apiKey model getUrl
               apiUrl version input Hkey Hmodel Hq Hp).
    cbn [completion events]. change REPLICATE_MAX_ATTEMPTS with 40%nat.
    split; [reflexivity|]. split; [reflexivity|]. split.
    + rewrite !polls_app, polls_cycles, polls_replicateCycle. reflexivity.
    + rewrite !sleeps_app, (sleeps_cycles 40 (replicateCycle getUrl apiKey) eq_refl).
      reflexivity.
Qed.

(** The claim for providers that queue every request and never finish
    it. *)
Lemma poll_termination_witness :
  polls (events (exec (getImageFromFal "a kettle" "fal-secret" "replicate-z-image-turbo")
                      (world (stuck 0 someSettings)) 0 initialState)) = 20%nat /\
  polls (events (exec (getImageFromReplicate "a kettle" "fal-secret" "replicate-z-image-turbo")
                      (world (stuck 0 someSettings)) 0 initialState)) = 40%nat.
Proof.
  destruct (poll_termination (world (stuck 0 someSettings)) 0%nat initialState
              "a kettle" "fal-secret" "replicate-z-image-turbo" eq_refl) as [Hfal Hrep].
  split.
  - refine (proj1 (proj2 (proj2 (Hfal "req-1" _ _)))).
    + intros m seed. exists (okResponse (falQueuedBody "req-1")), (falQueuedBody "req-1").
      repeat split; auto.
    + intros m. exists (okResponse (falQueuedBody "req-1")), (falQueuedBody "req-1").
      repeat split; auto; discriminate.
  - refine (proj1 (proj2 (proj2 (Hrep "https://api.replicate.com/v1/predictions/p1"
                                   _ _ _ eq_refl _ _)))).
    + intros m.
      exists (okResponse (replicateProcessing "https://api.replicate.com/v1/predictions/p1")),
             (replicateProcessing "https://api.replicate.com/v1/predictions/p1").
      repeat split; auto; discriminate.
    + intros m.
      exists (okResponse (replicateProcessing "https://api.replicate.com/v1/predictions/p1")),
             (replicateProcessing "https://api.replicate.com/v1/predictions/p1").
      repeat split; auto; discriminate.
Defined.

(** *** Routing *)

(** A Replicate identifier that names neither supported model makes no
    call, with or without a key. *)
Lemma getImageFromReplicate_unknown_events : forall prompt apiKey model,
  replicateModel model prompt = None ->
  everyEvent (fun e => ~ isFetch e) (getImageFromReplicate prompt apiKey model).
Proof.
  intros prompt apiKey model H. unfold getImageFromReplicate. rewrite H.
  destruct (negb (nonEmpty apiKey)); exact I.
Qed.

(** Claim C6. Whatever the settings, the calls a pipeline makes to a
    provider of images all go to the one the prefix of the configured
    model selects. An identifier that starts with [replicate] hands Stage 2
    to the Replicate client, and one that starts with [fal] to the FAL
    client. And an identifier given to the Replicate client that is
    neither of the two it supports makes it throw the error that names the
    unknown model, as the first thing it does once it has a key, and
    without a call to any service; with settings that pass the validation
    of [handleUpdateTexts] the key is there, and Stage 2 is that error. *)
Theorem provider_routing : forall st prompt,
  let provider := if startsWith (imageModel st) "replicate"
                  then ReplicateApi else FalApi in
  (forall texts tabId optTab traceContext t0,
     everyEvent (routedTo provider) (updatePipeline texts tabId st traceContext t0) /\
     everyEvent (routedTo provider) (regeneratePipeline optTab st traceContext t0)) /\
  (startsWith (imageModel st) "replicate" = true ->
   imageStage st prompt =
   awaitAsync (getImageFromReplicate prompt (replicateApiKey st) (imageModel st))) /\
  (startsWith (imageModel st) "fal" = true ->
   provider = FalApi /\
   imageStage st prompt =
   awaitAsync (getImageFromFal prompt (falApiKey st) (imageModel st))) /\
  (forall apiKey model,
     model <> "replicate-z-image-turbo" ->
     model <> "replicate-pruna-p-image" ->
     (nonEmpty apiKey = true ->
      getImageFromReplicate prompt apiKey model =
      Throw (Error ("Unknown Replicate model: " ++ model))) /\
     forall w n s,
       Forall (fun e => ~ isFetch e)
              (events (exec (getImageFromReplicate prompt apiKey model) w n s))) /\
  (startsWith (imageModel st) "replicate" = true ->
   missingCredential st = None ->
   imageModel st <> "replicate-z-image-turbo" ->
   imageModel st <> "replicate-pruna-p-image" ->
   imageStage st prompt =
   awaitAsync (Throw (Error ("Unknown Replicate model: " ++ imageModel st)))).
Proof.
  intros st prompt provider. split; [|split; [|split; [|split]]].
  5: { intros Hrep Hm H1 H2.
       destruct (missingCredential_none st Hm) as (_ & _ & Hkey).
       rewrite (imageStage_replicate st prompt Hrep).
       now rewrite (getImageFromReplicate_unknown prompt _ _ (Hkey Hrep) H1 H2). }
  - intros texts tabId optTab traceContext t0.
    exact (pipelines_routed texts tabId optTab st traceContext t0).
  - exact (imageStage_replicate st prompt).
  - intros Hfal. pose proof (startsWith_fal_not_replicate _ Hfal) as Hrep.
    split; [unfold provider; now rewrite Hrep | exact (imageStage_fal st prompt Hrep)].
  - intros apiKey model H1 H2. split.
    + intros Hkey. exact (getImageFromReplicate_unknown prompt apiKey model Hkey H1 H2).
    + intros w n s. apply everyEvent_exec, getImageFromReplicate_unknown_events.
      unfold replicateModel. apply String.eqb_neq in H1, H2. now rewrite H1, H2.
Qed.

(** The claim for an identifier of Replicate that names no supported
    model: Stage 2 goes to the Replicate client, which throws at once. *)
Lemma provider_routing_witness :
  imageStage (withImageModel "replicate-flux" someSettings) "a kettle" =
  awaitAsync (Throw (Error "Unknown Replicate model: replicate-flux")).
Proof.
  destruct (provider_routing (withImageModel "replicate-flux" someSettings) "a kettle")
    as (_ & _ & _ & _ & Hunknown).
  apply Hunknown; [reflexivity | reflexivity | discriminate | discriminate].
Defined.

(** *** An identifier nobody recognizes *)

(** Claim C10. For an identifier that does not start with [fal-] the FAL
    client takes the default model path and never looks at the identifier
    again: it is the very program it is for the default identifier
    [fal-z-image-turbo], and with a key the first thing it does is to post
    the prompt, a random seed and its three fixed options to
    [https://fal.run/fal-ai/z-image/turbo]. And with an identifier that
    carries neither prefix, an accepted trigger of [handleUpdateTexts] with
    the keys of the prompt generator and of FAL, the root span opened, goes
    through: Stage 2 is handed to the FAL client, that request is sent with
    the new prompt, and when FAL answers with an image the page gets it and
    the badge is cleared; no error and no missing key is signalled, and no
    call goes to Replicate. *)
Theorem unrecognized_model_defaults :
  (forall model,
     startsWith model "fal-" = false ->
     falModelPath model = "fal-ai/z-image/turbo" /\
     (forall prompt apiKey,
        getImageFromFal prompt apiKey model =
        getImageFromFal prompt apiKey "fal-z-image-turbo") /\
     (forall prompt apiKey w n s,
        nonEmpty apiKey = true ->
        exists rest,
          events (exec (getImageFromFal prompt apiKey model) w n s) =
          Awaits (Fetch FalApi
                    {| url := "https://fal.run/fal-ai/z-image/turbo";
                       method := "POST";
                       headers := [("Content-Type", "application/json");
                                   ("Authorization", "Key " ++ apiKey)];
                       body := Some (JObj [("prompt", JStr prompt);
                                           ("seed", JNum (answer w n RandomSeed));
                                           ("image_size", JStr "landscape_4_3");
                                           ("sync_mode", JBool true);
                                           ("output_format", JStr "jpeg")]) |})
          :: rest)) /\
  (forall texts tabId w s st resp d content fresp fd image rest,
     (forall m, reply w m StorageSyncGet = Fulfilled st) ->
     startsWith (imageModel st) "replicate" = false ->
     startsWith (imageModel st) "fal-" = false ->
     nonEmpty (openaiApiKey st) = true ->
     nonEmpty (falApiKey st) = true ->
     traceStarts w ->
     isGenerating s = false ->
     DEBOUNCE_WINDOW <= nowRead w s - lastUpdateTime s ->
     (forall m req, reply w m (Fetch LlmApi req) = Fulfilled resp) ->
     ok resp = true -> data resp = Some d -> llm_content d = Some content ->
     (forall m req, reply w m (Fetch FalApi req) = Fulfilled fresp) ->
     ok fresp = true -> data fresp = Some fd -> fal_images fd = Some (image :: rest) ->
     let r := run (handleUpdateTexts texts tabId) w s in
     (forall prompt,
        imageStage st prompt =
        awaitAsync (getImageFromFal prompt (falApiKey st) (imageModel st))) /\
     completion r = Returned tt /\
     (exists seed,
        In (Awaits (Fetch FalApi
                      {| url := "https://fal.run/fal-ai/z-image/turbo";
                         method := "POST";
                         headers := [("Content-Type", "application/json");
                                     ("Authorization", "Key " ++ falApiKey st)];
                         body := Some (JObj [("prompt", JStr (trim content));
                                             ("seed", JNum seed);
                                             ("image_size", JStr "landscape_4_3");
                                             ("sync_mode", JBool true);
                                             ("output_format", JStr "jpeg")]) |}))
           (events r)) /\
     Forall (routedTo FalApi) (events r) /\
     (tabId <> 0 ->
      exists message,
        In (TabsSendMessage tabId message) (events r) /\
        msg_imageUrl message = fal_url image /\
        msg_prompt message = trim content) /\
     In (SetBadgeText "") (events r) /\
     ~ In (SetBadgeText "ERR") (events r) /\
     ~ In (SetBadgeText "KEY") (events r)).
Proof.
  split.
  - intros model Hfal.
    split; [exact (falModelPath_default _ Hfal)|]. split.
    + intros prompt apiKey. unfold getImageFromFal, falApiUrl.
      rewrite (falModelPath_default _ Hfal). reflexivity.
    + intros prompt apiKey w n s Hkey.
      exact (getImageFromFal_default_submit prompt apiKey model w n s Hfal Hkey).
  - intros texts tabId w s st resp d content fresp fd image rest
      Hst Hrep Hfal Hokey Hfkey Htrace Hg Hd Hllm Hok Hdata Hcontent
      Hfresp Hfok Hfdata Hfimg r.
    split; [intros prompt; exact (imageStage_fal st prompt Hrep)|].
    exact (unrecognized_model_run texts tabId w s st resp d content fresp fd image rest
             Hst Hrep Hfal Hokey Hfkey Htrace Hg Hd Hllm Hok Hdata Hcontent
             Hfresp Hfok Hfdata Hfimg).
Qed.

(** The claim for the identifier [dall-e-3]: the request goes to the
    default path with the prompt of Stage 1, the badge is cleared and no
    error is signalled. *)
Lemma unrecognized_model_defaults_witness :
  (exists seed,
     In (Awaits (Fetch FalApi
                   {| url := "https://fal.run/fal-ai/z-image/turbo";
                      method := "POST";
                      headers := [("Content-Type", "application/json");
                                  ("Authorization", "Key fal-secret")];
                      body := Some (JObj [("prompt", JStr "Steam rises...");
                                          ("seed", JNum seed);
                                          ("image_size", JStr "landscape_4_3");
                                          ("sync_mode", JBool true);
                                          ("output_format", JStr "jpeg")]) |}))
        (events (run (handleUpdateTexts fireAndWater 7)
                     (world (sunny 10000 (withImageModel "dall-e-3" someSettings)))
                     (idleWith "A scene" 0)))) /\
  In (SetBadgeText "")
     (events (run (handleUpdateTexts fireAndWater 7)
                  (world (sunny 10000 (withImageModel "dall-e-3" someSettings)))
                  (idleWith "A scene" 0))) /\
  ~ In (SetBadgeText "ERR")
     (events (run (handleUpdateTexts fireAndWater 7)
                  (world (sunny 10000 (withImageModel "dall-e-3" someSettings)))
                  (idleWith "A scene" 0))).
Proof.
  assert (Hd : DEBOUNCE_WINDOW <=
               nowRead (world (sunny 10000 (withImageModel "dall-e-3" someSettings)))
                       (idleWith "A scene" 0)
               - lastUpdateTime (idleWith "A scene" 0))
    by (vm_compute; discriminate).
  assert (Htrace : traceStarts
                     (world (sunny 10000 (withImageModel "dall-e-3" someSettings)))).
  { intros m name inputs. eexists. reflexivity. }
  destruct unrecognized_model_defaults as [_ H].
  destruct (H fireAndWater 7
              (world (sunny 10000 (withImageModel "dall-e-3" someSettings)))
              (idleWith "A scene" 0)
              (withImageModel "dall-e-3" someSettings)
              (okResponse steamCompletion) steamCompletion "Steam rises..."
              (okResponse (falDone "https://img/x.jpg")) (falDone "https://img/x.jpg")
              {| fal_url := "https://img/x.jpg"; fal_base64 := None |} []
              (fun _ => eq_refl) eq_refl eq_refl eq_refl eq_refl Htrace eq_refl Hd
              (fun _ _ => eq_refl) eq_refl eq_refl eq_refl
              (fun _ _ => eq_refl) eq_refl eq_refl eq_refl)
    as (_ & _ & Hsubmit & _ & _ & Hbadge & Herr & _).
  split; [exact Hsubmit|]. split; [exact Hbadge | exact Herr].
Defined.

(** *** The sanitizer *)

(** Claim C7, as the specification states it, fails for both sanitizers
    of the repository. The inline sanitizer of the older [op] wrapper looks
    at the top level of an argument only: a key one level down keeps its
    value. And [sanitizeInputs], which rebuilds an object by assignments,
    loses a field named [__proto__]. *)
Lemma sanitizers_not_as_specified :
  ~ sanitizesAsSpecified Legacy.sanitizeArg /\ ~ sanitizesAsSpecified sanitizeInputs.
Proof.
  split; intros H.
  - destruct (H (JObj [("config", JObj [("apiKey", JStr "sk-1")])])) as [Hredact _].
    assert (Hclean : cleanPath [Key "config"]).
    { intros k [Hk|[]]. injection Hk as <-.
      apply isSensitiveKey_false. reflexivity. }
    assert (Hkey : keyMatches "apiKey") by (apply isSensitiveKey_spec; reflexivity).
    specialize (Hredact [Key "config"] "apiKey" (JStr "sk-1") Hclean eq_refl Hkey).
    discriminate Hredact.
  - destruct (H (JObj [("__proto__", JStr "x")])) as [_ Hkeep].
    assert (Hclean : cleanPath [Key "__proto__"]).
    { intros k [Hk|[]]. injection Hk as <-.
      apply isSensitiveKey_false. reflexivity. }
    specialize (Hkeep [Key "__proto__"] (JStr "x") Hclean eq_refl I).
    discriminate Hkeep.
Qed.

(** Claim C7, amended. For [sanitizeInputs], the sanitizer of the span
    payloads, whatever the input: a property found in the result under a
    key that contains one of the six patterns, letter case ignored, holds
    the marker, at any depth; a property of the input under such a key,
    reached through names that are neither sensitive nor [__proto__], is
    in the result, with the marker; along such names the result has what
    the input has, sanitized in turn, so that a leaf is the leaf of the
    input; an array is the array of its sanitized elements; and the result
    has no property or element where the input has none. For the inline
    sanitizer of the older [op] wrapper: an argument that is neither an
    object nor an array is recorded as it is; a property at the top level
    of an object is replaced by the marker when its key contains one of
    the five patterns [apikey], [api_key], [secret], [token], [password],
    and is recorded unchanged at every depth otherwise; and an array is
    recorded as the object of its elements under their indices. *)
Theorem sanitizeInputs_redacts :
  (forall obj,
     (forall p k v,
        atPath (sanitizeInputs obj) (p ++ [Key k]) = Some v ->
        keyMatches k -> v = REDACTED) /\
     (forall p k v,
        cleanPath p -> ownPath p ->
        atPath obj (p ++ [Key k]) = Some v -> keyMatches k ->
        atPath (sanitizeInputs obj) (p ++ [Key k]) = Some REDACTED) /\
     (forall p v,
        cleanPath p -> ownPath p -> atPath obj p = Some v ->
        atPath (sanitizeInputs obj) p = Some (sanitizeInputs v) /\
        (isLeaf v -> atPath (sanitizeInputs obj) p = Some v)) /\
     (forall elems,
        sanitizeInputs (JArr elems) = JArr (map sanitizeInputs elems)) /\
     (forall p v,
        atPath (sanitizeInputs obj) p = Some v -> exists v0, atPath obj p = Some v0)) /\
  (forall arg, isLeaf arg -> Legacy.sanitizeArg arg = arg) /\
  (forall fields k,
     (forall v,
        atPath (JObj fields) [Key k] = Some v -> legacyKeyMatches k ->
        atPath (Legacy.sanitizeArg (JObj fields)) [Key k] = Some REDACTED) /\
     (~ legacyKeyMatches k ->
      forall p,
        atPath (Legacy.sanitizeArg (JObj fields)) (Key k :: p) =
        atPath (JObj fields) (Key k :: p))) /\
  (forall elems,
     Legacy.sanitizeArg (JArr elems) =
     Legacy.sanitizeArg (JObj (Legacy.indexed 0 elems))).
Proof.
  split; [|split; [|split]].
  - intros obj. split; [|split; [|split; [|split]]].
    + intros p k v H Hk. apply isSensitiveKey_spec in Hk.
      exact (atPath_sanitized_sensitive p obj k v H Hk).
    + intros p k v Hclean Hown H Hk. apply isSensitiveKey_spec in Hk.
      rewrite atPath_app in H |- *.
      destruct (atPath obj p) as [parent|] eqn:Hp; [|discriminate].
      rewrite (atPath_sanitized_clean p obj parent Hclean Hown Hp).
      destruct parent; simpl in H; try discriminate.
      rewrite sanitizeInputs_obj. simpl. rewrite lookupField_sanitized.
      rewrite (createsProperty_sensitive k Hk).
      destruct (lookupField k fields); [|discriminate].
      now rewrite Hk.
    + intros p v Hclean Hown H.
      pose proof (atPath_sanitized_clean p obj v Hclean Hown H) as Hs.
      split; [exact Hs|]. intros Hleaf. now rewrite Hs, sanitizeInputs_leaf.
    + reflexivity.
    + intros p v H. exact (atPath_sanitized_exists p obj v H).
  - intros [ | | | | | | ]; simpl; intros H; (reflexivity || contradiction).
  - intros fields k. split.
    + intros v H Hk. apply legacy_isSensitiveKey_spec in Hk.
      cbn [Legacy.sanitizeArg atPath] in H |- *. rewrite legacy_lookupField.
      destruct (lookupField k fields); [|discriminate]. now rewrite Hk.
    + intros Hk p.
      assert (Hk' : Legacy.isSensitiveKey k = false).
      { destruct (Legacy.isSensitiveKey k) eqn:E; [|reflexivity].
        contradiction Hk. now apply legacy_isSensitiveKey_spec. }
      cbn [Legacy.sanitizeArg atPath]. rewrite legacy_lookupField.
      destruct (lookupField k fields); [|reflexivity]. now rewrite Hk'.
  - reflexivity.
Qed.

(** The amended claim on a payload: the key inside [options] is reached
    through a name that is kept, and holds the marker in the result. *)
Lemma sanitizeInputs_redacts_witness :
  atPath (sanitizeInputs
            (JObj [("prompt", JStr "a kettle");
                   ("options", JObj [("apiKey", JStr "sk-1"); ("size", JStr "4:3")])]))
         [Key "options"; Key "apiKey"] = Some REDACTED /\
  atPath (sanitizeInputs
            (JObj [("prompt", JStr "a kettle");
                   ("options", JObj [("apiKey", JStr "sk-1"); ("size", JStr "4:3")])]))
         [Key "options"; Key "size"] = Some (JStr "4:3").
Proof.
  destruct sanitizeInputs_redacts as [H _].
  destruct (H (JObj [("prompt", JStr "a kettle");
                     ("options", JObj [("apiKey", JStr "sk-1"); ("size", JStr "4:3")])]))
    as (_ & Hredact & Hkeep & _).
  assert (Hclean : cleanPath [Key "options"]).
  { intros k [Hk|[]]. injection Hk as <-. apply isSensitiveKey_false. reflexivity. }
  assert (Hown : ownPath [Key "options"]).
  { intros k [Hk|[]]. injection Hk as <-. discriminate. }
  assert (Hclean2 : cleanPath [Key "options"; Key "size"]).
  { intros k [Hk|[Hk|[]]]; injection Hk as <-; apply isSensitiveKey_false; reflexivity. }
  assert (Hown2 : ownPath [Key "options"; Key "size"]).
  { intros k [Hk|[Hk|[]]]; injection Hk as <-; discriminate. }
  split.
  - apply (Hredact [Key "options"] "apiKey" (JStr "sk-1") Hclean Hown eq_refl).
    apply isSensitiveKey_spec. reflexivity.
  - exact (proj2 (Hkeep [Key "options"; Key "size"] (JStr "4:3") Hclean2 Hown2 eq_refl) I).
Defined.

(** The sanitizer on a payload with a key at the top, a token two levels
    down inside an array, and a secret whose name hides the pattern in
    capitals. *)
Example sanitizeInputs_payload :
  sanitizeInputs
    (JObj [("prompt", JStr "a kettle");
           ("apiKey", JStr "sk-1");
           ("attempts", JArr [JObj [("n", JNum 1); ("authToken", JStr "t-1")];
                              JNum 2]);
           ("options", JObj [("MY_SECRET_VALUE", JObj [("inner", JNull)]);
                             ("size", JStr "4:3")])])
  = JObj [("prompt", JStr "a kettle");
          ("apiKey", REDACTED);
          ("attempts", JArr [JObj [("n", JNum 1); ("authToken", REDACTED)];
                             JNum 2]);
          ("options", JObj [("MY_SECRET_VALUE", REDACTED);
                            ("size", JStr "4:3")])].
Proof. reflexivity. Qed.

(** The inline sanitizer of the older [op] wrapper is another function: it
    looks at the top level of each argument only, and a key that merely
    contains [key] is not one of its patterns. *)
Remark legacy_sanitizer_is_shallow :
  Legacy.sanitizeArg (JObj [("monkey", JStr "m"); ("inner", JObj [("token", JStr "t")])])
  = JObj [("monkey", JStr "m"); ("inner", JObj [("token", JStr "t")])] /\
  sanitizeInputs (JObj [("monkey", JStr "m"); ("inner", JObj [("token", JStr "t")])])
  = JObj [("monkey", REDACTED); ("inner", JObj [("token", REDACTED)])].
Proof. split; reflexivity. Qed.

(** *** The image type of a result *)

(** Claim C9, as the specification states it, fails for the FAL client,
    which writes [jpeg] into every result without looking at the image:
    when FAL returns its image inline, as a [data:] URI of type png, the
    first rule of the order gives png whatever the hint and whatever the
    heuristic, and the result says jpeg. *)
Lemma fal_ignores_data_uri : ~ imageTypeAsSpecified.
Proof.
  intros H.
  destruct (H "a kettle" "fal-secret" "fal-z-image-turbo"
              (world (falReturns {| fal_url := "data:image/png;base64,iVBORw0KGgo=";
                                    fal_base64 := None |} 0 someSettings))
              0%nat initialState
              {| img_url := "data:image/png;base64,iVBORw0KGgo=";
                 img_base64 := None;
                 img_imageType := "jpeg" |}) as (heuristic & hint & Hhint).
  - left. vm_compute. reflexivity.
  - cbv in Hhint. discriminate Hhint.
Qed.

(** Claim C9, amended. Every result of the FAL client has the image type
    [jpeg]. The image type of a result of the Replicate client is read off
    its URL alone, no hint of the response being looked at. When the URL
    is an inline image, [data:image/<type>;base64,<payload>] with a type
    made of letters, digits and underscores and a payload on one line,
    neither of them empty, the image type is that type, which is what the
    first rule of the order gives. For every other URL, a [data:] URI of
    another form among them, it is [webp] when the URL contains [.webp],
    else [png] when it contains [.png], else [jpeg]. *)
Theorem imageType_resolution : forall prompt apiKey model w n s res,
  (completion (exec (getImageFromFal prompt apiKey model) w n s) = Returned res ->
   img_imageType res = "jpeg") /\
  (completion (exec (getImageFromReplicate prompt apiKey model) w n s) = Returned res ->
   (forall imageType payload,
      inlineImage (img_url res) imageType payload ->
      img_imageType res = imageType /\
      forall heuristic hint,
        img_imageType res = specifiedImageType heuristic (img_url res) hint) /\
   ((forall imageType payload, ~ inlineImage (img_url res) imageType payload) ->
    (occursIn ".webp" (img_url res) -> img_imageType res = "webp") /\
    (~ occursIn ".webp" (img_url res) -> occursIn ".png" (img_url res) ->
     img_imageType res = "png") /\
    (~ occursIn ".webp" (img_url res) -> ~ occursIn ".png" (img_url res) ->
     img_imageType res = "jpeg"))).
Proof.
  intros prompt apiKey model w n s res. split.
  - intros H.
    exact (everyResult_exec _ _ _ w n s res (getImageFromFal_imageType prompt apiKey model) H).
  - intros H.
    pose proof (everyResult_exec _ _ _ w n s res
                  (getImageFromReplicate_imageType prompt apiKey model) H) as Ht.
    cbv beta in Ht. rewrite Ht.
    destruct (replicateImageType_spec (img_url res)) as [Hinline Hother].
    split; [|exact Hother].
    intros imageType payload Hin. split; [exact (Hinline _ _ Hin)|].
    intros heuristic hint.
    rewrite (inlineImage_specified _ _ _ heuristic hint Hin).
    exact (Hinline _ _ Hin).
Qed.

(** The amended claim on two runs: FAL returning a png inline, and
    Replicate returning the URL of a webp. *)
Lemma imageType_resolution_witness :
  (exists res,
     completion (exec (getImageFromFal "a kettle" "fal-secret" "fal-z-image-turbo")
                      (world (falReturns {| fal_url := "data:image/png;base64,iVBORw0KGgo=";
                                            fal_base64 := None |} 0 someSettings))
                      0 initialState) = Returned res /\
     img_url res = "data:image/png;base64,iVBORw0KGgo=" /\
     img_imageType res = "jpeg") /\
  (exists res,
     completion (exec (getImageFromReplicate "a kettle" "r8-secret" "replicate-z-image-turbo")
                      (world (sunny 0 someSettings)) 0 initialState) = Returned res /\
     img_url res = "https://img/y.webp" /\
     img_imageType res = "webp").
Proof.
  split.
  - eexists. split; [vm_compute; reflexivity|]. split; [reflexivity|].
    refine (proj1 (imageType_resolution "a kettle" "fal-secret" "fal-z-image-turbo"
                     (world (falReturns {| fal_url := "data:image/png;base64,iVBORw0KGgo=";
                                           fal_base64 := None |} 0 someSettings))
                     0%nat initialState _) _).
    vm_compute. reflexivity.
  - eexists. split; [vm_compute; reflexivity|]. split; [reflexivity|].
    refine (proj1 (proj2 (proj2 (imageType_resolution "a kettle" "r8-secret"
                                   "replicate-z-image-turbo"
                                   (world (sunny 0 someSettings)) 0%nat initialState _)
                                (eq_refl _)) _) _).
    + intros imageType payload [Hurl _]. cbn [img_url] in Hurl. discriminate Hurl.
    + exists "https://img/y", "". reflexivity.
Defined.

(** A [data:] URI that is not of the form of an inline image, here for a
    type with a [+] in its name, is read like any other URL. *)
Remark svg_data_uri_is_jpeg :
  replicateImageType "data:image/svg+xml;base64,PHN2Zz48L3N2Zz4=" = "jpeg" /\
  replicateImageType "data:image/png;base64,iVBORw0KGgo=" = "png".
Proof. split; reflexivity. Qed.

End Properties.

(* ===================================================================== *)
(** ** More about the sanitizers *)
(* ===================================================================== *)

Module SanitizerMore.
Import JS WeaveShim Shapes StringFacts SanitizerFacts.

Lemma sanitizeInputs_typeofObject : forall v,
  typeofObject (sanitizeInputs v) = typeofObject v.
Proof. intros [ | | | | | | ]; reflexivity. Qed.

Lemma sanitizeEntry_twice : forall entry,
  sanitizeInputs (sanitizeInputs (snd entry)) = sanitizeInputs (snd entry) ->
  sanitizeEntry (sanitizeEntry entry) = sanitizeEntry entry.
Proof.
  intros [key value] IH. simpl in IH. unfold sanitizeEntry at 2.
  destruct (isSensitiveKey key) eqn:Hk.
  - unfold sanitizeEntry. now rewrite Hk.
  - destruct (typeofObject value) eqn:Hv; unfold sanitizeEntry; rewrite Hk.
    + now rewrite sanitizeInputs_typeofObject, Hv, IH.
    + now rewrite Hv.
Qed.

Lemma sanitizeEntry_name : forall entry, fst (sanitizeEntry entry) = fst entry.
Proof.
  intros [key value]. unfold sanitizeEntry.
  destruct (isSensitiveKey key); [|destruct (typeofObject value)]; reflexivity.
Qed.

(** The entries carried over once are carried over again. *)
Lemma carriedOver_sanitized : forall fields,
  filter carriedOver (map sanitizeEntry (filter carriedOver fields)) =
  map sanitizeEntry (filter carriedOver fields).
Proof.
  induction fields as [|entry rest IH]; [reflexivity|].
  cbn [filter]. destruct (carriedOver entry) eqn:Hc; [|exact IH].
  cbn [map filter]. unfold carriedOver at 1.
  rewrite sanitizeEntry_name. fold (carriedOver entry). rewrite Hc.
  f_equal. exact IH.
Qed.

(** Property X1. Sanitizing what has been sanitized changes nothing: a
    payload can go through [sanitizeInputs] any number of times. *)
Theorem sanitizeInputs_idempotent : forall v,
  sanitizeInputs (sanitizeInputs v) = sanitizeInputs v.
Proof.
  induction v as [ | | b | n | s | elems IH | fields IH] using jsval_ind';
    try reflexivity.
  - simpl. f_equal. rewrite map_map. apply map_ext_in.
    intros x Hx. rewrite Forall_forall in IH. now apply IH.
  - rewrite !sanitizeInputs_obj. f_equal. rewrite carriedOver_sanitized.
    rewrite map_map. apply map_ext_in.
    intros entry Hin. apply filter_In in Hin as [Hin _].
    rewrite Forall_forall in IH.
    apply sanitizeEntry_twice. now apply IH.
Qed.

Lemma isMarker_spec : forall v, isMarker v = true <-> v = REDACTED.
Proof.
  intros v. unfold REDACTED. split.
  - destruct v; simpl; try discriminate. intros H. apply String.eqb_eq in H. now subst.
  - intros ->. reflexivity.
Qed.

Lemma map_fixes : forall (T : Type) (f : T -> T) (l : list T),
  map f l = l <-> forall x, In x l -> f x = x.
Proof.
  intros T f l. induction l as [|a l IH]; simpl.
  - split; [intros _ x [] | reflexivity].
  - split.
    + intros H x Hx. injection H as Ha Hl.
      destruct Hx as [<-|Hin]; [exact Ha | now apply IH].
    + intros H. f_equal; [apply H; now left|]. apply IH. intros x Hx. apply H. now right.
Qed.

Lemma filter_whole : forall (T : Type) (c : T -> bool) (l : list T),
  filter c l = l <-> forall x, In x l -> c x = true.
Proof.
  intros T c l. induction l as [|a l IH]; simpl.
  - split; [intros _ x [] | reflexivity].
  - destruct (c a) eqn:Ha; split.
    + intros H x [<-|Hin]; [exact Ha|]. injection H as Hl. now apply IH.
    + intros H. f_equal. apply IH. intros x Hx. apply H. now right.
    + intros H. pose proof (filter_length_le c l) as Hle.
      rewrite H in Hle. simpl in Hle. lia.
    + intros H. rewrite (H a (or_introl eq_refl)) in Ha. discriminate.
Qed.

(** A list that is the image of its own filtered part is that part. *)
Lemma map_filter_whole : forall (T : Type) (f : T -> T) (c : T -> bool) (l : list T),
  map f (filter c l) = l -> filter c l = l.
Proof.
  intros T f c l H. apply (f_equal (@length T)) in H. rewrite length_map in H.
  induction l as [|a l IH]; [reflexivity|].
  simpl in H |- *. pose proof (filter_length_le c l) as Hle.
  destruct (c a); simpl in H; [|lia].
  f_equal. apply IH. lia.
Qed.

(** Property X2. The values the sanitizer returns as they are are exactly
    those in which, at any depth it reaches, no property is named
    [__proto__] and every sensitive key already holds the marker; in
    particular a payload with no sensitive key and no such name goes
    through untouched. *)
Theorem sanitizeInputs_fixes : forall v,
  sanitizeInputs v = v <-> alreadyRedacted v = true /\ carriesEveryField v = true.
Proof.
  induction v as [ | | b | n | s | elems IH | fields IH] using jsval_ind';
    try (split; [split; reflexivity | reflexivity]).
  - cbn [sanitizeInputs alreadyRedacted carriesEveryField].
    rewrite !forallb_forall. rewrite Forall_forall in IH. split.
    + intros H. injection H as Hmap.
      pose proof (proj1 (map_fixes _ _ _) Hmap) as Hfix.
      split; intros x Hx; apply (IH x Hx); exact (Hfix x Hx).
    + intros [Hr Hc]. f_equal. apply map_fixes. intros x Hx.
      apply (IH x Hx). split; [exact (Hr x Hx) | exact (Hc x Hx)].
  - rewrite sanitizeInputs_obj. cbn [alreadyRedacted carriesEveryField].
    rewrite !forallb_forall. rewrite Forall_forall in IH. split.
    + intros H. injection H as Hmap.
      pose proof (map_filter_whole _ _ _ _ Hmap) as Hwhole.
      rewrite Hwhole in Hmap.
      pose proof (proj1 (filter_whole _ _ _) Hwhole) as Hown.
      pose proof (proj1 (map_fixes _ _ _) Hmap) as Hfix.
      assert (Hboth : forall key value, In (key, value) fields ->
                createsProperty key = true /\
                (if isSensitiveKey key then isMarker value = true
                 else alreadyRedacted value = true /\ carriesEveryField value = true)).
      { intros key value Hin. split; [exact (Hown (key, value) Hin)|].
        specialize (Hfix (key, value) Hin). unfold sanitizeEntry in Hfix.
        destruct (isSensitiveKey key).
        - injection Hfix as Hv. now apply isMarker_spec.
        - destruct (typeofObject value) eqn:Ht.
          + injection Hfix as Hv. now apply (IH (key, value) Hin).
          + destruct value; simpl in Ht; try discriminate; split; reflexivity. }
      split; intros [key value] Hin; destruct (Hboth key value Hin) as [Hc Hv].
      * destruct (isSensitiveKey key); [exact Hv | exact (proj1 Hv)].
      * rewrite Hc. destruct (isSensitiveKey key); [reflexivity | exact (proj2 Hv)].
    + intros [Hr Hc]. f_equal.
      assert (Hwhole : filter carriedOver fields = fields).
      { apply filter_whole. intros [key value] Hin.
        specialize (Hc (key, value) Hin). cbv beta iota in Hc.
        apply andb_true_iff in Hc. exact (proj1 Hc). }
      rewrite Hwhole. apply map_fixes. intros [key value] Hin.
      specialize (Hr (key, value) Hin). specialize (Hc (key, value) Hin).
      cbv beta iota in Hr, Hc. apply andb_true_iff in Hc as [_ Hc].
      unfold sanitizeEntry. destruct (isSensitiveKey key).
      * apply isMarker_spec in Hr. now subst.
      * destruct (typeofObject value); [|reflexivity].
        f_equal. apply (IH (key, value) Hin). split; assumption.
Qed.

(** *** The inline sanitizer of the older [op] wrapper *)

(** Property X3. What the inline sanitizer of the older [op] does to an
    argument that is an object: a property at the top level is replaced by
    the marker when its key contains one of five patterns (the ones of
    [sanitizeInputs] but [key]), and is kept as it is otherwise, whatever it
    holds: below a key that is not sensitive, the argument is recorded
    unchanged at every depth. A key it redacts is one [sanitizeInputs]
    redacts too. *)
Theorem legacy_sanitizer_top_level : forall fields,
  (forall k,
     atPath (Legacy.sanitizeArg (JObj fields)) [Key k] =
     match atPath (JObj fields) [Key k] with
     | Some v => Some (if Legacy.isSensitiveKey k then REDACTED else v)
     | None => None
     end) /\
  (forall k p,
     Legacy.isSensitiveKey k = false ->
     atPath (Legacy.sanitizeArg (JObj fields)) (Key k :: p) =
     atPath (JObj fields) (Key k :: p)) /\
  (forall k, Legacy.isSensitiveKey k = true -> isSensitiveKey k = true).
Proof.
  intros fields. split; [|split].
  - intros k. cbn [Legacy.sanitizeArg atPath]. rewrite legacy_lookupField.
    destruct (lookupField k fields); reflexivity.
  - intros k p Hk. cbn [Legacy.sanitizeArg atPath]. rewrite legacy_lookupField.
    destruct (lookupField k fields); [|reflexivity]. now rewrite Hk.
  - intros k. unfold Legacy.isSensitiveKey, isSensitiveKey. cbv zeta.
    intros H. now rewrite H.
Qed.

End SanitizerMore.

(* ===================================================================== *)
(** ** More about the image provider clients *)
(* ===================================================================== *)

Module ClientMore.
Import JS Async ApiHandler Traces Shapes Scenario Episodes.
Import StringFacts RunFacts ClientFacts.
Local Open Scope prog_scope.

(** *** Inline images *)

(** Property X4. An output of Replicate that is an inline image is taken
    apart into its type and its base64 payload: for a type made of word
    characters and a payload without line breaks, both non-empty, the result
    of [extractResult] on the data URI built from them carries exactly that
    payload and that type, whether the output is the URI or an array that
    starts with it. And whenever [extractResult] finds a payload, the URL is
    the data URI of the type and the payload it returns. *)
Theorem dataUri_round_trip : forall mime payload output,
  nonEmpty mime = true -> allWordChars mime = true ->
  nonEmpty payload = true -> noLineTerminator payload = true ->
  firstOutput output = Some ("data:image/" ++ mime ++ ";base64," ++ payload) ->
  extractResult output =
    Ret {| img_url := "data:image/" ++ mime ++ ";base64," ++ payload;
           img_base64 := Some payload;
           img_imageType := mime |} /\
  (forall output' res b,
     extractResult output' = Ret res -> img_base64 res = Some b ->
     img_url res = "data:image/" ++ img_imageType res ++ ";base64," ++ b /\
     allWordChars (img_imageType res) = true /\ noLineTerminator b = true).
Proof.
  intros mime payload output Hm Hw Hp Hl Hout. split.
  - unfold extractResult. rewrite Hout.
    assert (H1 : startsWith ("data:image/" ++ mime ++ ";base64," ++ payload) "data:image"
                 = true) by (apply prefix_app; exists ("/" ++ mime ++ ";base64," ++ payload);
                             reflexivity).
    now rewrite H1, (matchDataUri_build mime payload Hm Hw Hp Hl).
  - intros output' res b. unfold extractResult.
    destruct (firstOutput output') as [url|]; [|discriminate].
    assert (Hmatch : forall m p, matchDataUri url = Some (m, p) ->
              url = "data:image/" ++ m ++ ";base64," ++ p /\
              allWordChars m = true /\ noLineTerminator p = true).
    { intros m p. unfold matchDataUri.
      destruct (startsWith url "data:image/") eqn:Hpre; [|discriminate].
      unfold startsWith in Hpre. apply prefix_app in Hpre. destruct Hpre as [post ->].
      change (substringFrom 11 ("data:image/" ++ post)) with post.
      destruct (spanWord post) as [w r] eqn:Hspan.
      destruct (spanWord_spec post w r Hspan) as [-> Hword].
      destruct (nonEmpty w && startsWith r ";base64,") eqn:Hc; [|discriminate].
      apply andb_true_iff in Hc. destruct Hc as [_ Hr].
      unfold startsWith in Hr. apply prefix_app in Hr. destruct Hr as [post' ->].
      change (substringFrom 8 (";base64," ++ post')) with post'.
      destruct (nonEmpty post' && noLineTerminator post') eqn:Hc'; [|discriminate].
      apply andb_true_iff in Hc'. destruct Hc' as [_ Hnl].
      intros H. inversion H; subst. auto. }
    destruct (startsWith url "data:image").
    + destruct (matchDataUri url) as [[m p]|] eqn:Hu; intros H Hb;
        inversion H; subst; cbn in Hb; [|discriminate].
      inversion Hb; subst. cbn. now apply Hmatch.
    + intros H Hb. inversion H; subst. discriminate.
Qed.

(** The round trip on a small png. *)
Lemma dataUri_round_trip_witness :
  extractResult (Some (OutArray ["data:image/png;base64,iVBORw0KGgo="; "https://img/2"])) =
  Ret {| img_url := "data:image/png;base64,iVBORw0KGgo=";
         img_base64 := Some "iVBORw0KGgo=";
         img_imageType := "png" |}.
Proof.
  exact (proj1 (dataUri_round_trip "png" "iVBORw0KGgo="
                  (Some (OutArray ["data:image/png;base64,iVBORw0KGgo="; "https://img/2"]))
                  eq_refl eq_refl eq_refl eq_refl eq_refl)).
Defined.

(** *** Polling until the provider is done *)

Lemma falPoll_waits : forall w apiUrl requestId apiKey k remaining n s,
  (forall j, j < k ->
     falPending (reply w (S n + 3 * j)
                   (Fetch FalApi (falStatusRequest apiUrl requestId apiKey)))) ->
  k <= remaining ->
  exec (falPoll remaining apiUrl requestId apiKey) w n s =
  prepend (cycles k (falCycle apiUrl requestId apiKey))
          (exec (falPoll (remaining - k) apiUrl requestId apiKey) w (n + 3 * k) s).
Proof.
  intros w apiUrl requestId apiKey.
  induction k as [|k IH]; intros remaining n s Hpending Hle.
  - rewrite Nat.sub_0_r, Nat.mul_0_r, Nat.add_0_r. unfold prepend. simpl.
    now destruct (exec _ w n s).
  - destruct remaining as [|remaining]; [lia|].
    destruct (Hpending 0) as (resp & d & Hr & Hok & Hd & Hc & Hf); [lia|].
    rewrite Nat.mul_0_r, Nat.add_0_r in Hr.
    cbn [falPoll]. unfold await, awaitFetch, awaitJson. cbn [bind exec].
    rewrite Hr. cbn [settle bind exec]. cbn [Body]. rewrite Hok. cbn [negb bind exec].
    rewrite Hd. cbn [bind exec].
    apply String.eqb_neq in Hc, Hf. rewrite Hc, Hf.
    rewrite (IH remaining (S (S (S n))) s).
    + unfold logged, prepend. cbn [completion final events interactions cycles falCycle app].
      replace (S (S (S n)) + 3 * k) with (n + 3 * S k) by lia.
      reflexivity.
    + intros j Hj. replace (S (S (S (S n))) + 3 * j) with (S n + 3 * S j) by lia.
      apply Hpending. lia.
    + lia.
Qed.

Lemma replicatePoll_waits : forall w getUrl apiKey k remaining n s,
  (forall j, j < k ->
     replicatePending (reply w (S n + 3 * j)
                         (Fetch ReplicateApi (replicateStatusRequest getUrl apiKey)))) ->
  k <= remaining ->
  exec (replicatePoll remaining getUrl apiKey) w n s =
  prepend (cycles k (replicateCycle getUrl apiKey))
          (exec (replicatePoll (remaining - k) getUrl apiKey) w (n + 3 * k) s).
Proof.
  intros w getUrl apiKey.
  induction k as [|k IH]; intros remaining n s Hpending Hle.
  - rewrite Nat.sub_0_r, Nat.mul_0_r, Nat.add_0_r. unfold prepend. simpl.
    now destruct (exec _ w n s).
  - destruct remaining as [|remaining]; [lia|].
    destruct (Hpending 0) as (resp & d & Hr & Hok & Hd & Hs & Hf & Hc); [lia|].
    rewrite Nat.mul_0_r, Nat.add_0_r in Hr.
    cbn [replicatePoll]. unfold await, awaitFetch, awaitJson. cbn [bind exec].
    rewrite Hr. cbn [settle bind exec]. cbn [Body]. rewrite Hok. cbn [negb bind exec].
    rewrite Hd. cbn [bind exec].
    apply String.eqb_neq in Hs, Hf, Hc. rewrite Hs, Hf, Hc.
    rewrite (IH remaining (S (S (S n))) s).
    + unfold logged, prepend.
      cbn [completion final events interactions cycles replicateCycle app].
      replace (S (S (S n)) + 3 * k) with (n + 3 * S k) by lia.
      reflexivity.
    + intros j Hj. replace (S (S (S (S n))) + 3 * j) with (S n + 3 * S j) by lia.
      apply Hpending. lia.
    + lia.
Qed.

Lemma reports_app : forall a b, reports (a ++ b) = reports a + reports b.
Proof. intros. unfold reports. now rewrite filter_app, length_app. Qed.

Lemma reports_cycles : forall n cycle, reports cycle = 0 -> reports (cycles n cycle) = 0.
Proof.
  induction n as [|n IH]; intros cycle H; simpl; [reflexivity|].
  now rewrite reports_app, H, IH.
Qed.

(** Property X5. The FAL client polls until the status is final. When the
    request is queued, the first [k] answers of the status endpoint are
    pending and the next one, within the 20 attempts, says COMPLETED or
    FAILED, the client has made exactly [k + 1] requests to the status
    endpoint, each after a pause of 500 ms, and stops there: with the first
    image of a completed answer, with an error when the completed answer has
    no image, or with the failure the provider reports. It reports an error
    to the console exactly when it throws. *)
Theorem fal_polls_until_done : forall w n s prompt apiKey model requestId k resp d,
  nonEmpty apiKey = true ->
  falQueued (reply w (S n) (Fetch FalApi
               (falSubmitRequest (falApiUrl model) prompt apiKey (answer w n RandomSeed))))
            requestId ->
  (forall j, j < k ->
     falPending (reply w (falPollAt n j)
                   (Fetch FalApi (falStatusRequest (falApiUrl model) requestId apiKey)))) ->
  k < 20 ->
  reply w (falPollAt n k)
        (Fetch FalApi (falStatusRequest (falApiUrl model) requestId apiKey))
    = Fulfilled resp ->
  ok resp = true -> data resp = Some d ->
  fal_status d = "COMPLETED" \/ fal_status d = "FAILED" ->
  let r := exec (getImageFromFal prompt apiKey model) w n s in
  completion r =
    (if String.eqb (fal_status d) "COMPLETED" then
       match fal_images d with
       | Some (image :: _) => Returned (falResult image)
       | _ => Threw (Error "No image in completed response")
       end
     else Threw (Error ("FAL Request Failed: " ++ fal_error d))) /\
  polls (events r) = S k /\
  sleeps (events r) = repeat 500%Z (S k) /\
  reports (events r) = match completion r with Returned _ => 0 | Threw _ => 1 end /\
  final r = s.
Proof.
  intros w n s prompt apiKey model requestId k resp d Hkey Hq Hp Hk Hr Hok Hd Hstatus r.
  cbn [Body] in *. subst r. unfold getImageFromFal. cbv zeta. rewrite Hkey. cbn [negb].
  rewrite exec_tryCatch.
  destruct Hq as (resp0 & d0 & Hr0 & Hok0 & Hd0 & Himg & Hid & Hne).
  unfold ask, awaitFetch, awaitJson. cbn [bind exec].
  rewrite Hr0. cbn [settle bind exec]. cbn [Body]. rewrite Hok0. cbn [negb bind exec].
  rewrite Hd0. cbn [bind exec].
  assert (Hpoll :
    match fal_images d0 with
    | Some (image :: _) => Ret (falResult image)
    | _ =>
        match fal_request_id d0 with
        | Some (String c rest) => falPoll FAL_MAX_ATTEMPTS (falApiUrl model) (String c rest) apiKey
        | _ => Throw (Error ("FAL Response missing images and request_id: " ++ fal_raw d0))
        end
    end = falPoll FAL_MAX_ATTEMPTS (falApiUrl model) requestId apiKey).
  { rewrite Hid. destruct requestId; [discriminate|].
    destruct Himg as [-> | ->]; reflexivity. }
  rewrite Hpoll. change FAL_MAX_ATTEMPTS with 20.
  rewrite (falPoll_waits w (falApiUrl model) requestId apiKey k 20 (S (S (S n))) s).
  2: { intros j Hj. replace (S (S (S (S n))) + 3 * j) with (falPollAt n j)
         by (unfold falPollAt; lia). now apply Hp. }
  2: { lia. }
  destruct (20 - k) as [|left] eqn:Hleft; [lia|].
  cbn [falPoll]. unfold await, awaitFetch, awaitJson. cbn [bind exec].
  replace (S (S (S (S n)) + 3 * k)) with (falPollAt n k) by (unfold falPollAt; lia).
  rewrite Hr. cbn [settle bind exec]. cbn [Body]. rewrite Hok. cbn [negb bind exec].
  rewrite Hd. cbn [bind exec].
  assert (Hcount : forall tail : list Event,
            polls tail = 0 -> sleeps tail = [] ->
            let evs := (Awaits (Fetch FalApi
                          (falSubmitRequest (falApiUrl model) prompt apiKey
                             (answer w n RandomSeed)))
                        :: Awaits ReadJson
                        :: (cycles k (falCycle (falApiUrl model) requestId apiKey) ++
                            Awaits (Sleep 500)
                            :: Awaits (Fetch FalApi
                                 (falStatusRequest (falApiUrl model) requestId apiKey))
                            :: Awaits ReadJson :: tail))%list in
            polls evs = S k /\ sleeps evs = repeat 500%Z (S k) /\
            reports evs = reports tail).
  { intros tail Hp0 Hs0 evs. subst evs.
    change (?a :: ?b :: (?l ++ ?x :: ?y :: ?z :: tail))%list
      with ([a; b] ++ l ++ falCycle (falApiUrl model) requestId apiKey ++ tail)%list.
    rewrite !polls_app, !sleeps_app, !reports_app, polls_cycles,
      (sleeps_cycles k (falCycle (falApiUrl model) requestId apiKey) eq_refl),
      reports_cycles, Hp0, Hs0 by reflexivity.
    change (polls (falCycle (falApiUrl model) requestId apiKey)) with 1.
    change (sleeps (falCycle (falApiUrl model) requestId apiKey)) with [500%Z].
    change (reports (falCycle (falApiUrl model) requestId apiKey)) with 0.
    cbn [polls sleeps reports filter isPoll method falSubmitRequest String.eqb
           Ascii.eqb Bool.eqb length app].
    rewrite ?app_nil_r. split; [lia|]. split; [|reflexivity].
    clear. induction k as [|k IH]; [reflexivity|]. simpl. now rewrite IH. }
  destruct Hstatus as [Hs|Hs]; rewrite Hs; cbn [String.eqb Ascii.eqb Bool.eqb].
  - destruct (fal_images d) as [[|image rest]|];
      cbn [completion final events interactions logged prepend catchRun exec bind emit app];
      (split; [reflexivity|]); rewrite <- ?app_assoc; cbn [app].
    + destruct (Hcount [ConsoleError "Error fetching image from FAL API:"
                          (Error "No image in completed response")] eq_refl eq_refl)
        as (H1 & H2 & H3).
      repeat split; [exact H1 | exact H2 | exact H3].
    + destruct (Hcount [] eq_refl eq_refl) as (H1 & H2 & H3).
      repeat split; [exact H1 | exact H2 | exact H3].
    + destruct (Hcount [ConsoleError "Error fetching image from FAL API:"
                          (Error "No image in completed response")] eq_refl eq_refl)
        as (H1 & H2 & H3).
      repeat split; [exact H1 | exact H2 | exact H3].
  - cbn [completion final events interactions logged prepend catchRun exec bind emit app].
    split; [reflexivity|]. rewrite <- ?app_assoc. cbn [app].
    destruct (Hcount [ConsoleError "Error fetching image from FAL API:"
                        (Error ("FAL Request Failed: " ++ fal_error d))] eq_refl eq_refl)
      as (H1 & H2 & H3).
      repeat split; [exact H1 | exact H2 | exact H3].
Qed.

(** The FAL client against a provider that finishes the request at the
    eighth interaction: two pending answers, and the third request to the
    status endpoint brings the image. *)
Lemma fal_polls_until_done_witness :
  completion (exec (getImageFromFal "a kettle" "fal-secret" "fal-z-image-turbo")
                   (world (slow 8 0 someSettings)) 0 initialState)
    = Returned {| img_url := "https://img/late.jpg";
                  img_base64 := None;
                  img_imageType := "jpeg" |} /\
  polls (events (exec (getImageFromFal "a kettle" "fal-secret" "fal-z-image-turbo")
                      (world (slow 8 0 someSettings)) 0 initialState)) = 3.
Proof.
  destruct (fal_polls_until_done (world (slow 8 0 someSettings)) 0 initialState
              "a kettle" "fal-secret" "fal-z-image-turbo" "req-1" 2
              (okResponse (falCompletedBody "https://img/late.jpg"))
              (falCompletedBody "https://img/late.jpg") eq_refl)
    as (Hc & Hp & _).
  - exists (okResponse (falQueuedBody "req-1")), (falQueuedBody "req-1").
    repeat split; auto.
  - intros j Hj.
    exists (okResponse (falQueuedBody "req-1")), (falQueuedBody "req-1").
    assert (Hcase : j = 0 \/ j = 1) by lia.
    destruct Hcase as [-> | ->]; repeat split; auto; discriminate.
  - lia.
  - reflexivity.
  - reflexivity.
  - reflexivity.
  - left. reflexivity.
  - split; [exact Hc | exact Hp].
Defined.


(** Property X6. The Replicate client polls until the status is final. When
    the prediction is queued, the first [k] answers of the status endpoint
    are pending and the next one, within the 40 attempts, says succeeded,
    failed or canceled, the client has made exactly [k + 1] requests to the
    status endpoint, each after a pause of 500 ms, and stops there: with
    what [extractResult] makes of the output, or with the failure or the
    cancellation as an error. *)
Theorem replicate_polls_until_done :
  forall w n s prompt apiKey model getUrl apiUrl version input k resp d,
  nonEmpty apiKey = true ->
  replicateModel model prompt = Some (apiUrl, version, input) ->
  replicateQueued
    (reply w n (Fetch ReplicateApi (replicateSubmitRequest apiUrl version input apiKey)))
    getUrl ->
  (forall j, j < k ->
     replicatePending (reply w (replicatePollAt n j)
                         (Fetch ReplicateApi (replicateStatusRequest getUrl apiKey)))) ->
  k < 40 ->
  reply w (replicatePollAt n k)
        (Fetch ReplicateApi (replicateStatusRequest getUrl apiKey))
    = Fulfilled resp ->
  ok resp = true -> data resp = Some d ->
  let r := exec (getImageFromReplicate prompt apiKey model) w n s in
  (rep_status d = "succeeded" ->
   (forall res, extractResult (rep_output d) = Ret res -> completion r = Returned res) /\
   (forall e, extractResult (rep_output d) = Throw e -> completion r = Threw e)) /\
  (rep_status d = "failed" ->
   completion r = Threw (Error ("Replicate Request Failed: " ++ rep_error d))) /\
  (rep_status d = "canceled" ->
   completion r = Threw (Error "Replicate Request Canceled")) /\
  (rep_status d = "succeeded" \/ rep_status d = "failed" \/ rep_status d = "canceled" ->
   polls (events r) = S k /\ sleeps (events r) = repeat 500%Z (S k) /\ final r = s).
Proof.
  intros w n s prompt apiKey model getUrl apiUrl version input k resp d
    Hkey Hmodel Hq Hp Hk Hr Hok Hd r.
  cbn [Body] in *. subst r. unfold getImageFromReplicate.
  rewrite Hkey, Hmodel. cbn [negb]. rewrite exec_tryCatch.
  destruct Hq as (resp0 & d0 & Hr0 & Hok0 & Hd0 & Hst0 & Hurl & Hne).
  unfold awaitFetch, awaitJson. cbn [bind exec].
  rewrite Hr0. cbn [settle bind exec]. cbn [Body]. rewrite Hok0. cbn [negb bind exec].
  rewrite Hd0. cbn [bind exec].
  apply String.eqb_neq in Hst0. rewrite Hst0. cbn [andb].
  rewrite Hurl. destruct getUrl as [|c0 rest0]; [discriminate|].
  set (getUrl := String c0 rest0) in *.
  change REPLICATE_MAX_ATTEMPTS with 40.
  rewrite (replicatePoll_waits w getUrl apiKey k 40 (S (S n)) s).
  2: { intros j Hj. replace (S (S (S n)) + 3 * j) with (replicatePollAt n j)
         by (unfold replicatePollAt; lia). now apply Hp. }
  2: { lia. }
  destruct (40 - k) as [|left] eqn:Hleft; [lia|].
  cbn [replicatePoll]. unfold await, awaitFetch, awaitJson. cbn [bind exec].
  replace (S (S (S n) + 3 * k)) with (replicatePollAt n k)
    by (unfold replicatePollAt; lia).
  rewrite Hr. cbn [settle bind exec]. cbn [Body]. rewrite Hok. cbn [negb bind exec].
  rewrite Hd. cbn [bind exec].
  assert (Hextract : (exists res, extractResult (rep_output d) = Ret res) \/
                     (exists e, extractResult (rep_output d) = Throw e)).
  { unfold extractResult. destruct (firstOutput (rep_output d)) as [url|]; [|right; eauto].
    destruct (if startsWith url "data:image" then matchDataUri url else None) as [[? ?]|];
      left; eauto. }
  assert (Hcount : forall tail : list Event,
            polls tail = 0 -> sleeps tail = [] ->
            let evs := (Awaits (Fetch ReplicateApi
                          (replicateSubmitRequest apiUrl version input apiKey))
                        :: Awaits ReadJson
                        :: (cycles k (replicateCycle getUrl apiKey) ++
                            Awaits (Sleep 500)
                            :: Awaits (Fetch ReplicateApi
                                 (replicateStatusRequest getUrl apiKey))
                            :: Awaits ReadJson :: tail))%list in
            polls evs = S k /\ sleeps evs = repeat 500%Z (S k)).
  { intros tail Hp0 Hs0 evs. subst evs.
    change (?a :: ?b :: (?l ++ ?x :: ?y :: ?z :: tail))%list
      with ([a; b] ++ l ++ replicateCycle getUrl apiKey ++ tail)%list.
    rewrite !polls_app, !sleeps_app, polls_cycles,
      (sleeps_cycles k (replicateCycle getUrl apiKey) eq_refl), Hp0, Hs0.
    change (polls (replicateCycle getUrl apiKey)) with 1.
    change (sleeps (replicateCycle getUrl apiKey)) with [500%Z].
    cbn [polls sleeps filter isPoll method replicateSubmitRequest String.eqb
           Ascii.eqb Bool.eqb length app].
    rewrite ?app_nil_r. split; [lia|].
    clear. induction k as [|k IH]; [reflexivity|]. simpl. now rewrite IH. }
  split; [|split; [|split]].
  - intros Hs. rewrite Hs. cbn [String.eqb Ascii.eqb Bool.eqb]. split.
    + intros res Hres. rewrite Hres. reflexivity.
    + intros e He. rewrite He. reflexivity.
  - intros Hs. rewrite Hs. reflexivity.
  - intros Hs. rewrite Hs. reflexivity.
  - intros [Hs|[Hs|Hs]]; rewrite Hs; cbn [String.eqb Ascii.eqb Bool.eqb].
    + destruct Hextract as [[res Hres]|[e He]]; [rewrite Hres | rewrite He];
        cbn [completion final events interactions logged prepend catchRun exec bind
               emit app];
        rewrite <- ?app_assoc; cbn [app].
      * destruct (Hcount [] eq_refl eq_refl) as [H1 H2].
        repeat split; [exact H1 | exact H2].
      * destruct (Hcount [ConsoleError "Error fetching image from Replicate API:" e]
                         eq_refl eq_refl) as [H1 H2].
        repeat split; [exact H1 | exact H2].
    + cbn [completion final events interactions logged prepend catchRun exec bind
             emit app].
      rewrite <- ?app_assoc. cbn [app].
      destruct (Hcount [ConsoleError "Error fetching image from Replicate API:"
                          (Error ("Replicate Request Failed: " ++ rep_error d))]
                       eq_refl eq_refl) as [H1 H2].
      repeat split; [exact H1 | exact H2].
    + cbn [completion final events interactions logged prepend catchRun exec bind
             emit app].
      rewrite <- ?app_assoc. cbn [app].
      destruct (Hcount [ConsoleError "Error fetching image from Replicate API:"
                          (Error "Replicate Request Canceled")]
                       eq_refl eq_refl) as [H1 H2].
      repeat split; [exact H1 | exact H2].
Qed.

(** The Replicate client against a provider that finishes the prediction
    at the eighth interaction. *)
Lemma replicate_polls_until_done_witness :
  completion (exec (getImageFromReplicate "a kettle" "r8-secret" "replicate-z-image-turbo")
                   (world (slow 8 0 someSettings)) 0 initialState)
    = Returned {| img_url := "https://img/late.webp";
                  img_base64 := None;
                  img_imageType := "webp" |} /\
  polls (events (exec (getImageFromReplicate "a kettle" "r8-secret" "replicate-z-image-turbo")
                      (world (slow 8 0 someSettings)) 0 initialState)) = 3.
Proof.
  destruct (replicate_polls_until_done (world (slow 8 0 someSettings)) 0 initialState
              "a kettle" "r8-secret" "replicate-z-image-turbo"
              "https://api.replicate.com/v1/predictions/p1" _ _ _ 2
              (okResponse (replicateDone (OutString "https://img/late.webp")))
              (replicateDone (OutString "https://img/late.webp")) eq_refl eq_refl)
    as (Hdone & _ & _ & Hcount).
  - exists (okResponse (replicateProcessing "https://api.replicate.com/v1/predictions/p1")),
           (replicateProcessing "https://api.replicate.com/v1/predictions/p1").
    repeat split; auto; discriminate.
  - intros j Hj.
    exists (okResponse (replicateProcessing "https://api.replicate.com/v1/predictions/p1")),
           (replicateProcessing "https://api.replicate.com/v1/predictions/p1").
    assert (Hcase : j = 0 \/ j = 1) by lia.
    destruct Hcase as [-> | ->]; repeat split; auto; discriminate.
  - lia.
  - reflexivity.
  - reflexivity.
  - reflexivity.
  - split.
    + exact (proj1 (Hdone eq_refl) _ eq_refl).
    + exact (proj1 (Hcount (or_introl eq_refl))).
Defined.

(** *** The budget of network calls *)

Lemma atMostFetches_more : forall A (p : Prog A) b b',
  atMostFetches b p -> b <= b' -> atMostFetches b' p.
Proof.
  induction p as [a|e|q k IH|c k IH|e k IH|k IH|a k IH]; intros b b' H Hle; simpl in *; auto.
  - intros r. eapply IH; eauto.
  - destruct c; try (intros r; eapply IH; eauto).
    destruct b as [|b]; [contradiction|]. destruct b' as [|b']; [lia|].
    intros r. apply (IH r b b'); [apply H | lia].
  - destruct e; try (eapply IH; eauto). destruct c; try (eapply IH; eauto). exact H.
  - intros s. eapply IH; eauto.
  - eapply IH; eauto.
Qed.

Lemma atMostFetches_bind : forall A B (p : Prog A) (f : A -> Prog B) b c,
  atMostFetches b p -> (forall a, atMostFetches c (f a)) ->
  atMostFetches (b + c) (bind p f).
Proof.
  induction p as [a|e|q k IH|c0 k IH|e k IH|k IH|a k IH]; intros f b c Hp Hf; simpl in *.
  - apply (atMostFetches_more _ _ c); [apply Hf | lia].
  - exact I.
  - intros r. now apply IH.
  - destruct c0; try (intros r; now apply IH).
    destruct b as [|b]; [contradiction|]. intros r. now apply IH.
  - destruct e; try now apply IH. destruct c0; try now apply IH. exact Hp.
  - intros s. now apply IH.
  - now apply IH.
Qed.

Lemma atMostFetches_tryCatch : forall A (p : Prog A) (h : Exn -> Prog A) b c,
  atMostFetches b p -> (forall e, atMostFetches c (h e)) ->
  atMostFetches (b + c) (tryCatch p h).
Proof.
  induction p as [a|e|q k IH|c0 k IH|e k IH|k IH|a k IH]; intros h b c Hp Hh; simpl in *.
  - exact I.
  - apply (atMostFetches_more _ _ c); [apply Hh | lia].
  - intros r. now apply IH.
  - destruct c0; try (intros r; now apply IH).
    destruct b as [|b]; [contradiction|]. intros r. now apply IH.
  - destruct e; try now apply IH. destruct c0; try now apply IH. exact Hp.
  - intros s. now apply IH.
  - now apply IH.
Qed.

Lemma atMostFetches_tryFinally : forall A (p : Prog A) (f : Prog unit) b c,
  atMostFetches b p -> atMostFetches c f ->
  atMostFetches (b + c) (tryFinally p f).
Proof.
  induction p as [a|e|q k IH|c0 k IH|e k IH|k IH|a k IH]; intros f b c Hp Hf; simpl in *.
  - apply (atMostFetches_more _ _ (c + 0)); [|lia].
    apply atMostFetches_bind; [exact Hf | intros _; exact I].
  - apply (atMostFetches_more _ _ (c + 0)); [|lia].
    apply atMostFetches_bind; [exact Hf | intros _; exact I].
  - intros r. now apply IH.
  - destruct c0; try (intros r; now apply IH).
    destruct b as [|b]; [contradiction|]. intros r. now apply IH.
  - destruct e; try now apply IH. destruct c0; try now apply IH. exact Hp.
  - intros s. now apply IH.
  - now apply IH.
Qed.

Lemma atMostFetches_awaitAsync : forall A (p : Prog A) b,
  atMostFetches b p -> atMostFetches b (awaitAsync p).
Proof.
  intros A p b H. unfold awaitAsync. replace b with (b + 0) by lia.
  apply atMostFetches_tryFinally; [exact H | simpl; auto].
Qed.

Lemma fetches_cons : forall e evs,
  fetches (e :: evs) =
  (match e with Awaits (Fetch _ _) => 1 | _ => 0 end) + fetches evs.
Proof.
  intros e evs. unfold fetches. cbn [filter].
  destruct e; try reflexivity. destruct c; reflexivity.
Qed.

(** The calls of a run are within the budget of its program. *)
Lemma atMostFetches_exec : forall A (p : Prog A) b w n s,
  atMostFetches b p -> fetches (events (exec p w n s)) <= b.
Proof.
  induction p as [a|e|q k IH|c k IH|e k IH|k IH|a k IH]; intros b w n s H;
    cbn [exec]; unfold logged; cbn [events]; simpl in H.
  - unfold fetches. simpl. lia.
  - unfold fetches. simpl. lia.
  - apply IH, H.
  - rewrite fetches_cons. destruct c; try (apply IH, H).
    destruct b as [|b]; [contradiction|].
    specialize (IH (reply w n (Fetch e req)) b w (S n) s (H _)). lia.
  - rewrite fetches_cons. destruct e; try (apply IH, H).
    destruct c; try (apply IH, H). contradiction.
  - apply IH, H.
  - rewrite fetches_cons. apply IH, H.
Qed.

Lemma falPoll_budget : forall remaining apiUrl requestId apiKey,
  atMostFetches remaining (falPoll remaining apiUrl requestId apiKey).
Proof.
  induction remaining as [|remaining IH]; intros apiUrl requestId apiKey.
  - exact I.
  - cbn [falPoll]. unfold await, awaitFetch, awaitJson. cbn -[falPoll String.eqb].
    intros _ [resp|e]; cbn -[falPoll String.eqb]; [|exact I].
    destruct (ok resp); cbn -[falPoll String.eqb]; [|exact I].
    intros _. destruct (data resp) as [d|]; cbn -[falPoll String.eqb]; [|exact I].
    destruct (String.eqb _ "COMPLETED").
    + destruct (fal_images d) as [[|image ?]|]; exact I.
    + destruct (String.eqb _ "FAILED"); [exact I | apply IH].
Qed.

Lemma replicatePoll_budget : forall remaining getUrl apiKey,
  atMostFetches remaining (replicatePoll remaining getUrl apiKey).
Proof.
  induction remaining as [|remaining IH]; intros getUrl apiKey.
  - exact I.
  - cbn [replicatePoll]. unfold await, awaitFetch, awaitJson.
    cbn -[replicatePoll String.eqb extractResult].
    intros _ [resp|e]; cbn -[replicatePoll String.eqb extractResult]; [|exact I].
    destruct (ok resp); cbn -[replicatePoll String.eqb extractResult]; [|exact I].
    intros _. destruct (data resp) as [d|];
      cbn -[replicatePoll String.eqb extractResult]; [|exact I].
    assert (Hex : forall output b, atMostFetches b (extractResult output)).
    { intros output b. unfold extractResult.
      destruct (firstOutput output) as [url|]; [|exact I].
      destruct (if startsWith url "data:image" then matchDataUri url else None)
        as [[? ?]|]; exact I. }
    destruct (String.eqb _ "succeeded"); [apply Hex|].
    destruct (String.eqb _ "failed"); [exact I|].
    destruct (String.eqb _ "canceled"); [exact I | apply IH].
Qed.

Lemma getImageFromFal_budget : forall prompt apiKey model,
  atMostFetches 21 (getImageFromFal prompt apiKey model).
Proof.
  intros prompt apiKey model. unfold getImageFromFal. cbv zeta.
  destruct (negb (nonEmpty apiKey)); [exact I|].
  change 21 with (21 + 0). apply atMostFetches_tryCatch; [|intros e; simpl; auto].
  unfold ask, awaitFetch, awaitJson, awaitErrorJson. cbn -[falPoll].
  intros seed [resp|e]; cbn -[falPoll]; [|exact I].
  destruct (ok resp); cbn -[falPoll].
  - intros _. destruct (data resp) as [d|]; cbn -[falPoll]; [|exact I].
    destruct (fal_images d) as [[|image ?]|]; try exact I;
      destruct (fal_request_id d) as [[|c rest]|]; try exact I;
      apply falPoll_budget.
  - intros _. destruct (errorData resp); exact I.
Qed.

Lemma getImageFromReplicate_budget : forall prompt apiKey model,
  atMostFetches 41 (getImageFromReplicate prompt apiKey model).
Proof.
  intros prompt apiKey model. unfold getImageFromReplicate.
  destruct (negb (nonEmpty apiKey)); [exact I|].
  destruct (replicateModel model prompt) as [[[apiUrl version] input]|]; [|exact I].
  change 41 with (41 + 0). apply atMostFetches_tryCatch; [|intros e; simpl; auto].
  unfold awaitFetch, awaitJson, awaitErrorJson.
  cbn -[replicatePoll String.eqb extractResult].
  intros [resp|e]; cbn -[replicatePoll String.eqb extractResult]; [|exact I].
  destruct (ok resp); cbn -[replicatePoll String.eqb extractResult].
  - intros _. destruct (data resp) as [d|];
      cbn -[replicatePoll String.eqb extractResult]; [|exact I].
    destruct (_ && _).
    + unfold extractResult. destruct (firstOutput (rep_output d)) as [url|]; [|exact I].
      destruct (if startsWith url "data:image" then matchDataUri url else None)
        as [[? ?]|]; exact I.
    + destruct (rep_urls_get d) as [[|c rest]|]; try exact I.
      apply replicatePoll_budget.
  - intros _. destruct (errorData resp); exact I.
Qed.

Lemma generatePromptFromTexts_budget : forall texts apiKey model previousPrompt,
  atMostFetches 1
    (LlmHandler.generatePromptFromTexts texts apiKey model previousPrompt).
Proof.
  intros texts apiKey model previousPrompt. unfold LlmHandler.generatePromptFromTexts.
  destruct (negb (nonEmpty apiKey)); [exact I|]. cbv zeta.
  change 1 with (1 + 0). apply atMostFetches_tryCatch; [|intros e; simpl; auto].
  unfold awaitFetch, awaitJson, awaitErrorJson. cbn -[LlmHandler.completionRequest trim].
  intros [resp|e]; cbn -[LlmHandler.completionRequest trim]; [|exact I].
  destruct (ok resp); cbn -[LlmHandler.completionRequest trim].
  - intros _. destruct (data resp) as [d|]; cbn -[trim]; [|exact I].
    destruct (llm_content d); exact I.
  - intros _. destruct (errorData resp); exact I.
Qed.

(** *** Failures are reported once *)

Lemma noReport_reports : forall evs, Forall noReport evs -> reports evs = 0.
Proof.
  induction 1 as [|e evs He _ IH]; [reflexivity|].
  unfold reports in *. cbn [filter]. destruct e; try exact IH. contradiction.
Qed.

(** A [try] whose [catch] reports the exception and throws it again, around
    a body that reports nothing itself. *)
Lemma exec_reporting : forall A (p : Prog A) message w n s,
  everyEvent noReport p ->
  reportsItsError message
    (exec (tryCatch p (fun error => emit (ConsoleError message error) ;; Throw error))
          w n s).
Proof.
  intros A p message w n s Hp. rewrite exec_tryCatch.
  pose proof (noReport_reports _ (everyEvent_exec _ _ p w n s Hp)) as Hnone.
  unfold reportsItsError, catchRun.
  destruct (completion (exec p w n s)) as [a|e].
  - exact Hnone.
  - cbn [completion events prepend exec emit bind logged]. eauto.
Qed.

Lemma falPoll_noReport : forall remaining apiUrl requestId apiKey,
  everyEvent noReport (falPoll remaining apiUrl requestId apiKey).
Proof.
  induction remaining as [|remaining IH]; intros apiUrl requestId apiKey.
  - exact I.
  - cbn [falPoll]. unfold await, awaitFetch, awaitJson. cbn -[falPoll String.eqb].
    split; [exact I|]. intros _. split; [exact I|].
    intros [resp|e]; cbn -[falPoll String.eqb]; [|exact I].
    destruct (ok resp); cbn -[falPoll String.eqb]; [|exact I].
    split; [exact I|].
    intros _. destruct (data resp) as [d|]; cbn -[falPoll String.eqb]; [|exact I].
    destruct (String.eqb _ "COMPLETED").
    + destruct (fal_images d) as [[|image ?]|]; exact I.
    + destruct (String.eqb _ "FAILED"); [exact I | apply IH].
Qed.

Lemma replicatePoll_noReport : forall remaining getUrl apiKey,
  everyEvent noReport (replicatePoll remaining getUrl apiKey).
Proof.
  induction remaining as [|remaining IH]; intros getUrl apiKey.
  - exact I.
  - cbn [replicatePoll]. unfold await, awaitFetch, awaitJson.
    cbn -[replicatePoll String.eqb extractResult].
    split; [exact I|]. intros _. split; [exact I|].
    intros [resp|e]; cbn -[replicatePoll String.eqb extractResult]; [|exact I].
    destruct (ok resp); cbn -[replicatePoll String.eqb extractResult]; [|exact I].
    split; [exact I|].
    intros _. destruct (data resp) as [d|];
      cbn -[replicatePoll String.eqb extractResult]; [|exact I].
    destruct (String.eqb _ "succeeded"); [apply extractResult_events|].
    destruct (String.eqb _ "failed"); [exact I|].
    destruct (String.eqb _ "canceled"); [exact I | apply IH].
Qed.

(** Property X7. The three clients report their failures once. Without a key
    the prompt generator and the Replicate client throw their own error at
    once, with no call and no output, and so does the Replicate client for
    a model it does not know; the FAL client, which has by then chosen its
    URL, throws its own with no call, no warning and no report, nothing
    but [console.log] lines written. Otherwise a run that throws, whatever
    the reason (the transport, the status of the answer, its content, the
    provider's verdict, the attempts running out), ends with one report to
    [console.error] that carries the exception thrown, and a run that
    returns has reported no error. *)
Theorem clients_report_failures : forall w n s,
  (forall texts apiKey model previousPrompt,
     let r := exec (LlmHandler.generatePromptFromTexts texts apiKey model previousPrompt)
                   w n s in
     if nonEmpty apiKey
     then reportsItsError "Error generating prompt from LLM:" r
     else completion r = Threw (Error "API Key is missing.") /\ events r = []) /\
  (forall prompt apiKey model,
     let r := exec (getImageFromFal prompt apiKey model) w n s in
     if nonEmpty apiKey
     then reportsItsError "Error fetching image from FAL API:" r
     else completion r = Threw (Error "FAL API Key is missing.") /\
          Forall (fun e => exists message, e = ConsoleLog message) (events r)) /\
  (forall prompt apiKey model,
     let r := exec (getImageFromReplicate prompt apiKey model) w n s in
     if nonEmpty apiKey
     then match replicateModel model prompt with
          | Some _ => reportsItsError "Error fetching image from Replicate API:" r
          | None =>
              completion r = Threw (Error ("Unknown Replicate model: " ++ model)) /\
              events r = []
          end
     else completion r = Threw (Error "Replicate API Key is missing.") /\ events r = []).
Proof.
  intros w n s. split; [|split].
  - intros texts apiKey model previousPrompt r. subst r.
    unfold LlmHandler.generatePromptFromTexts.
    destruct (nonEmpty apiKey); cbn [negb]; [|split; reflexivity]. cbv zeta.
    apply exec_reporting.
    unfold awaitFetch, awaitJson, awaitErrorJson. cbn -[LlmHandler.completionRequest trim].
    split; [exact I|].
    intros [resp|e]; cbn -[LlmHandler.completionRequest trim]; [|exact I].
    destruct (ok resp); cbn -[LlmHandler.completionRequest trim].
    + split; [exact I|].
      intros _. destruct (data resp) as [d|]; cbn -[trim]; [|exact I].
      destruct (llm_content d); exact I.
    + split; [exact I|]. intros _. destruct (errorData resp); exact I.
  - intros prompt apiKey model r. subst r. unfold getImageFromFal. cbv zeta.
    destruct (nonEmpty apiKey); cbn [negb]; [|split; [reflexivity | apply Forall_nil]].
    apply exec_reporting.
    unfold ask, awaitFetch, awaitJson, awaitErrorJson. cbn -[falPoll].
    intros seed. split; [exact I|].
    intros [resp|e]; cbn -[falPoll]; [|exact I].
    destruct (ok resp); cbn -[falPoll].
    + split; [exact I|].
      intros _. destruct (data resp) as [d|]; cbn -[falPoll]; [|exact I].
      destruct (fal_images d) as [[|image ?]|]; try exact I;
        destruct (fal_request_id d) as [[|c rest]|]; try exact I;
        apply falPoll_noReport.
    + split; [exact I|]. intros _. destruct (errorData resp); exact I.
  - intros prompt apiKey model r. subst r. unfold getImageFromReplicate.
    destruct (nonEmpty apiKey); cbn [negb]; [|split; reflexivity].
    destruct (replicateModel model prompt) as [[[apiUrl version] input]|];
      [|split; reflexivity].
    apply exec_reporting.
    unfold awaitFetch, awaitJson, awaitErrorJson.
    cbn -[replicatePoll String.eqb extractResult].
    split; [exact I|].
    intros [resp|e]; cbn -[replicatePoll String.eqb extractResult]; [|exact I].
    destruct (ok resp); cbn -[replicatePoll String.eqb extractResult].
    + split; [exact I|].
      intros _. destruct (data resp) as [d|];
        cbn -[replicatePoll String.eqb extractResult]; [|exact I].
      destruct (_ && _); [apply extractResult_events|].
      destruct (rep_urls_get d) as [[|c rest]|]; try exact I.
      apply replicatePoll_noReport.
    + split; [exact I|]. intros _. destruct (errorData resp); exact I.
Qed.

End ClientMore.

(* ===================================================================== *)
(** ** More about the orchestrators *)
(* ===================================================================== *)

Module OrchestratorMore.
Import JS Async LlmHandler ApiHandler Background Traces Shapes Scenario Episodes.
Import StringFacts RunFacts ClientFacts OrchestratorFacts DebounceFacts PipelineFacts
  ClientMore.
Local Open Scope prog_scope.

#[local] Arguments truthyTab : simpl never.
#[local] Arguments startsWith : simpl never.
#[local] Arguments nonEmpty : simpl never.
#[local] Arguments join : simpl never.

(** *** The budget of network calls of a trigger *)

Lemma imageStage_budget : forall st prompt, atMostFetches 41 (imageStage st prompt).
Proof.
  intros st prompt. unfold imageStage.
  destruct (startsWith (imageModel st) "replicate"); apply atMostFetches_awaitAsync.
  - apply getImageFromReplicate_budget.
  - apply (atMostFetches_more _ _ 21); [apply getImageFromFal_budget | lia].
Qed.

Lemma initWeave_budget : atMostFetches 0 (awaitAsync initWeave).
Proof.
  apply atMostFetches_awaitAsync.
  unfold initWeave, load, awaitStorageSyncGet, emit, store. simpl.
  intros s. destruct (weaveInitialized s); simpl; [exact I|].
  intros [st|e]; simpl; [|exact I].
  destruct (_ && _); simpl; auto.
Qed.

Lemma updatePipeline_budget : forall texts tabId st traceContext t0,
  atMostFetches 42 (updatePipeline texts tabId st traceContext t0).
Proof.
  intros texts tabId st traceContext t0.
  unfold updatePipeline, ask, load, store, emit. cbn -[imageStage generatePromptFromTexts].
  intros startLLM s.
  change 42 with (1 + 41). apply atMostFetches_bind.
  { apply atMostFetches_awaitAsync, generatePromptFromTexts_budget. }
  intros llmResult. cbn -[imageStage]. intros endLLM startImageGen.
  change 41 with (41 + 0). apply atMostFetches_bind; [apply imageStage_budget|].
  intros imageResult. cbn. intros endImageGen endTotal.
  destruct (truthyTab (Some tabId)); cbn; exact I.
Qed.

Lemma regeneratePipeline_budget : forall tabId st traceContext t0,
  atMostFetches 41 (regeneratePipeline tabId st traceContext t0).
Proof.
  intros tabId st traceContext t0.
  unfold regeneratePipeline, ask, load, store, emit. cbn -[imageStage].
  intros startImageGen s.
  change 41 with (41 + 0). apply atMostFetches_bind; [apply imageStage_budget|].
  intros imageResult. cbn. intros endImageGen endTotal.
  destruct (truthyTab tabId); cbn; [intros s'|]; exact I.
Qed.

Lemma handleUpdateTexts_budget : forall texts tabId,
  atMostFetches 42 (handleUpdateTexts texts tabId).
Proof.
  intros texts tabId. unfold handleUpdateTexts.
  change 42 with (0 + 42). apply atMostFetches_bind; [exact initWeave_budget|].
  intros _. unfold ask, updateGuarded, load. cbn [bind atMostFetches].
  intros now s.
  destruct (now - lastUpdateTime s <? 2000)%Z; [simpl; exact I|].
  destruct (isGenerating s); [simpl; exact I|].
  change 42 with (42 + 0 + 0).
  apply atMostFetches_tryFinally; [|simpl; exact I].
  apply atMostFetches_tryCatch; [|intros e; simpl; exact I].
  unfold updateAccepted, ask, store, emit, awaitStorageSyncGet, awaitStartTrace,
    await, load.
  cbn [bind atMostFetches]. intros startTotal [st|e]; cbn [settle bind atMostFetches];
    [|exact I].
  assert (Hkey : forall warning b, atMostFetches b (reportMissingKey warning)).
  { intros warning b. unfold reportMissingKey, emit, store. simpl. exact I. }
  destruct (negb (nonEmpty (openaiApiKey st))); [apply Hkey|].
  destruct (startsWith (imageModel st) "fal" && negb (nonEmpty (falApiKey st)));
    [apply Hkey|].
  destruct (startsWith (imageModel st) "replicate" && negb (nonEmpty (replicateApiKey st)));
    [apply Hkey|].
  cbv zeta. cbn [bind atMostFetches].
  intros s0 [traceContext|e]; cbn [settle bind atMostFetches]; [|exact I].
  change 42 with (42 + 0).
  apply atMostFetches_tryCatch; [apply updatePipeline_budget | intros e; simpl; exact I].
Qed.

Lemma handleRegenerateImage_budget : atMostFetches 41 handleRegenerateImage.
Proof.
  unfold handleRegenerateImage.
  change 41 with (0 + 41). apply atMostFetches_bind; [exact initWeave_budget|].
  intros _. unfold load. cbn [bind atMostFetches]. intros s.
  change 41 with (0 + 41). apply atMostFetches_bind.
  { destruct (negb (nonEmpty (lastGeneratedPrompt s))); [|exact I].
    unfold awaitStorageLocalGet. cbn [bind atMostFetches].
    intros [[[|c rest]|]|e]; simpl; exact I. }
  intros _. unfold regenerateGuarded, load. cbn [bind atMostFetches]. intros s'.
  destruct (negb (nonEmpty (lastGeneratedPrompt s'))); [simpl; exact I|].
  destruct (isGenerating s'); [simpl; exact I|].
  change 41 with (41 + 0 + 0).
  apply atMostFetches_tryFinally; [|simpl; exact I].
  apply atMostFetches_tryCatch; [|intros e; simpl; exact I].
  unfold regenerateAccepted, store, ask, emit, awaitTabsQuery, awaitStorageSyncGet,
    awaitStartTrace, await, load.
  cbn [bind atMostFetches]. intros startTotal [tabs|e]; cbn [settle bind atMostFetches];
    [|exact I].
  assert (Hrest : forall tabId : option Z,
    atMostFetches 41
      (Await StorageSyncGet (fun r =>
         settings <- settle r ;;
         s <- Load Ret ;;
         traceContext <- Await (StartTrace "regenerate_image"
                                  (JObj [("prompt", JStr (lastGeneratedPrompt s))]))
                               settle ;;
         tryCatch (regeneratePipeline tabId settings traceContext startTotal)
                  (fun innerError =>
                     Emit (EndTraceDetached traceContext (exnToString innerError))
                          (Ret tt) ;;
                     Throw innerError))%prog)).
  { intros tabId. cbn [bind atMostFetches].
    intros [st|e]; cbn [settle bind atMostFetches]; [|exact I].
    intros s0 [traceContext|e0]; cbn [settle bind atMostFetches]; [|exact I].
    change 41 with (41 + 0).
    apply atMostFetches_tryCatch; [apply regeneratePipeline_budget|].
    intros e. simpl. exact I. }
  destruct tabs as [|first rest]; cbn [bind atMostFetches].
  - apply (Hrest None).
  - apply (Hrest (Some first)).
Qed.

(** Property X8. Whatever the services answer, one call of a client or one
    trigger makes a bounded number of requests to the language model and the
    image providers: the prompt generator at most one, the FAL client at
    most 21 (the submit and 20 polls), the Replicate client at most 41, a
    request to regenerate at most 41, and a trigger of [handleUpdateTexts]
    at most 42. (The requests of the trace client are not among them.) *)
Theorem request_budget : forall w n s,
  (forall texts apiKey model previousPrompt,
     fetches (events (exec (generatePromptFromTexts texts apiKey model previousPrompt)
                           w n s)) <= 1) /\
  (forall prompt apiKey model,
     fetches (events (exec (getImageFromFal prompt apiKey model) w n s)) <= 21) /\
  (forall prompt apiKey model,
     fetches (events (exec (getImageFromReplicate prompt apiKey model) w n s)) <= 41) /\
  fetches (events (exec handleRegenerateImage w n s)) <= 41 /\
  (forall texts tabId,
     fetches (events (exec (handleUpdateTexts texts tabId) w n s)) <= 42).
Proof.
  intros w n s. repeat split; intros; apply atMostFetches_exec.
  - apply generatePromptFromTexts_budget.
  - apply getImageFromFal_budget.
  - apply getImageFromReplicate_budget.
  - apply handleRegenerateImage_budget.
  - apply handleUpdateTexts_budget.
Qed.

(** *** How a trigger can end *)

Lemma badges_app : forall a b, badges (a ++ b) = (badges a ++ badges b)%list.
Proof.
  induction a as [|e a IH]; intros b; [reflexivity|].
  destruct e; cbn [app badges]; rewrite ?IH; reflexivity.
Qed.

Lemma written_app : forall a b, written (a ++ b) = (written a ++ written b)%list.
Proof.
  induction a as [|e a IH]; intros b; [reflexivity|].
  destruct e; cbn [app written]; rewrite ?IH; reflexivity.
Qed.

Lemma sent_app : forall a b, sent (a ++ b) = (sent a ++ sent b)%list.
Proof.
  induction a as [|e a IH]; intros b; [reflexivity|].
  destruct e; cbn [app sent]; rewrite ?IH; reflexivity.
Qed.

Lemma quiet_projections : forall evs,
  Forall quietEvent evs -> badges evs = [] /\ written evs = [] /\ sent evs = [].
Proof.
  induction 1 as [|e evs He _ IH]; [auto|].
  destruct e; cbn [badges written sent]; (contradiction || exact IH).
Qed.

Lemma initEvent_quiet : forall e, initEvent e -> quietEvent e.
Proof. intros [ | | | | | | | | | |[]|[]]; simpl; auto. Qed.

Lemma llmEvent_quiet : forall e, llmEvent e -> quietEvent e.
Proof. intros [ | | | | | | | | | |[| | | | |[]| |]|[]]; simpl; auto. Qed.

Lemma stage2Event_quiet : forall e, stage2Event e -> quietEvent e.
Proof.
  intros e [H|[H|H]]; [| |subst; exact I];
    destruct e as [ | | | | | | | | | |[| | | | |[]| |]|[]]; simpl in *; auto.
Qed.

Lemma initRun_quiet : forall w s,
  badges (events (initRun w s)) = [] /\ written (events (initRun w s)) = [] /\
  sent (events (initRun w s)) = [].
Proof.
  intros. apply quiet_projections.
  eapply Forall_impl; [exact initEvent_quiet | apply initRun_events].
Qed.

Lemma llmRun_quiet : forall texts apiKey model previousPrompt w n s,
  let r := exec (generatePromptFromTexts texts apiKey model previousPrompt) w n s in
  badges (events r) = [] /\ written (events r) = [] /\ sent (events r) = [].
Proof.
  intros. apply quiet_projections. apply everyEvent_exec.
  eapply everyEvent_weaken; [exact llmEvent_quiet | apply generatePromptFromTexts_events].
Qed.

Lemma imageStage_quiet : forall st prompt w n s,
  let r := exec (imageStage st prompt) w n s in
  badges (events r) = [] /\ written (events r) = [] /\ sent (events r) = [].
Proof.
  intros. apply quiet_projections. apply everyEvent_exec.
  eapply everyEvent_weaken; [exact stage2Event_quiet | apply imageStage_events].
Qed.

(** Property X9. Every run of [handleUpdateTexts] ends in one of five ways,
    which the badge tells apart. A trigger that is not accepted (turned away
    by a guard, or stopped by a failure of [initWeave]) leaves the badge,
    the storage, the page and the three variables of the pipeline alone. An
    accepted trigger sets the badge to [...], records its time, and ends
    with the flag cleared and either [KEY] (a credential is missing: nothing
    written, nothing sent), or [ERR] (nothing sent; the prompt in memory is
    the old one with nothing written, or a new one that was also written to
    the storage: Stage 2 failed after Stage 1 had succeeded), or the badge
    cleared: then one prompt was written, it is the prompt in memory, and
    the page got exactly one message, carrying that prompt (no message if
    the tab id is 0). *)
Theorem trigger_outcomes : forall texts tabId w s,
  let r := run (handleUpdateTexts texts tabId) w s in
  let evs := events r in
  (accepted r = false /\
   badges evs = [] /\ written evs = [] /\ sent evs = [] /\
   isGenerating (final r) = isGenerating s /\
   lastGeneratedPrompt (final r) = lastGeneratedPrompt s /\
   lastUpdateTime (final r) = lastUpdateTime s) \/
  (accepted r = true /\
   isGenerating (final r) = false /\
   lastUpdateTime (final r) = nowRead w s /\
   ((badges evs = ["..."; "KEY"] /\ written evs = [] /\ sent evs = [] /\
     lastGeneratedPrompt (final r) = lastGeneratedPrompt s) \/
    (badges evs = ["..."; "ERR"] /\ sent evs = [] /\
     ((written evs = [] /\ lastGeneratedPrompt (final r) = lastGeneratedPrompt s) \/
      (exists p, written evs = [p] /\ lastGeneratedPrompt (final r) = p))) \/
    (badges evs = ["..."; ""] /\
     exists p message,
       written evs = [p] /\ lastGeneratedPrompt (final r) = p /\
       msg_prompt message = p /\
       sent evs = if truthyTab (Some tabId) then [(tabId, message)] else []))).
Proof.
  intros texts tabId w s r evs. subst evs.
  destruct (initRun_spares w s) as (Hg & Hp & Ht).
  destruct (initRun_quiet w s) as (Hb0 & Hw0 & Hs0).
  destruct (run_handleUpdateTexts_cases texts tabId w s)
    as [(e & Hi & Hev & Hf) | [(Hi & Hd & Hc & Hf & Hev) |
        [(Hi & Hd & Hgen & Hc & Hf & Hev) | (Hi & Hd & Hgen & Hc & Hf & Hev)]]];
    fold r in Hev, Hf.
  - left. unfold accepted. rewrite Hev, Hf, setsFlag_init. auto 10.
  - left. unfold accepted.
    rewrite Hev, Hf, setsFlag_app, setsFlag_init, badges_app, written_app, sent_app,
      Hb0, Hw0, Hs0.
    cbn. auto 10.
  - left. unfold accepted.
    rewrite Hev, Hf, setsFlag_app, setsFlag_init, badges_app, written_app, sent_app,
      Hb0, Hw0, Hs0.
    cbn. auto 10.
  - right. cbv zeta in Hc, Hf, Hev.
    assert (Hacc : accepted r = true) by (apply idle_accepts; assumption).
    destruct (accepted_final texts tabId w s Hacc) as [Htime Hflag]. fold r in Htime, Hflag.
    split; [exact Hacc|]. split; [exact Hflag|]. split; [exact Htime|].
    set (i := initRun w s) in *. set (n0 := S (interactions i)) in *.
    set (s0 := final i) in *. set (now := nowRead w s) in *.
    rewrite Hev, Hf, !badges_app, !written_app, !sent_app, Hb0, Hw0, Hs0.
    cbn [app].
    destruct (updateAccepted_cases texts tabId now w n0 s0)
      as [(e & _ & Hb) | [(st & warning & _ & _ & Hb) |
          [(st & e & _ & _ & _ & Hb) | (st & traceContext & Hr & Hm & Htrace & _)]]].
    + right. left. rewrite Hb. cbn. rewrite Hp. auto.
    + left. rewrite Hb. cbn. rewrite Hp. auto.
    + right. left. rewrite Hb. cbn. rewrite Hp. auto.
    + destruct (validBody_cases texts tabId now w n0 s0 st traceContext Hr Hm Htrace)
        as [(e & _ & Hcb & Hfb & Heb) |
            (llmResult & _ & Hfb & closingEvents & Heb & Hclose)];
        cbv zeta in Hfb, Heb.
      * right. left.
        destruct (llmRun_quiet texts (openaiApiKey st) (llmModel st)
                    (lastGeneratedPrompt s0) w (S (S (S (S n0)))) (acceptState now s0))
          as (Hb1 & Hw1 & Hs1). cbv zeta in Hb1, Hw1, Hs1.
        unfold bodyRun in *. rewrite Heb, Hcb, Hfb.
        rewrite !badges_app, !written_app, !sent_app, Hb1, Hw1, Hs1.
        cbn. rewrite Hp. auto.
      * destruct (llmRun_quiet texts (openaiApiKey st) (llmModel st)
                    (lastGeneratedPrompt s0) w (S (S (S (S n0)))) (acceptState now s0))
          as (Hb1 & Hw1 & Hs1). cbv zeta in Hb1, Hw1, Hs1.
        match type of Heb with
        | context [events (exec (imageStage ?a ?b) ?c ?d ?e)] =>
            destruct (imageStage_quiet a b c d e) as (Hb2 & Hw2 & Hs2)
        end.
        cbv zeta in Hb2, Hw2, Hs2.
        unfold bodyRun in *. rewrite Heb, Hfb.
        rewrite !badges_app, !written_app, !sent_app, Hb1, Hw1, Hs1, Hb2, Hw2, Hs2.
        destruct Hclose as [(e & _ & Hcb & ->) |
                            (imageResult & message & job & _ & Hcb & _ & Hmsg & ->)];
          rewrite Hcb.
        -- right. left. cbn. split; [reflexivity|]. split; [reflexivity|].
           right. eauto.
        -- right. right. unfold renderEvents.
           rewrite !badges_app, !written_app, !sent_app.
           destruct (truthyTab (Some tabId)); cbn; (split; [reflexivity|]);
             exists (prompt llmResult), message; auto.
Qed.

(** *** How a request to regenerate can end *)

Lemma exec_regeneratePipeline : forall tabId st traceContext startTotal w n s,
  exec (regeneratePipeline tabId st traceContext startTotal) w n s =
  let r2 := exec (imageStage st (lastGeneratedPrompt s)) w (S n) s in
  match completion r2 with
  | Threw e =>
      {| completion := Threw e; final := final r2;
         events := events r2; interactions := interactions r2 |}
  | Returned imageResult =>
      let n2 := interactions r2 in
      {| completion := Returned tt; final := final r2;
         events :=
           (events r2 ++
            renderEvents tabId
              {| msg_imageUrl := img_url imageResult;
                 msg_prompt := lastGeneratedPrompt (final r2);
                 msg_stats :=
                   {| llm := None;
                      imageGen := answer w n2 DateNow - answer w n DateNow;
                      total := answer w (S n2) DateNow - startTotal |} |}
              {| job_context := traceContext;
                 job_imageModel := imageModel st;
                 job_imageUrl := img_url imageResult;
                 job_base64 := img_base64 imageResult;
                 job_imageType := img_imageType imageResult;
                 job_llm := None |})%list;
         interactions := S (S n2) |}
  end.
Proof.
  intros tabId st traceContext startTotal w n s.
  unfold regeneratePipeline, ask, load, store, emit. cbn [bind exec].
  rewrite exec_bind. cbv zeta. unfold thenRun at 1.
  destruct (completion (exec (imageStage st (lastGeneratedPrompt s)) w (S n) s))
    as [imageResult|e]; [|reflexivity].
  unfold prepend, renderEvents. cbn [bind exec].
  destruct (truthyTab tabId);
    cbn [completion final events interactions bind exec logged app];
    reflexivity.
Qed.

(** The body of the outer [try] of [handleRegenerateImage], from start to
    end. *)
Lemma regenerateAccepted_summary : forall w n s,
  let b := exec regenerateAccepted w n s in
  setsFlag (events b) = true /\
  written (events b) = [] /\
  lastUpdateTime (final b) = lastUpdateTime s /\
  lastGeneratedPrompt (final b) = lastGeneratedPrompt s /\
  match completion b with
  | Threw _ => badges (events b) = ["..."] /\ sent (events b) = []
  | Returned _ =>
      badges (events b) = ["..."; ""] /\
      (sent (events b) = [] \/
       exists tab message,
         sent (events b) = [(tab, message)] /\ tab <> 0%Z /\
         msg_prompt message = lastGeneratedPrompt s)
  end.
Proof.
  intros w n s b. subst b.
  unfold regenerateAccepted, store, ask, emit, awaitTabsQuery, awaitStorageSyncGet,
    awaitStartTrace, await, load.
  cbn [bind exec logged completion final events interactions].
  destruct (reply w (S n) (TabsQuery "https://neal.fun/infinite-craft/*")) as [tabs|e];
    cbn [settle bind exec logged completion final events interactions];
    [|cbn; auto 10].
  match goal with
  | |- context [bind (match tabs with [] => _ | _ :: _ => _ end) ?k] =>
      assert (Hrest : forall (tabId : option Z) m,
        let b := exec (k tabId) w m (assign (SetIsGenerating true) s) in
        written (events b) = [] /\
        final b = assign (SetIsGenerating true) s /\
        match completion b with
        | Threw _ => badges (events b) = [] /\ sent (events b) = []
        | Returned _ =>
            badges (events b) = [""] /\
            exists message,
              msg_prompt message = lastGeneratedPrompt s /\
              sent (events b) =
                if truthyTab tabId
                then [(match tabId with Some t => t | None => 0%Z end, message)]
                else []
        end)
  end.
  { intros tabId m. cbn [bind exec logged completion final events interactions].
    destruct (reply w m StorageSyncGet) as [st|e];
      cbn [settle bind exec logged completion final events interactions];
      [|cbn; auto].
    match goal with
    | |- context [reply w ?k (StartTrace ?name ?inputs)] =>
        destruct (reply w k (StartTrace name inputs)) as [traceContext|e]
    end;
      cbn [settle bind exec logged completion final events interactions];
      [|cbn; auto].
    rewrite exec_tryCatch, exec_regeneratePipeline. cbv zeta.
    match goal with
    | |- context [exec (imageStage ?a ?b) ?c ?d ?e] =>
        destruct (imageStage_quiet a b c d e) as (Hb2 & Hw2 & Hs2);
        pose proof (imageStage_final a b c d e) as Hf2
    end.
    cbv zeta in Hb2, Hw2, Hs2.
    destruct (completion (exec (imageStage st _) w _ _)) as [imageResult|e];
      cbn [catchRun completion final events interactions prepend logged bind exec app
             written badges sent];
      rewrite ?badges_app, ?written_app, ?sent_app, Hb2, Hw2, Hs2, Hf2.
    - unfold renderEvents. rewrite ?badges_app, ?written_app, ?sent_app.
      destruct (truthyTab tabId); cbn; (split; [reflexivity|]);
        (split; [reflexivity|]); (split; [reflexivity|]).
      + eexists. split; [|reflexivity]. reflexivity.
      + exists {| msg_imageUrl := img_url imageResult;
                  msg_prompt := lastGeneratedPrompt s;
                  msg_stats := {| llm := None; imageGen := 0; total := 0 |} |}.
        split; reflexivity.
    - cbn. auto. }
  destruct tabs as [|first rest]; cbn [bind].
  - change (exec (Emit ?e ?p) w ?m ?st) with (logged e (exec p w m st)).
    specialize (Hrest None (S (S n))). cbv beta zeta in Hrest.
    destruct Hrest as (Hw & Hf & Hc).
    cbn [logged completion final events interactions].
    rewrite Hf.
    destruct (completion (exec _ w (S (S n)) _)) as [[]|e].
    + destruct Hc as (Hb & message & _ & Hs).
      cbn [setsFlag existsb written badges sent orb]. rewrite Hw, Hb, Hs. cbn. auto 10.
    + destruct Hc as (Hb & Hs).
      cbn [setsFlag existsb written badges sent orb]. rewrite Hw, Hb, Hs. cbn. auto 10.
  - specialize (Hrest (Some first) (S (S n))). cbv beta zeta in Hrest.
    destruct Hrest as (Hw & Hf & Hc).
    cbn [logged completion final events interactions].
    rewrite Hf.
    destruct (completion (exec _ w (S (S n)) _)) as [[]|e].
    + destruct Hc as (Hb & message & Hm & Hs).
      cbn [setsFlag existsb written badges sent orb]. rewrite Hw, Hb, Hs.
      unfold truthyTab. destruct (Z.eqb_spec first 0) as [->|Hne]; cbn; [auto 10|].
      repeat split; auto. right. exists first, message. auto.
    + destruct Hc as (Hb & Hs).
      cbn [setsFlag existsb written badges sent orb]. rewrite Hw, Hb, Hs. cbn. auto 10.
Qed.

Lemma regenerateGuarded_summary : forall w n s,
  let b := exec regenerateGuarded w n s in
  let evs := events b in
  written evs = [] /\
  lastUpdateTime (final b) = lastUpdateTime s /\
  lastGeneratedPrompt (final b) = lastGeneratedPrompt s /\
  ((setsFlag evs = false /\ badges evs = [] /\ sent evs = [] /\
    completion b = Returned tt /\
    isGenerating (final b) = isGenerating s /\
    (nonEmpty (lastGeneratedPrompt s) = false \/ isGenerating s = true)) \/
   (setsFlag evs = true /\ isGenerating s = false /\
    nonEmpty (lastGeneratedPrompt s) = true /\
    isGenerating (final b) = false /\ completion b = Returned tt /\
    ((badges evs = ["..."; "ERR"] /\ sent evs = []) \/
     (badges evs = ["..."; ""] /\
      (sent evs = [] \/
       exists tab message,
         sent evs = [(tab, message)] /\ tab <> 0%Z /\
         msg_prompt message = lastGeneratedPrompt s))))).
Proof.
  intros w n s b evs. subst evs b.
  unfold regenerateGuarded, load, emit. cbn [bind exec].
  destruct (nonEmpty (lastGeneratedPrompt s)) eqn:Hne; cbn [negb].
  2:{ cbn. repeat (split; [reflexivity|]). left.
      repeat (split; [reflexivity|]). left. reflexivity. }
  destruct (isGenerating s) eqn:Hgen.
  { cbn. repeat (split; [reflexivity|]). left.
    repeat (split; [reflexivity|]). auto. }
  rewrite exec_tryFinally, exec_tryCatch.
  destruct (regenerateAccepted_summary w n s) as (Hflag & Hw & Ht & Hp & Hc).
  cbv zeta in Hflag, Hw, Ht, Hp, Hc.
  unfold finallyRun, catchRun, store, reportError, emit.
  destruct (completion (exec regenerateAccepted w n s)) as [[]|e];
    cbn [completion final events interactions prepend logged bind exec app assign
           isGenerating lastUpdateTime lastGeneratedPrompt];
    rewrite ?badges_app, ?written_app, ?sent_app, ?setsFlag_app, Hflag, Hw.
  - destruct Hc as (Hb & Hs). rewrite Hb.
    split; [reflexivity|]. split; [exact Ht|]. split; [exact Hp|].
    right. repeat (split; [reflexivity|]). right. split; [reflexivity|].
    destruct Hs as [Hs|(tab & message & Hs & Hne0 & Hm)]; rewrite Hs;
      [left; reflexivity|].
    right. exists tab, message. auto.
  - destruct Hc as (Hb & Hs). rewrite Hb, Hs.
    split; [reflexivity|]. split; [exact Ht|]. split; [exact Hp|].
    right. repeat (split; [reflexivity|]). left. auto.
Qed.

(** Property X10. Every run of [handleRegenerateImage] writes nothing to the
    storage and leaves the time of the last update alone; the prompt in
    memory changes only when it was empty, and then only to the one read
    back from the storage. A request that is not accepted (no prompt, a
    generation in progress, or a failure before the guards) leaves the
    badge, the page and the flag alone. An accepted request finds the flag
    clear and a prompt in memory, ends with the flag cleared and without an
    exception, and shows either [ERR] with nothing sent to the page, or the
    badge cleared with at most one message to the page, which carries the
    prompt in memory. *)
Theorem regeneration_outcomes : forall w s,
  let r := run handleRegenerateImage w s in
  let evs := events r in
  let p := lastGeneratedPrompt (final r) in
  written evs = [] /\
  lastUpdateTime (final r) = lastUpdateTime s /\
  (p = lastGeneratedPrompt s \/
   nonEmpty (lastGeneratedPrompt s) = false /\
   exists m, reply w m StorageLocalGet = Fulfilled (Some p)) /\
  ((accepted r = false /\ badges evs = [] /\ sent evs = [] /\
    isGenerating (final r) = isGenerating s) \/
   (accepted r = true /\ isGenerating s = false /\ nonEmpty p = true /\
    isGenerating (final r) = false /\ completion r = Returned tt /\
    ((badges evs = ["..."; "ERR"] /\ sent evs = []) \/
     (badges evs = ["..."; ""] /\
      (sent evs = [] \/
       exists tab message,
         sent evs = [(tab, message)] /\ tab <> 0%Z /\ msg_prompt message = p))))).
Proof.
  intros w s r evs p. subst p evs r.
  destruct (initRun_spares w s) as (Hg & Hp & Ht).
  destruct (initRun_quiet w s) as (Hb0 & Hw0 & Hs0).
  pose proof (setsFlag_init w s) as Hf0.
  unfold accepted, run, handleRegenerateImage. rewrite exec_bind.
  fold (initRun w s). unfold thenRun.
  destruct (completion (initRun w s)) as [[]|e].
  2:{ cbn [completion final events interactions]. rewrite Hb0, Hw0, Hs0, Hf0. auto 10. }
  set (i := initRun w s) in *.
  assert (Hfrom : forall (s1 : State) m,
    lastUpdateTime s1 = lastUpdateTime s ->
    isGenerating s1 = isGenerating s ->
    (lastGeneratedPrompt s1 = lastGeneratedPrompt s \/
     nonEmpty (lastGeneratedPrompt s) = false /\
     exists m, reply w m StorageLocalGet = Fulfilled (Some (lastGeneratedPrompt s1))) ->
    forall pre, badges pre = [] -> written pre = [] -> sent pre = [] ->
      setsFlag pre = false ->
    let r := prepend (events i ++ pre) (exec regenerateGuarded w m s1) in
    let evs := events r in
    let p := lastGeneratedPrompt (final r) in
    written evs = [] /\
    lastUpdateTime (final r) = lastUpdateTime s /\
    (p = lastGeneratedPrompt s \/
     nonEmpty (lastGeneratedPrompt s) = false /\
     exists m, reply w m StorageLocalGet = Fulfilled (Some p)) /\
    ((setsFlag evs = false /\ badges evs = [] /\ sent evs = [] /\
      isGenerating (final r) = isGenerating s) \/
     (setsFlag evs = true /\ isGenerating s = false /\ nonEmpty p = true /\
      isGenerating (final r) = false /\ completion r = Returned tt /\
      ((badges evs = ["..."; "ERR"] /\ sent evs = []) \/
       (badges evs = ["..."; ""] /\
        (sent evs = [] \/
         exists tab message,
           sent evs = [(tab, message)] /\ tab <> 0%Z /\ msg_prompt message = p)))))).
  { intros s1 m Ht1 Hg1 Hp1 pre Hbp Hwp Hsp Hfp. cbv zeta.
    destruct (regenerateGuarded_summary w m s1) as (Hw & Htm & Hpr & Hcases).
    cbv zeta in Hw, Htm, Hpr, Hcases.
    unfold prepend. cbn [completion final events interactions].
    rewrite !badges_app, !written_app, !sent_app, !setsFlag_app,
      Hb0, Hw0, Hs0, Hf0, Hbp, Hwp, Hsp, Hfp, Hw, Htm, Hpr, Ht1.
    cbn [app orb].
    split; [reflexivity|]. split; [reflexivity|]. split; [exact Hp1|].
    destruct Hcases as [(Hfl & Hb & Hs & _ & Hgf & _) |
                        (Hfl & Hg0 & Hne & Hgf & Hc & Hout)].
    - left. rewrite Hfl, Hb, Hs, Hgf, Hg1. auto.
    - right. rewrite Hfl, Hgf, Hc, <- Hg1, Hg0, Hne. auto 10. }
  cbn [prepend completion final events interactions].
  unfold load. cbn [bind exec]. rewrite Hp.
  destruct (nonEmpty (lastGeneratedPrompt s)) eqn:Hne; cbn [negb bind].
  - specialize (Hfrom (final i) (interactions i) Ht Hg (or_introl Hp) []
                  eq_refl eq_refl eq_refl eq_refl).
    cbv zeta in Hfrom. unfold prepend in Hfrom. rewrite app_nil_r in Hfrom.
    cbn [completion final events interactions] in Hfrom |- *.
    exact Hfrom.
  - unfold awaitStorageLocalGet. cbn [bind exec logged].
    destruct (reply w (interactions i) StorageLocalGet) as [stored|e] eqn:Hrep;
      cbn [settle bind exec logged completion final events interactions].
    2:{ rewrite !badges_app, !written_app, !sent_app, !setsFlag_app, Hb0, Hw0, Hs0, Hf0.
        cbn [app orb written badges sent setsFlag existsb]. auto 10. }
    destruct stored as [[|c rest]|]; unfold store; cbn [bind exec logged].
    + specialize (Hfrom (final i) (S (interactions i)) Ht Hg (or_introl Hp)
                    [Awaits StorageLocalGet] eq_refl eq_refl eq_refl eq_refl).
      cbv zeta in Hfrom. unfold prepend in Hfrom.
      cbn [completion final events interactions] in Hfrom |- *.
      rewrite <- app_assoc in Hfrom. exact Hfrom.
    + assert (Hp1 : lastGeneratedPrompt
                      (assign (SetLastGeneratedPrompt (String c rest)) (final i)) =
                    lastGeneratedPrompt s \/
                    false = false /\
                    exists m, reply w m StorageLocalGet =
                      Fulfilled (Some (lastGeneratedPrompt
                        (assign (SetLastGeneratedPrompt (String c rest)) (final i))))).
      { right. split; [reflexivity|]. exists (interactions i). exact Hrep. }
      specialize (Hfrom (assign (SetLastGeneratedPrompt (String c rest)) (final i))
                    (S (interactions i)) Ht Hg Hp1
                    [Awaits StorageLocalGet;
                     Assigns (SetLastGeneratedPrompt (String c rest))]
                    eq_refl eq_refl eq_refl eq_refl).
      cbv zeta in Hfrom. unfold prepend in Hfrom.
      cbn [completion final events interactions] in Hfrom |- *.
      rewrite <- app_assoc in Hfrom. exact Hfrom.
    + specialize (Hfrom (final i) (S (interactions i)) Ht Hg (or_introl Hp)
                    [Awaits StorageLocalGet] eq_refl eq_refl eq_refl eq_refl).
      cbv zeta in Hfrom. unfold prepend in Hfrom.
      cbn [completion final events interactions] in Hfrom |- *.
      rewrite <- app_assoc in Hfrom. exact Hfrom.
Qed.

End OrchestratorMore.

(* ===================================================================== *)
(** ** More about the prompt generator *)
(* ===================================================================== *)

Module PromptMore.
Import JS Async LlmHandler Traces Shapes Scenario.
Import StringFacts RunFacts ClientFacts.
Local Open Scope prog_scope.

(** *** Trimming *)

Lemma trimEnd_idempotent : forall s, trimEnd (trimEnd s) = trimEnd s.
Proof.
  induction s as [|c rest IH]; [reflexivity|].
  cbn [trimEnd]. destruct (trimEnd rest) as [|d kept] eqn:Hrest.
  - destruct (isWhiteSpace c) eqn:Hc; [reflexivity|].
    cbn [trimEnd]. now rewrite Hc.
  - cbn [trimEnd] in *. now rewrite IH.
Qed.

Lemma trimStart_head : forall s,
  trimStart s = "" \/ exists c rest, trimStart s = String c rest /\ isWhiteSpace c = false.
Proof.
  induction s as [|c rest IH]; [now left|].
  cbn [trimStart]. destruct (isWhiteSpace c) eqn:Hc; [exact IH|].
  right. eauto.
Qed.

Lemma trimEnd_head : forall c rest,
  isWhiteSpace c = false -> exists kept, trimEnd (String c rest) = String c kept.
Proof.
  intros c rest Hc. cbn [trimEnd]. destruct (trimEnd rest); [rewrite Hc|]; eauto.
Qed.

Lemma trim_idempotent : forall s, trim (trim s) = trim s.
Proof.
  intros s. unfold trim.
  destruct (trimStart_head s) as [H|(c & rest & H & Hc)]; rewrite H.
  - reflexivity.
  - destruct (trimEnd_head c rest Hc) as [kept Hk]. rewrite Hk.
    cbn [trimStart]. rewrite Hc, <- Hk. apply trimEnd_idempotent.
Qed.

(** *** What a returned prompt is *)

(** Property X11. The prompt generator returns only in one way. A run that
    returns has made one request, the one built from the names of the items
    and the previous prompt, and read its body; the service has answered
    with a success status and a body whose first choice has a content; and
    the prompt returned is that content with the white space at both ends
    removed (trimming it again changes nothing), with the usage data of the
    body and the model that was asked for. *)
Theorem prompt_result : forall texts apiKey model previousPrompt w n s res,
  let request := completionRequest apiKey model (join ", " (map text texts))
                   previousPrompt in
  let r := exec (generatePromptFromTexts texts apiKey model previousPrompt) w n s in
  completion r = Returned res ->
  events r = [Awaits (Fetch LlmApi request); Awaits ReadJson] /\
  (exists resp d content,
     reply w n (Fetch LlmApi request) = Fulfilled resp /\
     ok resp = true /\ data resp = Some d /\ llm_content d = Some content /\
     prompt res = trim content /\ usage res = llm_usage d) /\
  trim (prompt res) = prompt res /\
  Async.model res = model /\
  nonEmpty apiKey = true.
Proof.
  intros texts apiKey model previousPrompt w n s res request r. subst r.
  unfold generatePromptFromTexts.
  destruct (nonEmpty apiKey); cbn [negb]; [|discriminate]. cbv zeta.
  rewrite exec_tryCatch. fold request.
  unfold awaitFetch, awaitJson, awaitErrorJson. cbn [bind exec].
  destruct (reply w n (Fetch LlmApi request)) as [resp|e] eqn:Hr;
    cbn [settle bind exec]; cbn [Body] in *.
  2: { cbn [catchRun completion logged prepend exec emit bind]. discriminate. }
  destruct (ok resp) eqn:Hok; cbn [negb bind exec].
  - destruct (data resp) as [d|] eqn:Hd; cbn [bind exec].
    + destruct (llm_content d) as [content|] eqn:Hc;
        cbn [catchRun completion events logged prepend exec emit bind];
        [|discriminate].
      intros H. inversion H; subst res. cbn [prompt usage Async.model].
      split; [reflexivity|]. split; [exists resp, d, content; auto 10|].
      split; [apply trim_idempotent | auto].
    + cbn [catchRun completion logged prepend exec emit bind]. discriminate.
  - destruct (errorData resp) as [ed|];
      cbn [bind exec catchRun completion logged prepend emit]; discriminate.
Qed.

(** The prompt generator on the specification's scenario. *)
Lemma prompt_result_witness :
  events (exec (generatePromptFromTexts fireAndWater "sk-openai" "gpt-4o-mini" "A scene")
               (world (sunny 0 someSettings)) 0 initialState) =
  [Awaits (Fetch LlmApi
     (completionRequest "sk-openai" "gpt-4o-mini" "Fire, Water" "A scene"));
   Awaits ReadJson].
Proof.
  refine (proj1 (prompt_result fireAndWater "sk-openai" "gpt-4o-mini" "A scene"
                   (world (sunny 0 someSettings)) 0 initialState
                   {| prompt := "Steam rises..."; Async.model := "gpt-4o-mini";
                      usage := llm_usage steamCompletion |} _)).
  vm_compute. reflexivity.
Defined.

End PromptMore.

(* ===================================================================== *)
(** ** The trace client and the detached tracing tasks *)
(* ===================================================================== *)

Module TraceClientFacts.
Import JS WeaveShim Async ApiHandler Background WeaveClient TraceTask TraceShapes
  TraceScenario.
Import Shapes StringFacts SanitizerFacts.
Local Open Scope task_scope.

#[local] Arguments nonEmpty : simpl never.
#[local] Arguments btoa : simpl never.
#[local] Arguments sanitizeInputs : simpl never.
#[local] Arguments binaryString : simpl never.
#[local] Arguments traceImageType : simpl never.
#[local] Arguments truthyStr : simpl never.

(** *** The chunked conversion *)

Lemma skipn_past : forall (A : Type) (l : list A) n, length l <= n -> skipn n l = [].
Proof.
  intros A l n H. apply length_zero_iff_nil. rewrite length_skipn. lia.
Qed.

Lemma fromCharCode_app : forall a b,
  fromCharCode (a ++ b) = fromCharCode a ++ fromCharCode b.
Proof.
  induction a as [|c a IH]; intros b; [reflexivity|].
  cbn. unfold fromCharCode in IH. now rewrite IH.
Qed.

Lemma string_app_assoc : forall a b c : string, (a ++ b) ++ c = a ++ b ++ c.
Proof. induction a as [|x a IH]; intros; cbn; [reflexivity|]. now rewrite IH. Qed.

Lemma string_app_empty : forall a : string, a ++ "" = a.
Proof. induction a as [|x a IH]; cbn; [reflexivity|]. now rewrite IH. Qed.

(** The invariant of the loop: with enough iterations left, what is added to
    [binary] from the index [i] on is the rest of the bytes. *)
Lemma appendChunks_rest : forall fuel bytes i binary,
  (N.of_nat (length bytes) < i + N.of_nat fuel)%N ->
  appendChunks fuel bytes i binary = binary ++ fromCharCode (skipn (N.to_nat i) bytes).
Proof.
  induction fuel as [|fuel IH]; intros bytes i binary Hfuel.
  - cbn. rewrite skipn_past by lia. cbn. now rewrite string_app_empty.
  - cbn [appendChunks]. destruct (N.ltb_spec i (N.of_nat (length bytes))) as [Hlt|Hge].
    + cbv zeta. rewrite IH by (unfold chunkSize; lia).
      rewrite string_app_assoc. f_equal. rewrite <- fromCharCode_app. f_equal.
      unfold subarray.
      destruct (N.le_gt_cases (i + chunkSize) (N.of_nat (length bytes))) as [Hin|Hout].
      * rewrite N.min_l by exact Hin.
        replace (N.to_nat (i + chunkSize - i)) with (N.to_nat chunkSize) by lia.
        replace (N.to_nat (i + chunkSize)) with (N.to_nat chunkSize + N.to_nat i)%nat by lia.
        rewrite <- skipn_skipn. apply firstn_skipn.
      * rewrite N.min_r by lia.
        rewrite (skipn_past _ bytes (N.to_nat (i + chunkSize))) by lia.
        rewrite app_nil_r. apply firstn_all2. rewrite length_skipn. lia.
    + rewrite skipn_past by lia. cbn. now rewrite string_app_empty.
Qed.

Lemma btoa_empty : forall s, btoa s = "" <-> s = "".
Proof.
  intros s. split; [|intros ->; reflexivity].
  destruct s as [|a [|b [|c rest]]]; [reflexivity| | |]; cbn; discriminate.
Qed.

Lemma fromCharCode_empty : forall bytes, fromCharCode bytes = "" <-> bytes = [].
Proof.
  intros [|c bytes]; cbn; split; intros H; try reflexivity; discriminate.
Qed.

Lemma binaryString_whole : forall bytes, binaryString bytes = fromCharCode bytes.
Proof.
  intros bytes. unfold binaryString. rewrite appendChunks_rest by lia. reflexivity.
Qed.

(** Property X12. Reading the image in chunks of 32768 bytes changes
    nothing: the string handed to [btoa] holds every byte of the image once,
    in order, however long the image is; and the Base64 text is empty only
    for an empty image. *)
Theorem chunked_binary_is_whole : forall bytes,
  binaryString bytes = fromCharCode bytes /\
  (btoa (binaryString bytes) = "" <-> bytes = []).
Proof.
  intros bytes. split; [apply binaryString_whole|].
  rewrite binaryString_whole, btoa_empty. apply fromCharCode_empty.
Qed.

(** *** What the sanitizer leaves *)

Lemma sanitizeInputs_redacted : forall v, alreadyRedacted (sanitizeInputs v) = true.
Proof.
  induction v as [ | | b | n | s | elems IH | fields IH] using jsval_ind';
    try reflexivity.
  - change (sanitizeInputs (JArr elems)) with (JArr (map sanitizeInputs elems)).
    cbn [alreadyRedacted]. rewrite forallb_forall. intros x Hx.
    apply in_map_iff in Hx as (y & <- & Hy).
    rewrite Forall_forall in IH. now apply IH.
  - rewrite sanitizeInputs_obj. cbn [alreadyRedacted]. rewrite forallb_forall.
    intros [k v] Hin. apply in_map_iff in Hin as ([k0 v0] & Heq & Hin).
    apply filter_In in Hin as [Hin _].
    rewrite Forall_forall in IH. unfold sanitizeEntry in Heq.
    destruct (isSensitiveKey k0) eqn:Hk.
    + injection Heq as <- <-. now rewrite Hk.
    + destruct (typeofObject v0) eqn:Ht; injection Heq as <- <-; rewrite Hk.
      * apply (IH (k0, v0) Hin).
      * destruct v0; simpl in Ht; try discriminate; reflexivity.
Qed.

(** *** Effects and their projections *)

Lemma posts_app : forall a b, posts (a ++ b) = (posts a ++ posts b)%list.
Proof.
  induction a as [|[] a IH]; intros b; cbn; rewrite ?IH; reflexivity.
Qed.

Lemma imageFetches_app : forall a b,
  imageFetches (a ++ b) = (imageFetches a ++ imageFetches b)%list.
Proof.
  induction a as [|[] a IH]; intros b; cbn; rewrite ?IH; reflexivity.
Qed.

(** *** [apiCall] *)

(** The key as [apiCall] writes it into the credentials. *)
Lemma apiCall_shape : forall endpoint payload o s n,
  exists res effs,
    apiCall endpoint payload o s n =
      {| result := res; shim := s;
         asked := if truthyStr (_apiKey s) then S n else n; effects := effs |} /\
    posts effs =
      (if truthyStr (_apiKey s)
       then [(WEAVE_API_URL ++ endpoint,
              basicAuth (match _apiKey s with Some k => k | None => "" end), payload)]
       else []) /\
    imageFetches effs = [] /\
    (truthyStr (_apiKey s) = false -> res = Returned None /\ effs = []) /\
    (forall e, res = Threw e ->
       e = SyntaxError "Unexpected token" /\ truthyStr (_apiKey s) = true /\ garbles o) /\
    (truthyStr (_apiKey s) = true ->
     forall response,
       traceServer o n (WEAVE_API_URL ++ endpoint)
         (basicAuth (match _apiKey s with Some k => k | None => "" end)) payload =
       Fulfilled response ->
       trace_ok response = true ->
       res = match trace_json response with
             | Some data => Returned (Some data)
             | None => Threw (SyntaxError "Unexpected token")
             end).
Proof.
  intros endpoint payload o s n.
  unfold apiCall, andThen, getShim.
  destruct (truthyStr (_apiKey s)) eqn:Hkey; cbn [negb].
  2:{ exists (Returned None), []. unfold value.
      split; [reflexivity|]. split; [reflexivity|]. split; [reflexivity|].
      split; [auto|]. split; intros; discriminate. }
  unfold catch, andThen, post, settled, effect, value, throw, basicAuth.
  set (url := WEAVE_API_URL ++ endpoint).
  set (auth := "Basic " ++ btoa ("api:" ++ match _apiKey s with
                                           | Some k => k
                                           | None => ""
                                           end)).
  cbv zeta. fold url.
  destruct (traceServer o n url auth payload) as [response|err] eqn:Hreply.
  2:{ eexists _, _. split; [reflexivity|]. cbn [posts imageFetches app].
      split; [reflexivity|]. split; [reflexivity|].
      split; [intros; discriminate|]. split; intros; discriminate. }
  destruct (trace_ok response) eqn:Hok; cbn [negb].
  - destruct (trace_json response) as [data|] eqn:Hjson;
      eexists _, _; (split; [reflexivity|]); cbn [posts imageFetches app];
      (split; [reflexivity|]); (split; [reflexivity|]);
      (split; [intros; discriminate|]); split.
    + intros; discriminate.
    + intros Hk response' Hr' _. injection Hr' as <-. now rewrite Hjson.
    + intros e He. injection He as <-. split; [reflexivity|]. split; [reflexivity|].
      exists n, url, auth, payload, response. auto.
    + intros Hk response' Hr' _. injection Hr' as <-. now rewrite Hjson.
  - destruct (trace_text response) as [errorText|err];
      eexists _, _; (split; [reflexivity|]); cbn [posts imageFetches app];
      (split; [reflexivity|]); (split; [reflexivity|]);
      (split; [intros; discriminate|]); (split; [intros; discriminate|]);
      intros Hk response' Hr' Hok'; injection Hr' as <-; congruence.
Qed.

(** Replaces a call of [apiCall] in the goal by its outcome. *)
Ltac call_api :=
  match goal with
  | |- context [apiCall ?e ?p ?o ?s ?n] =>
      let res := fresh "res" in
      let effs := fresh "effs" in
      let Heq := fresh "Heq" in
      let Hposts := fresh "Hposts" in
      let Himg := fresh "Himg" in
      let Hoff := fresh "Hoff" in
      let Hthrow := fresh "Hthrow" in
      let Hon := fresh "Hon" in
      destruct (apiCall_shape e p o s n)
        as (res & effs & Heq & Hposts & Himg & Hoff & Hthrow & Hon);
      rewrite Heq; clear Heq
  end.

Ltac unfold_shim :=
  unfold startTrace, endTrace, startChildSpan, endChildSpan,
    andThen, catch, generateId, getShim, toISODateTime, now, setShim, value, throw,
    effect.

Lemma length_posts_if : forall (b : bool) (x : string * string * jsval),
  length (if b then [x] else []) <= 1.
Proof. intros [] x; cbn; lia. Qed.

(** *** Budgets *)

Lemma within_weaken : forall A a b a' b' (t : Task A),
  within a b t -> a <= a' -> b <= b' -> within a' b' t.
Proof.
  intros A a b a' b' t H Ha Hb o s n. specialize (H o s n). cbv zeta in *.
  destruct H as (H1 & H2 & H3 & H4). repeat split; auto; lia.
Qed.

Lemma within_value : forall A (a : A), within 0 0 (value a).
Proof. intros A a o s n. cbn. auto. Qed.

Lemma within_effect : forall label detail, within 0 0 (effect (Errored label detail)).
Proof. intros label detail o s n. cbn. auto. Qed.

Lemma within_andThen : forall A B a1 b1 a2 b2 (t : Task A) (k : A -> Task B),
  within a1 b1 t -> (forall x, within a2 b2 (k x)) ->
  within (a1 + a2) (b1 + b2) (andThen t k).
Proof.
  intros A B a1 b1 a2 b2 t k Ht Hk o s n. specialize (Ht o s n). cbv zeta in *.
  unfold andThen. destruct (t o s n) as [[x|e] s1 n1 effs1]; cbn in Ht |- *.
  - specialize (Hk x o s1 n1). cbv zeta in Hk.
    destruct (k x o s1 n1) as [res2 s2 n2 effs2]. cbn in Hk |- *.
    rewrite posts_app, imageFetches_app, !length_app.
    destruct Ht as (H1 & H2 & H3 & H4). destruct Hk as (K1 & K2 & K3 & K4).
    repeat split; try congruence; lia.
  - destruct Ht as (H1 & H2 & H3 & H4). repeat split; auto; lia.
Qed.

Lemma within_catch : forall A a1 b1 a2 b2 (t : Task A) (h : Exn -> Task A),
  within a1 b1 t -> (forall e, within a2 b2 (h e)) ->
  within (a1 + a2) (b1 + b2) (catch t h).
Proof.
  intros A a1 b1 a2 b2 t h Ht Hh o s n. specialize (Ht o s n). cbv zeta in *.
  unfold catch. destruct (t o s n) as [[x|e] s1 n1 effs1]; cbn in Ht |- *.
  - destruct Ht as (H1 & H2 & H3 & H4). repeat split; auto; lia.
  - specialize (Hh e o s1 n1). cbv zeta in Hh.
    destruct (h e o s1 n1) as [res2 s2 n2 effs2]. cbn in Hh |- *.
    rewrite posts_app, imageFetches_app, !length_app.
    destruct Ht as (H1 & H2 & H3 & H4). destruct Hh as (K1 & K2 & K3 & K4).
    repeat split; try congruence; lia.
Qed.

Ltac budget_done Hposts Himg :=
  cbn [shim effects app _apiKey _projectId];
  rewrite ?posts_app, ?imageFetches_app, ?Hposts, ?Himg;
  cbn [posts imageFetches app]; rewrite ?app_nil_r;
  repeat split; try reflexivity; try apply length_posts_if; cbn; lia.

Lemma within_apiCall : forall endpoint payload, within 1 0 (apiCall endpoint payload).
Proof.
  intros endpoint payload o s n.
  destruct (apiCall_shape endpoint payload o s n)
    as (res & effs & -> & Hposts & Himg & _).
  budget_done Hposts Himg.
Qed.

Lemma within_startTrace : forall name inputs, within 1 0 (startTrace name inputs).
Proof.
  intros name inputs o s n. unfold_shim. call_api.
  destruct res as [data|e]; budget_done Hposts Himg.
Qed.

Lemma within_startChildSpan : forall name inputs parentContext,
  within 1 0 (startChildSpan name inputs parentContext).
Proof.
  intros name inputs parentContext o s n.
  unfold startChildSpan, andThen, getShim.
  destruct (parentOf parentContext s) as [parent|].
  - unfold_shim. call_api.
    destruct res as [data|e]; budget_done Hposts Himg.
  - pose proof (within_startTrace name (orDefault inputs (JObj [])) o s n) as H.
    cbv zeta in H.
    unfold effect.
    destruct (startTrace name (orDefault inputs (JObj [])) o s n) as [res s1 n1 effs1].
    cbn in H |- *. exact H.
Qed.

Lemma within_endChildSpan : forall context output usage,
  within 1 0 (endChildSpan context output usage).
Proof.
  intros context output usage o s n. unfold_shim. call_api.
  destruct res as [data|e]; budget_done Hposts Himg.
Qed.

Lemma within_endTrace : forall context output summary,
  within 1 0 (endTrace context output summary).
Proof.
  intros context output summary o s n. unfold_shim. call_api.
  destruct res as [data|e]; [destruct (isActive s context)|];
    budget_done Hposts Himg.
Qed.

(** *** The detached tasks *)

(** The image requests that a detached task makes for a result. *)
Lemma traceImage_shape : forall imageResult o s n,
  exists traced effs m,
    traceImage imageResult o s n =
      {| result := Returned traced; shim := s; asked := m; effects := effs |} /\
    posts effs = [] /\
    imageFetches effs =
      (if negb (truthyStr (img_base64 imageResult)) && nonEmpty (img_url imageResult)
       then [img_url imageResult] else []) /\
    (truthyStr (img_base64 imageResult) = true ->
     traced = (img_base64 imageResult, img_imageType imageResult) /\ effs = []) /\
    (truthyStr (img_base64 imageResult) = false ->
     nonEmpty (img_url imageResult) = true ->
     forall response bytes,
       imageServer o n (img_url imageResult) = Fulfilled response ->
       image_ok response = true ->
       image_arrayBuffer response = Fulfilled bytes ->
       traced =
         (Some (btoa (fromCharCode bytes)),
          traceImageType
            (match image_contentType response with
             | Some c => if nonEmpty c then c else ""
             | None => ""
             end)
            (img_url imageResult))).
Proof.
  intros imageResult o s n. unfold traceImage.
  destruct (truthyStr (img_base64 imageResult)) eqn:Hb; cbn [negb andb].
  { unfold value. eexists _, _, _. split; [reflexivity|]. cbn.
    repeat split; auto; intros; discriminate. }
  destruct (nonEmpty (img_url imageResult)) eqn:Hu.
  2:{ unfold value. eexists _, _, _. split; [reflexivity|]. cbn.
      repeat split; auto; intros; discriminate. }
  unfold fetchForTrace, catch, andThen, fetchImage, settled, effect, value, throw.
  destruct (imageServer o n (img_url imageResult)) as [response|err] eqn:Hreply.
  2:{ eexists _, _, _. split; [reflexivity|]. cbn.
      repeat split; auto; intros; discriminate. }
  destruct (image_ok response) eqn:Hok.
  2:{ eexists _, _, _. split; [reflexivity|]. cbn.
      repeat split; auto; try (intros; discriminate).
      intros _ _ response' bytes Hr' Hok'. injection Hr' as <-. congruence. }
  destruct (image_arrayBuffer response) as [bytes|err] eqn:Hbuf.
  2:{ eexists _, _, _. split; [reflexivity|]. cbn.
      repeat split; auto; try (intros; discriminate).
      intros _ _ response' bytes Hr' _ Hbuf'. injection Hr' as <-. congruence. }
  eexists _, _, _. split; [reflexivity|]. cbn.
  repeat split; auto; try (intros; discriminate).
  intros _ _ response' bytes' Hr' _ Hbuf'. injection Hr' as <-.
  rewrite Hbuf in Hbuf'. injection Hbuf' as <-.
  now rewrite binaryString_whole.
Qed.

(** A task made like the detached ones: the image first, then requests to
    the trace server only, everything inside one [try] whose [catch] prints
    the error. *)
Lemma detached_shape :
  forall imageResult (k : option string * string -> Task unit) label budget,
    (forall traced, within budget 0 (k traced)) ->
    forall o s n,
      let t := catch (andThen (traceImage imageResult) k)
                 (fun traceError => effect (Errored label (Thrown traceError))) o s n in
      returned t = true /\
      _apiKey (shim t) = _apiKey s /\
      _projectId (shim t) = _projectId s /\
      length (posts (effects t)) <= budget /\
      imageFetches (effects t) =
        (if negb (truthyStr (img_base64 imageResult)) && nonEmpty (img_url imageResult)
         then [img_url imageResult] else []).
Proof.
  intros imageResult k label budget Hk o s n.
  destruct (traceImage_shape imageResult o s n)
    as (traced & effs & m & Heq & Hposts & Himg & _).
  unfold catch, andThen. rewrite Heq.
  specialize (Hk traced o s m). cbv zeta in Hk.
  destruct (k traced o s m) as [[[]|e] s1 n1 effs1]; cbn in Hk;
    destruct Hk as (K1 & K2 & K3 & K4);
    unfold effect, returned; cbn [result shim asked effects];
    rewrite ?posts_app, ?imageFetches_app, ?length_app, Hposts, Himg;
    apply Nat.le_0_r, length_zero_iff_nil in K4; rewrite K4;
    cbn [posts imageFetches app length]; rewrite ?app_nil_r;
    repeat split; auto; lia.
Qed.

Lemma within_update_spans :
  forall texts settings (llmResult : PromptResult) (imageResult : ImageResult)
         traceContext traced,
    within 5 0
      (let traceBase64 := fst traced in
       let traceImageType := snd traced in
       let messages :=
         JArr [JObj [("role", JStr "system"); ("content", JStr tracerPrompt)];
               JObj [("role", JStr "user");
                     ("content", JStr ("Elements: " ++ join ", " (map text texts)))]] in
       llmContext <- startChildSpan "llm_completion"
                       (JObj [("messages", messages);
                              ("model", JStr (llmModel settings))])
                       (Some traceContext) ;;
       endChildSpan llmContext
         (JObj [("choices",
                 JArr [JObj [("message",
                              JObj [("content", JStr (prompt llmResult))])]])])
         (match usage llmResult with
          | Some u => usageOf (llmModel settings) u
          | None => JNull
          end) ;;
       imgContext <- startChildSpan "image_generation"
                       (JObj [("prompt", JStr (prompt llmResult));
                              ("model", JStr (imageModel settings))])
                       (Some traceContext) ;;
       endChildSpan imgContext
         (JObj ([("model", JStr (imageModel settings));
                 ("image_url", JStr (img_url imageResult))] ++
                imageEntry traceBase64 traceImageType))
         JNull ;;
       endTrace traceContext
         (JObj ([("prompt", JStr (prompt llmResult));
                 ("image_model", JStr (imageModel settings))] ++
                imageEntry traceBase64 traceImageType))
         (JObj [("usage",
                 match usage llmResult with
                 | Some u => usageOf (llmModel settings) u
                 | None => JObj []
                 end)])).
Proof.
  intros. cbv zeta.
  apply (within_weaken _ (1 + (1 + (1 + (1 + 1)))) (0 + (0 + (0 + (0 + 0)))));
    [|lia|lia].
  apply within_andThen; [apply within_startChildSpan|intros llmContext].
  apply within_andThen; [apply within_endChildSpan|intros _].
  apply within_andThen; [apply within_startChildSpan|intros imgContext].
  apply within_andThen; [apply within_endChildSpan|intros _].
  apply within_endTrace.
Qed.

Lemma within_regenerate_spans :
  forall settings lastGeneratedPrompt (imageResult : ImageResult) traceContext traced,
    within 3 0
      (let traceBase64 := fst traced in
       let traceImageType := snd traced in
       imgContext <- startChildSpan "image_generation"
                       (JObj [("prompt", JStr lastGeneratedPrompt);
                              ("model", JStr (imageModel settings))])
                       (Some traceContext) ;;
       endChildSpan imgContext
         (JObj ([("model", JStr (imageModel settings));
                 ("image_url", JStr (img_url imageResult))] ++
                imageEntry traceBase64 traceImageType))
         JNull ;;
       endTrace traceContext
         (JObj ([("image_model", JStr (imageModel settings))] ++
                imageEntry traceBase64 traceImageType))
         (JObj [])).
Proof.
  intros. cbv zeta.
  apply (within_weaken _ (1 + (1 + 1)) (0 + (0 + 0))); [|lia|lia].
  apply within_andThen; [apply within_startChildSpan|intros imgContext].
  apply within_andThen; [apply within_endChildSpan|intros _].
  apply within_endTrace.
Qed.

(** Property X13. The two detached tracing tasks are contained: whatever the
    trace server and the image server answer, each of them ends without an
    exception, leaves the key and the project of the shim as they are, and
    sends the trace server at most five requests (three for a regeneration).
    It requests the image exactly when the client delivered no Base64 data
    and the URL is not empty, and then once. *)
Theorem detached_tracing_is_contained :
  forall texts settings llmResult lastGeneratedPrompt imageResult traceContext o s n,
    let u := updateTraceTask texts settings llmResult imageResult traceContext o s n in
    let g := regenerateTraceTask settings lastGeneratedPrompt imageResult traceContext
               o s n in
    let fetched :=
      if negb (truthyStr (img_base64 imageResult)) && nonEmpty (img_url imageResult)
      then [img_url imageResult] else [] in
    (returned u = true /\
     _apiKey (shim u) = _apiKey s /\ _projectId (shim u) = _projectId s /\
     length (posts (effects u)) <= 5 /\ imageFetches (effects u) = fetched) /\
    (returned g = true /\
     _apiKey (shim g) = _apiKey s /\ _projectId (shim g) = _projectId s /\
     length (posts (effects g)) <= 3 /\ imageFetches (effects g) = fetched).
Proof.
  intros texts settings llmResult lastGeneratedPrompt imageResult traceContext o s n.
  cbv zeta. split.
  - unfold updateTraceTask. cbv zeta.
    apply (detached_shape imageResult _ "[Weave] Background tracing error:" 5).
    intros traced.
    apply (within_update_spans texts settings llmResult imageResult traceContext traced).
  - unfold regenerateTraceTask.
    apply (detached_shape imageResult _ "[Weave] Regenerate tracing error:" 3).
    intros traced.
    apply (within_regenerate_spans settings lastGeneratedPrompt imageResult
             traceContext traced).
Qed.

(** *** Without a key *)

Lemma silent_andThen : forall A B (t : Task A) (k : A -> Task B),
  silentWithoutKey t -> (forall x, silentWithoutKey (k x)) ->
  silentWithoutKey (andThen t k).
Proof.
  intros A B t k Ht Hk o s n Hoff. specialize (Ht o s n Hoff). cbv zeta in *.
  unfold andThen, returned in *.
  destruct (t o s n) as [[x|e] s1 n1 effs1]; cbn in Ht |- *;
    destruct Ht as (H1 & H2 & H3); [|discriminate].
  assert (Hoff1 : truthyStr (_apiKey s1) = false) by (now rewrite H3).
  specialize (Hk x o s1 n1 Hoff1). cbv zeta in Hk. unfold returned in Hk.
  destruct (k x o s1 n1) as [res2 s2 n2 effs2]. cbn in Hk |- *.
  destruct Hk as (K1 & K2 & K3).
  rewrite posts_app, H2, K2. repeat split; auto; congruence.
Qed.

Lemma silent_catch : forall A (t : Task A) (h : Exn -> Task A),
  silentWithoutKey t -> silentWithoutKey (catch t h).
Proof.
  intros A t h Ht o s n Hoff. specialize (Ht o s n Hoff). cbv zeta in *.
  unfold catch, returned in *.
  destruct (t o s n) as [[x|e] s1 n1 effs1]; cbn in Ht |- *;
    destruct Ht as (H1 & H2 & H3); [auto|discriminate].
Qed.

Lemma silent_startTrace : forall name inputs, silentWithoutKey (startTrace name inputs).
Proof.
  intros name inputs o s n Hoff. unfold_shim. call_api.
  destruct (Hoff0 Hoff) as [-> ->]. cbn. auto.
Qed.

Lemma silent_startChildSpan : forall name inputs parentContext,
  silentWithoutKey (startChildSpan name inputs parentContext).
Proof.
  intros name inputs parentContext o s n Hoff.
  unfold startChildSpan, andThen, getShim.
  destruct (parentOf parentContext s) as [parent|].
  - unfold_shim. call_api. destruct (Hoff0 Hoff) as [-> ->]. cbn. auto.
  - pose proof (silent_startTrace name (orDefault inputs (JObj [])) o s n Hoff) as H.
    cbv zeta in H.
    unfold effect, returned in *.
    destruct (startTrace name (orDefault inputs (JObj [])) o s n) as [res s1 n1 effs1].
    cbn in H |- *. exact H.
Qed.

Lemma silent_endChildSpan : forall context output usage,
  silentWithoutKey (endChildSpan context output usage).
Proof.
  intros context output usage o s n Hoff. unfold_shim. call_api.
  destruct (Hoff0 Hoff) as [-> ->]. cbn. auto.
Qed.

Lemma silent_endTrace : forall context output summary,
  silentWithoutKey (endTrace context output summary).
Proof.
  intros context output summary o s n Hoff. unfold_shim. call_api.
  destruct (Hoff0 Hoff) as [-> ->]. destruct (isActive s context); cbn; auto.
Qed.

Lemma silent_traceImage : forall imageResult, silentWithoutKey (traceImage imageResult).
Proof.
  intros imageResult o s n Hoff.
  destruct (traceImage_shape imageResult o s n)
    as (traced & effs & m & -> & Hposts & _).
  cbn. auto.
Qed.

(** Property X14. A shim without a key sends the trace server nothing.
    Started with [_apiKey] unset or empty, [startTrace], [startChildSpan],
    [endChildSpan], [endTrace] and the two detached tasks all return without
    a single request to the trace server and leave the key as it is;
    [startTrace] still hands out a context, made of the identifiers it
    generated itself. (The detached tasks still request the image when the
    client delivered no Base64 data.) *)
Theorem disabled_client_sends_nothing :
  forall name inputs parentContext context output usage summary
         texts settings llmResult lastGeneratedPrompt imageResult traceContext,
    silentWithoutKey (startTrace name inputs) /\
    silentWithoutKey (startChildSpan name inputs parentContext) /\
    silentWithoutKey (endChildSpan context output usage) /\
    silentWithoutKey (endTrace context output summary) /\
    silentWithoutKey
      (updateTraceTask texts settings llmResult imageResult traceContext) /\
    silentWithoutKey
      (regenerateTraceTask settings lastGeneratedPrompt imageResult traceContext) /\
    (forall o s n,
       truthyStr (_apiKey s) = false ->
       result (startTrace name inputs o s n) =
       Returned {| ctx_callId := randomUUID o n;
                   ctx_traceId := randomUUID o (S n);
                   ctx_parentId := None;
                   ctx_name := name;
                   ctx_startTime := dateNow o (S (S (S n))) |}).
Proof.
  intros. split; [apply silent_startTrace|]. split; [apply silent_startChildSpan|].
  split; [apply silent_endChildSpan|]. split; [apply silent_endTrace|].
  split; [|split].
  - unfold updateTraceTask. cbv zeta. apply silent_catch.
    apply silent_andThen; [apply silent_traceImage|intros traced].
    apply silent_andThen; [apply silent_startChildSpan|intros llmContext].
    apply silent_andThen; [apply silent_endChildSpan|intros _].
    apply silent_andThen; [apply silent_startChildSpan|intros imgContext].
    apply silent_andThen; [apply silent_endChildSpan|intros _].
    apply silent_endTrace.
  - unfold regenerateTraceTask. apply silent_catch.
    apply silent_andThen; [apply silent_traceImage|intros traced].
    apply silent_andThen; [apply silent_startChildSpan|intros imgContext].
    apply silent_andThen; [apply silent_endChildSpan|intros _].
    apply silent_endTrace.
  - intros o s n Hoff. unfold_shim. call_api.
    destruct (Hoff0 Hoff) as [-> ->]. rewrite Hoff. reflexivity.
Qed.

(** *** What the client throws *)

Lemma garbled_startTrace : forall name inputs, throwsOnlyGarbled (startTrace name inputs).
Proof.
  intros name inputs o s n e. unfold_shim. call_api.
  destruct res as [data|e']; cbn [result]; [discriminate|].
  intros He. injection He as <-. now apply Hthrow.
Qed.

Lemma garbled_startChildSpan : forall name inputs parentContext,
  throwsOnlyGarbled (startChildSpan name inputs parentContext).
Proof.
  intros name inputs parentContext o s n e.
  unfold startChildSpan, andThen, getShim.
  destruct (parentOf parentContext s) as [parent|].
  - unfold_shim. call_api.
    destruct res as [data|e']; cbn [result]; [discriminate|].
    intros He. injection He as <-. now apply Hthrow.
  - pose proof (garbled_startTrace name (orDefault inputs (JObj [])) o s n e) as H.
    unfold effect.
    destruct (startTrace name (orDefault inputs (JObj [])) o s n) as [res s1 n1 effs1].
    cbn in H |- *. exact H.
Qed.

Lemma garbled_endChildSpan : forall context output usage,
  throwsOnlyGarbled (endChildSpan context output usage).
Proof.
  intros context output usage o s n e. unfold_shim. call_api.
  destruct res as [data|e']; cbn [result]; [discriminate|].
  intros He. injection He as <-. now apply Hthrow.
Qed.

Lemma garbled_endTrace : forall context output summary,
  throwsOnlyGarbled (endTrace context output summary).
Proof.
  intros context output summary o s n e. unfold_shim. call_api.
  destruct res as [data|e']; cbn [result].
  - destruct (isActive s context); cbn [result]; discriminate.
  - intros He. injection He as <-. now apply Hthrow.
Qed.

(** A call of [apiCall] whose answer is [ok] with a body that does not
    parse. *)
Ltac garble_api Hall :=
  match goal with
  | |- context [apiCall ?e ?p ?o ?s ?n] =>
      let res := fresh "res" in
      let effs := fresh "effs" in
      let Heq := fresh "Heq" in
      let Hon := fresh "Hon" in
      let response := fresh "response" in
      let Hr := fresh "Hr" in
      let Hok := fresh "Hok" in
      let Hjson := fresh "Hjson" in
      destruct (apiCall_shape e p o s n) as (res & effs & Heq & _ & _ & _ & _ & Hon);
      rewrite Heq; clear Heq;
      match type of Hon with
      | _ -> forall r, traceServer ?o' ?m ?url ?auth ?pay = _ -> _ =>
          destruct (Hall m url auth pay) as (response & Hr & Hok & Hjson)
      end;
      rewrite (Hon ltac:(assumption) response Hr Hok), Hjson
  end.

(** Property X15. A failure of the trace server does not reach the caller of
    the client, with one exception. [startTrace], [startChildSpan],
    [endChildSpan] and [endTrace] throw only when the shim has a key and the
    trace server answers a request with a response that is [ok] and whose
    body does not parse; what they throw then is the error of [json()]. A
    rejected request and a response that is not [ok] are printed and
    swallowed. The exception is real: with a key and a trace server that
    answers every request that way, each of the four throws. *)
Theorem client_throws_only_garbled :
  forall name inputs parentContext context output usage summary,
    (throwsOnlyGarbled (startTrace name inputs) /\
     throwsOnlyGarbled (startChildSpan name inputs parentContext) /\
     throwsOnlyGarbled (endChildSpan context output usage) /\
     throwsOnlyGarbled (endTrace context output summary)) /\
    (forall o s n,
       truthyStr (_apiKey s) = true ->
       (forall m url authorization payload,
          exists response,
            traceServer o m url authorization payload = Fulfilled response /\
            trace_ok response = true /\ trace_json response = None) ->
       returned (startTrace name inputs o s n) = false /\
       returned (startChildSpan name inputs parentContext o s n) = false /\
       returned (endChildSpan context output usage o s n) = false /\
       returned (endTrace context output summary o s n) = false).
Proof.
  intros. split.
  - split; [apply garbled_startTrace|]. split; [apply garbled_startChildSpan|].
    split; [apply garbled_endChildSpan|apply garbled_endTrace].
  - intros o s n Hkey Hall.
    assert (Hstart : forall given, returned (startTrace name given o s n) = false).
    { intros given. unfold_shim. garble_api Hall. reflexivity. }
    split; [apply Hstart|]. split; [|split].
    + unfold startChildSpan, andThen, getShim.
      destruct (parentOf parentContext s) as [parent|].
      * unfold_shim. garble_api Hall. reflexivity.
      * specialize (Hstart (orDefault inputs (JObj []))).
        unfold effect, returned in *.
        destruct (startTrace name (orDefault inputs (JObj [])) o s n)
          as [res s1 n1 effs1].
        cbn in Hstart |- *. exact Hstart.
    + unfold_shim. garble_api Hall. reflexivity.
    + unfold_shim. garble_api Hall. reflexivity.
Qed.

(** *** Spans and their parents *)

(** The field of a payload that starts a call. *)
Lemma child_payload_fields :
  forall projectId callId traceId parentId name startedAt inputs,
    let payload :=
      JObj [("start",
             JObj [("project_id", projectId);
                   ("id", JStr callId);
                   ("trace_id", JStr traceId);
                   ("parent_id", JStr parentId);
                   ("op_name", JStr name);
                   ("started_at", JStr startedAt);
                   ("inputs", inputs);
                   ("attributes", JObj [])])] in
    atPath payload [Key "start"; Key "trace_id"] = Some (JStr traceId) /\
    atPath payload [Key "start"; Key "parent_id"] = Some (JStr parentId) /\
    wireInputs payload = Some inputs.
Proof. intros. repeat split. Qed.

Lemma root_payload_fields :
  forall projectId callId traceId name startedAt inputs,
    let payload :=
      JObj [("start",
             JObj [("project_id", projectId);
                   ("id", JStr callId);
                   ("trace_id", JStr traceId);
                   ("op_name", JStr name);
                   ("started_at", JStr startedAt);
                   ("inputs", inputs);
                   ("attributes", JObj [])])] in
    atPath payload [Key "start"; Key "parent_id"] = None /\
    wireInputs payload = Some inputs.
Proof. intros. repeat split. Qed.

(** Property X16. A child span belongs to its parent. When [startChildSpan]
    returns a context, the parent is the context it was given or, if it was
    given none, the active trace: the child carries the trace id of the
    parent and the call id of the parent as its parent id, whatever the
    trace server answered, the request that starts it says the same, and the
    active trace is left as it is. With neither a parent nor an active trace
    the span is started on its own, as a root: it has no parent id and
    becomes the active trace. *)
Theorem child_span_lineage :
  forall name inputs parentContext o s n child,
    let r := startChildSpan name inputs parentContext o s n in
    result r = Returned child ->
    ctx_name child = name /\
    match parentOf parentContext s with
    | Some parent =>
        ctx_traceId child = ctx_traceId parent /\
        ctx_parentId child = Some (ctx_callId parent) /\
        _activeTrace (shim r) = _activeTrace s /\
        Forall (fun request =>
                  atPath (snd request) [Key "start"; Key "trace_id"] =
                    Some (JStr (ctx_traceId parent)) /\
                  atPath (snd request) [Key "start"; Key "parent_id"] =
                    Some (JStr (ctx_callId parent)))
               (posts (effects r))
    | None =>
        ctx_parentId child = None /\
        _activeTrace (shim r) = Some child /\
        Forall (fun request =>
                  atPath (snd request) [Key "start"; Key "parent_id"] = None)
               (posts (effects r))
    end.
Proof.
  intros name inputs parentContext o s n child.
  unfold startChildSpan, andThen, getShim.
  destruct (parentOf parentContext s) as [parent|].
  - unfold_shim. call_api.
    destruct res as [data|e]; cbn [result shim effects app]; [|discriminate].
    intros H. injection H as <-. cbn [ctx_name ctx_traceId ctx_parentId].
    rewrite ?app_nil_r, Hposts.
    repeat split. destruct (truthyStr (_apiKey s)); constructor; [|constructor].
    cbn [snd]. split; reflexivity.
  - unfold_shim. call_api.
    destruct res as [data|e]; cbn [result shim effects app]; [|discriminate].
    intros H. injection H as <-. cbn [ctx_name ctx_traceId ctx_parentId _activeTrace].
    rewrite ?app_nil_r. cbn [posts]. rewrite Hposts.
    repeat split. destruct (truthyStr (_apiKey s)); constructor; [|constructor].
    reflexivity.
Qed.

Lemma healthy_parses : ~ garbles healthy.
Proof.
  intros (m & url & auth & payload & response & Hr & _ & Hjson).
  cbn in Hr. injection Hr as <-. discriminate.
Qed.

Lemma child_span_lineage_witness :
  exists child,
    result (startChildSpan "image_generation" (JObj []) (Some rootContext)
              healthy enabled 0) = Returned child /\
    ctx_traceId child = "trace-root" /\ ctx_parentId child = Some "call-root".
Proof.
  eexists. split; [reflexivity|].
  pose proof (child_span_lineage "image_generation" (JObj []) (Some rootContext)
                healthy enabled 0 _ eq_refl) as H.
  cbv zeta in H. destruct H as (_ & Ht & Hp & _). split; [exact Ht|exact Hp].
Defined.

Lemma end_payload_id : forall projectId callId endedAt output summary,
  atPath (endPayload projectId callId endedAt output summary) [Key "end"; Key "id"] =
  Some (JStr callId).
Proof. reflexivity. Qed.

(** Property X17. The active trace from start to end. When [startTrace]
    returns a context, that context is the active trace. Ending it with
    [endTrace] names, in the request, the call by the id of the context (the
    one the trace server gave when it gave one), and once [endTrace] returns
    there is no active trace any more. Ending a context with another call id
    leaves the active trace in place. *)
Theorem active_trace_lifecycle :
  forall name inputs output summary o s n root,
    let started := startTrace name inputs o s n in
    result started = Returned root ->
    _activeTrace (shim started) = Some root /\
    (forall o' m,
       let ended := endTrace root output summary o' (shim started) m in
       (returned ended = true -> _activeTrace (shim ended) = None) /\
       Forall (fun request =>
                 atPath (snd request) [Key "end"; Key "id"] =
                 Some (JStr (ctx_callId root)))
              (posts (effects ended))) /\
    (forall other o' m,
       ctx_callId other <> ctx_callId root ->
       _activeTrace (shim (endTrace other output summary o' (shim started) m)) =
       Some root).
Proof.
  intros name inputs output summary o s n root. cbv zeta.
  unfold startTrace, andThen, generateId, getShim, toISODateTime, now, setShim, value.
  call_api.
  destruct res as [data|e]; cbn [result shim]; [|discriminate].
  intros H. injection H as H. rewrite H. clear Hposts Himg Hoff Hthrow Hon.
  split; [reflexivity|]. split.
  - intros o' m. unfold_shim. call_api. unfold isActive, returned.
    cbn [_activeTrace _apiKey _projectId].
    rewrite String.eqb_refl.
    destruct res as [data'|e]; cbn [result shim effects app _activeTrace];
      rewrite ?app_nil_r, Hposts;
      (split; [intros; reflexivity || discriminate|]);
      destruct (truthyStr _); constructor; try constructor; apply end_payload_id.
  - intros other o' m Hother. unfold_shim. call_api. unfold isActive.
    cbn [_activeTrace _apiKey _projectId].
    assert (Hneq : String.eqb (ctx_callId root) (ctx_callId other) = false).
    { apply String.eqb_neq. congruence. }
    rewrite Hneq. destruct res as [data'|e]; reflexivity.
Qed.

Lemma active_trace_lifecycle_witness :
  exists root,
    result (startTrace "generate_creative_image" (JObj []) healthy enabled 0) =
      Returned root /\
    _activeTrace (shim (startTrace "generate_creative_image" (JObj [])
                          healthy enabled 0)) = Some root.
Proof.
  eexists. split; [reflexivity|].
  exact (proj1 (active_trace_lifecycle "generate_creative_image" (JObj [])
                  (JObj []) (JObj []) healthy enabled 0 _ eq_refl)).
Defined.

(** *** What leaves the browser when a span is started *)

(** Property X18. The inputs of a span never leave the browser unsanitized.
    Every request that [startTrace] or [startChildSpan] sends goes to
    [/call/start] of the trace server with the credentials made from the
    key, and the [inputs] it carries are the sanitized ones (those of the
    empty object when none were given): no sensitive key in them, at any
    depth the sanitizer reaches, holds anything but the marker. *)
Theorem span_inputs_leave_sanitized :
  forall name inputs parentContext o s n,
    let onTheWire (request : string * string * jsval) :=
      fst (fst request) = WEAVE_API_URL ++ "/call/start" /\
      snd (fst request) =
        basicAuth (match _apiKey s with Some k => k | None => "" end) /\
      exists sent,
        wireInputs (snd request) = Some sent /\
        sent = sanitizeInputs (orDefault inputs (JObj [])) /\
        alreadyRedacted sent = true in
    Forall onTheWire (posts (effects (startTrace name inputs o s n))) /\
    Forall onTheWire
      (posts (effects (startChildSpan name inputs parentContext o s n))).
Proof.
  intros name inputs parentContext o s n onTheWire.
  assert (Hroot : forall given,
            orDefault given (JObj []) = orDefault inputs (JObj []) ->
            Forall onTheWire (posts (effects (startTrace name given o s n)))).
  { intros given Hgiven. unfold_shim. cbv zeta. rewrite Hgiven. call_api.
    destruct res as [data|e]; cbn [effects app]; rewrite ?app_nil_r, Hposts;
      (destruct (truthyStr (_apiKey s)); [apply Forall_cons; [|apply Forall_nil]
                                         |apply Forall_nil]);
      (split; [reflexivity|]); (split; [reflexivity|]);
      exists (sanitizeInputs (orDefault inputs (JObj [])));
      (split; [reflexivity|]); (split; [reflexivity|]); apply sanitizeInputs_redacted. }
  split; [apply Hroot; reflexivity|].
  unfold startChildSpan, andThen, getShim. cbv zeta.
  destruct (parentOf parentContext s) as [parent|].
  - unfold_shim. call_api.
    destruct res as [data|e]; cbn [effects app]; rewrite ?app_nil_r, Hposts;
      (destruct (truthyStr (_apiKey s)); [apply Forall_cons; [|apply Forall_nil]
                                         |apply Forall_nil]);
      (split; [reflexivity|]); (split; [reflexivity|]);
      exists (sanitizeInputs (orDefault inputs (JObj [])));
      (split; [reflexivity|]); (split; [reflexivity|]); apply sanitizeInputs_redacted.
  - specialize (Hroot (orDefault inputs (JObj []))). unfold effect.
    destruct (startTrace name (orDefault inputs (JObj [])) o s n) as [res s1 n1 effs1].
    cbn [effects app posts] in Hroot |- *. apply Hroot.
    destruct inputs; reflexivity.
Qed.

(** *** The wrapper [op] *)

(** Property X19. The wrapper is transparent as long as the trace server
    does not answer [ok] with a body that does not parse: the function [op]
    returns then ends exactly as the wrapped function ends, with the same
    value or the same exception, the wrapped function being run once the
    span is started. *)
Theorem tracedOp_transparent :
  forall name func args o s n,
    ~ garbles o ->
    let started :=
      startChildSpan name (JObj [("args", sanitizeInputs (JArr args))]) None o s n in
    result (tracedOp name func args o s n) =
    result (func args o (shim started) (asked started)).
Proof.
  intros name func args o s n Hparses. cbv zeta.
  unfold tracedOp. unfold andThen at 1.
  pose proof (garbled_startChildSpan name
                (JObj [("args", sanitizeInputs (JArr args))]) None o s n) as Hstart.
  destruct (startChildSpan name (JObj [("args", sanitizeInputs (JArr args))]) None o s n)
    as [[context|e] s1 n1 effs1]; cbn [result shim asked] in *.
  2:{ exfalso. apply Hparses. now apply (Hstart e). }
  unfold catch. unfold andThen at 1.
  destruct (func args o s1 n1) as [[v|e] s2 n2 effs2]; cbn [result].
  - unfold andThen.
    pose proof (garbled_endChildSpan context v JNull o s2 n2) as Hend.
    destruct (endChildSpan context v JNull o s2 n2) as [[[]|e] s3 n3 effs3];
      cbn [result] in *.
    + reflexivity.
    + exfalso. apply Hparses. now apply (Hend e).
  - unfold andThen, getShim, toISODateTime, throw. call_api.
    destruct res as [data|e']; cbn [result]; [reflexivity|].
    exfalso. apply Hparses. now apply (Hthrow e').
Qed.

Lemma tracedOp_transparent_witness :
  ~ garbles healthy /\
  result (tracedOp "describe" (fun _ => throw (Error "no scene")) [JStr "fire"]
            healthy enabled 0) = Threw (Error "no scene").
Proof.
  split; [exact healthy_parses|].
  exact (tracedOp_transparent "describe" (fun _ => throw (Error "no scene"))
           [JStr "fire"] healthy enabled 0 healthy_parses).
Defined.

Lemma result_andThen : forall A B (t : Task A) (k : A -> Task B) o s n,
  result (andThen t k o s n) =
  match result (t o s n) with
  | Returned a => result (k a o (shim (t o s n)) (asked (t o s n)))
  | Threw e => Threw e
  end.
Proof.
  intros. unfold andThen. destruct (t o s n) as [[a|e] s1 n1 effs1]; cbn [result shim asked].
  - destruct (k a o s1 n1). reflexivity.
  - reflexivity.
Qed.

Lemma result_catch : forall A (t : Task A) (h : Exn -> Task A) o s n,
  result (catch t h o s n) =
  match result (t o s n) with
  | Returned a => Returned a
  | Threw e => result (h e o (shim (t o s n)) (asked (t o s n)))
  end.
Proof.
  intros. unfold catch. destruct (t o s n) as [[a|e] s1 n1 effs1]; cbn [result shim asked].
  - reflexivity.
  - destruct (h e o s1 n1). reflexivity.
Qed.

Lemma llmReport_shape : forall model v o s n,
  exists res,
    llmReport model v o s n =
      {| result := res; shim := s; asked := n; effects := [] |} /\
    match v with
    | JNull => res = Threw (TypeError "Cannot read properties of null (reading 'prompt')")
    | JUndefined => res = Threw (TypeError "Cannot read properties of undefined (reading 'prompt')")
    | _ => exists report, res = Returned report
    end.
Proof.
  intros model v o s n. unfold llmReport, readProp, andThen, value, throw.
  destruct v as [ | |b|z|str|elems|fields]; cbn [getProp truthy];
    try (eexists; split; [reflexivity|]; eauto; fail).
  destruct (truthy (match lookupField "prompt" fields with
                    | Some x => x
                    | None => JUndefined
                    end));
    destruct (truthy (match lookupField "usage" fields with
                      | Some x => x
                      | None => JUndefined
                      end));
    eexists; (split; [reflexivity|]); eauto.
Qed.

(** Property X23. [traceLLMCall] is transparent but for one case. As long
    as the trace server does not answer [ok] with a body that does not
    parse, it ends as the wrapped call ends, with the same value or the
    same exception, except when the wrapped call returns [null] or
    [undefined]: reading [prompt] off such a result throws, and
    [traceLLMCall] ends with that [TypeError] although the call itself
    succeeded. *)
Theorem traceLLMCall_outcome :
  forall model messages llmCall parentContext o s n,
    ~ garbles o ->
    let started :=
      startChildSpan "llm_completion"
        (JObj [("messages", messages); ("model", JStr model)]) parentContext o s n in
    result (traceLLMCall model messages llmCall parentContext o s n) =
    match result (llmCall o (shim started) (asked started)) with
    | Returned JNull =>
        Threw (TypeError "Cannot read properties of null (reading 'prompt')")
    | Returned JUndefined =>
        Threw (TypeError "Cannot read properties of undefined (reading 'prompt')")
    | ended => ended
    end.
Proof.
  intros model messages llmCall parentContext o s n Hparses. cbv zeta.
  unfold traceLLMCall. rewrite result_andThen.
  pose proof (garbled_startChildSpan "llm_completion"
                (JObj [("messages", messages); ("model", JStr model)])
                parentContext o s n) as Hstart.
  set (started := startChildSpan "llm_completion"
                    (JObj [("messages", messages); ("model", JStr model)])
                    parentContext o s n) in *.
  destruct (result started) as [context|e] eqn:Hstarted.
  2:{ exfalso. apply Hparses. now apply (Hstart e). }
  assert (Hcatch : forall (error : Exn) s2 n2,
            result ((s0 <- getShim ;;
                     endedAt <- toISODateTime ;;
                     apiCall "/call/end"
                       (exceptionPayload (_projectId s0) (ctx_callId context)
                          endedAt error) ;;
                     throw error) o s2 n2 : Outcome jsval) = Threw error).
  { intros error s2 n2. unfold andThen, getShim, toISODateTime, throw. call_api.
    destruct res as [data|e']; cbn [result]; [reflexivity|].
    exfalso. apply Hparses. now apply (Hthrow e'). }
  rewrite result_catch.
  match goal with
  | |- context [result (andThen llmCall ?k o (shim started) (asked started))] =>
      set (body := andThen llmCall k o (shim started) (asked started))
  end.
  assert (Hbody : result body =
                  match result (llmCall o (shim started) (asked started)) with
                  | Returned JNull =>
                      Threw (TypeError "Cannot read properties of null (reading 'prompt')")
                  | Returned JUndefined =>
                      Threw (TypeError "Cannot read properties of undefined (reading 'prompt')")
                  | ended => ended
                  end).
  { subst body. rewrite result_andThen.
    destruct (result (llmCall o (shim started) (asked started))) as [v|e];
      [|reflexivity].
    rewrite result_andThen.
    destruct (llmReport_shape model v o
                (shim (llmCall o (shim started) (asked started)))
                (asked (llmCall o (shim started) (asked started))))
      as (res0 & Hshape & Hreport).
    rewrite Hshape. cbn [result shim asked].
    destruct v as [ | |b|z|str|elems|fields]; try (subst res0; reflexivity);
      destruct Hreport as (report & ->); rewrite result_andThen;
      match goal with
      | |- context [endChildSpan ?c ?out ?u ?o' ?s' ?n'] =>
          pose proof (garbled_endChildSpan c out u o' s' n') as Hend;
          destruct (result (endChildSpan c out u o' s' n')) as [[]|e]
      end;
      try reflexivity; exfalso; apply Hparses; now apply (Hend e). }
  rewrite Hbody.
  destruct (result (llmCall o (shim started) (asked started)))
    as [[ | |b|z|str|elems|fields]|e];
    cbv beta; rewrite ?Hcatch; reflexivity.
Qed.

Lemma traceLLMCall_outcome_witness :
  ~ garbles healthy /\
  result (traceLLMCall "gpt-4o-mini" (JArr []) (value JUndefined) None
            healthy enabled 0) =
  Threw (TypeError "Cannot read properties of undefined (reading 'prompt')").
Proof.
  split; [exact healthy_parses|].
  exact (traceLLMCall_outcome "gpt-4o-mini" (JArr []) (value JUndefined) None
           healthy enabled 0 healthy_parses).
Defined.

End TraceClientFacts.

(* ===================================================================== *)
(** ** The content script *)
(* ===================================================================== *)

From Stdlib Require Import Permutation.

Module ContentScriptFacts.
Import JS Async LlmHandler ContentScript.

#[local] Arguments trim : simpl never.

(** *** The order of [sort] *)

Lemma leb_trans : forall a b c,
  String.leb a b = true -> String.leb b c = true -> String.leb a c = true.
Proof.
  unfold String.leb.
  induction a as [|x a IH]; intros [|y b] [|z c]; cbn [String.compare];
    try (intros; reflexivity || discriminate).
  unfold Ascii.compare.
  destruct (N.compare_spec (N_of_ascii x) (N_of_ascii y)) as [Hxy|Hxy|Hxy];
    destruct (N.compare_spec (N_of_ascii y) (N_of_ascii z)) as [Hyz|Hyz|Hyz];
    destruct (N.compare_spec (N_of_ascii x) (N_of_ascii z)) as [Hxz|Hxz|Hxz];
    try (intros; reflexivity || discriminate); try lia.
  apply IH.
Qed.

Lemma leb_false : forall a b, String.leb a b = false -> String.leb b a = true.
Proof.
  intros a b H. destruct (String.leb_total a b) as [H'|H']; [congruence|exact H'].
Qed.

Lemma insertSorted_comm : forall sorted x y,
  insertSorted x (insertSorted y sorted) = insertSorted y (insertSorted x sorted).
Proof.
  induction sorted as [|z rest IH]; intros x y; cbn [insertSorted].
  - destruct (String.leb x y) eqn:Hxy, (String.leb y x) eqn:Hyx; try reflexivity.
    + now rewrite (String.leb_antisym _ _ Hxy Hyx).
    + apply leb_false in Hxy. congruence.
  - destruct (String.leb y z) eqn:Hyz, (String.leb x z) eqn:Hxz; cbn [insertSorted].
    + rewrite Hyz, Hxz.
      destruct (String.leb x y) eqn:Hxy, (String.leb y x) eqn:Hyx; try reflexivity.
      * now rewrite (String.leb_antisym _ _ Hxy Hyx).
      * apply leb_false in Hxy. congruence.
    + rewrite Hyz, Hxz.
      destruct (String.leb x y) eqn:Hxy; [|reflexivity].
      pose proof (leb_trans _ _ _ Hxy Hyz). congruence.
    + rewrite Hyz, Hxz.
      destruct (String.leb y x) eqn:Hyx; [|reflexivity].
      pose proof (leb_trans _ _ _ Hyx Hxz). congruence.
    + rewrite Hyz, Hxz. f_equal. apply IH.
Qed.

Lemma insertSorted_perm : forall sorted x, Permutation (insertSorted x sorted) (x :: sorted).
Proof.
  induction sorted as [|y rest IH]; intros x; cbn [insertSorted]; [reflexivity|].
  destruct (String.leb x y); [reflexivity|].
  rewrite IH. apply perm_swap.
Qed.

Lemma sort_perm : forall array, Permutation (sort array) array.
Proof.
  induction array as [|x rest IH]; cbn [sort]; [reflexivity|].
  rewrite insertSorted_perm. now constructor.
Qed.

Lemma sort_of_perm : forall a b, Permutation a b -> sort a = sort b.
Proof.
  induction 1 as [|x a b _ IH|x y a|a b c _ IH1 _ IH2]; cbn [sort].
  - reflexivity.
  - now rewrite IH.
  - apply insertSorted_comm.
  - congruence.
Qed.

(** *** [JSON.stringify] loses nothing *)

Lemma unquote_quoteChar : forall c s,
  unquote (quoteChar c ++ s) =
  match unquote s with
  | Some (read, after) => Some (String c read, after)
  | None => None
  end.
Proof.
  intros [[] [] [] [] [] [] [] []] s; cbn; destruct (unquote s) as [[read after]|];
    reflexivity.
Qed.

Lemma append_assoc' : forall a b c : string, (a ++ b) ++ c = a ++ b ++ c.
Proof. induction a as [|x a IH]; intros b c; cbn; [reflexivity|]. now rewrite IH. Qed.

Lemma unquote_quoteChars : forall s rest,
  unquote (quoteChars s ++ String (ascii_of_nat 34) rest) = Some (s, rest).
Proof.
  induction s as [|c s IH]; intros rest; [reflexivity|].
  cbn [quoteChars]. rewrite append_assoc', unquote_quoteChar, IH. reflexivity.
Qed.

(** What follows the first element of a stringified array. *)
Lemma stringify_cons : forall x rest,
  join "," (map quoteJSONString (x :: rest)) ++ "]" =
  dq ++ quoteChars x ++ dq ++
  match rest with
  | [] => "]"
  | _ :: _ => "," ++ join "," (map quoteJSONString rest) ++ "]"
  end.
Proof.
  intros x [|y rest]; cbn [map join]; unfold quoteJSONString at 1;
    rewrite !append_assoc'; reflexivity.
Qed.

Lemma joined_inj : forall a b,
  join "," (map quoteJSONString a) ++ "]" = join "," (map quoteJSONString b) ++ "]" ->
  a = b.
Proof.
  induction a as [|x ra IH]; intros [|y rb] H.
  - reflexivity.
  - rewrite stringify_cons in H. discriminate.
  - rewrite stringify_cons in H. discriminate.
  - rewrite !stringify_cons in H. injection H as H.
    apply (f_equal unquote) in H. rewrite !unquote_quoteChars in H.
    injection H as Hx Htail. subst y. f_equal.
    destruct ra as [|x' ra], rb as [|y' rb]; try reflexivity; try discriminate.
    injection Htail as Htail. now apply IH.
Qed.

Lemma stringify_inj : forall a b, stringify a = stringify b -> a = b.
Proof.
  intros a b H. unfold stringify in H. injection H as H. now apply joined_inj.
Qed.

(** *** The loop over the instances *)

Lemma existsb_eqb_In : forall name seen,
  existsb (String.eqb name) seen = true <-> In name seen.
Proof.
  intros name seen. rewrite existsb_exists. split.
  - intros (x & Hin & Heq). apply String.eqb_eq in Heq. now subst.
  - intros Hin. exists name. split; [exact Hin|apply String.eqb_refl].
Qed.

Lemma collect_spec : forall elements texts,
  NoDup (map text texts) ->
  let out := collect elements texts (map text texts) in
  NoDup (map text out) /\
  (forall name,
     In name (map text out) <->
     In name (map text texts) \/
     exists element,
       In element elements /\ el_dragging element = false /\
       trim (el_textContent element) = name) /\
  (forall entry,
     In entry out ->
     In entry texts \/
     exists element,
       In element elements /\ el_dragging element = false /\
       id entry = el_id element /\ text entry = trim (el_textContent element)).
Proof.
  induction elements as [|element rest IH]; intros texts Hnodup; cbn [collect].
  - split; [exact Hnodup|]. split.
    + intros name. split; [auto|]. intros [H|(e & [] & _)]. exact H.
    + auto.
  - destruct (el_dragging element) eqn:Hdrag.
    { destruct (IH texts Hnodup) as (H1 & H2 & H3). cbv zeta in H1, H2, H3.
      split; [exact H1|]. split.
      - intros name. rewrite H2. split.
        + intros [H|(e & Hin & Hd & Ht)]; [auto|]. right. exists e. cbn. auto.
        + intros [H|(e & [<-|Hin] & Hd & Ht)]; [auto|congruence|].
          right. exists e. auto.
      - intros entry Hentry. destruct (H3 entry Hentry) as [H|(e & Hin & Hd & Hi)];
          [auto|]. right. exists e. cbn. auto. }
    cbv zeta.
    destruct (existsb (String.eqb (trim (el_textContent element))) (map text texts))
      eqn:Hseen.
    { apply existsb_eqb_In in Hseen.
      destruct (IH texts Hnodup) as (H1 & H2 & H3). cbv zeta in H1, H2, H3.
      split; [exact H1|]. split.
      - intros name. rewrite H2. split.
        + intros [H|(e & Hin & Hd & Ht)]; [auto|]. right. exists e. cbn. auto.
        + intros [H|(e & [<-|Hin] & Hd & Ht)]; [auto| |].
          * left. now rewrite <- Ht.
          * right. exists e. auto.
      - intros entry Hentry. destruct (H3 entry Hentry) as [H|(e & Hin & Hd & Hi)];
          [auto|]. right. exists e. cbn. auto. }
    assert (Hnew : ~ In (trim (el_textContent element)) (map text texts)).
    { intros Hin. apply existsb_eqb_In in Hin. congruence. }
    set (entry0 := {| id := el_id element; text := trim (el_textContent element) |}).
    assert (Hmap : map text (texts ++ [entry0])%list =
                   (map text texts ++ [trim (el_textContent element)])%list).
    { now rewrite map_app. }
    assert (Hnodup' : NoDup (map text (texts ++ [entry0])%list)).
    { rewrite Hmap. apply NoDup_app; [exact Hnodup | repeat constructor; auto |].
      intros name Hin [<-|[]]. exact (Hnew Hin). }
    destruct (IH (texts ++ [entry0])%list Hnodup') as (H1 & H2 & H3).
    cbv zeta in H1, H2, H3. rewrite Hmap in H1, H2, H3.
    split; [exact H1|]. split.
    + intros name. rewrite H2, in_app_iff. split.
      * intros [[H|[<-|[]]]|(e & Hin & Hd & Ht)]; [auto| |].
        -- right. exists element. cbn. auto.
        -- right. exists e. cbn. auto.
      * intros [H|(e & [<-|Hin] & Hd & Ht)]; [auto| |].
        -- left. right. left. exact Ht.
        -- right. exists e. auto.
    + intros entry Hentry. destruct (H3 entry Hentry) as [H|(e & Hin & Hd & Hi)].
      * apply in_app_iff in H as [H|[<-|[]]]; [auto|].
        right. exists element. cbn. auto.
      * right. exists e. cbn. auto.
Qed.

Lemma collected : forall document node,
  let texts := collect (instancesOf document node) [] [] in
  NoDup (map text texts) /\
  (forall name, In name (map text texts) <-> shown document node name) /\
  (forall entry,
     In entry texts ->
     exists element,
       In element (instancesOf document node) /\ el_dragging element = false /\
       id entry = el_id element /\ text entry = trim (el_textContent element)).
Proof.
  intros document node.
  destruct (collect_spec (instancesOf document node) [] (NoDup_nil _)) as (H1 & H2 & H3).
  cbv zeta in *. cbn [map] in *. split; [exact H1|]. split.
  - intros name. rewrite H2. unfold shown. split; [intros [[]|H]; exact H | auto].
  - intros entry Hentry. destruct (H3 entry Hentry) as [[]|H]. exact H.
Qed.

Lemma messages_app : forall a b, messages (a ++ b) = (messages a ++ messages b)%list.
Proof.
  induction a as [|[] a IH]; intros b; cbn; rewrite ?IH; reflexivity.
Qed.

Lemma acquire_quiet : forall document vars node actions,
  acquire document vars = Some (node, actions) -> messages actions = [].
Proof.
  intros document vars node actions. unfold acquire.
  destruct (itemsContainer vars) as [held|];
    [destruct (isConnected document held)|];
    destruct (firstInstanceParent document);
    intros H; inversion H; reflexivity.
Qed.

(** *** What is sent, and when *)

(** Property X20. One call of [extractAndSendNewTexts] sends at most one
    message, and what a message lists is exactly what the page shows: every
    name shown by an instance that is not being dragged appears in it, once,
    trimmed, whatever the number of instances that show it; every entry
    carries the [id] and the trimmed text of such an instance; and the text
    remembered for the next comparison is the sorted list of these names. *)
Theorem page_report_is_exact : forall document vars,
  let r := extractAndSendNewTexts document vars in
  length (messages (snd r)) <= 1 /\
  forall texts,
    In texts (messages (snd r)) ->
    exists node,
      itemsContainer (fst r) = Some node /\
      NoDup (map text texts) /\
      (forall name, In name (map text texts) <-> shown document node name) /\
      (forall entry,
         In entry texts ->
         exists element,
           In element (instancesOf document node) /\ el_dragging element = false /\
           id entry = el_id element /\ text entry = trim (el_textContent element)) /\
      previousTextsJson (fst r) = stringify (sort (map text texts)).
Proof.
  intros document vars. cbv zeta. unfold extractAndSendNewTexts.
  destruct (acquire document vars) as [[node actions]|] eqn:Hacq.
  2:{ cbn. split; [lia|]. intros texts []. }
  pose proof (acquire_quiet _ _ _ _ Hacq) as Hquiet. cbv zeta.
  destruct (String.eqb _ (previousTextsJson vars)); cbn [fst snd].
  - rewrite Hquiet. cbn. split; [lia|]. intros texts [].
  - rewrite messages_app, Hquiet. cbn. split; [lia|].
    intros texts [<-|[]]. exists node.
    destruct (collected document node) as (H1 & H2 & H3). cbv zeta in H1, H2, H3.
    cbn [itemsContainer previousTextsJson]. auto 10.
Qed.

Lemma same_names : forall before after node,
  sort (map text (collect (instancesOf after node) [] [])) =
  sort (map text (collect (instancesOf before node) [] [])) <->
  (forall name, shown after node name <-> shown before node name).
Proof.
  intros before after node.
  destruct (collected before node) as (Hb1 & Hb2 & _).
  destruct (collected after node) as (Ha1 & Ha2 & _).
  cbv zeta in *. split.
  - intros Hsort name. rewrite <- Ha2, <- Hb2.
    assert (Hperm : Permutation (map text (collect (instancesOf after node) [] []))
                                (map text (collect (instancesOf before node) [] []))).
    { rewrite <- (sort_perm (map text (collect (instancesOf after node) [] []))).
      rewrite Hsort. apply sort_perm. }
    split; apply Permutation_in; [exact Hperm | symmetry; exact Hperm].
  - intros Hsame. apply sort_of_perm. apply NoDup_Permutation; [exact Ha1|exact Hb1|].
    intros name. rewrite Ha2, Hb2. apply Hsame.
Qed.

Lemma first_call : forall before vars node actions,
  acquire before vars = Some (node, actions) ->
  exists done,
    extractAndSendNewTexts before vars =
    ({| itemsContainer := Some node;
        previousTextsJson :=
          stringify (sort (map text (collect (instancesOf before node) [] []))) |},
     done).
Proof.
  intros before vars node actions Hacq. unfold extractAndSendNewTexts.
  rewrite Hacq. cbv zeta.
  destruct (String.eqb _ (previousTextsJson vars)) eqn:Heq.
  - apply String.eqb_eq in Heq. rewrite <- Heq. eauto.
  - eauto.
Qed.

(** Property X21. A message is sent exactly when the names on the page have
    changed. After a call that worked on a container, the next call on the
    same container, still connected, sends nothing and changes nothing
    exactly when the instances that are not being dragged show the same set
    of names as before: moving the items, putting them in another order or
    adding a copy of a name that is already shown does not count. When the
    set of names differs, the call sends one message with the items as they
    are now. *)
Theorem report_follows_the_names : forall before after vars node actions,
  acquire before vars = Some (node, actions) ->
  isConnected after node = true ->
  let first := extractAndSendNewTexts before vars in
  let second := extractAndSendNewTexts after (fst first) in
  (messages (snd second) = [] <->
   (forall name, shown after node name <-> shown before node name)) /\
  (messages (snd second) = [] -> second = (fst first, [])) /\
  (messages (snd second) <> [] ->
   snd second = [SendMessage (collect (instancesOf after node) [] [])]).
Proof.
  intros before after vars node actions Hacq Hconn. cbv zeta.
  destruct (first_call before vars node actions Hacq) as (done & ->). cbn [fst].
  set (names1 := map text (collect (instancesOf before node) [] [])).
  unfold extractAndSendNewTexts, acquire. cbn [itemsContainer previousTextsJson].
  rewrite Hconn. cbv zeta. fold names1.
  set (names2 := map text (collect (instancesOf after node) [] [])).
  destruct (String.eqb (stringify (sort names2)) (stringify (sort names1))) eqn:Heq;
    cbn [fst snd app messages].
  - apply String.eqb_eq, stringify_inj in Heq.
    split; [|split].
    + split; [intros _; now apply (same_names before after node)|reflexivity].
    + reflexivity.
    + intros H. now contradiction H.
  - apply String.eqb_neq in Heq.
    split; [|split].
    + split; [discriminate|].
      intros Hsame. contradiction Heq. f_equal.
      now apply (same_names before after node).
    + discriminate.
    + reflexivity.
Qed.

Lemma report_follows_the_names_witness :
  acquire (board [item "a" "Water"; item "b" "Fire"]) scriptLoaded =
    Some (0, [ObserverDisconnect; ObserverObserve 0]) /\
  isConnected (board [item "b" "Fire"; item "c" " Water"; item "a" "Water"]) 0 = true /\
  extractAndSendNewTexts
    (board [item "b" "Fire"; item "c" " Water"; item "a" "Water"])
    (fst (extractAndSendNewTexts (board [item "a" "Water"; item "b" "Fire"])
            scriptLoaded)) =
  (fst (extractAndSendNewTexts (board [item "a" "Water"; item "b" "Fire"])
          scriptLoaded), []).
Proof.
  split; [reflexivity|]. split; [reflexivity|].
  refine (proj1 (proj2 (report_follows_the_names
                          (board [item "a" "Water"; item "b" "Fire"])
                          (board [item "b" "Fire"; item "c" " Water"; item "a" "Water"])
                          scriptLoaded 0 _ eq_refl eq_refl)) _).
  vm_compute. reflexivity.
Defined.

End ContentScriptFacts.

(* ===================================================================== *)
(** ** The initialization of the trace client *)
(* ===================================================================== *)

Module InitMore.
Import JS Async LlmHandler ApiHandler Background Traces Shapes.
Import RunFacts ClientFacts OrchestratorFacts.
Local Open Scope prog_scope.

#[local] Arguments truthyTab : simpl never.
#[local] Arguments nonEmpty : simpl never.
#[local] Arguments startsWith : simpl never.
#[local] Arguments join : simpl never.

Lemma inits_app : forall a b, inits (a ++ b) = (inits a ++ inits b)%list.
Proof.
  induction a as [|[] a IH]; intros b; cbn; rewrite ?IH; reflexivity.
Qed.

(** A program whose events are all free of the initialization leaves it as
    it is. *)
Lemma exec_initFree : forall A (p : Prog A) w n s,
  everyEvent initFree p ->
  inits (events (exec p w n s)) = [] /\
  weaveInitialized (final (exec p w n s)) = weaveInitialized s.
Proof.
  intros A p w.
  induction p as [a|e|q k IH|c k IH|e k IH|k IH|a k IH]; intros n s H;
    cbn [exec everyEvent events final logged inits] in *.
  - auto.
  - auto.
  - apply IH, H.
  - destruct H as [_ H]. apply IH, H.
  - destruct H as [He H]. destruct (IH n s H) as [H1 H2].
    destruct e; try contradiction; auto.
  - apply IH, H.
  - destruct H as [Ha H].
    destruct (IH n (assign a s) H) as [H1 H2]. split; [exact H1|].
    rewrite H2. destruct a; try contradiction; reflexivity.
Qed.

Lemma llmEvent_initFree : forall e, llmEvent e -> initFree e.
Proof. intros [ | | | | | | | | | |[]|[]]; simpl; auto. Qed.

Lemma stage2Event_initFree : forall e, stage2Event e -> initFree e.
Proof.
  intros e [H|[H|H]]; [| |subst; exact I];
    destruct e as [ | | | | | | | | | |[| | | | |[]| |]|[]]; simpl in *; auto.
Qed.

Lemma imageStage_initFree : forall st prompt, everyEvent initFree (imageStage st prompt).
Proof.
  intros. eapply everyEvent_weaken; [exact stage2Event_initFree|apply imageStage_events].
Qed.

Lemma updatePipeline_initFree : forall texts tabId st traceContext t0,
  everyEvent initFree (updatePipeline texts tabId st traceContext t0).
Proof.
  intros texts tabId st traceContext t0.
  unfold updatePipeline, ask, load, store, emit. cbn -[imageStage generatePromptFromTexts].
  intros startLLM s.
  apply everyEvent_bind.
  { apply everyEvent_awaitAsync; [exact I|].
    eapply everyEvent_weaken; [exact llmEvent_initFree|].
    apply generatePromptFromTexts_events. }
  intros llmResult. cbn -[imageStage]. intros endLLM.
  split; [exact I|]. split; [exact I|].
  intros startImageGen. apply everyEvent_bind; [apply imageStage_initFree|].
  intros imageResult. cbn. intros endImageGen endTotal.
  destruct (truthyTab (Some tabId)); cbn; repeat split.
Qed.

Lemma regeneratePipeline_initFree : forall tabId st traceContext t0,
  everyEvent initFree (regeneratePipeline tabId st traceContext t0).
Proof.
  intros tabId st traceContext t0.
  unfold regeneratePipeline, ask, load, store, emit. cbn -[imageStage].
  intros startImageGen s. apply everyEvent_bind; [apply imageStage_initFree|].
  intros imageResult. cbn. intros endImageGen endTotal.
  destruct (truthyTab tabId); cbn; repeat split; try intros ?; repeat split.
Qed.

Lemma updateGuarded_initFree : forall texts tabId now,
  everyEvent initFree (updateGuarded texts tabId now).
Proof.
  intros texts tabId now. unfold updateGuarded, load. cbn [bind everyEvent].
  intros s.
  destruct (now - lastUpdateTime s <? 2000)%Z; [simpl; auto|].
  destruct (isGenerating s); [simpl; auto|].
  apply everyEvent_tryFinally; [|simpl; auto].
  apply everyEvent_tryCatch; [|intros e; simpl; auto].
  unfold updateAccepted, ask, store, emit, awaitStorageSyncGet, awaitStartTrace,
    await, load.
  cbn [bind everyEvent]. intros startTotal.
  split; [exact I|]. split; [exact I|]. split; [exact I|]. split; [exact I|].
  split; [exact I|].
  intros [st|e]; cbn [settle bind everyEvent]; [|exact I].
  assert (Hkey : forall warning, everyEvent initFree (reportMissingKey warning)).
  { intros warning. unfold reportMissingKey, emit, store. simpl. auto. }
  destruct (negb (nonEmpty (openaiApiKey st))); [apply Hkey|].
  destruct (startsWith (imageModel st) "fal" && negb (nonEmpty (falApiKey st)));
    [apply Hkey|].
  destruct (startsWith (imageModel st) "replicate" && negb (nonEmpty (replicateApiKey st)));
    [apply Hkey|].
  cbv zeta. cbn [bind everyEvent]. intros s0. split; [exact I|].
  intros [traceContext|e]; cbn [settle bind everyEvent]; [|exact I].
  apply everyEvent_tryCatch; [apply updatePipeline_initFree | intros e; simpl; auto].
Qed.

Lemma regenerateGuarded_initFree : everyEvent initFree regenerateGuarded.
Proof.
  unfold regenerateGuarded, load. cbn [bind everyEvent]. intros s'.
  destruct (negb (nonEmpty (lastGeneratedPrompt s'))); [simpl; auto|].
  destruct (isGenerating s'); [simpl; auto|].
  apply everyEvent_tryFinally; [|simpl; auto].
  apply everyEvent_tryCatch; [|intros e; simpl; auto].
  unfold regenerateAccepted, store, ask, emit, awaitTabsQuery, awaitStorageSyncGet,
    awaitStartTrace, await, load.
  cbn [bind everyEvent]. split; [exact I|]. intros startTotal.
  split; [exact I|]. split; [exact I|]. split; [exact I|].
  intros [tabs|e]; cbn [settle bind everyEvent]; [|exact I].
  assert (Hrest : forall tabId : option Z,
    everyEvent initFree
      (Await StorageSyncGet (fun r =>
         settings <- settle r ;;
         s <- Load Ret ;;
         traceContext <- Await (StartTrace "regenerate_image"
                                  (JObj [("prompt", JStr (lastGeneratedPrompt s))]))
                               settle ;;
         tryCatch (regeneratePipeline tabId settings traceContext startTotal)
                  (fun innerError =>
                     Emit (EndTraceDetached traceContext (exnToString innerError))
                          (Ret tt) ;;
                     Throw innerError))%prog)).
  { intros tabId. cbn [bind everyEvent]. split; [exact I|].
    intros [st|e]; cbn [settle bind everyEvent]; [|exact I].
    intros s0. split; [exact I|].
    intros [traceContext|e0]; cbn [settle bind everyEvent]; [|exact I].
    apply everyEvent_tryCatch; [apply regeneratePipeline_initFree|].
    intros e. simpl. auto. }
  destruct tabs as [|first rest]; cbn [bind everyEvent].
  - split; [exact I|]. apply (Hrest None).
  - apply (Hrest (Some first)).
Qed.

(** What [initWeave] leaves behind, by the state it starts from and the
    settings it reads. *)
Lemma initRun_inits : forall w s,
  let r := initRun w s in
  if weaveInitialized s
  then inits (events r) = [] /\ weaveInitialized (final r) = true
  else match reply w 0 StorageSyncGet with
       | Fulfilled st =>
           if nonEmpty (wandbApiKey st) && nonEmpty (wandbTeam st)
           then inits (events r) =
                  [((wandbTeam st ++ "/" ++ weaveProject st)%string, wandbApiKey st)] /\
                weaveInitialized (final r) = true
           else inits (events r) = [] /\ weaveInitialized (final r) = false
       | Rejected _ => inits (events r) = [] /\ weaveInitialized (final r) = false
       end.
Proof.
  intros w s. cbv zeta. unfold initRun. rewrite exec_awaitAsync. cbv zeta.
  cbn [events final]. rewrite inits_app. cbn [inits]. rewrite app_nil_r.
  unfold initWeave, load, awaitStorageSyncGet, emit, store. cbn [bind exec].
  destruct (weaveInitialized s) eqn:Hinit; [cbn; auto|].
  cbn [bind exec logged events final inits].
  destruct (reply w 0 StorageSyncGet) as [st|e]; cbn [settle bind exec events final];
    [|auto].
  destruct (nonEmpty (wandbApiKey st) && nonEmpty (wandbTeam st)); cbn; auto.
Qed.

(** A routine that starts with [await initWeave()] and is free of the
    initialization afterwards. *)
Lemma after_initWeave : forall (rest : Prog unit) w s,
  everyEvent initFree rest ->
  let r := run (awaitAsync initWeave ;; rest) w s in
  inits (events r) = inits (events (initRun w s)) /\
  weaveInitialized (final r) = weaveInitialized (final (initRun w s)).
Proof.
  intros rest w s Hrest. cbv zeta. unfold run. rewrite exec_bind.
  fold (initRun w s). unfold thenRun.
  destruct (completion (initRun w s)) as [[]|e]; [|cbn; auto].
  destruct (exec_initFree _ rest w (interactions (initRun w s)) (final (initRun w s)) Hrest)
    as [H1 H2].
  unfold prepend. cbn [events final]. rewrite inits_app, H1, app_nil_r. auto.
Qed.

(** Property X22. The trace client is initialized at most once, and only
    with both credentials. A run of either handler that starts with
    [weaveInitialized] set never calls [weave.init] and leaves the variable
    set. A run that starts with it clear calls [weave.init] once, with the
    project [team/project] and the key of the settings, and sets the
    variable, when the settings hold both a key and a team; otherwise (the
    key or the team is empty, or the settings cannot be read) it does not
    call [weave.init] and leaves the variable clear, so that the next run
    tries again. Nothing else in a handler touches the variable. *)
Theorem weave_is_initialized_once : forall w s,
  let once (r : Run unit) :=
    if weaveInitialized s
    then inits (events r) = [] /\ weaveInitialized (final r) = true
    else match reply w 0 StorageSyncGet with
         | Fulfilled st =>
             if nonEmpty (wandbApiKey st) && nonEmpty (wandbTeam st)
             then inits (events r) =
                    [((wandbTeam st ++ "/" ++ weaveProject st)%string, wandbApiKey st)] /\
                  weaveInitialized (final r) = true
             else inits (events r) = [] /\ weaveInitialized (final r) = false
         | Rejected _ => inits (events r) = [] /\ weaveInitialized (final r) = false
         end in
  (forall texts tabId, once (run (handleUpdateTexts texts tabId) w s)) /\
  once (run handleRegenerateImage w s).
Proof.
  intros w s once. subst once. cbv beta.
  pose proof (initRun_inits w s) as Hinit. cbv zeta in Hinit.
  split.
  - intros texts tabId. unfold handleUpdateTexts.
    destruct (after_initWeave
                (now <- ask DateNow ;; updateGuarded texts tabId now) w s) as [H1 H2].
    { unfold ask. cbn [bind everyEvent]. intros now. apply updateGuarded_initFree. }
    cbv zeta in H1, H2. rewrite H1, H2. exact Hinit.
  - unfold handleRegenerateImage.
    destruct (after_initWeave
                (s0 <- load ;;
                 (if negb (nonEmpty (lastGeneratedPrompt s0)) then
                    stored <- awaitStorageLocalGet ;;
                    match stored with
                    | Some (String c rest) =>
                        store (SetLastGeneratedPrompt (String c rest))
                    | _ => Ret tt
                    end
                  else Ret tt) ;;
                 regenerateGuarded) w s) as [H1 H2].
    { unfold load. cbn [bind everyEvent]. intros s0.
      apply everyEvent_bind; [|intros _; apply regenerateGuarded_initFree].
      destruct (negb (nonEmpty (lastGeneratedPrompt s0))); [|exact I].
      unfold awaitStorageLocalGet. cbn [bind everyEvent]. split; [exact I|].
      intros [[[|c rest]|]|e]; simpl; auto. }
    cbv zeta in H1, H2. rewrite H1, H2. exact Hinit.
Qed.

End InitMore.

(* ===================================================================== *)
(** ** The older weaveShim.js: what wrapping a function changes *)
(* ===================================================================== *)

Module LegacyOpFacts.
Import JS WeaveShim Async WeaveClient LegacyClient TraceShapes.
Local Open Scope task_scope.

Lemma calls_app : forall effs effs',
  calls (effs ++ effs') = (calls effs ++ calls effs')%list.
Proof.
  induction effs as [|e effs IH]; intros effs'; [reflexivity|].
  destruct e; cbn [app calls]; rewrite ?IH; reflexivity.
Qed.

Lemma posts_calls : forall effs endpoint payload,
  posts (effs ++ [Calls endpoint payload]) = posts effs.
Proof.
  induction effs as [|e effs IH]; intros endpoint payload; [reflexivity|].
  destruct e; cbn [app posts]; rewrite ?IH; reflexivity.
Qed.

(** Property X24.  The function that the older [op(name, func)] returns
    changes nothing of what [func] does but one field: it returns the
    result of [func] with a truthy [_weaveUsage] deleted, throws what
    [func] throws, leaves the variables of the module as [func] leaves
    them, and awaits no request of its own.  Around the calls that [func]
    starts it starts exactly two, a [/call/start] that carries the
    arguments under [arg0], [arg1], ..., each through the inline sanitizer,
    and a [/call/end] with the identifier of the start. *)
Theorem legacy_op_outcome :
  forall name func args o s n,
    let inner := func args o s (3 + n) in
    let run := LegacyClient.tracedOp name func args o s n in
    result run = match result inner with
                 | Returned v => Returned (withoutUsage v)
                 | Threw e => Threw e
                 end
    /\ shim run = shim inner
    /\ posts (effects run) = posts (effects inner)
    /\ exists startPayload endPayload,
         calls (effects run) =
         (("/call/start", startPayload) :: calls (effects inner)
            ++ [("/call/end", endPayload)])%list
         /\ getProp (getProp startPayload "start") "inputs" = JObj (inputsFrom 0 args)
         /\ getProp (getProp endPayload "end") "id"
            = getProp (getProp startPayload "start") "id".
Proof.
  intros name func args o s n. cbv zeta.
  unfold LegacyClient.tracedOp, andThen, catch, generateId, toISODateTime, getShim,
    effect, value, throw.
  cbn [Nat.add].
  destruct (func args o s (S (S (S n)))) as [[v|e] s1 n1 effs1];
    cbn [result shim asked effects app].
  - split; [reflexivity|]. split; [reflexivity|]. split.
    + cbn [posts]. apply posts_calls.
    + eexists. eexists. split; [|split].
      * cbn [calls]. rewrite calls_app. reflexivity.
      * reflexivity.
      * reflexivity.
  - split; [reflexivity|]. split; [reflexivity|]. split.
    + cbn [posts]. apply posts_calls.
    + eexists. eexists. split; [|split].
      * cbn [calls]. rewrite calls_app. reflexivity.
      * reflexivity.
      * reflexivity.
Qed.

End LegacyOpFacts.
